(** * aom-rag-agent: a shallow embedding of the retrieval pipeline

    The development follows the repository's library files:
    - [lib/text-processing.ts]  (Module [TextProcessing])
    - [lib/pinecone.ts]         (Module [Pinecone])
    - [lib/embeddings.ts]       (Module [Embeddings])
    - [lib/summarizer.ts]       (Module [Summarizer])
    - [lib/rag.ts]              (Module [Rag])
    - [app/api/ingest/route.ts] (Module [Ingest])
    - [app/api/chat/route.ts]   (Module [Chat], the rate limiter)

    JavaScript strings are sequences of UTF-16 code units; the regular
    expressions of the source are transcribed into a small backtracking
    matcher that follows the ECMAScript matching rules. *)

From Stdlib Require Import String Ascii.
From Stdlib Require Import List Bool Arith NArith ZArith Lia DecimalN Sorted.
Import ListNotations.

(** ** JavaScript strings *)

Module JS.

Definition char16 := N.
Definition jsstring := list char16.

(** An ASCII literal of the source as code units. *)
Definition lit (s : string) : jsstring :=
  map N_of_ascii (list_ascii_of_string s).

Definition ch (a : ascii) : char16 := N_of_ascii a.

Fixpoint str_eqb (a b : jsstring) : bool :=
  match a, b with
  | [], [] => true
  | x :: a', y :: b' => (x =? y)%N && str_eqb a' b'
  | _, _ => false
  end.

(** ECMAScript [LineTerminator]: LF, CR, LS, PS. *)
Definition isLineTerminator (c : char16) : bool :=
  ((c =? 10) || (c =? 13) || (c =? 8232) || (c =? 8233))%N.

(** ECMAScript [WhiteSpace] and [LineTerminator], the set of the regular
    expression class [\s] and of [String.prototype.trim]. *)
Definition isWhiteSpace (c : char16) : bool :=
  ((c =? 9) || (c =? 10) || (c =? 11) || (c =? 12) || (c =? 13) || (c =? 32)
   || (c =? 160) || (c =? 5760) || ((8192 <=? c) && (c <=? 8202))
   || (c =? 8232) || (c =? 8233) || (c =? 8239) || (c =? 8287)
   || (c =? 12288) || (c =? 65279))%N.

Definition isDigit (c : char16) : bool := ((48 <=? c) && (c <=? 57))%N.
Definition isUpper (c : char16) : bool := ((65 <=? c) && (c <=? 90))%N.
Definition isLower (c : char16) : bool := ((97 <=? c) && (c <=? 122))%N.

(** The class [\w] (no unicode flag). *)
Definition isWordChar (c : char16) : bool :=
  isUpper c || isLower c || isDigit c || (c =? 95)%N.

Fixpoint trimStart (s : jsstring) : jsstring :=
  match s with
  | c :: tl => if isWhiteSpace c then trimStart tl else s
  | [] => []
  end.

Definition trimEnd (s : jsstring) : jsstring := rev (trimStart (rev s)).

Definition trim (s : jsstring) : jsstring := trimEnd (trimStart s).

(** [Array.prototype.join]. *)
Fixpoint join (sep : jsstring) (l : list jsstring) : jsstring :=
  match l with
  | [] => []
  | [x] => x
  | x :: tl => x ++ sep ++ join sep tl
  end.

(** Relative index of [slice] and [substring]-like operations:
    a negative index counts from the end, and the result is clamped. *)
Definition relIndex (len i : Z) : Z :=
  if (i <? 0)%Z then Z.max (len + i) 0 else Z.min i len.

(** [Array.prototype.slice(start, end)] and [String.prototype.slice]. *)
Definition slice {A} (l : list A) (start stop : Z) : list A :=
  let len := Z.of_nat (length l) in
  let k := relIndex len start in
  let final := relIndex len stop in
  firstn (Z.to_nat (final - k)) (skipn (Z.to_nat k) l).

(** [String.prototype.lastIndexOf] for a one-character needle;
    [None] stands for -1. *)
Fixpoint lastIndexOf_from (c : char16) (s : jsstring) (i : Z) (found : option Z)
  : option Z :=
  match s with
  | [] => found
  | x :: tl => lastIndexOf_from c tl (i + 1)
                 (if (x =? c)%N then Some i else found)
  end.

Definition lastIndexOf (s : jsstring) (c : char16) : option Z :=
  lastIndexOf_from c s 0 None.

(** Numbers that hold lengths, indices and token counts are modelled by
    integers; this is exact on the safe integers (up to 2^53 - 1), where
    the arithmetic of the source is exact as well. *)
Definition MAX_SAFE_INTEGER : N := 9007199254740991.

Definition digitChar (d : N) : char16 := (48 + d)%N.

Fixpoint uintChars (d : Decimal.uint) : jsstring :=
  match d with
  | Decimal.Nil => []
  | Decimal.D0 r => digitChar 0 :: uintChars r
  | Decimal.D1 r => digitChar 1 :: uintChars r
  | Decimal.D2 r => digitChar 2 :: uintChars r
  | Decimal.D3 r => digitChar 3 :: uintChars r
  | Decimal.D4 r => digitChar 4 :: uintChars r
  | Decimal.D5 r => digitChar 5 :: uintChars r
  | Decimal.D6 r => digitChar 6 :: uintChars r
  | Decimal.D7 r => digitChar 7 :: uintChars r
  | Decimal.D8 r => digitChar 8 :: uintChars r
  | Decimal.D9 r => digitChar 9 :: uintChars r
  end.

(** [Number.prototype.toString] (and the conversion of a template
    literal) on a non-negative safe integer: its decimal numeral. *)
Definition numberToString (n : N) : jsstring := uintChars (N.to_uint n).

Fixpoint charsUint (s : jsstring) : Decimal.uint :=
  match s with
  | [] => Decimal.Nil
  | c :: tl =>
      let r := charsUint tl in
      match (c - 48)%N with
      | 0 => Decimal.D0 r | 1 => Decimal.D1 r | 2 => Decimal.D2 r
      | 3 => Decimal.D3 r | 4 => Decimal.D4 r | 5 => Decimal.D5 r
      | 6 => Decimal.D6 r | 7 => Decimal.D7 r | 8 => Decimal.D8 r
      | _ => Decimal.D9 r
      end%N
  end.

(** [parseInt(s, 10)] on a string of decimal digits (a match of [\d+]). *)
Definition parseDigits (s : jsstring) : N := N.of_uint (charsUint s).

End JS.

(** ** Regular expressions

    A backtracking matcher in continuation-passing style, after the
    ECMAScript pattern semantics: alternatives and quantifiers are tried
    in the order of the specification, and the first complete match wins. *)

Module Regex.
Import JS.

Inductive regex : Type :=
| Eps
| Chr (p : char16 -> bool)              (* a character or a class *)
| Seq (r1 r2 : regex)
| Alt (r1 r2 : regex)
| Star (greedy : bool) (r : regex)      (* star, greedy or lazy *)
| Group (i : nat) (r : regex)           (* capturing parentheses *)
| Ahead (positive : bool) (r : regex)   (* lookahead, positive or negative *)
| Behind (p : char16 -> bool)           (* lookbehind on one class *)
| Bol                                   (* start of input *)
| Eol                                   (* end of input *)
| WordB.                                (* word boundary *)

Definition Plus (greedy : bool) (r : regex) : regex := Seq r (Star greedy r).

Fixpoint Lit (s : jsstring) : regex :=
  match s with
  | [] => Eps
  | c :: tl => Seq (Chr (N.eqb c)) (Lit tl)
  end.

(** Canonicalisation under the [i] flag, for the ASCII letters of the
    patterns of the source: a code unit above 127 never folds to ASCII. *)
Definition foldCase (c : char16) : char16 :=
  if isLower c then (c - 32)%N else c.

Fixpoint LitI (s : jsstring) : regex :=
  match s with
  | [] => Eps
  | c :: tl => Seq (Chr (fun x => (foldCase x =? foldCase c)%N)) (LitI tl)
  end.

Record mstate : Type := MState {
  prev : option char16;            (* the code unit before the position *)
  rest : jsstring;                 (* the input from the position on *)
  caps : list (nat * jsstring)     (* captures, latest first *)
}.

Definition consumed (s s' : mstate) : jsstring :=
  firstn (length (rest s) - length (rest s')) (rest s).

Definition isWordOpt (c : option char16) : bool :=
  match c with Some x => isWordChar x | None => false end.

(** The repetition of a matcher [body]: an iteration that consumes
    nothing is rejected, so at most [n] iterations fit in an input of
    [n] code units.  The greedy star tries one more iteration before the
    continuation, the lazy star the continuation first. *)
Fixpoint starLoop (body : mstate -> (mstate -> option mstate) -> option mstate)
  (greedy : bool) (k : mstate -> option mstate) (n : nat) (st : mstate)
  {struct n} : option mstate :=
  match n with
  | O => k st
  | S n' =>
      let once (_ : unit) :=
        body st (fun st' =>
          if length (rest st') <? length (rest st)
          then starLoop body greedy k n' st' else None) in
      if greedy then
        match once tt with
        | Some res => Some res
        | None => k st
        end
      else
        match k st with
        | Some res => Some res
        | None => once tt
        end
  end.

Fixpoint rmatch (r : regex) (st : mstate) (k : mstate -> option mstate)
  {struct r} : option mstate :=
  match r with
  | Eps => k st
  | Chr p =>
      match rest st with
      | c :: tl => if p c then k (MState (Some c) tl (caps st)) else None
      | [] => None
      end
  | Seq r1 r2 => rmatch r1 st (fun st' => rmatch r2 st' k)
  | Alt r1 r2 =>
      match rmatch r1 st k with
      | Some res => Some res
      | None => rmatch r2 st k
      end
  | Star greedy r1 => starLoop (rmatch r1) greedy k (length (rest st)) st
  | Group i r1 =>
      rmatch r1 st (fun st' =>
        k (MState (prev st') (rest st') ((i, consumed st st') :: caps st')))
  | Ahead positive r1 =>
      match rmatch r1 st Some with
      | Some st' =>
          if positive then k (MState (prev st) (rest st) (caps st')) else None
      | None => if positive then None else k st
      end
  | Behind p =>
      match prev st with
      | Some c => if p c then k st else None
      | None => None
      end
  | Bol => match prev st with None => k st | Some _ => None end
  | Eol => match rest st with [] => k st | _ :: _ => None end
  | WordB =>
      let a := isWordOpt (prev st) in
      let b := isWordOpt (hd_error (rest st)) in
      if xorb a b then k st else None
  end.

(** One match attempt at a position (the regular expression matcher
    called with a given index). *)
Definition execAt (r : regex) (p : option char16) (s : jsstring)
  : option mstate :=
  rmatch r (MState p s []) Some.

Definition capture (st : mstate) (i : nat) : option jsstring :=
  match find (fun e => Nat.eqb (fst e) i) (caps st) with
  | Some e => Some (snd e)
  | None => None
  end.

(** [String.prototype.match] with a pattern without the [g] flag: the
    first position at which the pattern matches. *)
Fixpoint search (r : regex) (p : option char16) (s : jsstring)
  : option mstate :=
  match execAt r p s with
  | Some st => Some st
  | None =>
      match s with
      | [] => None
      | c :: tl => search r (Some c) tl
      end
  end.

(** [String.prototype.replace] with a pattern with the [g] flag; [f]
    computes the replacement from the match (a replacement string
    without [$] is the constant function). *)
Fixpoint replaceLoop (fuel : nat) (r : regex) (f : mstate -> jsstring)
  (p : option char16) (s : jsstring) : jsstring :=
  match fuel with
  | O => s
  | S fuel' =>
      let skip (_ : unit) :=
        match s with
        | [] => []
        | c :: tl => c :: replaceLoop fuel' r f (Some c) tl
        end in
      match execAt r p s with
      | Some st =>
          if length (rest st) <? length s
          then f (MState p s (caps st)) ++ replaceLoop fuel' r f (prev st) (rest st)
          else f (MState p s (caps st)) ++ skip tt
      | None => skip tt
      end
  end.

Definition replaceAll (r : regex) (f : mstate -> jsstring) (s : jsstring)
  : jsstring :=
  replaceLoop (S (length s)) r f None s.

(** [String.prototype.split] with a pattern without capturing groups.
    [cur] holds, reversed, the piece from the last separator to the
    position; an empty match at the start of a piece is skipped. *)
Fixpoint splitLoop (fuel : nat) (r : regex) (p : option char16)
  (cur : jsstring) (s : jsstring) : list jsstring :=
  match fuel with
  | O => [rev cur ++ s]
  | S fuel' =>
      match s with
      | [] => [rev cur]
      | c :: tl =>
          let advance (_ : unit) := splitLoop fuel' r (Some c) (c :: cur) tl in
          match execAt r p s with
          | Some st =>
              if (length (rest st) =? length s) && (length cur =? 0)
              then advance tt
              else rev cur :: splitLoop fuel' r (prev st) [] (rest st)
          | None => advance tt
          end
      end
  end.

Definition split (r : regex) (s : jsstring) : list jsstring :=
  match s with
  | [] => match execAt r None [] with Some _ => [] | None => [[]] end
  | _ => splitLoop (2 * length s + 2) r None [] s
  end.

End Regex.

(** ** lib/text-processing.ts *)

Module TextProcessing.
Import JS Regex.

Definition anyChar (c : char16) : bool := true.
Definition notChar (x : char16) (c : char16) : bool := negb (c =? x)%N.
Definition LT : char16 := ch "<".
Definition GT : char16 := ch ">".
Definition NL : char16 := 10%N.
Definition SPACE : jsstring := lit " ".

(** The block pattern of [cleanHTML], with flags [g] and [i], for the tags
    script and style: the opening "<tag", a word boundary, a run of
    characters other than "<", then any number of groups made of a "<"
    that does not start the closing tag followed by a run of characters
    other than "<", and the closing tag. *)
Definition blockRegex (tag : string) : regex :=
  let closing := LitI (lit "</" ++ lit tag ++ lit ">") in
  Seq (LitI (lit "<" ++ lit tag))
   (Seq WordB
    (Seq (Star true (Chr (notChar LT)))
     (Seq (Star true
             (Seq (Ahead false closing)
                  (Seq (Chr (N.eqb LT)) (Star true (Chr (notChar LT))))))
          closing))).

(** The pattern "/<!--[\s\S]*?-->/g". *)
Definition commentRegex : regex :=
  Seq (Lit (lit "<!--")) (Seq (Star false (Chr anyChar)) (Lit (lit "-->"))).

(** The pattern "/<[^>]+>/g". *)
Definition tagRegex : regex :=
  Seq (Chr (N.eqb LT)) (Seq (Plus true (Chr (notChar GT))) (Chr (N.eqb GT))).

(** The patterns "/\s+/g" and "/\s+/". *)
Definition spacesRegex : regex := Plus true (Chr isWhiteSpace).

(** The pattern "/\n{3,}/g". *)
Definition newlinesRegex : regex :=
  Seq (Chr (N.eqb NL)) (Seq (Chr (N.eqb NL)) (Plus true (Chr (N.eqb NL)))).

(** The pattern "/&#(\d+);/g". *)
Definition numericEntityRegex : regex :=
  Seq (Lit (lit "&#")) (Seq (Group 1 (Plus true (Chr isDigit))) (Lit (lit ";"))).

(** The table [entities], in the insertion order that [Object.entries]
    follows. *)
Definition entities : list (jsstring * jsstring) :=
  [ (lit "&amp;", lit "&");
    (lit "&lt;", lit "<");
    (lit "&gt;", lit ">");
    (lit "&quot;", [34%N]);
    (lit "&#39;", lit "'");
    (lit "&apos;", lit "'");
    (lit "&nbsp;", lit " ");
    (lit "&mdash;", [8212%N]);
    (lit "&ndash;", [8211%N]);
    (lit "&hellip;", lit "...");
    (lit "&rsquo;", lit "'");
    (lit "&lsquo;", lit "'");
    (lit "&rdquo;", [34%N]);
    (lit "&ldquo;", [34%N]) ].

(** [String.fromCharCode(parseInt(num, 10))]: the value modulo 2^16. *)
Definition fromCharCode (n : N) : jsstring := [(n mod 65536)%N].

Definition decodeHTMLEntities (text : jsstring) : jsstring :=
  let decoded :=
    fold_left
      (fun decoded e => replaceAll (Lit (fst e)) (fun _ => snd e) decoded)
      entities text in
  replaceAll numericEntityRegex
    (fun m =>
       match capture m 1 with
       | Some num => fromCharCode (parseDigits num)
       | None => []
       end)
    decoded.

Definition cleanHTML (html : jsstring) : jsstring :=
  match html with
  | [] => []
  | _ =>
      let text := replaceAll (blockRegex "script") (fun _ => []) html in
      let text := replaceAll (blockRegex "style") (fun _ => []) text in
      let text := replaceAll commentRegex (fun _ => []) text in
      let text := replaceAll tagRegex (fun _ => SPACE) text in
      let text := decodeHTMLEntities text in
      let text := trim (replaceAll spacesRegex (fun _ => SPACE) text) in
      let text := replaceAll newlinesRegex (fun _ => [NL; NL]) text in
      text
  end.

(** [Math.ceil(text.length / 3.5)] *)
Definition estimateTokens (text : jsstring) : Z :=
  (2 * Z.of_nat (length text) + 6) / 7.

Record ChunkConfig : Type := {
  maxTokens : option Z;
  overlap : option Z;
  preserveSentences : option bool
}.

Definition emptyConfig : ChunkConfig :=
  {| maxTokens := None; overlap := None; preserveSentences := None |}.

Definition orDefault {A} (o : option A) (d : A) : A :=
  match o with Some a => a | None => d end.

(** The pattern "/(?<=[.!?])\s+(?=[A-Z])/g". *)
Definition isSentenceEnd (c : char16) : bool :=
  ((c =? ch ".") || (c =? ch "!") || (c =? ch "?"))%N.

Definition sentenceRegex : regex :=
  Seq (Behind isSentenceEnd)
      (Seq (Plus true (Chr isWhiteSpace)) (Ahead true (Chr isUpper))).

Definition nonEmpty {A} (s : list A) : bool := 0 <? length s.

Definition splitIntoSentences (text : jsstring) : list jsstring :=
  filter nonEmpty (map trim (split sentenceRegex text)).

(** [Math.floor(tokens * 0.75)] *)
Definition wordsFor (tokens : Z) : Z := (3 * tokens) / 4.

(** The [for] loop of [chunkByWords]; [None] when the fuel is used up
    before the index reaches [words.length]. *)
Fixpoint chunkByWordsLoop (fuel : nat) (words : list jsstring)
  (maxWords step : Z) (i : Z) (chunks : list jsstring)
  : option (list jsstring) :=
  if (i <? Z.of_nat (length words))%Z then
    match fuel with
    | O => None
    | S fuel' =>
        let chunk := join SPACE (slice words i (i + maxWords)) in
        chunkByWordsLoop fuel' words maxWords step (i + step)
          (if nonEmpty (trim chunk) then chunks ++ [chunk] else chunks)
    end
  else Some chunks.

Definition chunkByWords (fuel : nat) (text : jsstring)
  (maxTokens overlap : Z) : option (list jsstring) :=
  let words := split spacesRegex text in
  let maxWords := wordsFor maxTokens in
  let overlapWords := wordsFor overlap in
  chunkByWordsLoop fuel words maxWords (maxWords - overlapWords) 0 [].

Fixpoint overlapLoop (revSentences : list jsstring) (overlapTokens : Z)
  (overlap : list jsstring) (tokens : Z) : list jsstring :=
  match revSentences with
  | [] => overlap
  | s :: before =>
      let sentenceTokens := estimateTokens s in
      if (tokens + sentenceTokens >? overlapTokens)%Z then overlap
      else overlapLoop before overlapTokens (s :: overlap)
             (tokens + sentenceTokens)
  end.

Definition getOverlapSentences (sentences : list jsstring)
  (overlapTokens : Z) : list jsstring :=
  overlapLoop (rev sentences) overlapTokens [] 0.

(** The state of the sentence loop of [chunkText]. *)
Record loopState : Type := LoopState {
  chunks : list jsstring;
  currentChunk : list jsstring;
  currentTokens : Z
}.

Fixpoint sentenceLoop (fuel : nat) (sentences : list jsstring)
  (maxTokens overlap : Z) (st : loopState) : option loopState :=
  match sentences with
  | [] => Some st
  | sentence :: more =>
      let sentenceTokens := estimateTokens sentence in
      if (sentenceTokens >? maxTokens)%Z then
        let flushed :=
          if nonEmpty (currentChunk st)
          then LoopState (chunks st ++ [join SPACE (currentChunk st)]) [] 0
          else st in
        match chunkByWords fuel sentence maxTokens overlap with
        | Some wordChunks =>
            sentenceLoop fuel more maxTokens overlap
              (LoopState (chunks flushed ++ wordChunks)
                 (currentChunk flushed) (currentTokens flushed))
        | None => None
        end
      else
        let st1 :=
          if (currentTokens st + sentenceTokens >? maxTokens)%Z
             && nonEmpty (currentChunk st)
          then
            let overlapSentences :=
              getOverlapSentences (currentChunk st) overlap in
            LoopState (chunks st ++ [join SPACE (currentChunk st)])
              overlapSentences (estimateTokens (join SPACE overlapSentences))
          else st in
        sentenceLoop fuel more maxTokens overlap
          (LoopState (chunks st1) (currentChunk st1 ++ [sentence])
             (currentTokens st1 + sentenceTokens))
  end.

Definition nonBlank (s : jsstring) : bool := nonEmpty (trim s).

Definition chunkText (fuel : nat) (text : jsstring) (config : ChunkConfig)
  : option (list jsstring) :=
  let maxTokens := orDefault (maxTokens config) 800%Z in
  let overlap := orDefault (overlap config) 200%Z in
  let preserveSentences := orDefault (preserveSentences config) true in
  if negb (nonBlank text) then Some []
  else if (estimateTokens text <=? maxTokens)%Z then Some [text]
  else
    let produced :=
      if preserveSentences then
        match sentenceLoop fuel (splitIntoSentences text) maxTokens overlap
                (LoopState [] [] 0) with
        | Some st =>
            Some (if nonEmpty (currentChunk st)
                  then chunks st ++ [join SPACE (currentChunk st)]
                  else chunks st)
        | None => None
        end
      else chunkByWords fuel text maxTokens overlap in
    match produced with
    | Some chunks => Some (filter nonBlank chunks)
    | None => None
    end.

Record PreparedArticle : Type := {
  pa_id : jsstring;
  pa_title : jsstring;
  pa_url : jsstring;
  pa_content : jsstring;
  pa_chunks : list jsstring;
  pa_totalTokens : Z
}.

Definition prepareArticle (fuel : nat) (id title url htmlContent : jsstring)
  (chunkConfig : ChunkConfig) : option PreparedArticle :=
  let cleanedContent := cleanHTML htmlContent in
  let fullText := title ++ [NL; NL] ++ cleanedContent in
  match chunkText fuel fullText chunkConfig with
  | Some chunks =>
      Some {| pa_id := id; pa_title := title; pa_url := url;
              pa_content := cleanedContent; pa_chunks := chunks;
              pa_totalTokens := estimateTokens fullText |}
  | None => None
  end.

End TextProcessing.

(** ** External services and effects

    The embedding provider, the vector index, the generative model and
    the timer are outside the program.  A [world] answers each request
    from the history of the requests made so far, so a service may fail
    on one call and succeed on the next; computations thread the history
    and may throw an [Error] with a message, or never return. *)

Module Effects.
Import JS.

Section WithNumbers.

(** Floating-point values (vector components, similarity scores, the
    sampling temperature) are carried, never computed on. *)
Context {number : Type}.

Definition vector : Type := list number.

Record ChunkMetadata : Type := {
  title : jsstring;
  url : jsstring;
  content : jsstring;
  chunkIndex : N;
  articleId : jsstring
}.

Record VectorRecord : Type := {
  id : jsstring;
  values : vector;
  metadata : ChunkMetadata
}.

(** A match of the index: [score] may be absent. *)
Record ScoredVector : Type := {
  sv_id : jsstring;
  sv_score : option number;
  sv_metadata : ChunkMetadata
}.

Inductive role : Type := System | User | Assistant.

Record ChatMessage : Type := { msg_role : role; msg_content : jsstring }.

Inductive embeddingInput : Type :=
| One (text : jsstring)
| Many (texts : list jsstring).

Inductive request : Type :=
| EmbeddingsCreate (input : embeddingInput) (model : jsstring) (dimensions : N)
| IndexQuery (v : vector) (topK : Z) (includeMetadata : bool)
| ChatCreate (model : jsstring) (messages : list ChatMessage)
    (temperature : number) (max_tokens : Z) (stream : bool)
| IndexUpsert (records : list VectorRecord)
| Sleep (ms : Z)
| Progress (completed total : Z).

Inductive response : Type :=
| Failed (message : jsstring)
| EmbeddingData (data : list vector)
| QueryMatches (matches : option (list ScoredVector))
| ChatCompletion (model : jsstring) (choices : list (option jsstring))
| ChatStream (deltas : list (option jsstring)) (failure : option jsstring)
| Settled.

Definition history : Type := list request.

(** [completion h n] is the order in which [n] promises awaited together
    after the history [h] settle: indices that are out of range or
    already settled are skipped, and the promises it leaves out settle
    afterwards in the order of their positions. *)
Record world : Type := {
  OPENAI_API_KEY : option jsstring;
  PINECONE_API_KEY : option jsstring;
  answer : history -> request -> response;
  completion : history -> nat -> list nat
}.

Inductive result (A : Type) : Type :=
| Ok (a : A)
| Throw (message : jsstring)
| Hang.

Definition M (A : Type) : Type := world -> history -> result A * history.

Definition ret {A} (a : A) : M A := fun _ h => (Ok A a, h).

Definition throw {A} (message : jsstring) : M A :=
  fun _ h => (Throw A message, h).

Definition hang {A} : M A := fun _ h => (Hang A, h).

Definition bind {A B} (m : M A) (f : A -> M B) : M B :=
  fun w h =>
    match m w h with
    | (Ok _ a, h') => f a w h'
    | (Throw _ e, h') => (Throw B e, h')
    | (Hang _, h') => (Hang B, h')
    end.

(** [try { m } catch (error) { handler(error.message) }] *)
Definition tryCatch {A} (m : M A) (handler : jsstring -> M A) : M A :=
  fun w h =>
    match m w h with
    | (Throw _ e, h') => handler e w h'
    | other => other
    end.

(** An awaited call to a service. *)
Definition call (r : request) : M response :=
  fun w h => (Ok response (answer w h r), h ++ [r]).

Definition env : M world := fun w h => (Ok world w, h).

Definition past : M history := fun _ h => (Ok history h, h).

Fixpoint setSlot {A} (j : nat) (a : A) (slots : list (option A))
  : list (option A) :=
  match j, slots with
  | _, [] => []
  | O, _ :: tl => Some a :: tl
  | S j', x :: tl => x :: setSlot j' a tl
  end.

Fixpoint runScheduled {A} (sched : list nat) (tasks : list (M A))
  (slots : list (option A)) : M (list (option A)) :=
  match sched with
  | [] => ret slots
  | j :: later =>
      match nth_error tasks j, nth_error slots j with
      | Some task, Some None =>
          bind task (fun r => runScheduled later tasks (setSlot j r slots))
      | _, _ => runScheduled later tasks slots
      end
  end.

Fixpoint allSettled {A} (slots : list (option A)) : option (list A) :=
  match slots with
  | [] => Some []
  | Some a :: tl =>
      match allSettled tl with Some l => Some (a :: l) | None => None end
  | None :: _ => None
  end.

(** [Promise.all]: the promises settle in the order the world chooses,
    each result is stored at the position of its promise, and the first
    rejection rejects the whole.  A promise is run as a unit when its
    turn comes: the requests of two promises are not interleaved. *)
Definition promiseAll {A} (tasks : list (M A)) : M (list A) :=
  bind env (fun w =>
  bind past (fun h =>
  let n := length tasks in
  bind (runScheduled (completion w h n ++ seq 0 n) tasks (repeat None n))
    (fun slots =>
       match allSettled slots with
       | Some results => ret results
       | None => hang
       end))).

Fixpoint mapM {A B} (f : A -> M B) (l : list A) : M (list B) :=
  match l with
  | [] => ret []
  | a :: tl => bind (f a) (fun b => bind (mapM f tl) (fun bs => ret (b :: bs)))
  end.

End WithNumbers.

Arguments vector : clear implicits.
Arguments VectorRecord : clear implicits.
Arguments ScoredVector : clear implicits.
Arguments request : clear implicits.
Arguments response : clear implicits.
Arguments history : clear implicits.
Arguments world : clear implicits.
Arguments M : clear implicits.
Arguments Ok {A} a.
Arguments Throw {A} message.
Arguments Hang {A}.

Declare Scope effect_scope.
Delimit Scope effect_scope with effect.
Notation "x <- m ;; f" := (bind m (fun x => f))
  (at level 61, m at next level, right associativity) : effect_scope.
Notation "m ;;; f" := (bind m (fun _ => f))
  (at level 61, right associativity) : effect_scope.

(** The loops [for (let i = 0; i < a.length; i += size)] that cut an
    array into slices; [None] when the fuel is used up. *)
Fixpoint slices {A} (fuel : nat) (a : list A) (size : Z) (i : Z)
  (acc : list (list A)) : option (list (list A)) :=
  if (i <? Z.of_nat (length a))%Z then
    match fuel with
    | O => None
    | S fuel' => slices fuel' a size (i + size) (acc ++ [slice a i (i + size)])
    end
  else Some acc.

(** The message of the [TypeError] of a property read on [undefined]. *)
Definition typeError : jsstring :=
  lit "Cannot read properties of undefined".

(** [String.prototype.includes] *)
Fixpoint startsWith (needle s : jsstring) : bool :=
  match needle, s with
  | [], _ => true
  | _ :: _, [] => false
  | a :: n', b :: s' => (a =? b)%N && startsWith n' s'
  end.

Fixpoint includes (s needle : jsstring) : bool :=
  startsWith needle s ||
  match s with
  | [] => false
  | _ :: tl => includes tl needle
  end.

End Effects.

(** ** lib/pinecone.ts *)

Module Pinecone.
Import JS Regex Effects.
Local Open Scope effect_scope.

Definition buildVectorId (articleId : jsstring) (chunkIndex : N) : jsstring :=
  lit "article-" ++ articleId ++ lit "-chunk-" ++ numberToString chunkIndex.

(** The pattern "/^article-(.+)-chunk-(\d+)$/"; the dot matches any code
    unit but a line terminator. *)
Definition dot (c : char16) : bool := negb (isLineTerminator c).

Definition vectorIdRegex : regex :=
  Seq Bol
   (Seq (Lit (lit "article-"))
    (Seq (Group 1 (Plus true (Chr dot)))
     (Seq (Lit (lit "-chunk-"))
      (Seq (Group 2 (Plus true (Chr isDigit))) Eol)))).

Definition parseVectorId (vectorId : jsstring) : option (jsstring * N) :=
  match search vectorIdRegex None vectorId with
  | None => None
  | Some m =>
      match capture m 1, capture m 2 with
      | Some a, Some d => Some (a, parseDigits d)
      | _, _ => None
      end
  end.

Section WithNumbers.
Context {number : Type}.
Variable zero : number.
Variable falsy : number -> bool.     (* 0, -0 and NaN *)

Record QueryResult : Type := {
  qr_id : jsstring;
  qr_score : number;
  qr_metadata : ChunkMetadata
}.

Record QueryOptions : Type := {
  qo_topK : option Z;
  qo_includeMetadata : option bool
}.

(** [match.score || 0] *)
Definition scoreOrZero (s : option number) : number :=
  match s with
  | Some x => if falsy x then zero else x
  | None => zero
  end.

(** [getIndex]: the client exists when the key is set and not empty. *)
Definition getIndex : M number unit :=
  w <- env ;;
  match PINECONE_API_KEY w with
  | Some (_ :: _) => ret tt
  | _ => throw (lit "PINECONE_API_KEY is not set in environment variables")
  end.

Definition queryVectors (queryVector : vector number) (options : QueryOptions)
  : M number (list QueryResult) :=
  let topK := match qo_topK options with Some k => k | None => 5%Z end in
  let includeMetadata :=
    match qo_includeMetadata options with Some b => b | None => true end in
  getIndex ;;;
  tryCatch
    (queryResponse <- call (IndexQuery queryVector topK includeMetadata) ;;
     match queryResponse with
     | QueryMatches matches =>
         ret (map (fun m => {| qr_id := sv_id m;
                               qr_score := scoreOrZero (sv_score m);
                               qr_metadata := sv_metadata m |})
                  (match matches with Some l => l | None => [] end))
     | Failed e => throw e
     | _ => throw typeError
     end)
    (fun e => throw (lit "Failed to query vectors: " ++ e)).

(** [upsertVectors]; the progress callback of its callers only logs. *)
Fixpoint upsertBatches (batches : list (list (VectorRecord number)))
  : M number unit :=
  match batches with
  | [] => ret tt
  | batch :: later =>
      tryCatch
        (r <- call (IndexUpsert batch) ;;
         match r with
         | Failed e => throw e
         | _ => ret tt
         end)
        (fun e => throw e) ;;;
      upsertBatches later
  end.

Definition upsertVectors (fuel : nat) (vectors : list (VectorRecord number))
  (batchSize : option Z) : M number unit :=
  let batchSize := match batchSize with Some b => b | None => 100%Z end in
  match vectors with
  | [] => ret tt
  | _ =>
      getIndex ;;;
      match slices fuel vectors batchSize 0 [] with
      | Some batches => upsertBatches batches
      | None => hang
      end
  end.

End WithNumbers.

End Pinecone.

(** ** lib/embeddings.ts *)

Module Embeddings.
Import JS TextProcessing Effects.
Local Open Scope effect_scope.

Section WithNumbers.
Context {number : Type}.
Notation M := (M number).

Definition EMBEDDING_MODEL : jsstring := lit "text-embedding-3-large".
Definition EMBEDDING_DIMENSIONS : N := 3072.

(** The client exists when the key is set and not empty. *)
Definition getOpenAIClient : M unit :=
  w <- env ;;
  match OPENAI_API_KEY w with
  | Some (_ :: _) => ret tt
  | _ => throw (lit "OPENAI_API_KEY is not set in environment variables")
  end.

Definition createEmbeddings (input : embeddingInput) : M (list (vector number)) :=
  response <- call (EmbeddingsCreate input EMBEDDING_MODEL EMBEDDING_DIMENSIONS) ;;
  match response with
  | EmbeddingData data => ret data
  | Failed e => throw e
  | _ => throw typeError
  end.

Definition messageOf (lastError : option jsstring) : jsstring :=
  match lastError with Some e => e | None => lit "undefined" end.

(** The retry loop of [generateEmbedding]; [remaining] attempts are left
    and [attempt] is the loop counter. *)
Fixpoint attempts (text : jsstring) (retries remaining attempt : nat)
  (lastError : option jsstring) : M (vector number) :=
  match remaining with
  | O =>
      throw (lit "Failed to generate embedding after "
             ++ numberToString (N.of_nat retries) ++ lit " retries: "
             ++ messageOf lastError)
  | S remaining' =>
      tryCatch
        (data <- createEmbeddings (One text) ;;
         match data with
         | embedding :: _ => ret embedding
         | [] => throw (lit "No embedding returned from OpenAI API")
         end)
        (fun error =>
           if includes error (lit "invalid") then throw error
           else
             (if attempt <? retries
              then call (Sleep (2 ^ Z.of_nat attempt * 1000)) ;;; ret tt
              else ret tt) ;;;
             attempts text retries remaining' (S attempt) (Some error))
  end.

Definition generateEmbedding (text : jsstring) (retries : nat)
  : M (vector number) :=
  if negb (nonBlank text)
  then throw (lit "Cannot generate embedding for empty text")
  else
    getOpenAIClient ;;;
    attempts text retries (S retries) 0 None.

Record BatchEmbeddingOptions : Type := {
  batchSize : option Z;
  concurrency : option Z;
  onProgress : bool      (* a callback is given; its calls are recorded *)
}.

Record indexedText : Type := { it_index : nat; it_text : jsstring }.

Record indexedEmbedding : Type := {
  ie_index : nat;
  ie_embedding : vector number
}.

(** [texts.forEach((text, index) => ...)] keeping the texts that are not
    blank with their positions. *)
Fixpoint collectValid (texts : list jsstring) (index : nat)
  : list indexedText :=
  match texts with
  | [] => []
  | text :: more =>
      if nonBlank text
      then {| it_index := index; it_text := text |}
           :: collectValid more (S index)
      else collectValid more (S index)
  end.

(** Stable insertion by the comparator [(a, b) => a.index - b.index]. *)
Fixpoint insertByIndex (x : indexedEmbedding) (l : list indexedEmbedding)
  : list indexedEmbedding :=
  match l with
  | [] => [x]
  | y :: tl =>
      if (Z.of_nat (ie_index y) - Z.of_nat (ie_index x) <=? 0)%Z
      then y :: insertByIndex x tl
      else x :: l
  end.

Definition sortByIndex (l : list indexedEmbedding) : list indexedEmbedding :=
  fold_left (fun sorted x => insertByIndex x sorted) l [].

(** [batch.map((item, idx) => ({ index, embedding: data[idx].embedding }))];
    reading a row that is missing throws. *)
Fixpoint attachIndices (items : list indexedText) (rows : list (vector number))
  : M (list indexedEmbedding) :=
  match items, rows with
  | [], _ => ret []
  | _ :: _, [] => throw typeError
  | item :: items', row :: rows' =>
      more <- attachIndices items' rows' ;;
      ret ({| ie_index := it_index item; ie_embedding := row |} :: more)
  end.

(** One batch: the batch call, and on its failure one call per text. *)
Definition embedBatch (batch : list indexedText) : M (list indexedEmbedding) :=
  tryCatch
    (getOpenAIClient ;;;
     data <- createEmbeddings (Many (map it_text batch)) ;;
     attachIndices batch data)
    (fun _ =>
       promiseAll
         (map (fun item =>
                 embedding <- generateEmbedding (it_text item) 3 ;;
                 ret {| ie_index := it_index item; ie_embedding := embedding |})
              batch)).

Fixpoint processGroups (groups : list (list (list indexedText)))
  (report : bool) (total : Z) (completed : Z)
  (allEmbeddings : list indexedEmbedding) : M (list indexedEmbedding) :=
  match groups with
  | [] => ret allEmbeddings
  | batchGroup :: later =>
      batchResults <- promiseAll (map embedBatch batchGroup) ;;
      let allEmbeddings := allEmbeddings ++ concat batchResults in
      let completed :=
        fold_left (fun sum batch => (sum + Z.of_nat (length batch))%Z)
          batchGroup completed in
      (if report then call (Progress completed total) ;;; ret tt else ret tt) ;;;
      processGroups later report total completed allEmbeddings
  end.

Definition batchGenerateEmbeddings (fuel : nat) (texts : list jsstring)
  (options : BatchEmbeddingOptions) : M (list (vector number)) :=
  let batchSize := orDefault (batchSize options) 100%Z in
  let concurrency := orDefault (concurrency options) 5%Z in
  match texts with
  | [] => ret []
  | _ =>
      let validTexts := collectValid texts 0 in
      match slices fuel validTexts batchSize 0 [] with
      | None => hang
      | Some batches =>
          match slices fuel batches concurrency 0 [] with
          | None => hang
          | Some groups =>
              allEmbeddings <-
                processGroups groups (onProgress options)
                  (Z.of_nat (length validTexts)) 0 [] ;;
              ret (map ie_embedding (sortByIndex allEmbeddings))
          end
      end
  end.

Definition embedQuery (query : jsstring) : M (vector number) :=
  generateEmbedding query 3.

End WithNumbers.

End Embeddings.

(** ** lib/summarizer.ts *)

Module Summarizer.
Import JS TextProcessing Effects.
Local Open Scope effect_scope.

Section WithNumbers.
Context {number : Type}.
Variable temperature03 : number.      (* the literal 0.3 *)
Notation M := (M number).

Record Summary : Type := {
  summary : jsstring;
  originalTokens : Z;
  summaryTokens : Z
}.

Definition summarizerPrompt : jsstring :=
  join [NL]
    [ lit "You are a summarization assistant. Extract the key themes, topics, questions, and important details from the text. Preserve:";
      lit "- Main topics and subjects discussed";
      lit "- Questions or requests from the user";
      lit "- Names, concepts, and key terms";
      lit "- Overall intent and context";
      [];
      lit "Be concise but comprehensive. Focus on preserving meaning for semantic search." ].

Definition summarizeText (text : jsstring) (maxTokens : Z) : M jsstring :=
  response <-
    call (ChatCreate (lit "gpt-4o-mini")
            [ {| msg_role := System; msg_content := summarizerPrompt |};
              {| msg_role := User; msg_content := text |} ]
            temperature03 maxTokens false) ;;
  match response with
  | ChatCompletion _ (Some (c :: cs) :: _) => ret (c :: cs)
  | ChatCompletion _ (_ :: _) => ret text
  | ChatCompletion _ [] => throw typeError
  | Failed e => throw e
  | _ => throw typeError
  end.

(** The products by 3.5 and by 0.8 are taken exactly; at the only call,
    with [maxTokens = 6000], they are 21000 and 16800 in binary64 too. *)
Definition truncateToTokenLimit (text : jsstring) (maxTokens : Z) : jsstring :=
  let estimatedTokens := estimateTokens text in
  if (estimatedTokens <=? maxTokens)%Z then text
  else
    (* Math.floor(maxTokens * 3.5) *)
    let maxChars := ((7 * maxTokens) / 2)%Z in
    let truncated := slice text 0 maxChars in
    let lastPeriod :=
      match lastIndexOf truncated (ch ".") with
      | Some i => i
      | None => (-1)%Z
      end in
    (* lastPeriod > maxChars * 0.8 *)
    if (5 * lastPeriod >? 4 * maxChars)%Z
    then slice truncated 0 (lastPeriod + 1)
    else truncated ++ lit "...".

Definition twoStageSummarization (fuel : nat) (text : jsstring)
  (maxOutputTokens : Z) : M Summary :=
  let originalTokens := estimateTokens text in
  match chunkText fuel text
          {| maxTokens := Some 6000%Z; overlap := Some 200%Z;
             preserveSentences := Some true |} with
  | None => hang
  | Some chunks =>
      chunkSummaries <-
        promiseAll (map (fun chunk => summarizeText chunk 500) chunks) ;;
      let mergedSummaries := join [NL; NL] chunkSummaries in
      finalSummary <- summarizeText mergedSummaries maxOutputTokens ;;
      ret {| summary := finalSummary;
             originalTokens := originalTokens;
             summaryTokens := estimateTokens finalSummary |}
  end.

(** The body of the [try] block of [summarizeChatMessage]. *)
Definition summarizationAttempt (fuel : nat) (message : jsstring)
  (maxOutputTokens : Z) : M Summary :=
  let originalTokens := estimateTokens message in
  if (originalTokens >? 20000)%Z
  then twoStageSummarization fuel message maxOutputTokens
  else
    summary <- summarizeText message maxOutputTokens ;;
    ret {| summary := summary;
           originalTokens := originalTokens;
           summaryTokens := estimateTokens summary |}.

Definition summarizeChatMessage (fuel : nat) (message : jsstring)
  (maxOutputTokens : option Z) : M Summary :=
  let maxOutputTokens := orDefault maxOutputTokens 2000%Z in
  let originalTokens := estimateTokens message in
  if (originalTokens <=? 6000)%Z then
    ret {| summary := message;
           originalTokens := originalTokens;
           summaryTokens := originalTokens |}
  else
    tryCatch
      (summarizationAttempt fuel message maxOutputTokens)
      (fun _ =>
         let truncated := truncateToTokenLimit message 6000 in
         ret {| summary := truncated;
                originalTokens := originalTokens;
                summaryTokens := estimateTokens truncated |}).

(** [summarizeLongDocument]; [options.maxTokens || 10000] reads an
    absent limit and the limit 0 as 10000.  There is no [try] around the
    calls. *)
Definition summarizeLongDocument (fuel : nat) (text : jsstring)
  (maxTokens : option Z) : M Summary :=
  let maxTokens :=
    match maxTokens with
    | Some m => if (m =? 0)%Z then 10000%Z else m
    | None => 10000%Z
    end in
  let originalTokens := estimateTokens text in
  if (originalTokens <=? maxTokens)%Z then
    ret {| summary := text;
           originalTokens := originalTokens;
           summaryTokens := originalTokens |}
  else if (originalTokens >? 20000)%Z
  then twoStageSummarization fuel text maxTokens
  else
    summary <- summarizeText text maxTokens ;;
    ret {| summary := summary;
           originalTokens := originalTokens;
           summaryTokens := estimateTokens summary |}.

End WithNumbers.

End Summarizer.

(** ** lib/rag.ts *)

Module Rag.
Import JS TextProcessing Effects Pinecone Embeddings.
Local Open Scope effect_scope.

Section WithNumbers.
Context {number : Type}.
Variable zero : number.
Variable falsy : number -> bool.
Variable temperature03 : number.              (* the literal 0.3 *)
Variable percent : number -> jsstring.        (* (score * 100).toFixed(1) *)
Variable encode : jsstring -> list N.         (* TextEncoder.encode *)
Notation M := (M number).

Record Citation : Type := {
  c_title : jsstring;
  c_url : jsstring;
  c_relevance : number;
  c_snippet : jsstring
}.

Inductive historyRole : Type := FromUser | FromAssistant.

Record RAGOptions : Type := {
  topK : option Z;
  temperature : option number;
  maxTokens : option Z;
  conversationHistory : option (list (historyRole * jsstring))
}.

Record RAGResult : Type := {
  answer : jsstring;
  citations : list Citation;
  retrievedChunks : Z;
  model : jsstring
}.

(** What a reader of a [ReadableStream] observes: the chunks enqueued,
    then the close or the error. *)
Inductive ending : Type := Closed | Errored (message : jsstring).

Record ReadableStream : Type := {
  enqueued : list (list N);
  ended : ending
}.

Definition QUOTE : jsstring := [34%N].

Definition buildSystemPrompt : jsstring :=
  join [NL]
    [ lit "You are Brett McKay's private AI assistant, trained exclusively on his Art of Manliness archive.";
      [];
      lit "ROLE:";
      lit "- Help Brett and his team search through 5,000+ articles and 1,000+ podcast transcripts";
      lit "- Provide accurate, grounded answers based ONLY on the provided context";
      lit "- Cite specific article titles and sources";
      [];
      lit "RULES:";
      lit "1. Base ALL responses on the provided context - never make up information";
      lit "2. If the context doesn't contain relevant information, honestly say "
        ++ QUOTE ++ lit "I don't have information about that in your archive" ++ QUOTE;
      lit "3. Cite specific article titles when referencing information";
      lit "4. Use markdown formatting (bold titles, bullet points, numbered lists)";
      lit "5. Keep tone professional, helpful, and concise";
      lit "6. When multiple articles cover a topic, list the most relevant ones";
      [];
      lit "FORMAT:";
      lit "- Start with a direct answer to the question";
      lit "- Include specific article titles in bold";
      lit "- Use bullet points or numbered lists for multiple items";
      lit "- Keep paragraphs short and scannable";
      [];
      lit "Remember: Your knowledge is LIMITED to the provided context. If you're not confident an answer is in the context, say so." ].

Fixpoint contextSections (retrievedContext : list QueryResult) (idx : N)
  : list jsstring :=
  match retrievedContext with
  | [] => []
  | result :: more =>
      join [NL]
        [ lit "[" ++ numberToString (idx + 1) ++ lit "] Title: " ++ QUOTE
            ++ title (qr_metadata result) ++ QUOTE;
          lit "URL: " ++ url (qr_metadata result);
          lit "Relevance: " ++ percent (qr_score result) ++ lit "%";
          [];
          lit "Content:";
          content (qr_metadata result) ]
      :: contextSections more (idx + 1)
  end.

Definition buildUserPrompt (query : jsstring)
  (retrievedContext : list QueryResult) : jsstring :=
  join [NL]
    [ lit "CONTEXT FROM BRETT'S ARCHIVE:";
      [];
      join ([NL; NL] ++ lit "---" ++ [NL; NL])
        (contextSections retrievedContext 0);
      [];
      lit "---";
      [];
      lit "USER QUERY: " ++ query;
      [];
      lit "Please provide a helpful answer based on the context above. Include specific article titles and format your response with markdown." ].

Definition citationsOf (retrievedChunks : list QueryResult) : list Citation :=
  map (fun chunk =>
         {| c_title := title (qr_metadata chunk);
            c_url := url (qr_metadata chunk);
            c_relevance := qr_score chunk;
            c_snippet := firstn 150 (content (qr_metadata chunk)) ++ lit "..." |})
      retrievedChunks.

Definition buildMessages (query : jsstring) (retrievedChunks : list QueryResult)
  (conversationHistory : list (historyRole * jsstring)) : list ChatMessage :=
  let systemMessage :=
    {| msg_role := System; msg_content := buildSystemPrompt |} in
  let contextMessage :=
    {| msg_role := User;
       msg_content := buildUserPrompt query retrievedChunks |} in
  let historyMessages :=
    map (fun msg =>
           {| msg_role := match fst msg with
                          | FromUser => User
                          | FromAssistant => Assistant
                          end;
              msg_content := snd msg |})
        (slice conversationHistory (-6) (Z.of_nat (length conversationHistory))) in
  [systemMessage] ++ historyMessages ++ [contextMessage].

Definition noInformation : jsstring :=
  lit "I couldn't find any relevant information in the archive for your question. Could you try rephrasing or asking about a different topic?".

Definition noInformationStream : jsstring :=
  lit "I couldn't find any relevant information in the archive for your question.".

Definition queryKnowledgeBase (query : jsstring) (options : RAGOptions)
  : M RAGResult :=
  let topK := orDefault (topK options) 5%Z in
  let temperature := orDefault (temperature options) temperature03 in
  let maxTokens := orDefault (maxTokens options) 800%Z in
  let conversationHistory := orDefault (conversationHistory options) [] in
  queryEmbedding <- embedQuery query ;;
  retrievedChunks <-
    queryVectors zero falsy queryEmbedding
      {| qo_topK := Some topK; qo_includeMetadata := Some true |} ;;
  match retrievedChunks with
  | [] =>
      ret {| answer := noInformation; citations := [];
             retrievedChunks := 0; model := lit "gpt-4o" |}
  | _ =>
      let citations := citationsOf retrievedChunks in
      let messages := buildMessages query retrievedChunks conversationHistory in
      getOpenAIClient ;;;
      tryCatch
        (completion <-
           call (ChatCreate (lit "gpt-4o") messages temperature maxTokens false) ;;
         match completion with
         | ChatCompletion model choices =>
             let answer :=
               match choices with
               | Some (c :: cs) :: _ => c :: cs
               | _ => lit "No response generated."
               end in
             ret {| answer := answer; citations := citations;
                    retrievedChunks := Z.of_nat (length retrievedChunks);
                    model := model |}
         | Failed e => throw e
         | _ => throw typeError
         end)
        (fun e => throw (lit "Failed to generate response: " ++ e))
  end.

(** The stream built over the completion: each delta with content is
    encoded and enqueued, then the stream closes, or errors when the
    iteration fails. *)
Definition relay (deltas : list (option jsstring)) (failure : option jsstring)
  : ReadableStream :=
  {| enqueued :=
       map encode
         (filter nonEmpty
            (map (fun d => match d with Some c => c | None => [] end) deltas));
     ended := match failure with
              | Some e => Errored e
              | None => Closed
              end |}.

Definition queryKnowledgeBaseStream (query : jsstring) (options : RAGOptions)
  : M (ReadableStream * list Citation) :=
  let topK := orDefault (topK options) 5%Z in
  let temperature := orDefault (temperature options) temperature03 in
  let maxTokens := orDefault (maxTokens options) 800%Z in
  let conversationHistory := orDefault (conversationHistory options) [] in
  queryEmbedding <- embedQuery query ;;
  retrievedChunks <-
    queryVectors zero falsy queryEmbedding
      {| qo_topK := Some topK; qo_includeMetadata := Some true |} ;;
  let citations := citationsOf retrievedChunks in
  match retrievedChunks with
  | [] =>
      ret ({| enqueued := [encode noInformationStream]; ended := Closed |}, [])
  | _ =>
      let messages := buildMessages query retrievedChunks conversationHistory in
      getOpenAIClient ;;;
      completion <-
        call (ChatCreate (lit "gpt-4o") messages temperature maxTokens true) ;;
      match completion with
      | ChatStream deltas failure => ret (relay deltas failure, citations)
      | Failed e => throw e
      | _ => throw typeError
      end
  end.

End WithNumbers.

End Rag.

(** ** app/api/ingest/route.ts: from the articles of a batch to the
    records written to the index *)

Module Ingest.
Import JS TextProcessing Effects Pinecone Embeddings.
Local Open Scope effect_scope.

Section WithNumbers.
Context {number : Type}.
Notation M := (M number).

(** The fields read from a row of the CSV file. *)
Record Article : Type := {
  a_id : jsstring;
  a_title : jsstring;
  a_url : jsstring;
  a_content : jsstring
}.

Record Mapping : Type := {
  m_articleId : jsstring;
  m_title : jsstring;
  m_url : jsstring;
  m_chunkIndex : N;
  m_content : jsstring
}.

Record IngestionStats : Type := {
  articlesProcessed : Z;
  chunksGenerated : Z;
  embeddingsCreated : Z;
  vectorsUpserted : Z;
  totalTokens : Z;
  errors : Z
}.

Record Collected : Type := {
  stats : IngestionStats;
  allChunkTexts : list jsstring;
  chunkToVectorMap : list Mapping
}.

(** [prepared.chunks.forEach((chunk, chunkIndex) => ...)] *)
Fixpoint mappingsOf (id : jsstring) (prepared : PreparedArticle)
  (chunks : list jsstring) (chunkIndex : N) : list Mapping :=
  match chunks with
  | [] => []
  | chunk :: more =>
      {| m_articleId := id; m_title := pa_title prepared;
         m_url := pa_url prepared; m_chunkIndex := chunkIndex;
         m_content := chunk |}
      :: mappingsOf id prepared more (chunkIndex + 1)
  end.

(** The loop over the rows of the batch; [None] when the preparation of
    an article does not return. *)
Fixpoint collect (fuel : nat) (batchArticles : list Article) (acc : Collected)
  : option Collected :=
  match batchArticles with
  | [] => Some acc
  | row :: more =>
      let st := stats acc in
      if negb (nonEmpty (a_id row)) || negb (nonEmpty (a_title row))
         || negb (nonEmpty (a_content row))
      then
        collect fuel more
          {| stats := {| articlesProcessed := articlesProcessed st;
                         chunksGenerated := chunksGenerated st;
                         embeddingsCreated := embeddingsCreated st;
                         vectorsUpserted := vectorsUpserted st;
                         totalTokens := totalTokens st;
                         errors := errors st + 1 |};
             allChunkTexts := allChunkTexts acc;
             chunkToVectorMap := chunkToVectorMap acc |}
      else
        match prepareArticle fuel (a_id row) (a_title row) (a_url row)
                (a_content row) emptyConfig with
        | None => None
        | Some prepared =>
            collect fuel more
              {| stats :=
                   {| articlesProcessed := articlesProcessed st + 1;
                      chunksGenerated :=
                        chunksGenerated st
                        + Z.of_nat (length (pa_chunks prepared));
                      embeddingsCreated := embeddingsCreated st;
                      vectorsUpserted := vectorsUpserted st;
                      totalTokens := totalTokens st + pa_totalTokens prepared;
                      errors := errors st |};
                 allChunkTexts := allChunkTexts acc ++ pa_chunks prepared;
                 chunkToVectorMap :=
                   chunkToVectorMap acc
                   ++ mappingsOf (a_id row) prepared (pa_chunks prepared) 0 |}
        end
  end.

(** [embeddings.forEach((embedding, idx) => ...)]: the record of the
    embedding at [idx] is built from [chunkToVectorMap[idx]]. *)
Fixpoint buildVectorRecords (embeddings : list (vector number))
  (chunkToVectorMap : list Mapping) (idx : nat)
  : M (list (VectorRecord number)) :=
  match embeddings with
  | [] => ret []
  | embedding :: more =>
      match nth_error chunkToVectorMap idx with
      | None => throw typeError
      | Some mapping =>
          let vectorId :=
            buildVectorId (m_articleId mapping) (m_chunkIndex mapping) in
          records <- buildVectorRecords more chunkToVectorMap (S idx) ;;
          ret ({| id := vectorId;
                  values := embedding;
                  metadata :=
                    {| title := m_title mapping;
                       url := m_url mapping;
                       content := m_content mapping;
                       chunkIndex := m_chunkIndex mapping;
                       articleId := m_articleId mapping |} |} :: records)
      end
  end.

Inductive outcome : Type :=
| NoValidChunks (stats : IngestionStats)
| Processed (stats : IngestionStats).

Definition emptyStats : IngestionStats :=
  {| articlesProcessed := 0; chunksGenerated := 0; embeddingsCreated := 0;
     vectorsUpserted := 0; totalTokens := 0; errors := 0 |}.

Definition ingestBatch (fuel : nat) (batchArticles : list Article) : M outcome :=
  match collect fuel batchArticles
          {| stats := emptyStats; allChunkTexts := [];
             chunkToVectorMap := [] |} with
  | None => hang
  | Some collected =>
      let st := stats collected in
      match allChunkTexts collected with
      | [] => ret (NoValidChunks st)
      | _ =>
          embeddings <-
            batchGenerateEmbeddings fuel (allChunkTexts collected)
              {| batchSize := Some 100%Z; concurrency := Some 5%Z;
                 onProgress := true |} ;;
          allVectors <-
            buildVectorRecords embeddings (chunkToVectorMap collected) 0 ;;
          upsertVectors fuel allVectors (Some 100%Z) ;;;
          ret (Processed
                 {| articlesProcessed := articlesProcessed st;
                    chunksGenerated := chunksGenerated st;
                    embeddingsCreated := Z.of_nat (length embeddings);
                    vectorsUpserted := Z.of_nat (length allVectors);
                    totalTokens := totalTokens st;
                    errors := errors st |})
      end
  end.

End WithNumbers.

End Ingest.

(** ** app/api/chat/route.ts: the rate limiter *)

Module Chat.
Import JS TextProcessing.

Record RateRecord : Type := { count : Z; resetTime : Z }.

(** [rateLimitMap], a [Map] with string keys: the entries in the order
    of their insertion, one per key. *)
Definition RateLimitMap : Type := list (jsstring * RateRecord).

(** [Map.prototype.get] *)
Fixpoint mapGet (m : RateLimitMap) (key : jsstring) : option RateRecord :=
  match m with
  | [] => None
  | (k, v) :: later => if str_eqb k key then Some v else mapGet later key
  end.

(** [Map.prototype.set]: the value of an existing key is replaced in
    place, a new key is appended. *)
Fixpoint mapSet (m : RateLimitMap) (key : jsstring) (v : RateRecord)
  : RateLimitMap :=
  match m with
  | [] => [(key, v)]
  | (k, old) :: later =>
      if str_eqb k key then (k, v) :: later
      else (k, old) :: mapSet later key v
  end.

(** [checkRateLimit] at the time [now] read from [Date.now()]; the map
    is the module's state, and [record.count++] updates the record the
    map holds. *)
Definition checkRateLimit (rateLimitMap : RateLimitMap) (now : Z)
  (identifier : jsstring) (maxRequests windowMs : option Z)
  : bool * RateLimitMap :=
  let maxRequests := orDefault maxRequests 100%Z in
  let windowMs := orDefault windowMs 60000%Z in
  let restart :=
    (true, mapSet rateLimitMap identifier
             {| count := 1; resetTime := now + windowMs |}) in
  match mapGet rateLimitMap identifier with
  | None => restart
  | Some record =>
      if (now >? resetTime record)%Z then restart
      else if (count record >=? maxRequests)%Z then (false, rateLimitMap)
      else (true, mapSet rateLimitMap identifier
                    {| count := count record + 1;
                       resetTime := resetTime record |})
  end.

End Chat.

(** ** Vocabulary of the statements *)

Module Vocabulary.
Import JS Regex TextProcessing Effects.

(** The input of the HTML cleaning scenario. *)
Definition scenarioInput : jsstring := lit "<p>Hello&nbsp;<b>World</b>!</p>".

(** [emits P m]: whatever the world and the history, [m] only appends
    requests that satisfy [P] to the history. *)
Definition emits {number A} (P : request number -> Prop) (m : M number A)
  : Prop :=
  forall w h, exists new, snd (m w h) = h ++ new /\ Forall P new.

(** A request to the generative model. *)
Definition isChatCreate {number} (r : request number) : Prop :=
  match r with
  | ChatCreate _ _ _ _ _ => True
  | _ => False
  end.

Definition notChat {number} (r : request number) : Prop := ~ isChatCreate r.

(** A world in which the embedding succeeds and the index has no match. *)
Definition emptyIndexWorld : world nat :=
  {| OPENAI_API_KEY := Some (lit "key");
     PINECONE_API_KEY := Some (lit "key");
     answer := fun _ r =>
       match r with
       | EmbeddingsCreate _ _ _ => EmbeddingData [[1%nat]]
       | IndexQuery _ _ _ => QueryMatches (Some [])
       | _ => Settled
       end;
     completion := fun _ _ => [] |}.

Definition noOptions : @Rag.RAGOptions nat :=
  {| Rag.topK := None; Rag.temperature := None;
     Rag.maxTokens := None; Rag.conversationHistory := None |}.

(** Fuel that covers the word loops [chunkText] runs on a text. *)
Definition enoughFuel (text : jsstring) : nat :=
  2 * list_max (map (@length char16) (text :: splitIntoSentences text)) + 3.

(** A slot is settled when it holds a result. *)
Definition settledAt {A} (slots : list (option A)) (j : nat) : Prop :=
  exists a, nth_error slots j = Some (Some a).

(** [settles m]: the computation returns or throws. *)
Definition settles {number A} (m : M number A) : Prop :=
  forall w h, fst (m w h) <> Hang.

(** The fallback of the summarizer as the specification words it: the
    input cut to the character budget of 6,000 tokens, then cut back to
    its last period when that period lies in the final fifth of the
    window, and otherwise followed by an ellipsis. *)
Definition charBudget : Z := 21000.          (* floor(6000 * 3.5) *)
Definition finalFifth : Z := 16800.          (* 80% of the budget *)

Definition hardTruncation (message : jsstring) : jsstring :=
  let window := firstn (Z.to_nat charBudget) message in
  match lastIndexOf window (ch ".") with
  | Some p =>
      if (p >? finalFifth)%Z then firstn (Z.to_nat (p + 1)) window
      else window ++ lit "..."
  | None => window ++ lit "..."
  end.

(** A world whose generative model rejects every request. *)
Definition failingModelWorld : world nat :=
  {| OPENAI_API_KEY := Some (lit "key");
     PINECONE_API_KEY := Some (lit "key");
     answer := fun _ _ => Failed (lit "503");
     completion := fun _ _ => [] |}.

(** A message of 21,001 characters, estimated at 6,001 tokens. *)
Definition longMessage : jsstring := repeat (ch "a") (Z.to_nat 21001).

(** The request of the single pass on [longMessage]. *)
Definition longMessagePrompt : request nat :=
  ChatCreate (lit "gpt-4o-mini")
    [ {| msg_role := System; msg_content := Summarizer.summarizerPrompt |};
      {| msg_role := User; msg_content := longMessage |} ]
    3%nat 2000 false.

(** The greedy star of one character class, written by recursion on the
    input: the longest run first, then shorter ones. *)
Fixpoint starChr (p : char16 -> bool) (pv : option char16) (s : jsstring)
  (cs : list (nat * jsstring)) (k : mstate -> option mstate) : option mstate :=
  match s with
  | c :: tl =>
      if p c then
        match starChr p (Some c) tl cs k with
        | Some r => Some r
        | None => k (MState pv s cs)
        end
      else k (MState pv s cs)
  | [] => k (MState pv [] cs)
  end.

(** The code unit before the position after reading [s]. *)
Fixpoint lastOr (pv : option char16) (s : jsstring) : option char16 :=
  match s with
  | [] => pv
  | c :: tl => lastOr (Some c) tl
  end.

(** No code unit of the string is a line terminator (LF, CR, LS, PS). *)
Definition noLineTerminator (s : jsstring) : Prop :=
  Forall (fun c => isLineTerminator c = false) s.

(** The code units of "-chunk-". *)
Definition chunkMark : jsstring := [45; 99; 104; 117; 110; 107; 45]%N.

(** After the article id, the pattern of [parseVectorId] asks for
    "-chunk-", digits and the end of the input. *)
Definition idTail : regex :=
  Seq (Lit (lit "-chunk-")) (Seq (Group 2 (Plus true (Chr isDigit))) Eol).

(** A text of five sentences of 524 characters (150 estimated tokens
    each) and one of 2,450 characters (700 estimated tokens). *)
Definition shortSentence : jsstring :=
  ch "A" :: repeat (ch "a") 522 ++ lit ".".

Definition longSentence : jsstring :=
  ch "B" :: repeat (ch "b") 2448 ++ lit ".".

Definition overBudgetText : jsstring :=
  join SPACE (repeat shortSentence 5 ++ [longSentence]).

(** [listEqb] compares two lists of strings. *)
Fixpoint listEqb (a b : list jsstring) : bool :=
  match a, b with
  | [], [] => true
  | x :: a', y :: b' => str_eqb x y && listEqb a' b'
  | _, _ => false
  end.

Definition returnsChunks (o : option (list jsstring)) (l : list jsstring)
  : bool :=
  match o with
  | Some l' => listEqb l' l
  | None => false
  end.

(** Three sentences of seven characters, two estimated tokens each. *)
Definition threeSentences : jsstring := lit "Aaaaaa. Aaaaaa. Aaaaaa.".

Definition tinyConfig : ChunkConfig :=
  {| maxTokens := Some 4%Z; overlap := Some 0%Z; preserveSentences := None |}.

(** The identifier of a record is built from the article id and the
    chunk index of its metadata. *)
Definition wellFormedId {number} (r : VectorRecord number) : Prop :=
  id r = lit "article-" ++ articleId (metadata r) ++ lit "-chunk-"
         ++ numberToString (chunkIndex (metadata r)).

(** The metadata describe a chunk of an article of the batch: the id,
    title and url are the article's, and the content is the chunk at the
    0-based position [chunkIndex] among the chunks of the article. *)
Definition chunkOf (fuel : nat) (batchArticles : list Ingest.Article)
  (md : ChunkMetadata) : Prop :=
  exists article prepared,
    In article batchArticles
    /\ prepareArticle fuel (Ingest.a_id article) (Ingest.a_title article)
         (Ingest.a_url article) (Ingest.a_content article) emptyConfig
       = Some prepared
    /\ articleId md = Ingest.a_id article
    /\ title md = Ingest.a_title article
    /\ url md = Ingest.a_url article
    /\ nth_error (pa_chunks prepared) (N.to_nat (chunkIndex md))
       = Some (content md).

(** The mapping describes a chunk of an article of the batch. *)
Definition mappingOf (fuel : nat) (batchArticles : list Ingest.Article)
  (m : Ingest.Mapping) : Prop :=
  chunkOf fuel batchArticles
    {| title := Ingest.m_title m; url := Ingest.m_url m;
       content := Ingest.m_content m;
       chunkIndex := Ingest.m_chunkIndex m;
       articleId := Ingest.m_articleId m |}.

(** Every record of an upsert request satisfies [Good]. *)
Definition writes {number} (Good : VectorRecord number -> Prop)
  (r : request number) : Prop :=
  match r with
  | IndexUpsert batch => Forall Good batch
  | _ => True
  end.

(** One article, and a world whose services succeed. *)
Definition article7 : Ingest.Article :=
  {| Ingest.a_id := lit "7"; Ingest.a_title := lit "Grit";
     Ingest.a_url := lit "https://aom.example/grit";
     Ingest.a_content := lit "<p>Keep going.</p>" |}.

Definition servingWorld : world nat :=
  {| OPENAI_API_KEY := Some (lit "key");
     PINECONE_API_KEY := Some (lit "key");
     answer := fun _ r =>
       match r with
       | EmbeddingsCreate (Many texts) _ _ =>
           EmbeddingData (map (fun t => [length t]) texts)
       | EmbeddingsCreate (One t) _ _ => EmbeddingData [[length t]]
       | _ => Settled
       end;
     completion := fun _ n => rev (seq 0 n) |}.

(** A world whose provider rejects every batch call and embeds the
    texts one by one, the promises settling from the last to the first. *)
Definition flakyWorld : world nat :=
  {| OPENAI_API_KEY := Some (lit "key");
     PINECONE_API_KEY := Some (lit "key");
     answer := fun _ r =>
       match r with
       | EmbeddingsCreate (Many _) _ _ => Failed (lit "429")
       | EmbeddingsCreate (One t) _ _ => EmbeddingData [[length t]]
       | _ => Settled
       end;
     completion := fun _ n => rev (seq 0 n) |}.

Definition someTexts : list jsstring :=
  [lit "alpha"; lit ""; lit "be"; lit "   "; lit "gam"].

(** A slot is empty or holds the value expected at its position. *)
Definition slotAgrees {A} (slot : option A) (v : A) : Prop :=
  slot = None \/ slot = Some v.

(** In the world [w], the task returns [v] from every history. *)
Definition yields {number A} (w : world number) (task : M number A) (v : A)
  : Prop :=
  forall h, exists h', task w h = (Ok v, h').

(** The provider of embeddings computes the function [embed]: a call on
    one text returns its vector, and a call on a batch returns the
    vectors of its texts in order, unless the call as a whole fails. *)
Definition providerComputes {number} (w : world number)
  (embed : jsstring -> vector number) : Prop :=
  (exists c k, OPENAI_API_KEY w = Some (c :: k))
  /\ (forall h t,
        answer w h (EmbeddingsCreate (One t) Embeddings.EMBEDDING_MODEL
                      Embeddings.EMBEDDING_DIMENSIONS)
        = EmbeddingData [embed t])
  /\ (forall h l,
        answer w h (EmbeddingsCreate (Many l) Embeddings.EMBEDDING_MODEL
                      Embeddings.EMBEDDING_DIMENSIONS)
        = EmbeddingData (map embed l)
        \/ exists e,
            answer w h (EmbeddingsCreate (Many l) Embeddings.EMBEDDING_MODEL
                          Embeddings.EMBEDDING_DIMENSIONS)
            = Failed e).

(** The embedding of a text tagged with the position of the text. *)
Definition tagged {number} (embed : jsstring -> vector number)
  (item : Embeddings.indexedText) : @Embeddings.indexedEmbedding number :=
  {| Embeddings.ie_index := Embeddings.it_index item;
     Embeddings.ie_embedding := embed (Embeddings.it_text item) |}.

(** The sentence loop of [chunkText] on sentences that all fit in a
    chunk, keeping each chunk as its list of sentences: [closed] holds
    the chunks pushed so far and [current] is [currentChunk]. *)
Fixpoint groupLoop (sentences : list jsstring) (maxTokens overlap : Z)
  (closed : list (list jsstring)) (current : list jsstring) (tokens : Z)
  : list (list jsstring) * list jsstring * Z :=
  match sentences with
  | [] => (closed, current, tokens)
  | sentence :: more =>
      let sentenceTokens := estimateTokens sentence in
      if (tokens + sentenceTokens >? maxTokens)%Z && nonEmpty current then
        let seed := getOverlapSentences current overlap in
        groupLoop more maxTokens overlap (closed ++ [current])
          (seed ++ [sentence])
          (estimateTokens (join SPACE seed) + sentenceTokens)
      else
        groupLoop more maxTokens overlap closed (current ++ [sentence])
          (tokens + sentenceTokens)
  end.

Definition sentenceGroups (sentences : list jsstring) (maxTokens overlap : Z)
  : list (list jsstring) :=
  match groupLoop sentences maxTokens overlap [] [] 0 with
  | (closed, current, _) =>
      if nonEmpty current then closed ++ [current] else closed
  end.

(** The sum of the estimates of the sentences. *)
Definition tokensOf (sentences : list jsstring) : Z :=
  fold_right (fun s acc => (estimateTokens s + acc)%Z) 0%Z sentences.

(** [g'] starts with the overlap selected from [g], followed by at least
    one further sentence. *)
Definition seeded (overlap : Z) (g g' : list jsstring) : Prop :=
  exists fresh, fresh <> [] /\ g' = getOverlapSentences g overlap ++ fresh.

(** Each group but the first is seeded from the group before it. *)
Fixpoint chained (overlap : Z) (groups : list (list jsstring)) : Prop :=
  match groups with
  | g :: ((g' :: _) as later) => seeded overlap g g' /\ chained overlap later
  | _ => True
  end.

Definition notSpace (c : char16) : bool := negb (isWhiteSpace c).

(** A sentence of [n + 2] characters: a capital, [n] small letters and
    a period. *)
Definition sentenceOf (capital small : char16) (n : nat) : jsstring :=
  capital :: repeat small n ++ lit ".".

(** Four sentences of 802 characters, 230 estimated tokens each. *)
Definition sentenceA : jsstring := sentenceOf (ch "A") (ch "a") 800.
Definition sentenceB : jsstring := sentenceOf (ch "B") (ch "b") 800.
Definition sentenceC : jsstring := sentenceOf (ch "C") (ch "c") 800.
Definition sentenceD : jsstring := sentenceOf (ch "D") (ch "d") 800.

Definition fourSentences : jsstring :=
  join SPACE [sentenceA; sentenceB; sentenceC; sentenceD].

(** Three sentences of two estimated tokens, chunks of four tokens and
    an overlap of two. *)
Definition abcText : jsstring := lit "Aaaaaa. Bbbbbb. Cccccc.".

Definition overlapConfig : ChunkConfig :=
  {| maxTokens := Some 4%Z; overlap := Some 2%Z; preserveSentences := None |}.

(** *** The rate limiter *)

(** The decisions of [checkRateLimit] on a sequence of requests, each
    given by the time of its arrival and its identifier. *)
Fixpoint serve (m : Chat.RateLimitMap) (requests : list (Z * jsstring))
  (maxRequests windowMs : option Z) : list bool :=
  match requests with
  | [] => []
  | (now, identifier) :: later =>
      let (ok, m') :=
        Chat.checkRateLimit m now identifier maxRequests windowMs in
      ok :: serve m' later maxRequests windowMs
  end.

(** The decisions taken on the requests of one identifier. *)
Fixpoint decisionsFor (identifier : jsstring) (requests : list (Z * jsstring))
  (decisions : list bool) : list bool :=
  match requests, decisions with
  | (_, i) :: later, d :: more =>
      if str_eqb i identifier
      then d :: decisionsFor identifier later more
      else decisionsFor identifier later more
  | _, _ => []
  end.

(** The requests of one identifier. *)
Definition requestsOf (identifier : jsstring) (requests : list (Z * jsstring))
  : list (Z * jsstring) :=
  filter (fun r => str_eqb (snd r) identifier) requests.

(** The identifier has no record, or its window is over at [now]. *)
Definition windowOver (m : Chat.RateLimitMap) (identifier : jsstring) (now : Z)
  : Prop :=
  match Chat.mapGet m identifier with
  | None => True
  | Some record => (now > Chat.resetTime record)%Z
  end.

(** *** The retries of [generateEmbedding] *)

(** The request of one attempt. *)
Definition embeddingRequest {number} (text : jsstring) : request number :=
  EmbeddingsCreate (One text) Embeddings.EMBEDDING_MODEL
    Embeddings.EMBEDDING_DIMENSIONS.

(** A failed attempt and the pause that follows it: 1000 ms doubled at
    each attempt. *)
Definition failedAttempt {number} (text : jsstring) (attempt : nat)
  : history number :=
  [embeddingRequest text; Sleep (1000 * 2 ^ Z.of_nat attempt)].

(** The requests of [n] failed attempts, each followed by its pause,
    and of one more attempt. *)
Definition backoffTrace {number} (text : jsstring) (n : nat) : history number :=
  flat_map (failedAttempt text) (seq 0 n) ++ [embeddingRequest text].

Definition isEmbeddingsCreate {number} (r : request number) : bool :=
  match r with
  | EmbeddingsCreate _ _ _ => true
  | _ => false
  end.

(** The number of calls to the provider of embeddings in a history. *)
Definition embeddingCalls {number} (h : history number) : nat :=
  length (filter isEmbeddingsCreate h).

(** The key of the provider of embeddings is set. *)
Definition openAIKeySet {number} (w : world number) : Prop :=
  exists c k, OPENAI_API_KEY w = Some (c :: k).

(** A world whose provider rejects the first two calls for embeddings
    and then returns the vector [[7]]. *)
Definition recoveringWorld : world nat :=
  {| OPENAI_API_KEY := Some (lit "key");
     PINECONE_API_KEY := Some (lit "key");
     answer := fun h r =>
       match r with
       | EmbeddingsCreate _ _ _ =>
           if embeddingCalls h <? 2 then Failed (lit "429 rate limit")
           else EmbeddingData [[7%nat]]
       | _ => Settled
       end;
     completion := fun _ _ => [] |}.

(** A world whose provider rejects every request as invalid. *)
Definition invalidWorld : world nat :=
  {| OPENAI_API_KEY := Some (lit "key");
     PINECONE_API_KEY := Some (lit "key");
     answer := fun _ _ => Failed (lit "400 invalid input");
     completion := fun _ _ => [] |}.

(** *** The content of the chunks *)

(** The sentences that each group adds to the overlap it starts with:
    [previous] is the group before the first of [groups]. *)
Fixpoint freshParts (overlap : Z) (previous : list jsstring)
  (groups : list (list jsstring)) : list jsstring :=
  match groups with
  | [] => []
  | g :: later =>
      skipn (length (getOverlapSentences previous overlap)) g
      ++ freshParts overlap g later
  end.

(** *** White space *)

(** Each run of white space replaced by one space; [afterSpace] tells
    that the run has started. *)
Fixpoint collapse (afterSpace : bool) (s : jsstring) : jsstring :=
  match s with
  | [] => []
  | c :: tl =>
      if isWhiteSpace c
      then (if afterSpace then collapse true tl else 32%N :: collapse true tl)
      else c :: collapse false tl
  end.

(** The only white space of [s] is the space U+0020 and no two spaces
    follow each other; [afterSpace] tells that a space precedes [s]. *)
Fixpoint singleSpaces (afterSpace : bool) (s : jsstring) : bool :=
  match s with
  | [] => true
  | c :: tl =>
      if isWhiteSpace c
      then (c =? 32)%N && negb afterSpace && singleSpaces true tl
      else singleSpaces false tl
  end.

(** Words separated by single spaces, with no white space at either
    end. *)
Definition normalized (s : jsstring) : Prop :=
  singleSpaces false s = true /\ trim s = s.

Definition AMP : char16 := ch "&".

(** No code unit of the string is white space. *)
Definition noSpace (s : jsstring) : Prop :=
  Forall (fun c => isWhiteSpace c = false) s.

(** *** The records written to the index *)

(** The records that the upsert requests of a history write, in order. *)
Definition upserted {number} (h : history number) : list (VectorRecord number) :=
  flat_map (fun r => match r with IndexUpsert batch => batch | _ => [] end) h.

Definition notUpsert {number} (r : request number) : Prop :=
  match r with
  | IndexUpsert _ => False
  | _ => True
  end.

(** The key of the index is set. *)
Definition pineconeKeySet {number} (w : world number) : Prop :=
  exists c k, PINECONE_API_KEY w = Some (c :: k).

(** The index accepts every upsert. *)
Definition indexAccepts {number} (w : world number) : Prop :=
  forall h batch e, answer w h (IndexUpsert batch) <> Failed e.

(** The record of a chunk: its identifier, the vector of its text and
    its metadata. *)
Definition recordOf {number} (embed : jsstring -> vector number)
  (m : Ingest.Mapping) : VectorRecord number :=
  {| id := Pinecone.buildVectorId (Ingest.m_articleId m) (Ingest.m_chunkIndex m);
     values := embed (Ingest.m_content m);
     metadata :=
       {| title := Ingest.m_title m;
          url := Ingest.m_url m;
          content := Ingest.m_content m;
          chunkIndex := Ingest.m_chunkIndex m;
          articleId := Ingest.m_articleId m |} |}.

(** The state of the ingestion of a batch before its first row. *)
Definition nothingCollected : Ingest.Collected :=
  {| Ingest.stats := Ingest.emptyStats; Ingest.allChunkTexts := [];
     Ingest.chunkToVectorMap := [] |}.

(** A world whose index rejects the second upsert. *)
Definition fullIndexWorld : world nat :=
  {| OPENAI_API_KEY := Some (lit "key");
     PINECONE_API_KEY := Some (lit "key");
     answer := fun h r =>
       match r with
       | IndexUpsert _ =>
           if length h =? 1 then Failed (lit "quota") else Settled
       | _ => Settled
       end;
     completion := fun _ _ => [] |}.

(** Three records told apart by their identifiers. *)
Definition recordNamed (name : string) : VectorRecord nat :=
  {| id := lit name; values := [];
     metadata := {| title := []; url := []; content := [];
                    chunkIndex := 0; articleId := [] |} |}.

(** *** The prompts of the orchestrator *)

(** A turn of the conversation as a message to the model. *)
Definition turnMessage (turn : Rag.historyRole * jsstring) : ChatMessage :=
  {| msg_role := match fst turn with
                 | Rag.FromUser => User
                 | Rag.FromAssistant => Assistant
                 end;
     msg_content := snd turn |}.

(** A prompt of the orchestrator: the system prompt, then the last six
    turns of the conversation at most, in their order, then one user
    message that holds the query. *)
Definition boundedPrompt (query : jsstring)
  (turns : list (Rag.historyRole * jsstring)) (messages : list ChatMessage)
  : Prop :=
  exists context,
    messages
    = [{| msg_role := System; msg_content := Rag.buildSystemPrompt |}]
      ++ map turnMessage (skipn (length turns - 6) turns)
      ++ [{| msg_role := User; msg_content := context |}]
    /\ includes context query = true
    /\ length messages <= 8.

(** The one request to the generative model, with the prompt [Good]. *)
Definition oneChatRequest {number} (Good : list ChatMessage -> Prop)
  (stream : bool) (tail : history number) : Prop :=
  exists messages temperature max_tokens,
    tail = [ChatCreate (lit "gpt-4o") messages temperature max_tokens stream]
    /\ Good messages.

(** A world that retrieves one chunk and answers with no content. *)
Definition oneChunkWorld : world nat :=
  {| OPENAI_API_KEY := Some (lit "key");
     PINECONE_API_KEY := Some (lit "key");
     answer := fun _ r =>
       match r with
       | EmbeddingsCreate _ _ _ => EmbeddingData [[1%nat]]
       | IndexQuery _ _ _ =>
           QueryMatches
             (Some [ {| sv_id := lit "article-7-chunk-0";
                        sv_score := None;
                        sv_metadata :=
                          {| title := lit "Grit"; url := lit "u";
                             content := lit "Keep going.";
                             chunkIndex := 0; articleId := lit "7" |} |} ])
       | ChatCreate _ _ _ _ _ => ChatCompletion (lit "gpt-4o") [None]
       | _ => Settled
       end;
     completion := fun _ _ => [] |}.

(** *** Bursts at the boundary of a window *)

(** The state of the limiter after a sequence of requests. *)
Fixpoint limiterAfter (m : Chat.RateLimitMap) (requests : list (Z * jsstring))
  (maxRequests windowMs : option Z) : Chat.RateLimitMap :=
  match requests with
  | [] => m
  | (now, identifier) :: later =>
      limiterAfter
        (snd (Chat.checkRateLimit m now identifier maxRequests windowMs))
        later maxRequests windowMs
  end.

(** One request that opens a window at [start], [n - 1] requests in
    the last millisecond of that window, and [n] requests in the
    millisecond after it. *)
Definition boundaryBurst (start windowMs : Z) (n : nat) : list Z :=
  (start :: repeat (start + windowMs)%Z (n - 1))
  ++ repeat (start + windowMs + 1)%Z n.

(** *** The requests of the summarizer *)

(** The request of [summarizeText] on a text. *)
Definition summaryRequest {number} (temperature03 : number) (text : jsstring)
  (maxTokens : Z) : request number :=
  ChatCreate (lit "gpt-4o-mini")
    [ {| msg_role := System; msg_content := Summarizer.summarizerPrompt |};
      {| msg_role := User; msg_content := text |} ]
    temperature03 maxTokens false.

(** The service rejects the request whenever it is made. *)
Definition alwaysRejects {number} (w : world number) (r : request number)
  : Prop :=
  forall h, exists e, answer w h r = Failed e.

(** The configuration of the first stage of [twoStageSummarization]. *)
Definition stageConfig : ChunkConfig :=
  {| maxTokens := Some 6000%Z; overlap := Some 200%Z;
     preserveSentences := Some true |}.

(** A message of 70,001 characters, estimated at 20,001 tokens. *)
Definition veryLongMessage : jsstring := repeat (ch "a") (Z.to_nat 70001).

(** *** The fuel of the ingestion *)

(** The text that [prepareArticle] cuts into chunks for a row. *)
Definition articleText (row : Ingest.Article) : jsstring :=
  Ingest.a_title row ++ [NL; NL] ++ cleanHTML (Ingest.a_content row).

(** Fuel that covers the preparation of every row of a batch. *)
Definition preparationFuel (batchArticles : list Ingest.Article) : nat :=
  list_max (map (fun row => enoughFuel (articleText row)) batchArticles).

(** Fuel that covers the ingestion of a batch: the preparation of its
    rows, and the loops that cut the chunks collected and their records
    into batches. *)
Definition ingestFuel (batchArticles : list Ingest.Article) : nat :=
  let prepared := preparationFuel batchArticles in
  match Ingest.collect prepared batchArticles nothingCollected with
  | Some collected =>
      Nat.max prepared (length (Ingest.allChunkTexts collected))
  | None => prepared
  end.

(** Two rows: one without a title, and [article7]. *)
Definition untitledArticle : Ingest.Article :=
  {| Ingest.a_id := lit "8"; Ingest.a_title := [];
     Ingest.a_url := lit "https://aom.example/untitled";
     Ingest.a_content := lit "<p>Lost.</p>" |}.

(** *** The chunks of [chunkText], segment by segment *)

(** The sentence loop of [chunkText] cuts the sentences into stretches
    of sentences that each fit in a chunk, separated by the sentences
    that do not. *)
Inductive segment : Type :=
| Stretch (sentences : list jsstring)
| Oversized (sentence : jsstring).

(** [stretch] holds the sentences of the stretch that is open. *)
Fixpoint segmentsOf (maxTokens : Z) (sentences : list jsstring)
  (stretch : list jsstring) : list segment :=
  match sentences with
  | [] => [Stretch stretch]
  | sentence :: more =>
      if (estimateTokens sentence >? maxTokens)%Z
      then Stretch stretch :: Oversized sentence :: segmentsOf maxTokens more []
      else segmentsOf maxTokens more (stretch ++ [sentence])
  end.

Definition sentencesOf (seg : segment) : list jsstring :=
  match seg with
  | Stretch sentences => sentences
  | Oversized sentence => [sentence]
  end.

(** The chunks of a segment: the joined groups of the sentences of a
    stretch, the word chunks of an oversized sentence. *)
Definition chunksOf (fuel : nat) (maxTokens overlap : Z) (seg : segment)
  : option (list jsstring) :=
  match seg with
  | Stretch sentences =>
      Some (map (join SPACE) (sentenceGroups sentences maxTokens overlap))
  | Oversized sentence => chunkByWords fuel sentence maxTokens overlap
  end.

Fixpoint chunksOfSegments (fuel : nat) (maxTokens overlap : Z)
  (segments : list segment) : option (list jsstring) :=
  match segments with
  | [] => Some []
  | seg :: later =>
      match chunksOf fuel maxTokens overlap seg,
            chunksOfSegments fuel maxTokens overlap later with
      | Some chunks, Some more => Some (chunks ++ more)
      | _, _ => None
      end
  end.

(** The chunks of the sentence loop in a state: those it has pushed and
    the group it holds, as [chunkText] pushes it after the loop. *)
Definition finished (st : loopState) : list jsstring :=
  if nonEmpty (currentChunk st)
  then TextProcessing.chunks st ++ [join SPACE (currentChunk st)]
  else TextProcessing.chunks st.

(** The words of the iteration [k] of the loop of [chunkByWords]. *)
Definition wordWindow (words : list jsstring) (maxWords step : Z) (k : nat)
  : list jsstring :=
  slice words (Z.of_nat k * step) (Z.of_nat k * step + maxWords).

(** The number of iterations of that loop, for a positive step: the
    least [k] with [k * step >= words.length]. *)
Definition windowCount (words : list jsstring) (step : Z) : nat :=
  Z.to_nat ((Z.of_nat (length words) + step - 1) / step).

Definition wordWindows (text : jsstring) (maxTokens overlap : Z)
  : list (list jsstring) :=
  let words := split spacesRegex text in
  let maxWords := wordsFor maxTokens in
  let step := (maxWords - wordsFor overlap)%Z in
  map (wordWindow words maxWords step) (seq 0 (windowCount words step)).

(** [w'] starts with the last words of [w]: one at least, [n] at most. *)
Definition sharing (n : Z) (w w' : list jsstring) : Prop :=
  exists before common after,
    common <> [] /\ (Z.of_nat (length common) <= n)%Z
    /\ w = before ++ common /\ w' = common ++ after.

(** A sentence of one token, a sentence of five tokens that is cut by
    words under [overlapConfig], and a sentence of one token. *)
Definition mixedText : jsstring := lit "Aa. Bbbb cccc dd ee. Cc.".

(** Some element of the first list is an element of the second. *)
Definition shareElement (a b : list jsstring) : bool :=
  existsb (fun x => existsb (str_eqb x) b) a.

End Vocabulary.

(** * Properties *)

Import JS Regex TextProcessing Effects Vocabulary.

(** ** The normalizer on the scenario input *)

Section Normalizer.

(** C7, as the specification words it, fails: the output of [cleanHTML]
    on the scenario input is not "Hello World!". *)
Lemma cleanHTML_scenario_not_glued :
  cleanHTML scenarioInput <> lit "Hello World!".
Proof. vm_compute. discriminate. Qed.

(** C7, amended: [cleanHTML] on the scenario input returns exactly
    "Hello World !".  Every tag is replaced by one space, the entity is
    decoded to a space and the runs of whitespace are collapsed and
    trimmed, so the space that replaces the closing bold tag stays
    between "World" and the exclamation mark. *)
Theorem cleanHTML_scenario :
  cleanHTML scenarioInput = lit "Hello World !".
Proof. vm_compute. reflexivity. Qed.

End Normalizer.

(** ** Requests made by a computation *)

Section Emits.
Context {number : Type}.
Notation M := (M number).
Notation request := (request number).

Lemma emits_ret {A} (P : request -> Prop) (a : A) : emits P (ret a).
Proof. intros w h. exists []. rewrite app_nil_r. auto. Qed.

Lemma emits_throw {A} (P : request -> Prop) e : emits P (@throw number A e).
Proof. intros w h. exists []. rewrite app_nil_r. auto. Qed.

Lemma emits_hang {A} (P : request -> Prop) : emits P (@hang number A).
Proof. intros w h. exists []. rewrite app_nil_r. auto. Qed.

Lemma emits_env (P : request -> Prop) : emits P (@env number).
Proof. intros w h. exists []. rewrite app_nil_r. auto. Qed.

Lemma emits_past (P : request -> Prop) : emits P (@past number).
Proof. intros w h. exists []. rewrite app_nil_r. auto. Qed.

Lemma emits_call (P : request -> Prop) r : P r -> emits P (call r).
Proof. intros Hr w h. exists [r]. simpl. auto. Qed.

Lemma emits_bind {A B} (P : request -> Prop) (m : M A) (f : A -> M B) :
  emits P m -> (forall a, emits P (f a)) -> emits P (bind m f).
Proof.
  intros Hm Hf w h. unfold bind.
  destruct (Hm w h) as [n1 [E1 F1]].
  destruct (m w h) as [[a | e |] h1]; simpl in E1; subst h1.
  - destruct (Hf a w (h ++ n1)) as [n2 [E2 F2]].
    exists (n1 ++ n2). rewrite E2, app_assoc. split; auto.
    apply Forall_app; auto.
  - exists n1. auto.
  - exists n1. auto.
Qed.

Lemma emits_tryCatch {A} (P : request -> Prop) (m : M A) (handler : jsstring -> M A) :
  emits P m -> (forall e, emits P (handler e)) -> emits P (tryCatch m handler).
Proof.
  intros Hm Hf w h. unfold tryCatch.
  destruct (Hm w h) as [n1 [E1 F1]].
  destruct (m w h) as [[a | e |] h1]; simpl in E1; subst h1.
  - exists n1. auto.
  - destruct (Hf e w (h ++ n1)) as [n2 [E2 F2]].
    exists (n1 ++ n2). rewrite E2, app_assoc. split; auto.
    apply Forall_app; auto.
  - exists n1. auto.
Qed.

Lemma emits_runScheduled {A} (P : request -> Prop) (tasks : list (M A)) :
  Forall (emits P) tasks ->
  forall sched slots, emits P (runScheduled sched tasks slots).
Proof.
  intros Ht sched. induction sched as [| j later IH]; intros slots; simpl.
  - apply emits_ret.
  - destruct (nth_error tasks j) as [task |] eqn:Ej; [| apply IH].
    destruct (nth_error slots j) as [[x |] |]; try apply IH.
    apply emits_bind.
    + rewrite Forall_forall in Ht. apply Ht. eapply nth_error_In; eauto.
    + intros r. apply IH.
Qed.

Lemma emits_promiseAll {A} (P : request -> Prop) (tasks : list (M A)) :
  Forall (emits P) tasks -> emits P (promiseAll tasks).
Proof.
  intros Ht. unfold promiseAll.
  apply emits_bind; [apply emits_env |]. intros w.
  apply emits_bind; [apply emits_past |]. intros h.
  apply emits_bind; [apply emits_runScheduled; assumption |].
  intros slots. destruct (allSettled slots); [apply emits_ret | apply emits_hang].
Qed.

(** The history a computation leaves extends the one it starts from. *)
Lemma emits_run {A} (P : request -> Prop) (m : M A) w h r h' :
  emits P m -> m w h = (r, h') -> exists new, h' = h ++ new /\ Forall P new.
Proof.
  intros Hm E. destruct (Hm w h) as [new [E1 F1]].
  rewrite E in E1. simpl in E1. eauto.
Qed.

End Emits.

Create HintDb emits.

#[local] Hint Resolve emits_ret emits_throw emits_hang emits_env emits_past
  emits_call : emits.

(** ** The requests of the embedding client *)

Section EmbeddingRequests.
Import Embeddings.
Context {number : Type}.
Variable P : request number -> Prop.
Hypothesis P_embeddings : forall input model dims, P (EmbeddingsCreate input model dims).
Hypothesis P_sleep : forall ms, P (Sleep ms).
Hypothesis P_progress : forall completed total, P (Progress completed total).

Lemma emits_createEmbeddings input :
  emits P (@createEmbeddings number input).
Proof.
  unfold createEmbeddings. apply emits_bind.
  - apply emits_call. apply P_embeddings.
  - intros [e | d | m | md c | d f |]; auto with emits.
Qed.

Lemma emits_attempts text retries remaining :
  forall attempt lastError,
    emits P (@attempts number text retries remaining attempt lastError).
Proof.
  induction remaining as [| rem IH]; intros attempt lastError; simpl.
  - auto with emits.
  - apply emits_tryCatch.
    + apply emits_bind; [apply emits_createEmbeddings |].
      intros [| e d]; auto with emits.
    + intros e. destruct (includes e (lit "invalid")); [auto with emits |].
      apply emits_bind; [| intros _; apply IH].
      destruct (attempt <? retries); [| auto with emits].
      apply emits_bind; [| auto with emits].
      apply emits_call. apply P_sleep.
Qed.

Lemma emits_getOpenAIClient (Q : request number -> Prop) :
  emits Q (@getOpenAIClient number).
Proof.
  unfold getOpenAIClient. apply emits_bind; [apply emits_env |].
  intros w. destruct (OPENAI_API_KEY w) as [[| c k] |]; auto with emits.
Qed.

Lemma emits_generateEmbedding text retries :
  emits P (@generateEmbedding number text retries).
Proof.
  unfold generateEmbedding. destruct (negb (nonBlank text)); [auto with emits |].
  apply emits_bind; [apply emits_getOpenAIClient |].
  intros _. apply emits_attempts.
Qed.

Lemma emits_attachIndices (Q : request number -> Prop) :
  forall items rows, emits Q (@attachIndices number items rows).
Proof.
  induction items as [| item items IH]; intros rows; simpl;
    [auto with emits |].
  destruct rows as [| row rows]; [auto with emits |].
  apply emits_bind; [apply IH | auto with emits].
Qed.

Lemma emits_embedBatch batch : emits P (@embedBatch number batch).
Proof.
  unfold embedBatch. apply emits_tryCatch.
  - apply emits_bind; [apply emits_getOpenAIClient |]. intros _.
    apply emits_bind; [apply emits_createEmbeddings |]. intros data.
    apply emits_attachIndices.
  - intros _. apply emits_promiseAll. apply Forall_forall. intros t Ht.
    apply in_map_iff in Ht. destruct Ht as [item [<- _]].
    apply emits_bind; [apply emits_generateEmbedding | auto with emits].
Qed.

Lemma emits_processGroups report total :
  forall groups completed allEmbeddings,
    emits P (@processGroups number groups report total completed allEmbeddings).
Proof.
  induction groups as [| g later IH]; intros completed allEmbeddings; simpl;
    [auto with emits |].
  apply emits_bind.
  - apply emits_promiseAll. apply Forall_forall. intros t Ht.
    apply in_map_iff in Ht. destruct Ht as [batch [<- _]].
    apply emits_embedBatch.
  - intros results. apply emits_bind; [| intros _; apply IH].
    destruct report; [| auto with emits].
    apply emits_bind; [apply emits_call, P_progress | auto with emits].
Qed.

Lemma emits_batchGenerateEmbeddings fuel texts options :
  emits P (@batchGenerateEmbeddings number fuel texts options).
Proof.
  unfold batchGenerateEmbeddings. destruct texts as [| t texts];
    [auto with emits |].
  destruct (slices fuel _ _ 0 []) as [batches |]; [| auto with emits].
  destruct (slices fuel batches _ 0 []) as [groups |]; [| auto with emits].
  apply emits_bind; [apply emits_processGroups | auto with emits].
Qed.

End EmbeddingRequests.

(** ** The orchestrator on an empty retrieval *)

Section Orchestrator.
Import Pinecone Embeddings Rag.
Context {number : Type}.
Variables (zero : number) (falsy : number -> bool) (temperature03 : number).
Variables (percent : number -> jsstring) (encode : jsstring -> list N).

Lemma emits_getIndex (Q : request number -> Prop) : emits Q (@getIndex number).
Proof.
  unfold getIndex. apply emits_bind; [apply emits_env |].
  intros w. destruct (PINECONE_API_KEY w) as [[| c k] |]; auto with emits.
Qed.

Lemma emits_queryVectors v options :
  emits notChat (queryVectors zero falsy v options).
Proof.
  unfold queryVectors. apply emits_bind; [apply emits_getIndex |]. intros _.
  apply emits_tryCatch; [| auto with emits].
  apply emits_bind.
  - apply emits_call. intros H; exact H.
  - intros [e | d | m | md c | d f |]; auto with emits.
Qed.

(** C1: when the embedding of the query succeeds and the retrieval
    returns no match, both variants of the orchestrator return the fixed
    answer with an empty citation list (and [retrievedChunks = 0] in the
    blocking variant), and the requests made along the way contain no
    request to the generative model. *)
Theorem empty_retrieval_short_circuit :
  forall query options w h v h1 h2,
    embedQuery query w h = (Ok v, h1) ->
    queryVectors zero falsy v
      {| qo_topK := Some (orDefault (topK options) 5%Z);
         qo_includeMetadata := Some true |} w h1 = (Ok [], h2) ->
    queryKnowledgeBase zero falsy temperature03 percent query options w h
    = (Ok {| answer := noInformation; citations := [];
             retrievedChunks := 0; model := lit "gpt-4o" |}, h2)
    /\ queryKnowledgeBaseStream zero falsy temperature03 percent encode
         query options w h
       = (Ok ({| enqueued := [encode noInformationStream]; ended := Closed |},
              []), h2)
    /\ exists new, h2 = h ++ new /\ Forall notChat new.
Proof.
  intros query options w h v h1 h2 Hembed Hquery.
  split; [| split].
  - unfold queryKnowledgeBase, bind. rewrite Hembed, Hquery. reflexivity.
  - unfold queryKnowledgeBaseStream, bind. rewrite Hembed, Hquery. reflexivity.
  - assert (Hgen : emits notChat (@generateEmbedding number query 3))
      by (apply emits_generateEmbedding; intros; intros H; exact H).
    destruct (emits_run _ _ _ _ _ _ Hgen Hembed) as [n1 [E1 F1]].
    destruct (emits_run _ _ _ _ _ _ (emits_queryVectors v _) Hquery)
      as [n2 [E2 F2]].
    exists (n1 ++ n2). subst h1 h2. rewrite app_assoc. split; [reflexivity |].
    apply Forall_app; auto.
Qed.

End Orchestrator.

(** The theorem at a world whose index has no match for the query. *)
Lemma empty_retrieval_short_circuit_witness :
  Rag.queryKnowledgeBase 0%nat (fun _ => false) 3%nat (fun _ => []) (lit "hi")
    noOptions emptyIndexWorld []
  = (Ok {| Rag.answer := Rag.noInformation; Rag.citations := [];
           Rag.retrievedChunks := 0; Rag.model := lit "gpt-4o" |},
     [EmbeddingsCreate (One (lit "hi")) Embeddings.EMBEDDING_MODEL 3072;
      IndexQuery [1%nat] 5 true]).
Proof.
  refine (proj1 (empty_retrieval_short_circuit 0%nat (fun _ => false) 3%nat
                   (fun _ => []) (fun s => s) (lit "hi") noOptions
                   emptyIndexWorld [] [1%nat] _ _ _ _)).
  - vm_compute. reflexivity.
  - vm_compute. reflexivity.
Defined.

(** ** Termination of the chunker *)

Section ChunkerTermination.

Lemma splitLoop_not_nil fuel r :
  forall p cur s, splitLoop fuel r p cur s <> [].
Proof.
  induction fuel as [| fuel IH]; intros p cur s; simpl; [discriminate |].
  destruct s as [| c tl]; [discriminate |].
  destruct (execAt r p (c :: tl)) as [st |]; [| apply IH].
  destruct ((length (rest st) =? length (c :: tl)) && (length cur =? 0));
    [apply IH | discriminate].
Qed.

Lemma splitLoop_length fuel r :
  forall p cur s, length (splitLoop fuel r p cur s) <= S fuel.
Proof.
  induction fuel as [| fuel IH]; intros p cur s; simpl; [lia |].
  destruct s as [| c tl]; [simpl; lia |].
  destruct (execAt r p (c :: tl)) as [st |].
  - destruct ((length (rest st) =? length (c :: tl)) && (length cur =? 0)).
    + specialize (IH (Some c) (c :: cur) tl). lia.
    + simpl. specialize (IH (prev st) [] (rest st)). lia.
  - specialize (IH (Some c) (c :: cur) tl). lia.
Qed.

Lemma words_not_nil text : split spacesRegex text <> [].
Proof.
  destruct text as [| c tl]; [vm_compute; discriminate |].
  unfold split. apply splitLoop_not_nil.
Qed.

Lemma words_length text : length (split spacesRegex text) <= 2 * length text + 3.
Proof.
  destruct text as [| c tl]; [vm_compute; lia |].
  unfold split. pose proof (splitLoop_length (2 * length (c :: tl) + 2)
                              spacesRegex None [] (c :: tl)). lia.
Qed.

Lemma chunkByWordsLoop_eq fuel words maxWords step i acc :
  chunkByWordsLoop fuel words maxWords step i acc =
  if (i <? Z.of_nat (length words))%Z then
    match fuel with
    | O => None
    | S fuel' =>
        let chunk := join SPACE (slice words i (i + maxWords)) in
        chunkByWordsLoop fuel' words maxWords step (i + step)
          (if nonEmpty (trim chunk) then acc ++ [chunk] else acc)
    end
  else Some acc.
Proof. destruct fuel; reflexivity. Qed.

Lemma chunkByWordsLoop_returns words maxWords step :
  (0 < step)%Z ->
  forall fuel i acc,
    (Z.of_nat (length words) - i <= Z.of_nat fuel)%Z ->
    exists r, chunkByWordsLoop fuel words maxWords step i acc = Some r.
Proof.
  intros Hstep. induction fuel as [| fuel IH]; intros i acc Hfuel;
    rewrite chunkByWordsLoop_eq.
  - destruct (Z.ltb_spec i (Z.of_nat (length words))); [lia | eauto].
  - destruct (Z.ltb_spec i (Z.of_nat (length words))); [| eauto].
    apply IH. lia.
Qed.

Lemma chunkByWordsLoop_loops words maxWords step :
  words <> [] -> (step <= 0)%Z ->
  forall fuel i acc,
    (i <= 0)%Z -> chunkByWordsLoop fuel words maxWords step i acc = None.
Proof.
  intros Hwords Hstep. induction fuel as [| fuel IH]; intros i acc Hi;
    rewrite chunkByWordsLoop_eq;
    destruct (Z.ltb_spec i (Z.of_nat (length words))) as [Hlt | Hge].
  - reflexivity.
  - destruct words; [congruence | simpl in Hge; lia].
  - apply IH. lia.
  - destruct words; [congruence | simpl in Hge; lia].
Qed.

Lemma chunkByWordsLoop_mono words maxWords step :
  forall fuel fuel' i acc r,
    chunkByWordsLoop fuel words maxWords step i acc = Some r ->
    fuel <= fuel' ->
    chunkByWordsLoop fuel' words maxWords step i acc = Some r.
Proof.
  induction fuel as [| fuel IH]; intros fuel' i acc r H Hle;
    rewrite chunkByWordsLoop_eq in H; rewrite chunkByWordsLoop_eq;
    destruct (i <? Z.of_nat (length words))%Z; try discriminate; auto.
  destruct fuel' as [| fuel']; [lia |].
  apply IH; [assumption | lia].
Qed.

Lemma chunkByWords_returns text maxT ov fuel :
  (wordsFor maxT > wordsFor ov)%Z ->
  2 * length text + 3 <= fuel ->
  exists r, chunkByWords fuel text maxT ov = Some r.
Proof.
  intros Hstep Hfuel. unfold chunkByWords.
  apply chunkByWordsLoop_returns; [lia |].
  pose proof (words_length text). lia.
Qed.

Lemma chunkByWords_mono text maxT ov fuel fuel' r :
  chunkByWords fuel text maxT ov = Some r -> fuel <= fuel' ->
  chunkByWords fuel' text maxT ov = Some r.
Proof. unfold chunkByWords. apply chunkByWordsLoop_mono. Qed.

Lemma chunkByWords_loops text maxT ov fuel :
  (wordsFor maxT <= wordsFor ov)%Z -> chunkByWords fuel text maxT ov = None.
Proof.
  intros Hstep. unfold chunkByWords.
  apply chunkByWordsLoop_loops; [apply words_not_nil | lia | lia].
Qed.

Lemma sentenceLoop_returns maxT ov fuel :
  (wordsFor maxT > wordsFor ov)%Z ->
  forall sentences st,
    Forall (fun s => 2 * length s + 3 <= fuel) sentences ->
    exists st', sentenceLoop fuel sentences maxT ov st = Some st'.
Proof.
  intros Hstep. induction sentences as [| s more IH]; intros st Hall; simpl.
  - eauto.
  - inversion Hall as [| ? ? Hs Hmore]; subst.
    destruct (estimateTokens s >? maxT)%Z.
    + destruct (chunkByWords_returns s maxT ov fuel Hstep Hs) as [wc Hwc].
      rewrite Hwc. apply IH; assumption.
    + apply IH; assumption.
Qed.

Lemma sentenceLoop_mono maxT ov fuel fuel' :
  fuel <= fuel' ->
  forall sentences st st',
    sentenceLoop fuel sentences maxT ov st = Some st' ->
    sentenceLoop fuel' sentences maxT ov st = Some st'.
Proof.
  intros Hle. induction sentences as [| s more IH]; intros st st' H;
    simpl in *; [assumption |].
  destruct (estimateTokens s >? maxT)%Z.
  - destruct (chunkByWords fuel s maxT ov) as [wc |] eqn:Hwc; [| discriminate].
    rewrite (chunkByWords_mono _ _ _ _ _ _ Hwc Hle). apply IH; assumption.
  - apply IH; assumption.
Qed.

Lemma chunkText_mono text config fuel fuel' chunks :
  chunkText fuel text config = Some chunks -> fuel <= fuel' ->
  chunkText fuel' text config = Some chunks.
Proof.
  unfold chunkText. intros H Hle.
  destruct (negb (nonBlank text)); [assumption |].
  destruct (estimateTokens text <=? orDefault (maxTokens config) 800)%Z;
    [assumption |].
  destruct (orDefault (preserveSentences config) true).
  - destruct (sentenceLoop fuel _ _ _ _) as [st |] eqn:Hloop; [| discriminate].
    rewrite (sentenceLoop_mono _ _ _ _ Hle _ _ _ Hloop). assumption.
  - destruct (chunkByWords fuel _ _ _) as [wc |] eqn:Hwc; [| discriminate].
    rewrite (chunkByWords_mono _ _ _ _ _ _ Hwc Hle). assumption.
Qed.

Lemma list_max_bound (l : list nat) :
  Forall (fun n => n <= list_max l) l.
Proof.
  apply Forall_forall. intros n Hn.
  pose proof (proj1 (list_max_le l (list_max l)) (le_n _)) as H.
  rewrite Forall_forall in H. auto.
Qed.

Lemma chunkText_returns text config fuel :
  (wordsFor (orDefault (maxTokens config) 800)
   > wordsFor (orDefault (overlap config) 200))%Z ->
  enoughFuel text <= fuel ->
  exists chunks, chunkText fuel text config = Some chunks.
Proof.
  intros Hstep Hfuel. unfold chunkText.
  destruct (negb (nonBlank text)); [eauto |].
  destruct (estimateTokens text <=? orDefault (maxTokens config) 800)%Z;
    [eauto |].
  pose proof (list_max_bound
                (map (@length char16) (text :: splitIntoSentences text)))
    as Hmax.
  rewrite Forall_map in Hmax. inversion Hmax as [| ? ? Htext Hsent]; subst.
  unfold enoughFuel in Hfuel.
  destruct (orDefault (preserveSentences config) true).
  - destruct (sentenceLoop_returns _ _ fuel Hstep (splitIntoSentences text)
                (LoopState [] [] 0)) as [st Hst].
    + eapply Forall_impl; [| exact Hsent]. cbv beta. intros s Hs.
      eapply Nat.le_trans; [| exact Hfuel].
      apply Nat.add_le_mono_r, Nat.mul_le_mono_l. exact Hs.
    + rewrite Hst. eauto.
  - destruct (chunkByWords_returns text _ _ fuel Hstep) as [wc Hwc].
    + eapply Nat.le_trans; [| exact Hfuel].
      apply Nat.add_le_mono_r, Nat.mul_le_mono_l. exact Htext.
    + rewrite Hwc. eauto.
Qed.

Lemma sentenceLoop_loops maxT ov fuel :
  (wordsFor maxT <= wordsFor ov)%Z ->
  forall sentences st,
    Exists (fun s => (estimateTokens s > maxT)%Z) sentences ->
    sentenceLoop fuel sentences maxT ov st = None.
Proof.
  intros Hstep. induction sentences as [| s more IH]; intros st Hex;
    [inversion Hex |]. simpl.
  destruct (Z.gtb_spec (estimateTokens s) maxT) as [Hbig | Hsmall].
  - rewrite chunkByWords_loops by assumption. reflexivity.
  - inversion Hex; subst; [lia |]. apply IH. assumption.
Qed.

(** C10: when the step of the word loop is positive, [chunkText] returns
    a list for every text, the same for all sufficient fuel; the default
    configuration (800, 200) has a positive step; and when the step is
    not positive the word loop never returns, so that [chunkText] does
    not return on any text that reaches the fallback (a text too long
    for one chunk with an oversized sentence, or with sentence
    preservation switched off). *)
Theorem chunkText_terminates :
  (forall text config,
     (wordsFor (orDefault (maxTokens config) 800)
      > wordsFor (orDefault (overlap config) 200))%Z ->
     exists chunks, forall fuel,
       enoughFuel text <= fuel -> chunkText fuel text config = Some chunks)
  /\ (wordsFor 800 > wordsFor 200)%Z
  /\ (forall text maxT ov fuel,
        (wordsFor maxT <= wordsFor ov)%Z ->
        chunkByWords fuel text maxT ov = None)
  /\ (forall text maxT ov keep fuel,
        (wordsFor maxT <= wordsFor ov)%Z ->
        nonBlank text = true ->
        (estimateTokens text > maxT)%Z ->
        (keep = true ->
         Exists (fun s => (estimateTokens s > maxT)%Z)
           (splitIntoSentences text)) ->
        chunkText fuel text
          {| maxTokens := Some maxT; overlap := Some ov;
             preserveSentences := Some keep |} = None).
Proof.
  split; [| split; [| split]].
  - intros text config Hstep.
    destruct (chunkText_returns text config (enoughFuel text) Hstep (le_n _))
      as [chunks Hchunks].
    exists chunks. intros fuel Hfuel.
    eapply chunkText_mono; eassumption.
  - vm_compute. reflexivity.
  - intros. apply chunkByWords_loops. assumption.
  - intros text maxT ov keep fuel Hstep Hblank Hlong Hfallback.
    unfold chunkText. simpl. rewrite Hblank. simpl.
    destruct (Z.leb_spec (estimateTokens text) maxT); [lia |].
    destruct keep.
    + rewrite sentenceLoop_loops; auto.
    + rewrite chunkByWords_loops by assumption. reflexivity.
Qed.

End ChunkerTermination.

(** The theorem under the default configuration, and on configurations
    whose step is zero. *)
Lemma chunkText_terminates_witness :
  (exists chunks, forall fuel,
     enoughFuel (lit "Hello there. How are you?") <= fuel ->
     chunkText fuel (lit "Hello there. How are you?") emptyConfig = Some chunks)
  /\ chunkByWords 1000 (lit "one two three") 1 1 = None
  /\ chunkText 1000 (lit "One two three. Four.")
       {| maxTokens := Some 1%Z; overlap := Some 1%Z;
          preserveSentences := Some true |} = None.
Proof.
  split; [| split].
  - apply (proj1 chunkText_terminates). vm_compute. reflexivity.
  - apply (proj1 (proj2 (proj2 chunkText_terminates))). vm_compute.
    discriminate.
  - apply (proj2 (proj2 (proj2 chunkText_terminates))).
    + vm_compute. discriminate.
    + vm_compute. reflexivity.
    + vm_compute. reflexivity.
    + intros _. vm_compute. left. reflexivity.
Defined.

(** ** Promises awaited together *)

Section Promises.
Context {number : Type}.
Notation M := (M number).

Lemma setSlot_length {A} (a : A) :
  forall j slots, length (setSlot j a slots) = length slots.
Proof.
  induction j as [| j IH]; intros [| x tl]; simpl; auto.
Qed.

Lemma setSlot_same {A} (a : A) :
  forall j slots, j < length slots -> nth_error (setSlot j a slots) j = Some (Some a).
Proof.
  induction j as [| j IH]; intros [| x tl] Hj; simpl in *; try lia; auto.
  apply IH. lia.
Qed.

Lemma setSlot_other {A} (a : A) :
  forall j slots i, i <> j -> nth_error (setSlot j a slots) i = nth_error slots i.
Proof.
  induction j as [| j IH]; intros [| x tl] i Hi; simpl; auto.
  - destruct i; [congruence | reflexivity].
  - destruct i; [reflexivity |]. simpl. apply IH. congruence.
Qed.

Lemma runScheduled_settles {A} (tasks : list (M A)) :
  forall sched slots w h slots' h',
    length slots = length tasks ->
    runScheduled sched tasks slots w h = (Ok slots', h') ->
    length slots' = length tasks
    /\ forall j, j < length tasks ->
                 In j sched \/ settledAt slots j -> settledAt slots' j.
Proof.
  induction sched as [| i later IH]; intros slots w h slots' h' Hlen Hrun;
    simpl in Hrun.
  - inversion Hrun; subst. split; [assumption |].
    intros j _ [[] | Hs]. assumption.
  - destruct (nth_error tasks i) as [task |] eqn:Ei.
    + destruct (nth_error slots i) as [[x |] |] eqn:Es.
      * destruct (IH _ _ _ _ _ Hlen Hrun) as [L S]. split; [assumption |].
        intros j Hj [[Hi | Hin] | Hs]; apply S; auto.
        subst. right. exists x. assumption.
      * unfold bind in Hrun.
        destruct (task w h) as [[r | e |] h1]; try discriminate.
        assert (Hlen' : length (setSlot i r slots) = length tasks)
          by (rewrite setSlot_length; assumption).
        destruct (IH _ _ _ _ _ Hlen' Hrun) as [L S]. split; [assumption |].
        intros j Hj Hcase. apply S; [assumption |].
        destruct (Nat.eq_dec j i) as [-> | Hne].
        -- right. exists r. apply setSlot_same. lia.
        -- destruct Hcase as [[Hi | Hin] | [a Ha]]; [congruence | auto |].
           right. exists a. rewrite setSlot_other; assumption.
      * apply nth_error_None in Es.
        assert (i < length tasks) by (apply nth_error_Some; congruence). lia.
    + destruct (IH _ _ _ _ _ Hlen Hrun) as [L S]. split; [assumption |].
      intros j Hj [[Hi | Hin] | Hs]; apply S; auto.
      subst. apply nth_error_None in Ei. lia.
Qed.

Lemma allSettled_total {A} :
  forall slots : list (option A),
    (forall j, j < length slots -> settledAt slots j) ->
    exists results, allSettled slots = Some results.
Proof.
  induction slots as [| x tl IH]; intros H; simpl; [eauto |].
  destruct (H 0) as [a Ha]; [simpl; lia |]. simpl in Ha. inversion Ha; subst.
  destruct IH as [l Hl].
  - intros j Hj. destruct (H (S j)) as [b Hb]; [simpl; lia |].
    exists b. exact Hb.
  - rewrite Hl. eauto.
Qed.

Lemma settles_ret {A} (a : A) : settles (@ret number A a).
Proof. intros w h. simpl. discriminate. Qed.

Lemma settles_throw {A} e : settles (@throw number A e).
Proof. intros w h. simpl. discriminate. Qed.

Lemma settles_call r : settles (@call number r).
Proof. intros w h. simpl. discriminate. Qed.

Lemma settles_env : settles (@env number).
Proof. intros w h. simpl. discriminate. Qed.

Lemma settles_past : settles (@past number).
Proof. intros w h. simpl. discriminate. Qed.

Lemma settles_bind {A B} (m : M A) (f : A -> M B) :
  settles m -> (forall a, settles (f a)) -> settles (bind m f).
Proof.
  intros Hm Hf w h. unfold bind. specialize (Hm w h).
  destruct (m w h) as [[a | e |] h1]; simpl in *;
    [apply Hf | discriminate | congruence].
Qed.

Lemma settles_tryCatch {A} (m : M A) (handler : jsstring -> M A) :
  settles m -> (forall e, settles (handler e)) -> settles (tryCatch m handler).
Proof.
  intros Hm Hf w h. unfold tryCatch. specialize (Hm w h).
  destruct (m w h) as [[a | e |] h1]; simpl in *;
    [discriminate | apply Hf | congruence].
Qed.

Lemma settles_runScheduled {A} (tasks : list (M A)) :
  Forall settles tasks ->
  forall sched slots, settles (runScheduled sched tasks slots).
Proof.
  intros Ht. induction sched as [| j later IH]; intros slots; simpl.
  - apply settles_ret.
  - destruct (nth_error tasks j) as [task |] eqn:Ej; [| apply IH].
    destruct (nth_error slots j) as [[x |] |]; try apply IH.
    apply settles_bind; [| intros r; apply IH].
    rewrite Forall_forall in Ht. apply Ht. eapply nth_error_In; eauto.
Qed.

Lemma repeat_None_unsettled {A} n j : ~ settledAt (repeat (@None A) n) j.
Proof.
  intros [a Ha]. apply nth_error_In, repeat_spec in Ha. discriminate.
Qed.

(** [Promise.all] over promises that settle settles. *)
Lemma settles_promiseAll {A} (tasks : list (M A)) :
  Forall settles tasks -> settles (promiseAll tasks).
Proof.
  intros Ht w h. unfold promiseAll, bind. simpl.
  set (sched := completion w h (length tasks) ++ seq 0 (length tasks)).
  set (slots := repeat None (length tasks)).
  pose proof (settles_runScheduled tasks Ht sched slots w h) as Hs.
  destruct (runScheduled sched tasks slots w h) as [[slots' | e |] h1] eqn:Hrun;
    simpl in *; [| discriminate | congruence].
  destruct (runScheduled_settles tasks sched slots w h slots' h1) as [L S];
    [apply repeat_length | assumption |].
  destruct (allSettled_total slots') as [results Hr].
  - intros j Hj. apply S; [lia |]. left. apply in_or_app. right.
    apply in_seq. lia.
  - rewrite Hr. simpl. discriminate.
Qed.

End Promises.

(** ** The summarizer *)

Section SummarizerProperties.
Import Summarizer.
Context {number : Type}.
Variable temperature03 : number.

(** C8: a message estimated under 6,000 tokens is returned as it is,
    with both token counts equal to its estimate, and the history of
    requests is left as it was: no model call is made. *)
Theorem short_message_passes_through :
  forall fuel message maxOutputTokens (w : world number) h,
    (estimateTokens message < 6000)%Z ->
    summarizeChatMessage temperature03 fuel message maxOutputTokens w h
    = (Ok {| summary := message;
             originalTokens := estimateTokens message;
             summaryTokens := estimateTokens message |}, h).
Proof.
  intros fuel message maxOutputTokens w h Hshort.
  unfold summarizeChatMessage.
  destruct (Z.leb_spec (estimateTokens message) 6000); [reflexivity | lia].
Qed.

Lemma firstn_min {A} (l : list A) n :
  firstn (Nat.min n (length l)) l = firstn n l.
Proof.
  destruct (Nat.le_ge_cases n (length l)) as [H | H].
  - rewrite Nat.min_l by assumption. reflexivity.
  - rewrite Nat.min_r by assumption.
    rewrite firstn_all, firstn_all2 by assumption. reflexivity.
Qed.

Lemma slice_prefix {A} (l : list A) n :
  (0 <= n)%Z -> slice l 0 n = firstn (Z.to_nat n) l.
Proof.
  intros Hn. unfold slice, relIndex.
  destruct (Z.ltb_spec n 0); [lia |]. simpl (0 <? 0)%Z. cbv iota.
  rewrite (Z.min_l 0) by lia. simpl skipn.
  rewrite Z.sub_0_r, Z2Nat.inj_min, Nat2Z.id. apply firstn_min.
Qed.

Lemma truncateToTokenLimit_hard message :
  (estimateTokens message > 6000)%Z ->
  truncateToTokenLimit message 6000 = hardTruncation message.
Proof.
  intros Hlong. unfold truncateToTokenLimit, hardTruncation.
  destruct (Z.leb_spec (estimateTokens message) 6000); [lia |].
  change ((7 * 6000) / 2)%Z with 21000%Z. unfold charBudget, finalFifth.
  rewrite slice_prefix by lia.
  set (window := firstn (Z.to_nat 21000) message).
  destruct (lastIndexOf window (ch ".")) as [p |].
  - destruct (Z.gtb_spec (5 * p) (4 * 21000)), (Z.gtb_spec p 16800);
      try lia; [| reflexivity].
    apply slice_prefix. lia.
  - reflexivity.
Qed.

Lemma settles_summarizeText text maxTokens :
  settles (summarizeText temperature03 text maxTokens).
Proof.
  unfold summarizeText. apply settles_bind; [apply settles_call |].
  intros [e | d | m | md [| [[| c cs] |] rest] | d f |];
    first [apply settles_ret | apply settles_throw].
Qed.

Lemma settles_summarizationAttempt fuel message maxOutputTokens :
  enoughFuel message <= fuel ->
  settles (summarizationAttempt temperature03 fuel message maxOutputTokens).
Proof.
  intros Hfuel. unfold summarizationAttempt.
  destruct (estimateTokens message >? 20000)%Z.
  - unfold twoStageSummarization.
    destruct (chunkText_returns message
                {| maxTokens := Some 6000%Z; overlap := Some 200%Z;
                   preserveSentences := Some true |} fuel) as [chunks Hc];
      [vm_compute; reflexivity | assumption |].
    rewrite Hc. apply settles_bind.
    + apply settles_promiseAll. apply Forall_forall. intros t Ht.
      apply in_map_iff in Ht. destruct Ht as [chunk [<- _]].
      apply settles_summarizeText.
    + intros summaries. apply settles_bind; [apply settles_summarizeText |].
      intros s. apply settles_ret.
  - apply settles_bind; [apply settles_summarizeText |].
    intros s. apply settles_ret.
Qed.

(** The handler of [summarizeChatMessage]: on a message over 6,000
    estimated tokens, whenever the attempt to summarize throws,
    [summarizeChatMessage] returns the hard truncation of the message
    (the first 21,000 characters, cut back to the last period when it
    lies beyond position 16,800, otherwise with an ellipsis appended);
    in particular it does so when the model rejects the request of the
    single pass.  On no message, world or history does
    [summarizeChatMessage] throw, and with enough fuel it returns. *)
Lemma summarizeChatMessage_catches :
  forall fuel message maxOutputTokens (w : world number) h,
    (forall e h1,
       (estimateTokens message > 6000)%Z ->
       summarizationAttempt temperature03 fuel message
         (orDefault maxOutputTokens 2000%Z) w h = (Throw e, h1) ->
       summarizeChatMessage temperature03 fuel message maxOutputTokens w h
       = (Ok {| summary := hardTruncation message;
                originalTokens := estimateTokens message;
                summaryTokens := estimateTokens (hardTruncation message) |},
          h1))
    /\ (forall e prompt,
          (6000 < estimateTokens message <= 20000)%Z ->
          prompt = ChatCreate (lit "gpt-4o-mini")
                     [ {| msg_role := System; msg_content := summarizerPrompt |};
                       {| msg_role := User; msg_content := message |} ]
                     temperature03 (orDefault maxOutputTokens 2000%Z) false ->
          answer w h prompt = Failed e ->
          summarizeChatMessage temperature03 fuel message maxOutputTokens w h
          = (Ok {| summary := hardTruncation message;
                   originalTokens := estimateTokens message;
                   summaryTokens := estimateTokens (hardTruncation message) |},
             h ++ [prompt]))
    /\ (forall e h1,
          summarizeChatMessage temperature03 fuel message maxOutputTokens w h
          <> (Throw e, h1))
    /\ (enoughFuel message <= fuel ->
        exists s h1,
          summarizeChatMessage temperature03 fuel message maxOutputTokens w h
          = (Ok s, h1)).
Proof.
  intros fuel message maxOutputTokens w h.
  assert (Hcatch : forall e h1,
    (estimateTokens message > 6000)%Z ->
    summarizationAttempt temperature03 fuel message
      (orDefault maxOutputTokens 2000%Z) w h = (Throw e, h1) ->
    summarizeChatMessage temperature03 fuel message maxOutputTokens w h
    = (Ok {| summary := hardTruncation message;
             originalTokens := estimateTokens message;
             summaryTokens := estimateTokens (hardTruncation message) |}, h1)).
  { intros e h1 Hlong Hthrow. unfold summarizeChatMessage.
    destruct (Z.leb_spec (estimateTokens message) 6000); [lia |].
    unfold tryCatch. rewrite Hthrow. unfold ret.
    rewrite truncateToTokenLimit_hard by assumption. reflexivity. }
  split; [exact Hcatch | split; [| split]].
  - intros e prompt [Hlong Hmid] -> Hfail. apply (Hcatch e); [lia |].
    unfold summarizationAttempt.
    destruct (Z.gtb_spec (estimateTokens message) 20000); [lia |].
    unfold bind, summarizeText, bind, call. rewrite Hfail. reflexivity.
  - intros e h1. unfold summarizeChatMessage.
    destruct (estimateTokens message <=? 6000)%Z; [discriminate |].
    unfold tryCatch.
    destruct (summarizationAttempt _ _ _ _ w h) as [[s | e' |] h2];
      discriminate.
  - intros Hfuel. unfold summarizeChatMessage.
    destruct (estimateTokens message <=? 6000)%Z; [unfold ret; eauto |].
    pose proof (settles_summarizationAttempt fuel message
                  (orDefault maxOutputTokens 2000%Z) Hfuel w h) as Hs.
    unfold tryCatch.
    destruct (summarizationAttempt _ _ _ _ w h) as [[s | e' |] h2];
      simpl in Hs; [eauto | unfold ret; eauto | congruence].
Qed.

End SummarizerProperties.

(** The passage of a short message. *)
Lemma short_message_passes_through_witness :
  Summarizer.summarizeChatMessage 3%nat 0 (lit "What is stoicism?") None
    failingModelWorld []
  = (Ok {| Summarizer.summary := lit "What is stoicism?";
           Summarizer.originalTokens := 5;
           Summarizer.summaryTokens := 5 |}, []).
Proof.
  apply (short_message_passes_through 3%nat 0 (lit "What is stoicism?") None
           failingModelWorld []).
  vm_compute. reflexivity.
Defined.

(** ** Vector identifiers *)

Section VectorIds.
Import Pinecone.

Lemma rmatch_seq r1 r2 st k :
  rmatch (Seq r1 r2) st k = rmatch r1 st (fun st' => rmatch r2 st' k).
Proof. reflexivity. Qed.

Lemma rmatch_group i r st k :
  rmatch (Group i r) st k
  = rmatch r st (fun st' =>
      k (MState (prev st') (rest st') ((i, consumed st st') :: caps st'))).
Proof. reflexivity. Qed.

Lemma rmatch_chr p pv c tl cs k :
  rmatch (Chr p) (MState pv (c :: tl) cs) k
  = if p c then k (MState (Some c) tl cs) else None.
Proof. reflexivity. Qed.

Lemma rmatch_eol pv cs k : rmatch Eol (MState pv [] cs) k = k (MState pv [] cs).
Proof. reflexivity. Qed.

Lemma rmatch_bol s cs k : rmatch Bol (MState None s cs) k = k (MState None s cs).
Proof. reflexivity. Qed.

Lemma starLoop_chr p k :
  forall n s pv cs,
    length s <= n ->
    starLoop (rmatch (Chr p)) true k n (MState pv s cs) = starChr p pv s cs k.
Proof.
  induction n as [| n IH]; intros s pv cs Hn.
  - destruct s; [reflexivity | simpl in Hn; lia].
  - destruct s as [| c tl]; [reflexivity |].
    cbn [starLoop rmatch rest caps starChr].
    destruct (p c); [| reflexivity].
    cbn [rest length].
    destruct (Nat.ltb_spec (length tl) (S (length tl))) as [_ | H]; [| lia].
    rewrite IH by (simpl in Hn; lia). reflexivity.
Qed.

Lemma star_chr p pv s cs k :
  rmatch (Star true (Chr p)) (MState pv s cs) k = starChr p pv s cs k.
Proof. apply starLoop_chr. reflexivity. Qed.

Lemma starChr_backtrack p ys cs k r :
  forall xs pv,
    Forall (fun c => p c = true) xs ->
    starChr p (lastOr pv xs) ys cs k = Some r ->
    starChr p pv (xs ++ ys) cs k = Some r.
Proof.
  induction xs as [| c xs IH]; intros pv Hall H; [exact H |].
  inversion Hall as [| ? ? Hc Hxs]; subst. simpl.
  rewrite Hc. rewrite (IH (Some c) Hxs H). reflexivity.
Qed.

Lemma starChr_suffixes p cs k :
  forall ys pv,
    (forall v u pv', v <> [] -> ys = v ++ u -> k (MState pv' u cs) = None) ->
    starChr p pv ys cs k = k (MState pv ys cs).
Proof.
  induction ys as [| c tl IH]; intros pv Hfail; [reflexivity |]. simpl.
  destruct (p c); [| reflexivity].
  rewrite IH.
  - rewrite (Hfail [c] tl (Some c)); [reflexivity | discriminate | reflexivity].
  - intros v u pv' Hv Hu. apply (Hfail (c :: v) u pv'); [discriminate |].
    rewrite Hu. reflexivity.
Qed.

Lemma lit_match s :
  forall pv tl cs k,
    rmatch (Lit s) (MState pv (s ++ tl) cs) k = k (MState (lastOr pv s) tl cs).
Proof.
  induction s as [| c s IH]; intros pv tl cs k; [reflexivity |].
  cbn [Lit rmatch rest app caps]. rewrite N.eqb_refl. apply IH.
Qed.

Lemma lit_prefix s :
  forall pv u cs k r,
    rmatch (Lit s) (MState pv u cs) k = Some r -> exists tl, u = s ++ tl.
Proof.
  induction s as [| c s IH]; intros pv u cs k r H; [exists u; reflexivity |].
  cbn [Lit rmatch rest caps] in H.
  destruct u as [| x u]; [discriminate |].
  destruct (N.eqb_spec c x) as [-> | _]; [| discriminate].
  destruct (IH _ _ _ _ _ H) as [tl ->]. exists tl. reflexivity.
Qed.

Lemma chunkMark_lit : lit "-chunk-" = chunkMark.
Proof. reflexivity. Qed.

(** The mark "-chunk-" followed by digits does not start again inside
    itself. *)
Lemma chunkMark_unique ds v tl :
  Forall (fun c => isDigit c = true) ds ->
  v <> [] -> chunkMark ++ ds = v ++ chunkMark ++ tl -> False.
Proof.
  intros Hds Hv H. unfold chunkMark in H.
  destruct v as [| v0 [| v1 [| v2 [| v3 [| v4 [| v5 [| v6 v']]]]]]];
    try congruence; simpl in H; try discriminate.
  - inversion H as [[E0 E1]]. subst ds.
    inversion Hds as [| ? ? Hd _]. discriminate.
  - inversion H as [[E0 E1 E2 E3 E4 E5 E6 E7]]. subst ds.
    apply Forall_app in Hds. destruct Hds as [_ Hds].
    inversion Hds as [| ? ? Hd _]. discriminate.
Qed.

Lemma starChr_all p cs k r :
  forall xs pv,
    Forall (fun c => p c = true) xs ->
    k (MState (lastOr pv xs) [] cs) = Some r ->
    starChr p pv xs cs k = Some r.
Proof.
  intros xs pv Hall H. rewrite <- (app_nil_r xs).
  apply starChr_backtrack; assumption.
Qed.

Lemma uintChars_digits d : Forall (fun c => isDigit c = true) (uintChars d).
Proof. induction d; simpl; constructor; auto. Qed.

Lemma charsUint_uintChars d : charsUint (uintChars d) = d.
Proof. induction d; simpl; try rewrite IHd; reflexivity. Qed.

Lemma numberToString_not_nil n : numberToString n <> [].
Proof.
  unfold numberToString. destruct n as [| p]; [discriminate |].
  simpl. pose proof (DecimalPos.Unsigned.to_uint_nonnil p) as H.
  destruct (Pos.to_uint p); simpl; try discriminate. congruence.
Qed.

Lemma parseDigits_numberToString n : parseDigits (numberToString n) = n.
Proof.
  unfold parseDigits, numberToString. rewrite charsUint_uintChars.
  apply DecimalN.Unsigned.of_to.
Qed.

Lemma digit_dot c : isDigit c = true -> dot c = true.
Proof.
  unfold isDigit, dot, isLineTerminator. intros H.
  apply andb_prop in H. destruct H as [H1 H2].
  apply N.leb_le in H1. apply N.leb_le in H2.
  repeat match goal with
         | |- context [(c =? ?k)%N] =>
             destruct (N.eqb_spec c k); [lia |]
         end.
  reflexivity.
Qed.

Lemma idTail_fails ds :
  Forall (fun c => isDigit c = true) ds ->
  forall v u pv cs,
    v <> [] -> chunkMark ++ ds = v ++ u ->
    rmatch idTail (MState pv u cs) Some = None.
Proof.
  intros Hds v u pv cs Hv Hu.
  destruct (rmatch idTail (MState pv u cs) Some) as [r |] eqn:E;
    [exfalso | reflexivity].
  unfold idTail in E. rewrite rmatch_seq in E.
  apply lit_prefix in E. destruct E as [tl ->].
  rewrite chunkMark_lit in Hu. eapply chunkMark_unique; eauto.
Qed.

Lemma idTail_matches ds pv cs :
  ds <> [] -> Forall (fun c => isDigit c = true) ds ->
  rmatch idTail (MState pv (chunkMark ++ ds) cs) Some
  = Some (MState (lastOr (Some 45%N) ds) [] ((2, ds) :: cs)).
Proof.
  intros Hne Hds. unfold idTail.
  rewrite rmatch_seq, chunkMark_lit, lit_match. cbv beta.
  destruct ds as [| d ds]; [congruence |].
  inversion Hds as [| ? ? Hd Hrest]; subst.
  unfold Plus. rewrite rmatch_seq, rmatch_group, rmatch_seq, rmatch_chr, Hd.
  cbv beta. rewrite star_chr. apply starChr_all; [assumption |].
  cbv beta. cbn [prev rest caps]. rewrite rmatch_eol.
  unfold consumed. cbn [rest].
  replace (length (d :: ds) - length (@nil char16)) with (length (d :: ds))
    by (cbn [length]; lia).
  rewrite firstn_all. reflexivity.
Qed.

Lemma search_bol r :
  forall s c, search (Seq Bol r) (Some c) s = None.
Proof.
  induction s as [| x s IH]; intros c; simpl; [reflexivity | apply IH].
Qed.

Lemma search_vectorId_later s c : search vectorIdRegex (Some c) s = None.
Proof. apply search_bol. Qed.

Lemma vectorIdRegex_eq st k :
  rmatch vectorIdRegex st k
  = rmatch Bol st (fun st1 =>
      rmatch (Lit (lit "article-")) st1 (fun st2 =>
        rmatch (Chr dot) st2 (fun st3 =>
          rmatch (Star true (Chr dot)) st3 (fun st4 =>
            rmatch idTail
              (MState (prev st4) (rest st4)
                 ((1, consumed st2 st4) :: caps st4)) k)))).
Proof. reflexivity. Qed.

(** C9: for every article id that is not empty and holds no line
    terminator (LF, CR, U+2028, U+2029: the code units the dot of the
    pattern refuses) and every chunk index in the safe integer range,
    parsing the identifier built from the pair returns the pair; and the
    identifier built from the empty article id does not parse, whatever
    the chunk index. *)
Theorem vectorId_roundtrip :
  (forall articleId chunkIndex,
     articleId <> [] ->
     noLineTerminator articleId ->
     (chunkIndex <= MAX_SAFE_INTEGER)%N ->
     parseVectorId (buildVectorId articleId chunkIndex)
     = Some (articleId, chunkIndex))
  /\ (forall chunkIndex, parseVectorId (buildVectorId [] chunkIndex) = None).
Proof.
  split.
  - intros articleId chunkIndex Hne Hlines _.
    unfold parseVectorId, buildVectorId.
    set (ds := numberToString chunkIndex).
    assert (Hds : Forall (fun c => isDigit c = true) ds)
      by apply uintChars_digits.
    assert (Hdn : ds <> []) by apply numberToString_not_nil.
    destruct articleId as [| c a]; [congruence |].
    inversion Hlines as [| ? ? Hc Ha]; subst.
    assert (Hmatch :
      execAt vectorIdRegex None
        (lit "article-" ++ (c :: a) ++ lit "-chunk-" ++ ds)
      = Some (MState (lastOr (Some 45%N) ds) [] [(2, ds); (1, c :: a)])).
    { unfold execAt. rewrite vectorIdRegex_eq, rmatch_bol. cbv beta.
      rewrite lit_match. cbv beta. cbn [app]. rewrite rmatch_chr.
      unfold dot at 1. rewrite Hc. cbn [negb]. cbv beta.
      rewrite star_chr, chunkMark_lit.
      apply starChr_backtrack.
      - eapply Forall_impl; [| exact Ha]. intros x Hx. unfold dot.
        rewrite Hx. reflexivity.
      - rewrite starChr_suffixes.
        + cbn [prev rest caps]. unfold consumed. cbn [rest].
          replace (length (c :: a ++ chunkMark ++ ds)
                   - length (chunkMark ++ ds))
            with (length (c :: a))
            by (cbn [length]; rewrite !length_app; lia).
          change (c :: a ++ chunkMark ++ ds) with ((c :: a) ++ chunkMark ++ ds).
          rewrite firstn_app, Nat.sub_diag, firstn_all. cbn [firstn].
          rewrite app_nil_r.
          apply (idTail_matches ds _ _ Hdn Hds).
        + intros v u pv' Hv Hu. cbn [prev rest caps].
          apply (idTail_fails ds Hds v u _ _ Hv Hu). }
    destruct (lit "article-" ++ (c :: a) ++ lit "-chunk-" ++ ds) eqn:Es;
      [discriminate |].
    cbn [search]. rewrite Hmatch. unfold capture.
    cbn [caps find fst snd Nat.eqb].
    unfold ds. rewrite parseDigits_numberToString. reflexivity.
  - intros chunkIndex. unfold parseVectorId, buildVectorId.
    set (ds := numberToString chunkIndex).
    assert (Hds : Forall (fun c => isDigit c = true) ds)
      by apply uintChars_digits.
    assert (Hfail :
      execAt vectorIdRegex None (lit "article-" ++ [] ++ lit "-chunk-" ++ ds)
      = None).
    { unfold execAt. rewrite vectorIdRegex_eq, rmatch_bol. cbv beta.
      rewrite lit_match. cbv beta. cbn [app].
      rewrite chunkMark_lit. unfold chunkMark at 1. cbn [app].
      rewrite rmatch_chr. change (dot 45%N) with true. cbv iota beta.
      rewrite star_chr.
      rewrite starChr_suffixes.
      - cbn [prev rest caps].
        apply (idTail_fails ds Hds [45%N]); [discriminate | reflexivity].
      - intros v u pv' Hv Hu. cbn [prev rest caps].
        apply (idTail_fails ds Hds (45%N :: v) u); [discriminate |].
        unfold chunkMark. cbn [app]. rewrite <- Hu. reflexivity. }
    destruct (lit "article-" ++ [] ++ lit "-chunk-" ++ ds) eqn:Es.
    + cbn [search]. rewrite Hfail. reflexivity.
    + cbn [search]. rewrite Hfail, search_vectorId_later. reflexivity.
Qed.

End VectorIds.

(** ** The size of the chunks *)

Section ChunkSize.

Lemma str_eqb_eq : forall a b, str_eqb a b = true -> a = b.
Proof.
  induction a as [| x a IH]; intros [| y b] H; simpl in H;
    try discriminate; [reflexivity |].
  apply andb_prop in H. destruct H as [Hxy Hab].
  apply N.eqb_eq in Hxy. rewrite Hxy, (IH b Hab). reflexivity.
Qed.

Lemma listEqb_eq : forall a b, listEqb a b = true -> a = b.
Proof.
  induction a as [| x a IH]; intros [| y b] H; simpl in H;
    try discriminate; [reflexivity |].
  apply andb_prop in H. destruct H as [Hxy Hab].
  rewrite (str_eqb_eq _ _ Hxy), (IH b Hab). reflexivity.
Qed.

Lemma returnsChunks_eq o l : returnsChunks o l = true -> o = Some l.
Proof.
  destruct o as [l' |]; simpl; [| discriminate].
  intros H. rewrite (listEqb_eq _ _ H). reflexivity.
Qed.

(** C2 fails on the code.  With [maxTokens = 4] and no overlap, three
    sentences of two estimated tokens give a first chunk of two
    sentences, accumulated because 2 + 2 does not exceed 4, whose text
    of 15 characters is estimated at 5 tokens: the space that joins the
    sentences is not counted.  Under the default configuration (800,
    200) the text [overBudgetText] gives a second chunk made of the
    overlap sentence (150 tokens) and the next sentence (700 tokens),
    estimated at 850 tokens: the sentence is appended after the overlap
    is seeded without a new test. *)
Theorem chunk_exceeds_maxTokens :
  (chunkText 100 threeSentences tinyConfig
   = Some [lit "Aaaaaa. Aaaaaa."; lit "Aaaaaa."]
   /\ estimateTokens (lit "Aaaaaa. Aaaaaa.") = 5%Z
   /\ splitIntoSentences (lit "Aaaaaa. Aaaaaa.") = [lit "Aaaaaa."; lit "Aaaaaa."]
   /\ estimateTokens (lit "Aaaaaa.") = 2%Z)
  /\ (chunkText (enoughFuel overBudgetText) overBudgetText emptyConfig
      = Some [join SPACE (repeat shortSentence 5);
              join SPACE [shortSentence; longSentence]]
      /\ estimateTokens (join SPACE [shortSentence; longSentence]) = 850%Z
      /\ estimateTokens shortSentence = 150%Z
      /\ estimateTokens longSentence = 700%Z).
Proof.
  split.
  - repeat split; vm_compute; reflexivity.
  - split; [| repeat split; vm_compute; reflexivity].
    apply returnsChunks_eq. vm_compute. reflexivity.
Qed.

Lemma slice_length_bound {A} (l : list A) i n :
  (0 <= i)%Z -> (0 <= n)%Z -> (Z.of_nat (length (slice l i (i + n))) <= n)%Z.
Proof.
  intros Hi Hn. unfold slice. rewrite length_firstn, length_skipn.
  unfold relIndex.
  destruct (Z.ltb_spec i 0), (Z.ltb_spec (i + n) 0); lia.
Qed.

(** The chunks of the word-level fallback hold at most
    [floor(maxTokens * 0.75)] words each. *)
Lemma chunkByWords_word_bound fuel text maxT ov result :
  (0 <= wordsFor maxT)%Z ->
  chunkByWords fuel text maxT ov = Some result ->
  Forall (fun chunk =>
            exists words, chunk = join SPACE words
                          /\ (Z.of_nat (length words) <= wordsFor maxT)%Z)
    result.
Proof.
  intros Hmax. unfold chunkByWords.
  set (words := split spacesRegex text).
  set (step := (wordsFor maxT - wordsFor ov)%Z).
  destruct (Z.leb_spec step 0) as [Hstep | Hstep].
  { rewrite chunkByWordsLoop_loops; [discriminate | apply words_not_nil
                                     | assumption | lia]. }
  cut (forall fuel i acc r,
          (0 <= i)%Z ->
          Forall (fun chunk =>
                    exists ws, chunk = join SPACE ws
                               /\ (Z.of_nat (length ws) <= wordsFor maxT)%Z) acc ->
          chunkByWordsLoop fuel words (wordsFor maxT) step i acc = Some r ->
          Forall (fun chunk =>
                    exists ws, chunk = join SPACE ws
                               /\ (Z.of_nat (length ws) <= wordsFor maxT)%Z) r).
  { intros Hcut H. eapply Hcut; [| | exact H]; [lia | constructor]. }
  clear fuel result. induction fuel as [| fuel IH]; intros i acc r Hi Hacc H;
    rewrite chunkByWordsLoop_eq in H;
    destruct (i <? Z.of_nat (length words))%Z; try discriminate;
    try (inversion H; subst; assumption).
  eapply IH; [| | exact H]; [lia |].
  cbv zeta. destruct (nonEmpty _); [| assumption].
  apply Forall_app. split; [assumption |]. constructor; [| constructor].
  eexists. split; [reflexivity |]. apply slice_length_bound; lia.
Qed.

End ChunkSize.

(** ** The records written by the ingestion *)

Section IngestProperties.
Import Pinecone Embeddings Ingest.
Context {number : Type}.
Notation M := (M number).

Lemma emits_bind_ok {A B} (P : request number -> Prop) (m : M A)
  (f : A -> M B) :
  emits P m ->
  (forall w h a h', m w h = (Ok a, h') -> emits P (f a)) ->
  emits P (bind m f).
Proof.
  intros Hm Hf w h. unfold bind.
  destruct (Hm w h) as [n1 [E1 F1]].
  destruct (m w h) as [[a | e |] h1] eqn:Em; simpl in E1; subst h1.
  - destruct (Hf w h a _ Em w (h ++ n1)) as [n2 [E2 F2]].
    exists (n1 ++ n2). rewrite E2, app_assoc. split; auto.
    apply Forall_app; auto.
  - exists n1. auto.
  - exists n1. auto.
Qed.

Lemma emits_weaken {A} (P Q : request number -> Prop) (m : M A) :
  (forall r, P r -> Q r) -> emits P m -> emits Q m.
Proof.
  intros HPQ Hm w h. destruct (Hm w h) as [new [E F]].
  exists new. split; [assumption |]. eapply Forall_impl; eauto.
Qed.

Lemma In_firstn {A} (x : A) : forall n l, In x (firstn n l) -> In x l.
Proof.
  induction n as [| n IH]; intros [| y l] H; simpl in H; try contradiction.
  destruct H as [-> | H]; [left; reflexivity | right; apply IH; assumption].
Qed.

Lemma In_skipn {A} (x : A) : forall n l, In x (skipn n l) -> In x l.
Proof.
  induction n as [| n IH]; intros [| y l] H; simpl in H; try assumption.
  right. apply IH. assumption.
Qed.

Lemma slice_incl {A} (l : list A) i j : incl (slice l i j) l.
Proof.
  intros x H. unfold slice in H. apply In_firstn, In_skipn in H. assumption.
Qed.

Lemma slices_incl {A} (a : list A) size :
  forall fuel i acc result,
    slices fuel a size i acc = Some result ->
    Forall (fun b => incl b a) acc ->
    Forall (fun b => incl b a) result.
Proof.
  induction fuel as [| fuel IH]; intros i acc result H Hacc; simpl in H;
    destruct (i <? Z.of_nat (length a))%Z; try discriminate;
    try (inversion H; subst; assumption).
  eapply IH; [exact H |]. apply Forall_app. split; [assumption |].
  constructor; [apply slice_incl | constructor].
Qed.

Lemma emits_upsertBatches (Good : VectorRecord number -> Prop) :
  forall batches,
    Forall (Forall Good) batches ->
    emits (writes Good) (upsertBatches batches).
Proof.
  induction batches as [| batch later IH]; intros Hall; simpl;
    [auto with emits |].
  inversion Hall as [| ? ? Hb Hl]; subst.
  apply emits_bind; [| intros _; apply IH; assumption].
  apply emits_tryCatch; [| auto with emits].
  apply emits_bind; [apply emits_call; exact Hb |].
  intros [e | d | m | md c | d f |]; auto with emits.
Qed.

Lemma emits_upsertVectors (Good : VectorRecord number -> Prop) fuel vectors
  batchSize :
  Forall Good vectors ->
  emits (writes Good) (upsertVectors fuel vectors batchSize).
Proof.
  intros Hall. unfold upsertVectors. destruct vectors as [| v vs];
    [auto with emits |].
  apply emits_bind; [apply emits_getIndex |]. intros _.
  destruct (slices fuel _ _ 0 []) as [batches |] eqn:Hs; [| auto with emits].
  apply emits_upsertBatches.
  pose proof (slices_incl _ _ _ _ _ _ Hs (Forall_nil _)) as Hincl.
  eapply Forall_impl; [| exact Hincl]. intros b Hb.
  rewrite Forall_forall in *. auto.
Qed.

Lemma mappingsOf_spec aid prepared :
  forall pieces i0 m,
    In m (mappingsOf aid prepared pieces i0) ->
    m_articleId m = aid /\ m_title m = pa_title prepared
    /\ m_url m = pa_url prepared
    /\ exists k, m_chunkIndex m = (i0 + N.of_nat k)%N
                 /\ nth_error pieces k = Some (m_content m).
Proof.
  induction pieces as [| chunk more IH]; intros i0 m H; simpl in H;
    [contradiction |].
  destruct H as [<- | H].
  - simpl. repeat split. exists 0. split; [simpl; lia | reflexivity].
  - destruct (IH _ _ H) as [E1 [E2 [E3 [k [Ek Hk]]]]].
    repeat split; auto. exists (S k). split; [lia | exact Hk].
Qed.

Lemma collect_spec fuel all :
  forall rows acc result,
    incl rows all ->
    collect fuel rows acc = Some result ->
    Forall (mappingOf fuel all) (chunkToVectorMap acc) ->
    Forall (mappingOf fuel all) (chunkToVectorMap result).
Proof.
  induction rows as [| row more IH]; intros acc result Hincl H Hacc;
    simpl in H; [inversion H; subst; assumption |].
  assert (Hrow : In row all) by (apply Hincl; left; reflexivity).
  assert (Hmore : incl more all)
    by (intros x Hx; apply Hincl; right; assumption).
  destruct (negb (nonEmpty (a_id row)) || negb (nonEmpty (a_title row))
            || negb (nonEmpty (a_content row))).
  - eapply IH; [exact Hmore | exact H | exact Hacc].
  - destruct (prepareArticle fuel (a_id row) (a_title row) (a_url row)
                (a_content row) emptyConfig) as [prepared |] eqn:Hp;
      [| discriminate].
    eapply IH; [exact Hmore | exact H |]. simpl.
    apply Forall_app. split; [assumption |].
    apply Forall_forall. intros m Hm.
    destruct (mappingsOf_spec _ _ _ _ _ Hm) as [E1 [E2 [E3 [k [Ek Hk]]]]].
    exists row, prepared. simpl.
    assert (Hfields : pa_title prepared = a_title row
                      /\ pa_url prepared = a_url row).
    { unfold prepareArticle in Hp.
      destruct (chunkText fuel _ emptyConfig); [| discriminate].
      inversion Hp; subst. simpl. auto. }
    destruct Hfields as [Ht Hu].
    repeat split; try congruence.
    rewrite Ek, N.add_0_l, Nat2N.id. exact Hk.
Qed.

Lemma buildVectorRecords_spec (Good : Mapping -> Prop) map :
  Forall Good map ->
  forall embeddings idx w h records h',
    buildVectorRecords embeddings map idx w h = (Ok records, h') ->
    Forall (fun r : VectorRecord number =>
              wellFormedId r
              /\ Good {| m_articleId := articleId (metadata r);
                         m_title := title (metadata r);
                         m_url := url (metadata r);
                         m_chunkIndex := chunkIndex (metadata r);
                         m_content := content (metadata r) |})
      records.
Proof.
  intros Hmap. induction embeddings as [| e more IH];
    intros idx w h records h' H; simpl in H.
  - inversion H; subst. constructor.
  - destruct (nth_error map idx) as [mapping |] eqn:Em; [| discriminate].
    unfold bind in H.
    destruct (buildVectorRecords more map (S idx) w h) as [[rs | x |] h1] eqn:Er;
      try discriminate.
    inversion H; subst. constructor; [| eapply IH; exact Er].
    split; [reflexivity |]. simpl.
    rewrite Forall_forall in Hmap. apply nth_error_In in Em.
    specialize (Hmap _ Em). destruct mapping; exact Hmap.
Qed.

Lemma emits_buildVectorRecords (Q : request number -> Prop) map :
  forall embeddings idx,
    emits Q (@buildVectorRecords number embeddings map idx).
Proof.
  induction embeddings as [| e more IH]; intros idx; simpl;
    [auto with emits |].
  destruct (nth_error map idx); [| auto with emits].
  apply emits_bind; [apply IH | auto with emits].
Qed.

(** C6, amended: every record that the ingestion of a batch writes to
    the index has the identifier "article-<articleId>-chunk-<chunkIndex>"
    built from the article id and the chunk index of its metadata, and
    its metadata (title, url, content, chunkIndex, articleId) are those
    of a chunk of an article of the batch, [chunkIndex] being the 0-based
    position of the chunk among the chunks of the article. *)
Theorem ingest_writes_article_chunk_ids :
  forall fuel (batchArticles : list Article) (w : world number) h,
  exists new,
    snd (ingestBatch fuel batchArticles w h) = h ++ new
    /\ Forall (writes (fun r => wellFormedId r
                                /\ chunkOf fuel batchArticles (metadata r)))
         new.
Proof.
  intros fuel batchArticles.
  set (Good := fun r : VectorRecord number =>
                 wellFormedId r /\ chunkOf fuel batchArticles (metadata r)).
  change (emits (writes Good) (@ingestBatch number fuel batchArticles)).
  unfold ingestBatch.
  destruct (collect fuel batchArticles _) as [collected |] eqn:Hc;
    [| auto with emits].
  assert (Hmap : Forall (mappingOf fuel batchArticles)
                   (chunkToVectorMap collected)).
  { eapply collect_spec; [apply incl_refl | exact Hc | constructor]. }
  destruct (allChunkTexts collected) as [| t ts]; [auto with emits |].
  apply emits_bind.
  { apply emits_batchGenerateEmbeddings; intros; exact I. }
  intros embeddings. apply emits_bind_ok.
  { apply emits_buildVectorRecords. }
  intros w h allVectors h' Hbuild.
  apply emits_bind; [| auto with emits].
  apply emits_upsertVectors.
  pose proof (buildVectorRecords_spec _ _ Hmap _ _ _ _ _ _ Hbuild) as Hrec.
  eapply Forall_impl; [| exact Hrec]. intros r [Hid Hm].
  split; [exact Hid |]. destruct (metadata r); exact Hm.
Qed.

End IngestProperties.

(** C6, as the specification words it, fails: the ingestion of article 7
    writes one record, whose identifier is "article-7-chunk-0" and not
    "doc-7-chunk-0", and whose metadata carry the field [articleId]. *)
Lemma ingest_id_is_not_doc :
  Ingest.ingestBatch 100 [article7] servingWorld []
  = (Ok (Ingest.Processed
           {| Ingest.articlesProcessed := 1; Ingest.chunksGenerated := 1;
              Ingest.embeddingsCreated := 1; Ingest.vectorsUpserted := 1;
              Ingest.totalTokens := 5; Ingest.errors := 0 |}),
     [ EmbeddingsCreate (Many [lit "Grit" ++ [10; 10]%N ++ lit "Keep going."])
         Embeddings.EMBEDDING_MODEL 3072;
       Progress 1 1;
       IndexUpsert
         [ {| id := lit "article-7-chunk-0";
              values := [17];
              metadata :=
                {| title := lit "Grit"; url := lit "https://aom.example/grit";
                   content := lit "Grit" ++ [10; 10]%N ++ lit "Keep going.";
                   chunkIndex := 0; articleId := lit "7" |} |} ] ])
  /\ lit "article-7-chunk-0" <> lit "doc-7-chunk-0"
  /\ Pinecone.buildVectorId (lit "7") 0 <> lit "doc-7-chunk-0".
Proof.
  split; [vm_compute; reflexivity |].
  split; vm_compute; discriminate.
Qed.

(** ** The order of the embeddings of a batch *)

Section BatchOrder.
Import Embeddings.
Context {number : Type}.
Notation M := (M number).
Variable w : world number.

Lemma slotAgrees_setSlot {A} (v : A) :
  forall j slots vals,
    Forall2 slotAgrees slots vals ->
    nth_error vals j = Some v ->
    Forall2 slotAgrees (setSlot j v slots) vals.
Proof.
  induction j as [| j IH]; intros slots vals H Hv;
    destruct H as [| s x slots vals Hs Hrest]; simpl in *;
    try discriminate; try constructor; auto.
  - inversion Hv; subst. right. reflexivity.
Qed.

Lemma Forall2_lookup {A B} (R : A -> B -> Prop) :
  forall l1 l2 j a,
    Forall2 R l1 l2 -> nth_error l1 j = Some a ->
    exists b, nth_error l2 j = Some b /\ R a b.
Proof.
  intros l1 l2 j a H. revert j. induction H as [| x y l1 l2 Hxy Hrest IH];
    intros [| j] Hj; simpl in *; try discriminate.
  - inversion Hj; subst. eauto.
  - apply IH. assumption.
Qed.

Lemma runScheduled_values {A} (tasks : list (M A)) (vals : list A) :
  Forall2 (yields w) tasks vals ->
  forall sched slots h,
    Forall2 slotAgrees slots vals ->
    exists slots' h',
      runScheduled sched tasks slots w h = (Ok slots', h')
      /\ Forall2 slotAgrees slots' vals.
Proof.
  intros Htasks. induction sched as [| j later IH]; intros slots h Hslots;
    simpl.
  - exists slots, h. split; [reflexivity | assumption].
  - destruct (nth_error tasks j) as [task |] eqn:Et; [| apply IH; assumption].
    destruct (nth_error slots j) as [[x |] |] eqn:Es;
      try (apply IH; assumption).
    destruct (Forall2_lookup _ _ _ _ _ Htasks Et) as [v [Ev Hy]].
    destruct (Hy h) as [h1 Hrun]. unfold bind. rewrite Hrun.
    apply IH. apply slotAgrees_setSlot; assumption.
Qed.

Lemma allSettled_values {A} :
  forall (slots : list (option A)) vals results,
    Forall2 slotAgrees slots vals ->
    allSettled slots = Some results -> results = vals.
Proof.
  induction slots as [| s slots IH]; intros vals results H Hs;
    inversion H as [| ? v ? vals' Hsv Hrest]; subst; simpl in Hs.
  - inversion Hs. reflexivity.
  - destruct s as [a |]; [| discriminate].
    destruct (allSettled slots) as [l |] eqn:El; [| discriminate].
    inversion Hs; subst. destruct Hsv as [Hn | Hsome]; [discriminate |].
    inversion Hsome; subst. f_equal. eapply IH; eauto.
Qed.

(** Whatever the order in which the promises settle, [Promise.all]
    returns their values in the order of the promises. *)
Lemma promiseAll_values {A} (tasks : list (M A)) (vals : list A) h :
  Forall2 (yields w) tasks vals ->
  exists h', promiseAll tasks w h = (Ok vals, h').
Proof.
  intros Htasks. unfold promiseAll, bind. simpl.
  set (sched := completion w h (length tasks) ++ seq 0 (length tasks)).
  assert (Hinit : Forall2 slotAgrees (repeat (@None A) (length tasks)) vals).
  { clear sched. induction Htasks; simpl; constructor; auto.
    left. reflexivity. }
  destruct (runScheduled_values tasks vals Htasks sched _ h Hinit)
    as [slots' [h1 [Hrun Hagree]]].
  rewrite Hrun.
  destruct (runScheduled_settles tasks sched
              (repeat None (length tasks)) w h slots' h1) as [L S];
    [apply repeat_length | exact Hrun |].
  destruct (allSettled_total slots') as [results Hr].
  - intros j Hj. apply S; [lia |]. left. apply in_or_app. right.
    apply in_seq. lia.
  - rewrite Hr. rewrite (allSettled_values _ _ _ Hagree Hr).
    exists h1. reflexivity.
Qed.

Lemma firstn_plus {A} :
  forall n m (l : list A), firstn (n + m) l = firstn n l ++ firstn m (skipn n l).
Proof.
  induction n as [| n IH]; intros m l; [reflexivity |].
  destruct l as [| x l]; simpl; [rewrite firstn_nil; reflexivity |].
  rewrite IH. reflexivity.
Qed.

(** Cutting an array into slices of a positive size loses nothing. *)
Lemma slices_concat {A} (a : list A) size :
  (0 < size)%Z ->
  forall fuel i acc,
    (0 <= i)%Z ->
    (Z.of_nat (length a) - i <= Z.of_nat fuel)%Z ->
    concat acc = firstn (Z.to_nat i) a ->
    exists result, slices fuel a size i acc = Some result
                   /\ concat result = a.
Proof.
  intros Hsize. induction fuel as [| fuel IH]; intros i acc Hi Hfuel Hacc;
    simpl; destruct (Z.ltb_spec i (Z.of_nat (length a))) as [Hlt | Hge];
    try lia.
  - exists acc. split; [reflexivity |]. rewrite Hacc. apply firstn_all2. lia.
  - apply IH; [lia | lia |].
    rewrite concat_app, Hacc. simpl. rewrite app_nil_r.
    unfold slice, relIndex.
    destruct (Z.ltb_spec i 0), (Z.ltb_spec (i + size) 0); try lia.
    rewrite (Z.min_l i) by lia.
    replace (Z.to_nat (i + size)) with (Z.to_nat i + Z.to_nat size) by lia.
    rewrite firstn_plus. f_equal.
    rewrite <- (firstn_min (skipn (Z.to_nat i) a) (Z.to_nat size)).
    f_equal. rewrite length_skipn. lia.
  - exists acc. split; [reflexivity |]. rewrite Hacc. apply firstn_all2. lia.
Qed.

Lemma slices_length {A} (a : list A) size :
  (0 < size)%Z ->
  forall fuel i acc result,
    (0 <= i)%Z ->
    slices fuel a size i acc = Some result ->
    (Z.of_nat (length result)
     <= Z.of_nat (length acc) + Z.max 0 (Z.of_nat (length a) - i))%Z.
Proof.
  intros Hsize. induction fuel as [| fuel IH]; intros i acc result Hi H;
    simpl in H; destruct (Z.ltb_spec i (Z.of_nat (length a))) as [Hlt | Hge];
    try discriminate; try (inversion H; subst; lia).
  apply IH in H; [| lia]. rewrite length_app in H. simpl in H. lia.
Qed.

Variable embed : jsstring -> vector number.
Hypothesis provider : providerComputes w embed.

Lemma yields_ret {A} (a : A) : yields w (ret a) a.
Proof. intros h. exists h. reflexivity. Qed.

Lemma yields_bind {A B} (m : M A) (f : A -> M B) a b :
  yields w m a -> yields w (f a) b -> yields w (bind m f) b.
Proof.
  intros Hm Hf h. destruct (Hm h) as [h1 E1]. destruct (Hf h1) as [h2 E2].
  exists h2. unfold bind. rewrite E1. exact E2.
Qed.

Lemma yields_getOpenAIClient : yields w (@getOpenAIClient number) tt.
Proof.
  intros h. destruct provider as [[c [k Hkey]] _].
  exists h. unfold getOpenAIClient, bind, env. rewrite Hkey. reflexivity.
Qed.

Lemma yields_generateEmbedding text :
  nonBlank text = true ->
  yields w (generateEmbedding text 3) (embed text).
Proof.
  intros Htext. unfold generateEmbedding. rewrite Htext. simpl negb. cbv iota.
  eapply yields_bind; [apply yields_getOpenAIClient |].
  intros h. destruct provider as [_ [Hone _]].
  exists (h ++ [EmbeddingsCreate (One text) EMBEDDING_MODEL
                  EMBEDDING_DIMENSIONS]).
  cbn [attempts]. unfold tryCatch, bind, createEmbeddings, bind, call.
  rewrite Hone. reflexivity.
Qed.

Lemma yields_attachIndices :
  forall batch,
    yields w (attachIndices batch (map embed (map it_text batch)))
      (map (tagged embed) batch).
Proof.
  induction batch as [| item batch IH]; simpl; [apply yields_ret |].
  eapply yields_bind; [apply IH | apply yields_ret].
Qed.

Lemma bind_ok {A B} (m : M A) (f : A -> M B) h a h1 :
  m w h = (Ok a, h1) -> bind m f w h = f a w h1.
Proof. intros E. unfold bind. rewrite E. reflexivity. Qed.

Lemma bind_throw {A B} (m : M A) (f : A -> M B) h e h1 :
  m w h = (Throw e, h1) -> bind m f w h = (Throw e, h1).
Proof. intros E. unfold bind. rewrite E. reflexivity. Qed.

Lemma tryCatch_ok {A} (m : M A) handler h a h1 :
  m w h = (Ok a, h1) -> tryCatch m handler w h = (Ok a, h1).
Proof. intros E. unfold tryCatch. rewrite E. reflexivity. Qed.

Lemma tryCatch_throw {A} (m : M A) handler h e h1 :
  m w h = (Throw e, h1) -> tryCatch m handler w h = handler e w h1.
Proof. intros E. unfold tryCatch. rewrite E. reflexivity. Qed.

Lemma yields_embedBatch batch :
  Forall (fun item => nonBlank (it_text item) = true) batch ->
  yields w (embedBatch batch) (map (tagged embed) batch).
Proof.
  intros Hvalid h. unfold embedBatch.
  destruct (yields_getOpenAIClient h) as [h0 Hclient].
  set (request := @EmbeddingsCreate number (Many (map it_text batch))
                    EMBEDDING_MODEL EMBEDDING_DIMENSIONS).
  destruct provider as [_ [_ Hmany]].
  destruct (Hmany h0 (map it_text batch)) as [Hok | [e Hfail]].
  - assert (Hcreate : createEmbeddings (Many (map it_text batch)) w h0
                      = (Ok (map embed (map it_text batch)), h0 ++ [request])).
    { unfold createEmbeddings, bind, call. rewrite Hok. reflexivity. }
    destruct (yields_attachIndices batch (h0 ++ [request])) as [h2 Hattach].
    exists h2. apply tryCatch_ok.
    rewrite (bind_ok _ _ _ _ _ Hclient), (bind_ok _ _ _ _ _ Hcreate).
    exact Hattach.
  - assert (Hcreate : createEmbeddings (Many (map it_text batch)) w h0
                      = (Throw e, h0 ++ [request])).
    { unfold createEmbeddings, bind, call. rewrite Hfail. reflexivity. }
    destruct (promiseAll_values
                (map (fun item =>
                        bind (generateEmbedding (it_text item) 3)
                          (fun embedding =>
                             ret {| ie_index := it_index item;
                                    ie_embedding := embedding |}))
                     batch)
                (map (tagged embed) batch) (h0 ++ [request])) as [h2 Hall].
    + clear Hcreate Hfail. induction Hvalid as [| item batch Hitem Hrest IH];
        simpl; constructor; [| exact IH].
      eapply yields_bind; [apply yields_generateEmbedding; exact Hitem |].
      apply yields_ret.
    + exists h2. erewrite tryCatch_throw; [exact Hall |].
      rewrite (bind_ok _ _ _ _ _ Hclient).
      apply bind_throw. exact Hcreate.
Qed.

Lemma yields_processGroups report total :
  forall groups completed acc,
    Forall (Forall (Forall (fun item => nonBlank (it_text item) = true)))
      groups ->
    yields w (processGroups groups report total completed acc)
      (acc ++ map (tagged embed) (concat (concat groups))).
Proof.
  induction groups as [| g later IH]; intros completed acc Hvalid; simpl.
  - rewrite app_nil_r. apply yields_ret.
  - inversion Hvalid as [| ? ? Hg Hlater]; subst.
    eapply yields_bind.
    + intros h. apply promiseAll_values.
      instantiate (1 := map (map (tagged embed)) g).
      clear - Hg provider. induction Hg as [| b g Hb Hrest IHg]; simpl;
        constructor; [apply yields_embedBatch; exact Hb | exact IHg].
    + eapply yields_bind.
      * instantiate (1 := tt).
        destruct report; intros h; eexists; reflexivity.
      * replace (acc ++ map (tagged embed) (concat (g ++ concat later)))
          with ((acc ++ concat (map (map (tagged embed)) g))
                ++ map (tagged embed) (concat (concat later))).
        -- apply IH. exact Hlater.
        -- rewrite <- app_assoc. f_equal.
           rewrite concat_app, map_app. f_equal.
           rewrite concat_map. reflexivity.
Qed.

Lemma insertByIndex_last (x : @indexedEmbedding number) :
  forall l,
    Forall (fun y => ie_index y <= ie_index x) l ->
    insertByIndex x l = l ++ [x].
Proof.
  induction l as [| y l IH]; intros H; [reflexivity |].
  inversion H as [| ? ? Hy Hl]; subst. simpl.
  destruct (Z.leb_spec (Z.of_nat (ie_index y) - Z.of_nat (ie_index x)) 0);
    [| lia].
  rewrite IH by assumption. reflexivity.
Qed.

Lemma sorted_before (l1 : list nat) x l2 :
  StronglySorted le (l1 ++ x :: l2) -> Forall (fun y => y <= x) l1.
Proof.
  induction l1 as [| a l1 IH]; intros H; [constructor |].
  simpl in H. apply StronglySorted_inv in H. destruct H as [Hs Ha].
  constructor; [| apply IH; assumption].
  rewrite Forall_forall in Ha. apply Ha. apply in_or_app. right. left.
  reflexivity.
Qed.

(** Sorting by index leaves a list whose indices ascend as it is. *)
Lemma sortByIndex_ascending :
  forall (l acc : list (@indexedEmbedding number)),
    StronglySorted le (map ie_index (acc ++ l)) ->
    fold_left (fun sorted x => insertByIndex x sorted) l acc = acc ++ l.
Proof.
  induction l as [| x l IH]; intros acc H; simpl; [rewrite app_nil_r; reflexivity |].
  rewrite insertByIndex_last.
  - rewrite IH; rewrite <- app_assoc; [reflexivity | exact H].
  - rewrite map_app in H. simpl in H. apply sorted_before in H.
    rewrite Forall_map in H. exact H.
Qed.

Lemma collectValid_texts :
  forall texts i0, map it_text (collectValid texts i0) = filter nonBlank texts.
Proof.
  induction texts as [| t texts IH]; intros i0; simpl; [reflexivity |].
  destruct (nonBlank t); simpl; rewrite IH; reflexivity.
Qed.

Lemma collectValid_valid :
  forall texts i0,
    Forall (fun item => nonBlank (it_text item) = true) (collectValid texts i0).
Proof.
  induction texts as [| t texts IH]; intros i0; simpl; [constructor |].
  destruct (nonBlank t) eqn:Ht; [constructor; [exact Ht |] |]; apply IH.
Qed.

Lemma collectValid_ascending :
  forall texts i0,
    StronglySorted le (map it_index (collectValid texts i0))
    /\ Forall (fun i => i0 <= i) (map it_index (collectValid texts i0)).
Proof.
  induction texts as [| t texts IH]; intros i0; simpl;
    [split; constructor |].
  destruct (IH (S i0)) as [Hs Hb].
  assert (Hb' : Forall (fun i => i0 <= i)
                  (map it_index (collectValid texts (S i0))))
    by (eapply Forall_impl; [| exact Hb]; simpl; intros; lia).
  destruct (nonBlank t); simpl; [| split; assumption].
  split; constructor; auto.
Qed.

Lemma collectValid_length :
  forall texts i0, length (collectValid texts i0) <= length texts.
Proof.
  induction texts as [| t texts IH]; intros i0; simpl; [lia |].
  specialize (IH (S i0)). destruct (nonBlank t); simpl; lia.
Qed.

(** C4: when the provider computes the function [embed] (a call on a
    batch may fail as a whole, in which case each text of the batch is
    embedded on its own), [batchGenerateEmbeddings] returns the vectors
    of the texts that are not blank, in the order of the input, with
    the blank texts absent; this holds for every world, so for every
    order in which the concurrent calls of a group settle.  The batch
    size and the concurrency are positive, as in the defaults. *)
Theorem batch_embeddings_keep_input_order :
  forall fuel texts options h,
    (0 < orDefault (batchSize options) 100)%Z ->
    (0 < orDefault (concurrency options) 5)%Z ->
    length texts <= fuel ->
    exists h',
      batchGenerateEmbeddings fuel texts options w h
      = (Ok (map embed (filter nonBlank texts)), h').
Proof.
  intros fuel texts options h Hsize Hconc Hfuel.
  unfold batchGenerateEmbeddings.
  destruct texts as [| t0 texts0] eqn:Etexts; [exists h; reflexivity |].
  rewrite <- Etexts in *. clear Etexts t0 texts0.
  pose proof (collectValid_length texts 0) as Hlen.
  destruct (slices_concat (collectValid texts 0) _ Hsize fuel 0 [])
    as [batches [Hb Hcb]]; [lia | lia | reflexivity |].
  pose proof (slices_length _ _ Hsize _ _ _ _ (Z.le_refl 0) Hb) as Hbl.
  simpl in Hbl.
  destruct (slices_concat batches _ Hconc fuel 0 [])
    as [groups [Hg Hcg]]; [lia | lia | reflexivity |].
  rewrite Hb, Hg.
  destruct (yields_processGroups (onProgress options)
              (Z.of_nat (length (collectValid texts 0))) groups 0 []) with (h := h)
    as [h' Hrun].
  { apply Forall_concat. rewrite Hcg. apply Forall_concat. rewrite Hcb.
    apply collectValid_valid. }
  exists h'. rewrite (bind_ok _ _ _ _ _ Hrun). unfold ret. f_equal. f_equal.
  rewrite Hcg, Hcb. simpl app. unfold sortByIndex.
  rewrite sortByIndex_ascending.
  - simpl app. rewrite map_map. simpl.
    rewrite <- collectValid_texts with (i0 := 0). rewrite map_map. reflexivity.
  - simpl app. rewrite map_map. simpl.
    apply (collectValid_ascending texts 0).
Qed.

End BatchOrder.

(** The theorem in a world that rejects the batch calls and settles
    the promises in reverse order. *)
Lemma batch_embeddings_keep_input_order_witness :
  exists h',
    Embeddings.batchGenerateEmbeddings 10 someTexts
      {| Embeddings.batchSize := Some 2%Z; Embeddings.concurrency := None;
         Embeddings.onProgress := false |} flakyWorld []
    = (Ok [[5]; [2]; [3]], h').
Proof.
  apply (batch_embeddings_keep_input_order flakyWorld
           (fun t => [length t])).
  - split; [exists 107%N, (lit "ey"); reflexivity |].
    split; [intros; reflexivity |].
    intros h l. right. exists (lit "429"). reflexivity.
  - reflexivity.
  - reflexivity.
  - simpl. lia.
Defined.

(** ** The overlap between consecutive chunks *)

Section Overlap.

Lemma existsb_rev {A} (f : A -> bool) (l : list A) :
  existsb f (rev l) = existsb f l.
Proof.
  induction l as [| x l IH]; [reflexivity |]. simpl.
  rewrite existsb_app, IH. simpl. rewrite orb_false_r. apply orb_comm.
Qed.

Lemma trimStart_notSpace s : existsb notSpace (trimStart s) = existsb notSpace s.
Proof.
  induction s as [| c s IH]; [reflexivity |]. simpl. unfold notSpace at 2.
  destruct (isWhiteSpace c) eqn:Hc; simpl; [exact IH |].
  unfold notSpace at 1. rewrite Hc. reflexivity.
Qed.

Lemma trimStart_nonEmpty s : nonEmpty (trimStart s) = existsb notSpace s.
Proof.
  induction s as [| c s IH]; [reflexivity |]. simpl. unfold notSpace at 1.
  destruct (isWhiteSpace c); simpl; [exact IH | reflexivity].
Qed.

Lemma nonEmpty_rev {A} (l : list A) : nonEmpty (rev l) = nonEmpty l.
Proof. unfold nonEmpty. rewrite length_rev. reflexivity. Qed.

(** A string is not blank exactly when it holds a code unit that is not
    white space. *)
Lemma nonBlank_notSpace s : nonBlank s = existsb notSpace s.
Proof.
  unfold nonBlank, trim, trimEnd.
  rewrite nonEmpty_rev, trimStart_nonEmpty, existsb_rev.
  apply trimStart_notSpace.
Qed.

Lemma trim_notSpace s : existsb notSpace (trim s) = existsb notSpace s.
Proof.
  unfold trim, trimEnd.
  rewrite existsb_rev, trimStart_notSpace, existsb_rev.
  apply trimStart_notSpace.
Qed.

Lemma sentences_notBlank text :
  Forall (fun s => nonBlank s = true) (splitIntoSentences text).
Proof.
  unfold splitIntoSentences. apply Forall_forall. intros s Hs.
  apply filter_In in Hs. destruct Hs as [Hin Hne].
  apply in_map_iff in Hin. destruct Hin as [x [<- _]].
  rewrite nonBlank_notSpace, trim_notSpace.
  unfold trim, trimEnd in Hne.
  rewrite nonEmpty_rev, trimStart_nonEmpty, existsb_rev, trimStart_notSpace
    in Hne.
  exact Hne.
Qed.

Lemma join_notSpace sep :
  forall l s,
    In s l -> existsb notSpace s = true ->
    existsb notSpace (join sep l) = true.
Proof.
  induction l as [| x l IH]; intros s Hin Hs; [contradiction |].
  destruct l as [| y l].
  - destruct Hin as [-> | []]. exact Hs.
  - change (join sep (x :: y :: l)) with (x ++ sep ++ join sep (y :: l)).
    rewrite !existsb_app. destruct Hin as [-> | Hin].
    + rewrite Hs. reflexivity.
    + rewrite (IH s Hin Hs). rewrite !orb_true_r. reflexivity.
Qed.

Lemma group_notBlank g :
  g <> [] -> Forall (fun s => nonBlank s = true) g ->
  nonBlank (join SPACE g) = true.
Proof.
  intros Hne Hall. destruct g as [| s g]; [congruence |].
  rewrite nonBlank_notSpace. apply (join_notSpace SPACE _ s); [left; reflexivity |].
  inversion Hall as [| ? ? Hs _]; subst.
  rewrite <- nonBlank_notSpace. exact Hs.
Qed.

(** The sentence loop pushes the joined groups of [groupLoop]. *)
Lemma sentenceLoop_groups fuel maxT ov :
  forall sentences closed current tokens,
    Forall (fun s => (estimateTokens s <= maxT)%Z) sentences ->
    sentenceLoop fuel sentences maxT ov
      (LoopState (map (join SPACE) closed) current tokens)
    = match groupLoop sentences maxT ov closed current tokens with
      | (closed', current', tokens') =>
          Some (LoopState (map (join SPACE) closed') current' tokens')
      end.
Proof.
  induction sentences as [| s more IH]; intros closed current tokens Hfit;
    [reflexivity |].
  inversion Hfit as [| ? ? Hs Hmore]; subst.
  cbn [sentenceLoop groupLoop].
  destruct (Z.gtb_spec (estimateTokens s) maxT) as [Hbig | _]; [lia |].
  cbn [currentTokens currentChunk TextProcessing.chunks].
  destruct ((tokens + estimateTokens s >? maxT)%Z && nonEmpty current).
  - cbn [currentTokens currentChunk TextProcessing.chunks].
    replace (map (join SPACE) closed ++ [join SPACE current])
      with (map (join SPACE) (closed ++ [current]))
      by (rewrite map_app; reflexivity).
    apply IH. exact Hmore.
  - apply IH. exact Hmore.
Qed.

Lemma tokensOf_app a b : tokensOf (a ++ b) = (tokensOf a + tokensOf b)%Z.
Proof.
  induction a as [| s a IH]; simpl; [reflexivity |]. rewrite IH. lia.
Qed.

Lemma tokensOf_rev a : tokensOf (rev a) = tokensOf a.
Proof.
  induction a as [| s a IH]; simpl; [reflexivity |].
  rewrite tokensOf_app, IH. simpl. lia.
Qed.

(** What the backward walk of [getOverlapSentences] takes: a prefix of
    the reversed sentences that stays within the budget and that the
    next sentence would push over it. *)
Lemma overlapLoop_spec ov :
  forall revS acc tokens,
    exists taken rest,
      revS = taken ++ rest
      /\ overlapLoop revS ov acc tokens = rev taken ++ acc
      /\ (taken <> [] -> (tokens + tokensOf taken <= ov)%Z)
      /\ (forall s rest', rest = s :: rest' ->
                          (tokens + tokensOf taken + estimateTokens s > ov)%Z).
Proof.
  induction revS as [| s before IH]; intros acc tokens.
  - exists [], []. split; [reflexivity |]. split; [reflexivity |].
    split; [congruence | intros; discriminate].
  - simpl. destruct (Z.gtb_spec (tokens + estimateTokens s) ov) as [Hover | Hfit].
    + exists [], (s :: before). split; [reflexivity |]. split; [reflexivity |].
      split; [congruence |].
      intros s' rest' E. inversion E; subst. simpl. lia.
    + destruct (IH (s :: acc) (tokens + estimateTokens s)%Z)
        as [taken [rest [E1 [E2 [E3 E4]]]]].
      exists (s :: taken), rest. subst before.
      split; [reflexivity |]. split; [| split].
      * rewrite E2. simpl. rewrite <- app_assoc. reflexivity.
      * intros _. simpl. destruct taken as [| t taken]; [simpl; lia |].
        assert (t :: taken <> []) by discriminate.
        specialize (E3 H). lia.
      * intros s' rest' E. specialize (E4 s' rest' E). simpl. lia.
Qed.

Lemma overlap_spec g ov :
  exists before,
    g = before ++ getOverlapSentences g ov
    /\ (getOverlapSentences g ov <> [] ->
        (tokensOf (getOverlapSentences g ov) <= ov)%Z)
    /\ (forall before' s, before = before' ++ [s] ->
          (tokensOf (s :: getOverlapSentences g ov) > ov)%Z).
Proof.
  unfold getOverlapSentences.
  destruct (overlapLoop_spec ov (rev g) [] 0) as [taken [rest [E1 [E2 [E3 E4]]]]].
  rewrite E2, app_nil_r. exists (rev rest). split; [| split].
  - rewrite <- rev_app_distr, <- E1, rev_involutive. reflexivity.
  - intros Hne. rewrite tokensOf_rev.
    assert (taken <> []) by (intros ->; apply Hne; reflexivity).
    specialize (E3 H). lia.
  - intros before' s E. simpl. rewrite tokensOf_rev.
    assert (Hrest : rest = s :: rev before').
    { rewrite <- (rev_involutive rest), E, rev_app_distr. reflexivity. }
    specialize (E4 _ _ Hrest). lia.
Qed.

(** The last sentence of a group decides whether its overlap is empty. *)
Lemma overlap_last g ov before s :
  g = before ++ [s] ->
  ((estimateTokens s <= ov)%Z ->
   exists o, getOverlapSentences g ov = o ++ [s])
  /\ ((estimateTokens s > ov)%Z -> getOverlapSentences g ov = []).
Proof.
  intros Hg. unfold getOverlapSentences. subst g.
  rewrite rev_app_distr. simpl.
  destruct (Z.gtb_spec (estimateTokens s) ov) as [Hover | Hfit].
  - split; [lia | reflexivity].
  - split; [| lia]. intros _.
    destruct (overlapLoop_spec ov (rev before) [s] (estimateTokens s))
      as [taken [rest [_ [E2 _]]]].
    exists (rev taken). exact E2.
Qed.

Lemma seeded_extend ov x g s : seeded ov x g -> seeded ov x (g ++ [s]).
Proof.
  intros [fresh [Hne ->]]. exists (fresh ++ [s]). split.
  - destruct fresh; [congruence | discriminate].
  - rewrite app_assoc. reflexivity.
Qed.

Lemma chained_extend_last ov s :
  forall l g, chained ov (l ++ [g]) -> chained ov (l ++ [g ++ [s]]).
Proof.
  induction l as [| x l IH]; intros g H; [exact I |].
  destruct l as [| y l].
  - simpl in *. destruct H as [H _]. split; [| exact I].
    apply seeded_extend. exact H.
  - change ((x :: y :: l) ++ [g]) with (x :: y :: (l ++ [g])) in H.
    change ((x :: y :: l) ++ [g ++ [s]]) with (x :: y :: (l ++ [g ++ [s]])).
    destruct H as [Hxy H]. split; [exact Hxy |]. apply (IH g). exact H.
Qed.

Lemma chained_snoc ov g' :
  forall l g, chained ov (l ++ [g]) -> seeded ov g g' ->
              chained ov ((l ++ [g]) ++ [g']).
Proof.
  induction l as [| x l IH]; intros g H Hs.
  - simpl. auto.
  - destruct l as [| y l].
    + simpl in *. destruct H as [H _]. auto.
    + change (((x :: y :: l) ++ [g]) ++ [g'])
        with (x :: y :: ((l ++ [g]) ++ [g'])).
      change ((x :: y :: l) ++ [g]) with (x :: y :: (l ++ [g])) in H.
      destruct H as [Hxy H]. split; [exact Hxy |].
      apply (IH g); assumption.
Qed.

Lemma chained_lookup ov :
  forall groups i g g',
    chained ov groups ->
    nth_error groups i = Some g -> nth_error groups (S i) = Some g' ->
    seeded ov g g'.
Proof.
  induction groups as [| x groups IH]; intros i g g' H Hg Hg';
    [destruct i; discriminate |].
  destruct groups as [| y groups]; [destruct i; discriminate |].
  destruct H as [Hxy H]. destruct i as [| i].
  - simpl in Hg, Hg'. inversion Hg; inversion Hg'; subst. exact Hxy.
  - apply (IH i); assumption.
Qed.

(** The groups of [groupLoop] are chained, not empty, and made of the
    sentences it was given. *)
Lemma groupLoop_chained maxT ov (good : jsstring -> Prop) :
  forall sentences closed current tokens closed' current' tokens',
    groupLoop sentences maxT ov closed current tokens
    = (closed', current', tokens') ->
    Forall good sentences ->
    (current = [] -> closed = []) ->
    chained ov (closed ++ [current]) ->
    Forall (fun g => g <> [] /\ Forall good g) closed ->
    Forall good current ->
    (current' = [] -> closed' = [])
    /\ chained ov (closed' ++ [current'])
    /\ Forall (fun g => g <> [] /\ Forall good g) closed'
    /\ Forall good current'.
Proof.
  induction sentences as [| s more IH];
    intros closed current tokens closed' current' tokens' H Hgood Hempty Hchain
      Hclosed Hcurrent; simpl in H.
  - inversion H; subst. auto.
  - inversion Hgood as [| ? ? Hs Hmore]; subst.
    destruct ((tokens + estimateTokens s >? maxT)%Z && nonEmpty current) eqn:Hc.
    + apply andb_prop in Hc. destruct Hc as [_ Hne].
      assert (Hcur : current <> []) by (intros ->; discriminate).
      destruct (overlap_spec current ov) as [before [Hsuffix _]].
      eapply IH; [exact H | exact Hmore | | | |].
      * intros E. destruct (getOverlapSentences current ov); discriminate.
      * apply chained_snoc; [exact Hchain |].
        exists [s]. split; [discriminate | reflexivity].
      * apply Forall_app. split; [exact Hclosed |].
        constructor; [| constructor]. split; assumption.
      * apply Forall_app. split; [| constructor; [exact Hs | constructor]].
        rewrite Hsuffix in Hcurrent. apply Forall_app in Hcurrent.
        destruct Hcurrent as [_ Hseed]. exact Hseed.
    + eapply IH; [exact H | exact Hmore | | | exact Hclosed |].
      * intros E. destruct current; discriminate.
      * apply chained_extend_last. exact Hchain.
      * apply Forall_app. split; [exact Hcurrent |].
        constructor; [exact Hs | constructor].
Qed.

Lemma sentenceGroups_spec sentences maxT ov (good : jsstring -> Prop) :
  Forall good sentences ->
  chained ov (sentenceGroups sentences maxT ov)
  /\ Forall (fun g => g <> [] /\ Forall good g)
       (sentenceGroups sentences maxT ov).
Proof.
  intros Hgood. unfold sentenceGroups.
  destruct (groupLoop sentences maxT ov [] [] 0) as [[closed current] tokens]
    eqn:Hloop.
  destruct (groupLoop_chained maxT ov good _ _ _ _ _ _ _ Hloop Hgood)
    as [Hempty [Hchain [Hclosed Hcurrent]]]; auto.
  { exact I. }
  destruct current as [| s current]; simpl.
  - rewrite (Hempty eq_refl). split; [exact I | constructor].
  - split; [exact Hchain |].
    apply Forall_app. split; [exact Hclosed |].
    constructor; [| constructor]. split; [discriminate | exact Hcurrent].
Qed.

Lemma filter_all {A} (f : A -> bool) (l : list A) :
  Forall (fun x => f x = true) l -> filter f l = l.
Proof.
  induction 1 as [| x l Hx _ IH]; simpl; [reflexivity |].
  rewrite Hx, IH. reflexivity.
Qed.

(** On a text that is too long for one chunk and whose
    sentences each fit in a chunk (so that the word-level fallback is
    not taken), the chunks of [chunkText] are the joined groups of
    sentences of [sentenceGroups], and every chunk but the first starts
    with the overlap selected from the chunk before it, followed by at
    least one further sentence.  The overlap is the longest run of
    trailing sentences of the previous chunk whose estimates sum to at
    most [overlapTokens]: two consecutive chunks share the last sentence
    of the first when that sentence is estimated at no more than
    [overlapTokens] tokens, and the overlap is empty when it is
    estimated at more. *)
Lemma fitting_sentences_are_seeded :
  forall fuel text config maxT ov,
    maxT = orDefault (maxTokens config) 800%Z ->
    ov = orDefault (overlap config) 200%Z ->
    orDefault (preserveSentences config) true = true ->
    nonBlank text = true ->
    (estimateTokens text > maxT)%Z ->
    Forall (fun s => (estimateTokens s <= maxT)%Z) (splitIntoSentences text) ->
    chunkText fuel text config
    = Some (map (join SPACE) (sentenceGroups (splitIntoSentences text) maxT ov))
    /\ forall i g g',
         nth_error (sentenceGroups (splitIntoSentences text) maxT ov) i
         = Some g ->
         nth_error (sentenceGroups (splitIntoSentences text) maxT ov) (S i)
         = Some g' ->
         seeded ov g g'
         /\ (exists before,
               g = before ++ getOverlapSentences g ov
               /\ (getOverlapSentences g ov <> [] ->
                   (tokensOf (getOverlapSentences g ov) <= ov)%Z)
               /\ (forall before' s, before = before' ++ [s] ->
                     (tokensOf (s :: getOverlapSentences g ov) > ov)%Z))
         /\ (forall before s,
               g = before ++ [s] ->
               ((estimateTokens s <= ov)%Z ->
                In s (getOverlapSentences g ov) /\ In s g')
               /\ ((estimateTokens s > ov)%Z ->
                   getOverlapSentences g ov = [])).
Proof.
  intros fuel text config maxT ov HmaxT Hov Hkeep Hblank Hlong Hfit.
  set (sentences := splitIntoSentences text) in *.
  destruct (sentenceGroups_spec sentences maxT ov
              (fun s => nonBlank s = true) (sentences_notBlank text))
    as [Hchain Hgroups].
  split.
  - unfold chunkText. rewrite <- HmaxT, <- Hov, Hkeep, Hblank. simpl negb.
    cbv iota. destruct (Z.leb_spec (estimateTokens text) maxT); [lia |].
    fold sentences.
    pose proof (sentenceLoop_groups fuel maxT ov sentences [] [] 0 Hfit)
      as Hloop.
    simpl map in Hloop. rewrite Hloop.
    unfold sentenceGroups in *.
    destruct (groupLoop sentences maxT ov [] [] 0) as [[closed current] tokens].
    cbn [currentChunk TextProcessing.chunks].
    replace (if nonEmpty current
             then map (join SPACE) closed ++ [join SPACE current]
             else map (join SPACE) closed)
      with (map (join SPACE)
              (if nonEmpty current then closed ++ [current] else closed))
      by (destruct (nonEmpty current); [rewrite map_app |]; reflexivity).
    f_equal. apply filter_all. apply Forall_map.
    eapply Forall_impl; [| exact Hgroups].
    intros g [Hne Hall]. apply group_notBlank; assumption.
  - intros i g g' Hg Hg'.
    pose proof (chained_lookup ov _ _ _ _ Hchain Hg Hg') as Hseed.
    split; [exact Hseed |]. split; [apply overlap_spec |].
    intros before s Hlast.
    destruct (overlap_last g ov before s Hlast) as [Hshare Hnone].
    split; [| exact Hnone].
    intros Hs. destruct (Hshare Hs) as [o Ho].
    destruct Hseed as [fresh [_ ->]]. rewrite Ho.
    split; apply in_or_app; [right; left; reflexivity |].
    left. apply in_or_app. right. left. reflexivity.
Qed.

End Overlap.

(** The round trip on an article id that itself holds "-chunk-5". *)
Lemma vectorId_roundtrip_witness :
  Pinecone.parseVectorId (Pinecone.buildVectorId (lit "a-chunk-5") 12)
  = Some (lit "a-chunk-5", 12%N).
Proof.
  apply (proj1 vectorId_roundtrip).
  - discriminate.
  - repeat constructor.
  - vm_compute. discriminate.
Defined.

(** A carriage return in the article id is refused by the dot of the
    pattern, like the other line terminators. *)
Lemma vectorId_carriage_return :
  Pinecone.parseVectorId
    (Pinecone.buildVectorId (lit "a" ++ [13%N] ++ lit "b") 0) = None.
Proof. vm_compute. reflexivity. Qed.

(** ** Further properties of the vector identifiers *)

Section VectorIdShape.
Import Pinecone.

Lemma starChr_inv p cs k r :
  forall s pv,
    starChr p pv s cs k = Some r ->
    exists xs ys,
      s = xs ++ ys /\ Forall (fun c => p c = true) xs
      /\ k (MState (lastOr pv xs) ys cs) = Some r.
Proof.
  induction s as [| c tl IH]; intros pv H; simpl in H.
  - exists [], []. repeat split; [constructor | exact H].
  - destruct (p c) eqn:Hc.
    + destruct (starChr p (Some c) tl cs k) as [r' |] eqn:E.
      * inversion H; subst r'. destruct (IH _ E) as [xs [ys [Hs [Hxs Hk]]]].
        exists (c :: xs), ys. rewrite Hs. repeat split; [constructor |]; assumption.
      * exists [], (c :: tl). repeat split; [constructor | exact H].
    + exists [], (c :: tl). repeat split; [constructor | exact H].
Qed.

Lemma consumed_prefix pv pv' cs cs' (xs ys : jsstring) :
  consumed (MState pv (xs ++ ys) cs) (MState pv' ys cs') = xs.
Proof.
  unfold consumed. cbn [rest]. rewrite length_app.
  replace (length xs + length ys - length ys) with (length xs) by lia.
  rewrite firstn_app, Nat.sub_diag, firstn_all. cbn [firstn].
  apply app_nil_r.
Qed.

(** What a match of the tail of the pattern tells: the input is
    "-chunk-" followed by digits, which the second group captures. *)
Lemma idTail_inv pv u cs r :
  rmatch idTail (MState pv u cs) Some = Some r ->
  exists ds,
    u = chunkMark ++ ds /\ ds <> []
    /\ Forall (fun c => isDigit c = true) ds
    /\ caps r = (2, ds) :: cs.
Proof.
  intros H. unfold idTail in H. rewrite rmatch_seq in H.
  destruct (lit_prefix _ _ _ _ _ _ H) as [zs ->].
  rewrite lit_match in H. cbv beta in H.
  unfold Plus in H. rewrite rmatch_seq, rmatch_group, rmatch_seq in H.
  destruct zs as [| d zs]; [discriminate |].
  rewrite rmatch_chr in H. destruct (isDigit d) eqn:Hd; [| discriminate].
  cbv beta in H. rewrite star_chr in H.
  apply starChr_inv in H. destruct H as [xs [ys [Hzs [Hxs Hk]]]].
  cbv beta in Hk. cbn [prev rest caps] in Hk.
  destruct ys as [| y ys]; [| discriminate].
  rewrite rmatch_eol in Hk. inversion Hk; subst r. clear Hk.
  rewrite app_nil_r in Hzs. subst zs.
  exists (d :: xs). rewrite chunkMark_lit.
  repeat split; [discriminate | constructor; assumption |].
  cbn [caps]. f_equal. f_equal.
  unfold consumed. cbn [rest length firstn]. rewrite Nat.sub_0_r.
  cbn [firstn]. rewrite firstn_all. reflexivity.
Qed.

Lemma dot_noLineTerminator xs :
  Forall (fun c => dot c = true) xs -> noLineTerminator xs.
Proof.
  intros H. eapply Forall_impl; [| exact H]. intros c Hc. unfold dot in Hc.
  destruct (isLineTerminator c); [discriminate | reflexivity].
Qed.

Lemma noLineTerminator_dot xs :
  noLineTerminator xs -> Forall (fun c => dot c = true) xs.
Proof.
  intros H. eapply Forall_impl; [| exact H]. intros c Hc. unfold dot.
  rewrite Hc. reflexivity.
Qed.

(** The pattern on an identifier of the expected shape. *)
Lemma execAt_vectorId c a ds :
  noLineTerminator (c :: a) ->
  ds <> [] -> Forall (fun x => isDigit x = true) ds ->
  execAt vectorIdRegex None (lit "article-" ++ (c :: a) ++ lit "-chunk-" ++ ds)
  = Some (MState (lastOr (Some 45%N) ds) [] [(2, ds); (1, c :: a)]).
Proof.
  intros Hlines Hdn Hds. inversion Hlines as [| ? ? Hc Ha]; subst.
  unfold execAt. rewrite vectorIdRegex_eq, rmatch_bol. cbv beta.
  rewrite lit_match. cbv beta. cbn [app]. rewrite rmatch_chr.
  unfold dot at 1. rewrite Hc. cbn [negb]. cbv beta.
  rewrite star_chr, chunkMark_lit.
  apply starChr_backtrack; [apply noLineTerminator_dot; exact Ha |].
  rewrite starChr_suffixes.
  - cbn [prev rest caps].
    change (c :: a ++ chunkMark ++ ds) with ((c :: a) ++ chunkMark ++ ds).
    rewrite consumed_prefix.
    apply (idTail_matches ds _ _ Hdn Hds).
  - intros v u pv' Hv Hu. cbn [prev rest caps].
    apply (idTail_fails ds Hds v u _ _ Hv Hu).
Qed.

(** X2: [parseVectorId] returns a pair exactly on the identifiers made
    of "article-", an article id that is not empty and holds no line
    terminator, "-chunk-" and a numeral of one or more decimal digits,
    leading zeros included; the pair is the article id and the value of
    the numeral (a value in the safe integer range, where [parseInt] is
    exact).  So an identifier whose numeral has leading zeros parses,
    and is not the identifier built from the pair it parses to. *)
Theorem parseVectorId_shape :
  forall vectorId articleId chunkIndex,
    (chunkIndex <= MAX_SAFE_INTEGER)%N ->
    parseVectorId vectorId = Some (articleId, chunkIndex)
    <-> exists digits,
          vectorId = lit "article-" ++ articleId ++ lit "-chunk-" ++ digits
          /\ articleId <> [] /\ noLineTerminator articleId
          /\ digits <> [] /\ Forall (fun c => isDigit c = true) digits
          /\ chunkIndex = parseDigits digits.
Proof.
  intros v a n _. split.
  - unfold parseVectorId. intros H.
    destruct (search vectorIdRegex None v) as [m |] eqn:Es; [| discriminate].
    assert (Hexec : execAt vectorIdRegex None v = Some m).
    { destruct v as [| x v]; cbn [search] in Es;
        destruct (execAt vectorIdRegex None _) as [m' |] eqn:E;
        try exact Es; try discriminate.
      rewrite search_vectorId_later in Es. discriminate. }
    clear Es. unfold execAt in Hexec.
    rewrite vectorIdRegex_eq, rmatch_bol in Hexec. cbv beta in Hexec.
    destruct (lit_prefix _ _ _ _ _ _ Hexec) as [u ->].
    rewrite lit_match in Hexec. cbv beta in Hexec.
    destruct u as [| c u]; [discriminate |].
    rewrite rmatch_chr in Hexec. destruct (dot c) eqn:Hc; [| discriminate].
    cbv beta in Hexec. rewrite star_chr in Hexec.
    apply starChr_inv in Hexec. destruct Hexec as [xs [ys [Hu [Hxs Hk]]]].
    cbv beta in Hk. cbn [prev rest caps] in Hk.
    apply idTail_inv in Hk. destruct Hk as [ds [Hys [Hdn [Hds Hcaps]]]].
    subst u ys.
    change (c :: xs ++ chunkMark ++ ds) with ((c :: xs) ++ chunkMark ++ ds)
      in Hcaps.
    rewrite consumed_prefix in Hcaps.
    unfold capture in H. rewrite Hcaps in H. cbn [find fst snd Nat.eqb] in H.
    inversion H; subst a n. exists ds. rewrite chunkMark_lit.
    repeat split; try assumption; [discriminate |].
    apply dot_noLineTerminator. constructor; assumption.
  - intros [ds [Hv [Hne [Hlines [Hdn [Hds Hn]]]]]]. subst v n.
    destruct a as [| c a]; [congruence |].
    unfold parseVectorId.
    pose proof (execAt_vectorId c a ds Hlines Hdn Hds) as Hmatch.
    destruct (lit "article-" ++ (c :: a) ++ lit "-chunk-" ++ ds) eqn:Es;
      [discriminate |].
    cbn [search]. rewrite Hmatch. unfold capture.
    cbn [caps find fst snd Nat.eqb]. reflexivity.
Qed.

(** X1: [buildVectorId] is injective: two pairs of an article id and a
    chunk index (in the safe integer range) with the same identifier
    are equal, whatever the article ids hold, "-chunk-" included. *)
Theorem buildVectorId_injective :
  forall articleId chunkIndex articleId' chunkIndex',
    (chunkIndex <= MAX_SAFE_INTEGER)%N ->
    (chunkIndex' <= MAX_SAFE_INTEGER)%N ->
    buildVectorId articleId chunkIndex = buildVectorId articleId' chunkIndex' ->
    articleId = articleId' /\ chunkIndex = chunkIndex'.
Proof.
  intros a n a' n' _ _. unfold buildVectorId. rewrite chunkMark_lit.
  intros H. apply app_inv_head in H.
  set (ds := numberToString n) in *. set (ds' := numberToString n') in *.
  assert (Hds : Forall (fun c => isDigit c = true) ds)
    by apply uintChars_digits.
  assert (Hds' : Forall (fun c => isDigit c = true) ds')
    by apply uintChars_digits.
  assert (Ha : a = a').
  { apply app_eq_app in H. destruct H as [v [[E1 E2] | [E1 E2]]].
    - destruct v as [| x v]; [rewrite app_nil_r in E1; exact E1 |].
      exfalso. apply (chunkMark_unique ds' (x :: v) ds Hds');
        [discriminate | exact E2].
    - destruct v as [| x v]; [rewrite app_nil_r in E1; symmetry; exact E1 |].
      exfalso. apply (chunkMark_unique ds (x :: v) ds' Hds);
        [discriminate | exact E2]. }
  split; [exact Ha |]. subst a'.
  apply app_inv_head in H. apply app_inv_head in H.
  rewrite <- (parseDigits_numberToString n), <- (parseDigits_numberToString n').
  fold ds ds'. rewrite H. reflexivity.
Qed.

End VectorIdShape.

(** An identifier with "-chunk-" inside the article id and leading
    zeros in the numeral. *)
Lemma parseVectorId_shape_witness :
  (7 <= MAX_SAFE_INTEGER)%N
  /\ Pinecone.parseVectorId (lit "article-a-chunk-1-chunk-007")
     = Some (lit "a-chunk-1", 7%N)
  /\ Pinecone.buildVectorId (lit "a-chunk-1") 7
     = lit "article-a-chunk-1-chunk-7".
Proof.
  split; [discriminate |]. split; [| reflexivity].
  apply (proj2 (parseVectorId_shape (lit "article-a-chunk-1-chunk-007")
                  (lit "a-chunk-1") 7%N ltac:(discriminate))).
  exists (lit "007").
  repeat split; try discriminate; repeat constructor.
Defined.

Lemma buildVectorId_injective_witness :
  Pinecone.buildVectorId (lit "12") 3 = lit "article-12-chunk-3"
  /\ (lit "12" = lit "12" /\ 3%N = 3%N).
Proof.
  split; [reflexivity |].
  apply (buildVectorId_injective (lit "12") 3 (lit "12") 3);
    [discriminate | discriminate | reflexivity].
Defined.

(** ** The rate limiter of the chat route *)

Section RateLimiter.
Import Chat.
Local Open Scope Z_scope.

Lemma str_eqb_refl a : str_eqb a a = true.
Proof. induction a as [| x a IH]; simpl; [| rewrite N.eqb_refl]; auto. Qed.

Lemma str_eqb_neq a b : a <> b -> str_eqb a b = false.
Proof.
  intros H. destruct (str_eqb a b) eqn:E; [| reflexivity].
  apply str_eqb_eq in E. contradiction.
Qed.

Lemma mapGet_mapSet_same m key v : mapGet (mapSet m key v) key = Some v.
Proof.
  induction m as [| [k old] m IH]; simpl.
  - rewrite str_eqb_refl. reflexivity.
  - destruct (str_eqb k key) eqn:E; simpl; rewrite E; [reflexivity | exact IH].
Qed.

Lemma mapGet_mapSet_other m key v other :
  key <> other -> mapGet (mapSet m key v) other = mapGet m other.
Proof.
  intros Hne. induction m as [| [k old] m IH]; simpl.
  - rewrite (str_eqb_neq _ _ Hne). reflexivity.
  - destruct (str_eqb k key) eqn:E; simpl.
    + apply str_eqb_eq in E. subst k.
      rewrite (str_eqb_neq _ _ Hne). reflexivity.
    + rewrite IH. reflexivity.
Qed.

(** A call leaves the records of the other identifiers as they are. *)
Lemma checkRateLimit_frame m now identifier maxRequests windowMs other :
  identifier <> other ->
  mapGet (snd (checkRateLimit m now identifier maxRequests windowMs)) other
  = mapGet m other.
Proof.
  intros Hne. unfold checkRateLimit.
  destruct (mapGet m identifier) as [record |]; cbn [snd];
    [destruct (now >? resetTime record)%Z;
     [| destruct (count record >=? orDefault maxRequests 100)%Z] |];
    cbn [snd]; try reflexivity; apply mapGet_mapSet_other; exact Hne.
Qed.

(** The decision and the new record depend on the record of the
    identifier only. *)
Lemma checkRateLimit_local m1 m2 now identifier maxRequests windowMs :
  mapGet m1 identifier = mapGet m2 identifier ->
  fst (checkRateLimit m1 now identifier maxRequests windowMs)
  = fst (checkRateLimit m2 now identifier maxRequests windowMs)
  /\ mapGet (snd (checkRateLimit m1 now identifier maxRequests windowMs))
       identifier
     = mapGet (snd (checkRateLimit m2 now identifier maxRequests windowMs))
         identifier.
Proof.
  intros H. unfold checkRateLimit. rewrite <- H.
  destruct (mapGet m1 identifier) as [record |] eqn:E; cbn [fst snd];
    [destruct (now >? resetTime record)%Z;
     [| destruct (count record >=? orDefault maxRequests 100)%Z] |];
    cbn [fst snd]; rewrite ?mapGet_mapSet_same; auto.
  rewrite E. auto.
Qed.

Lemma serve_agree maxRequests windowMs identifier :
  forall requests m1 m2,
    mapGet m1 identifier = mapGet m2 identifier ->
    decisionsFor identifier requests (serve m1 requests maxRequests windowMs)
    = serve m2 (requestsOf identifier requests) maxRequests windowMs.
Proof.
  induction requests as [| [now i] later IH]; intros m1 m2 H; [reflexivity |].
  cbn [serve requestsOf filter snd].
  destruct (checkRateLimit m1 now i maxRequests windowMs) as [ok m1'] eqn:E1.
  cbn [decisionsFor].
  destruct (str_eqb i identifier) eqn:Ei.
  - apply str_eqb_eq in Ei. subst i. cbn [serve].
    destruct (checkRateLimit m2 now identifier maxRequests windowMs)
      as [ok2 m2'] eqn:E2.
    destruct (checkRateLimit_local m1 m2 now identifier maxRequests windowMs H)
      as [Hd Hm].
    rewrite E1, E2 in Hd, Hm. cbn [fst snd] in Hd, Hm. subst ok2.
    f_equal. apply IH. exact Hm.
  - apply IH. rewrite <- H.
    replace m1' with (snd (checkRateLimit m1 now i maxRequests windowMs))
      by (rewrite E1; reflexivity).
    apply checkRateLimit_frame. intros ->. rewrite str_eqb_refl in Ei.
    discriminate.
Qed.

(** X3: the limiter keeps its identifiers apart: on any sequence of
    requests and from any state of the map, the decisions taken on the
    requests of one identifier are those it would take if the requests
    of that identifier were the only ones. *)
Theorem rate_limit_isolation :
  forall m requests identifier maxRequests windowMs,
    decisionsFor identifier requests (serve m requests maxRequests windowMs)
    = serve m (requestsOf identifier requests) maxRequests windowMs.
Proof.
  intros m requests identifier maxRequests windowMs.
  apply serve_agree. reflexivity.
Qed.

Lemma serve_window identifier maxRequests windowMs reset :
  forall times m c,
    mapGet m identifier = Some {| count := c; resetTime := reset |} ->
    Forall (fun t => (t <= reset)%Z) times ->
    serve m (map (fun t => (t, identifier)) times) maxRequests windowMs
    = map (fun j => (c + Z.of_nat j <? orDefault maxRequests 100)%Z)
        (seq 0 (length times)).
Proof.
  induction times as [| t times IH]; intros m c Hm Hall; [reflexivity |].
  inversion Hall as [| ? ? Ht Hrest]; subst.
  cbn [map serve length seq]. unfold checkRateLimit. rewrite Hm.
  cbn [resetTime count].
  destruct (Z.gtb_spec t reset) as [Hgt | _]; [lia |].
  rewrite <- seq_shift, map_map.
  destruct (Z.geb_spec c (orDefault maxRequests 100%Z)) as [Hfull | Hroom].
  - f_equal; [symmetry; apply Z.ltb_ge; lia |].
    rewrite (IH m c Hm Hrest). apply map_ext_in. intros j _.
    destruct (Z.ltb_spec (c + Z.of_nat j) (orDefault maxRequests 100%Z)),
             (Z.ltb_spec (c + Z.of_nat (S j)) (orDefault maxRequests 100%Z));
      try reflexivity; lia.
  - f_equal; [symmetry; apply Z.ltb_lt; lia |].
    rewrite (IH _ (c + 1)%Z (mapGet_mapSet_same _ _ _) Hrest).
    apply map_ext. intros j. f_equal. lia.
Qed.

(** X4: a fixed window.  When an identifier has no record, or its
    window is over, its next request opens a window of [windowMs]
    milliseconds and is let through whatever the limit; of the requests
    of the identifier that arrive until the window ends, the first
    [maxRequests - 1] are let through and all the others are refused.
    So a window lets through [max 1 maxRequests] requests at most. *)
Theorem rate_limit_window :
  forall m identifier start times maxRequests windowMs,
    windowOver m identifier start ->
    Forall (fun t => (t <= start + orDefault windowMs 60000)%Z) times ->
    serve m (map (fun t => (t, identifier)) (start :: times))
      maxRequests windowMs
    = map (fun i => (Z.of_nat i <? Z.max 1 (orDefault maxRequests 100))%Z)
        (seq 0 (S (length times))).
Proof.
  intros m identifier start times maxRequests windowMs Hover Hall.
  cbn [map serve seq].
  assert (Hfirst :
    checkRateLimit m start identifier maxRequests windowMs
    = (true, mapSet m identifier
               {| count := 1;
                  resetTime := start + orDefault windowMs 60000 |})).
  { unfold checkRateLimit. unfold windowOver in Hover.
    destruct (mapGet m identifier) as [record |]; [| reflexivity].
    destruct (Z.gtb_spec start (resetTime record)); [reflexivity | lia]. }
  rewrite Hfirst. cbv iota beta.
  f_equal; [symmetry; apply Z.ltb_lt; simpl; lia |].
  rewrite (serve_window identifier maxRequests windowMs
             (start + orDefault windowMs 60000) times _ 1%Z
             (mapGet_mapSet_same _ _ _) Hall).
  rewrite <- seq_shift, map_map. apply map_ext. intros j.
  destruct (Z.ltb_spec (1 + Z.of_nat j) (orDefault maxRequests 100%Z)),
           (Z.ltb_spec (Z.of_nat (S j)) (Z.max 1 (orDefault maxRequests 100%Z))%Z);
    try reflexivity; lia.
Qed.

End RateLimiter.

(** Five requests of one client in one minute under a limit of three,
    then one more after the window. *)
Lemma rate_limit_window_witness :
  windowOver [] (lit "10.0.0.1") 1000
  /\ serve [] (map (fun t => (t, lit "10.0.0.1")) [1000; 1001; 2000; 61000; 61000]%Z)
       (Some 3%Z) None
     = [true; true; true; false; false].
Proof.
  split; [exact I |].
  apply (rate_limit_window [] (lit "10.0.0.1") 1000
           [1001; 2000; 61000; 61000]%Z (Some 3%Z) None).
  - exact I.
  - repeat constructor; simpl; lia.
Defined.

(** ** The retries of generateEmbedding *)

Section Retries.
Import Embeddings.
Context {number : Type}.
Variable w : world number.
Variable text : jsstring.
Hypothesis text_not_blank : nonBlank text = true.
Hypothesis key_set : openAIKeySet w.

Lemma getOpenAIClient_ok h : @getOpenAIClient number w h = (Ok tt, h).
Proof.
  destruct key_set as [c [k Hkey]].
  unfold getOpenAIClient, bind, env. rewrite Hkey. reflexivity.
Qed.

Lemma attempt_fails retries remaining attempt last h e :
  answer w h (embeddingRequest text) = Failed e ->
  includes e (lit "invalid") = false ->
  attempts text retries (S remaining) attempt last w h
  = (if attempt <? retries
     then attempts text retries remaining (S attempt) (Some e) w
            (h ++ failedAttempt text attempt)
     else attempts text retries remaining (S attempt) (Some e) w
            (h ++ [embeddingRequest text])).
Proof.
  intros Hfail Hretry. cbn [attempts].
  unfold tryCatch at 1. unfold bind at 1. unfold createEmbeddings, bind, call.
  unfold embeddingRequest in Hfail. rewrite Hfail.
  cbv iota beta. unfold throw at 1. cbv iota beta. rewrite Hretry.
  unfold bind, call, ret.
  destruct (attempt <? retries); cbv iota beta.
  - unfold failedAttempt, embeddingRequest. rewrite <- app_assoc.
    rewrite (Z.mul_comm 1000). reflexivity.
  - reflexivity.
Qed.

(** X5: when every attempt fails with an error whose message does not
    contain "invalid", [generateEmbedding] makes [retries + 1] attempts,
    pauses 1000, 2000, 4000, ... ms after each attempt but the last, and
    then throws "Failed to generate embedding after <retries> retries: "
    followed by the message of the last error. *)
Theorem generateEmbedding_gives_up :
  forall retries e h,
    (forall h', answer w h' (embeddingRequest text) = Failed e) ->
    includes e (lit "invalid") = false ->
    generateEmbedding text retries w h
    = (Throw (lit "Failed to generate embedding after "
              ++ numberToString (N.of_nat retries) ++ lit " retries: " ++ e),
       h ++ backoffTrace text retries).
Proof.
  intros retries e h Hfail Hretry.
  unfold generateEmbedding. rewrite text_not_blank. cbn [negb].
  unfold bind at 1. rewrite getOpenAIClient_ok.
  unfold backoffTrace.
  cut (forall remaining attempt last h0,
          attempt + remaining = retries ->
          attempts text retries (S remaining) attempt last w h0
          = (Throw (lit "Failed to generate embedding after "
                    ++ numberToString (N.of_nat retries)
                    ++ lit " retries: " ++ e),
             h0 ++ flat_map (failedAttempt text) (seq attempt remaining)
                ++ [embeddingRequest text])).
  { intros Hcut. apply Hcut. reflexivity. }
  induction remaining as [| remaining IH]; intros attempt last h0 Hsum;
    rewrite (attempt_fails _ _ _ _ _ e (Hfail h0) Hretry).
  - destruct (Nat.ltb_spec attempt retries); [lia |]. reflexivity.
  - destruct (Nat.ltb_spec attempt retries); [| lia].
    rewrite IH by lia. cbn [seq flat_map]. rewrite <- !app_assoc.
    reflexivity.
Qed.

(** X6: when the provider rejects the first [failures] calls with an
    error that is retried and answers the next one, and [failures] does
    not exceed [retries], [generateEmbedding] returns the first vector
    of that answer after [failures] pauses of 1000, 2000, ... ms. *)
Theorem generateEmbedding_recovers :
  forall retries failures e v others h,
    failures <= retries ->
    includes e (lit "invalid") = false ->
    (forall h',
       answer w h' (embeddingRequest text)
       = if embeddingCalls h' <? embeddingCalls h + failures
         then Failed e else EmbeddingData (v :: others)) ->
    generateEmbedding text retries w h
    = (Ok v, h ++ backoffTrace text failures).
Proof.
  intros retries failures e v others h Hle Hretry Hanswer.
  unfold generateEmbedding. rewrite text_not_blank. cbn [negb].
  unfold bind at 1. rewrite getOpenAIClient_ok.
  unfold backoffTrace.
  cut (forall left attempt last h0 remaining,
          attempt + left = failures ->
          attempt + remaining = retries ->
          embeddingCalls h0 = embeddingCalls h + attempt ->
          attempts text retries (S remaining) attempt last w h0
          = (Ok v,
             h0 ++ flat_map (failedAttempt text) (seq attempt left)
                ++ [embeddingRequest text])).
  { intros Hcut. apply (Hcut failures 0 None h retries); lia. }
  induction left as [| left IH];
    intros attempt last h0 remaining Hleft Hrem Hcalls.
  - cbn [attempts seq flat_map app].
    unfold tryCatch, bind, createEmbeddings, bind, call.
    pose proof (Hanswer h0) as Ha. unfold embeddingRequest in Ha.
    rewrite Ha.
    destruct (Nat.ltb_spec (embeddingCalls h0) (embeddingCalls h + failures));
      [lia |].
    reflexivity.
  - destruct remaining as [| remaining]; [lia |].
    rewrite (attempt_fails _ _ _ _ _ e).
    + destruct (Nat.ltb_spec attempt retries); [| lia].
      rewrite IH; [| lia | lia |].
      * cbn [seq flat_map]. rewrite <- !app_assoc. reflexivity.
      * unfold embeddingCalls in *. rewrite filter_app, length_app.
        simpl. lia.
    + rewrite Hanswer.
      destruct (Nat.ltb_spec (embeddingCalls h0)
                  (embeddingCalls h + failures)); [reflexivity | lia].
    + exact Hretry.
Qed.

(** X7: an error whose message contains "invalid" is not retried: it
    is thrown as it is after the one request, without a pause. *)
Theorem generateEmbedding_invalid_not_retried :
  forall retries e h,
    answer w h (embeddingRequest text) = Failed e ->
    includes e (lit "invalid") = true ->
    generateEmbedding text retries w h
    = (Throw e, h ++ [embeddingRequest text]).
Proof.
  intros retries e h Hfail Hinvalid.
  unfold generateEmbedding. rewrite text_not_blank. cbn [negb].
  unfold bind at 1. rewrite getOpenAIClient_ok.
  cbn [attempts]. unfold tryCatch, bind, createEmbeddings, bind, call.
  unfold embeddingRequest in Hfail. rewrite Hfail.
  cbv iota beta. unfold throw at 1. cbv iota beta. rewrite Hinvalid.
  reflexivity.
Qed.

End Retries.

Lemma generateEmbedding_gives_up_witness :
  Embeddings.generateEmbedding (lit "grit") 3 failingModelWorld []
  = (Throw (lit "Failed to generate embedding after 3 retries: 503"),
     [embeddingRequest (lit "grit"); Sleep 1000;
      embeddingRequest (lit "grit"); Sleep 2000;
      embeddingRequest (lit "grit"); Sleep 4000;
      embeddingRequest (lit "grit")]).
Proof.
  apply (generateEmbedding_gives_up failingModelWorld (lit "grit") eq_refl
           (ex_intro _ 107%N (ex_intro _ (lit "ey") eq_refl))
           3 (lit "503") []).
  - intros h'. reflexivity.
  - reflexivity.
Defined.

Lemma generateEmbedding_recovers_witness :
  Embeddings.generateEmbedding (lit "grit") 3 recoveringWorld []
  = (Ok [7],
     [embeddingRequest (lit "grit"); Sleep 1000;
      embeddingRequest (lit "grit"); Sleep 2000;
      embeddingRequest (lit "grit")]).
Proof.
  apply (generateEmbedding_recovers recoveringWorld (lit "grit") eq_refl
           (ex_intro _ 107%N (ex_intro _ (lit "ey") eq_refl))
           3 2 (lit "429 rate limit") [7] [] []).
  - lia.
  - reflexivity.
  - intros h'. reflexivity.
Defined.

Lemma generateEmbedding_invalid_not_retried_witness :
  Embeddings.generateEmbedding (lit "grit") 3 invalidWorld []
  = (Throw (lit "400 invalid input"), [embeddingRequest (lit "grit")]).
Proof.
  apply (generateEmbedding_invalid_not_retried invalidWorld (lit "grit")
           eq_refl (ex_intro _ 107%N (ex_intro _ (lit "ey") eq_refl))
           3 (lit "400 invalid input") []).
  - reflexivity.
  - reflexivity.
Defined.

(** ** Further properties of the summarizer *)

Section SummarizerBounds.
Import Summarizer.
Context {number : Type}.
Variable temperature03 : number.
Notation M := (M number).

(** X8: the truncation of the fallback.  For a limit that is not
    negative, [truncateToTokenLimit] returns the text itself when its
    estimate is within the limit, and otherwise a prefix of the text
    that ends with a period, estimated within the limit, or a prefix
    followed by "...", estimated at no more than one token over the
    limit. *)
Theorem truncateToTokenLimit_bound :
  forall text limit,
    (0 <= limit)%Z ->
    let result := truncateToTokenLimit text limit in
    (result = text /\ (estimateTokens result <= limit)%Z)
    \/ ((estimateTokens text > limit)%Z
        /\ ((exists n, result = firstn n text
                       /\ (estimateTokens result <= limit)%Z)
            \/ (exists n, result = firstn n text ++ lit "..."
                          /\ (estimateTokens result <= limit + 1)%Z))).
Proof.
  intros text limit Hlimit. cbv zeta. unfold truncateToTokenLimit.
  destruct (Z.leb_spec (estimateTokens text) limit) as [Hshort | Hlong];
    [left; split; [reflexivity | assumption] |].
  right. split; [lia |].
  rewrite (slice_prefix text) by (apply Z.div_pos; lia).
  set (maxChars := (7 * limit / 2)%Z).
  assert (Hmax : (2 * maxChars <= 7 * limit)%Z).
  { unfold maxChars. pose proof (Z.mul_div_le (7 * limit) 2). lia. }
  assert (Hpos : (0 <= maxChars)%Z) by (apply Z.div_pos; lia).
  set (truncated := firstn (Z.to_nat maxChars) text).
  assert (Hlen : (Z.of_nat (length truncated) <= maxChars)%Z).
  { unfold truncated. rewrite length_firstn. lia. }
  destruct (5 * match lastIndexOf truncated (ch ".") with
                | Some i => i
                | None => -1
                end >? 4 * maxChars)%Z eqn:Hcut.
  - left.
    destruct (lastIndexOf truncated (ch ".")) as [p |];
      [| exfalso; apply Z.gtb_lt in Hcut; lia].
    apply Z.gtb_lt in Hcut.
    rewrite slice_prefix by lia. unfold truncated. rewrite firstn_firstn.
    eexists. split; [reflexivity |].
    unfold estimateTokens. rewrite length_firstn.
    apply Z.lt_succ_r. apply Z.div_lt_upper_bound; lia.
  - right. exists (Z.to_nat maxChars). split; [reflexivity |].
    unfold estimateTokens. rewrite length_app. fold truncated.
    change (length (lit "...")) with 3.
    apply Z.lt_succ_r. apply Z.div_lt_upper_bound; lia.
Qed.

Lemma bind_inv_ok {A B} (m : M A) (f : A -> M B) w h b h' :
  bind m f w h = (Ok b, h') ->
  exists a h1, m w h = (Ok a, h1) /\ f a w h1 = (Ok b, h').
Proof.
  unfold bind. destruct (m w h) as [[a | e |] h1]; try discriminate.
  intros H. exists a, h1. split; [reflexivity | exact H].
Qed.

Lemma twoStageSummarization_counts fuel text maxOutputTokens w h s h' :
  twoStageSummarization temperature03 fuel text maxOutputTokens w h
  = (Ok s, h') ->
  originalTokens s = estimateTokens text
  /\ summaryTokens s = estimateTokens (summary s).
Proof.
  unfold twoStageSummarization.
  destruct (chunkText fuel text _) as [chunks |]; [| discriminate].
  intros H. apply bind_inv_ok in H. destruct H as [cs [h1 [_ H]]].
  apply bind_inv_ok in H. destruct H as [fs [h2 [_ H]]].
  inversion H; subst. split; reflexivity.
Qed.

(** X9: the token counts of a summary are the estimates of its texts.
    Whenever [summarizeChatMessage] or [summarizeLongDocument] returns -
    the text as it is, a summary of the model, or the truncation of the
    fallback - [originalTokens] is the estimate of the input and
    [summaryTokens] is the estimate of the summary returned. *)
Theorem summary_counts_are_estimates :
  forall fuel text limit (w : world number) h s h',
    summarizeChatMessage temperature03 fuel text limit w h = (Ok s, h')
    \/ summarizeLongDocument temperature03 fuel text limit w h = (Ok s, h') ->
    originalTokens s = estimateTokens text
    /\ summaryTokens s = estimateTokens (summary s).
Proof.
  intros fuel text limit w h s h' [H | H].
  - unfold summarizeChatMessage in H.
    destruct (estimateTokens text <=? 6000)%Z;
      [inversion H; subst; split; reflexivity |].
    unfold tryCatch in H.
    destruct (summarizationAttempt _ _ _ _ w h) as [[s1 | e |] h1] eqn:E;
      [| inversion H; subst; split; reflexivity | discriminate].
    inversion H; subst s1 h1. clear H.
    unfold summarizationAttempt in E.
    destruct (estimateTokens text >? 20000)%Z;
      [eapply twoStageSummarization_counts; exact E |].
    apply bind_inv_ok in E. destruct E as [x [h2 [_ E]]].
    inversion E; subst. split; reflexivity.
  - unfold summarizeLongDocument in H.
    destruct (estimateTokens text <=? _)%Z;
      [inversion H; subst; split; reflexivity |].
    destruct (estimateTokens text >? 20000)%Z;
      [eapply twoStageSummarization_counts; exact H |].
    apply bind_inv_ok in H. destruct H as [x [h2 [_ H]]].
    inversion H; subst. split; reflexivity.
Qed.

(** When every promise rejects with [e], so does [Promise.all], unless
    there is no promise. *)
Lemma runScheduled_throws {A} (tasks : list (M A)) e w :
  (forall task, In task tasks -> forall h, exists h', task w h = (Throw e, h')) ->
  forall sched slots h,
    Forall (fun s => s = None) slots ->
    length slots = length tasks ->
    (exists h', runScheduled sched tasks slots w h = (Throw e, h'))
    \/ (runScheduled sched tasks slots w h = (Ok slots, h)
        /\ Forall (fun j => length tasks <= j) sched).
Proof.
  intros Hthrow. induction sched as [| j later IH]; intros slots h Hnone Hlen.
  - right. split; [reflexivity | constructor].
  - cbn [runScheduled].
    destruct (nth_error tasks j) as [task |] eqn:Et.
    + destruct (nth_error slots j) as [[x |] |] eqn:Es.
      * apply nth_error_In in Es. rewrite Forall_forall in Hnone.
        apply Hnone in Es. discriminate.
      * left. destruct (Hthrow task (nth_error_In _ _ Et) h) as [h' Ht].
        exists h'. unfold bind. rewrite Ht. reflexivity.
      * apply nth_error_None in Es.
        assert (j < length tasks) by (apply nth_error_Some; congruence).
        lia.
    + destruct (IH slots h Hnone Hlen) as [Hl | [Hr Hall]];
        [left; exact Hl | right].
      split; [exact Hr |]. constructor; [| exact Hall].
      apply nth_error_None. exact Et.
Qed.

Lemma promiseAll_throws {A} (tasks : list (M A)) e w h :
  tasks <> [] ->
  (forall task, In task tasks -> forall h, exists h', task w h = (Throw e, h')) ->
  exists h', promiseAll tasks w h = (Throw e, h').
Proof.
  intros Hne Hthrow. unfold promiseAll, bind. simpl.
  destruct (runScheduled_throws tasks e w Hthrow
              (completion w h (length tasks) ++ seq 0 (length tasks))
              (repeat None (length tasks)) h) as [[h' Hl] | [_ Hall]].
  - apply Forall_forall. intros s Hs. apply repeat_spec in Hs. exact Hs.
  - apply repeat_length.
  - exists h'. rewrite Hl. reflexivity.
  - exfalso. apply Forall_app in Hall. destruct Hall as [_ Hall].
    destruct tasks as [| t tasks]; [congruence |].
    simpl in Hall. inversion Hall; subst. lia.
Qed.

Lemma promiseAll_nil {A} w h : @promiseAll number A [] w h = (Ok [], h).
Proof.
  unfold promiseAll, bind. simpl. rewrite app_nil_r.
  induction (completion w h 0) as [| j later IH]; [reflexivity |].
  simpl. destruct j; exact IH.
Qed.

Variable w : world number.
Variable e : jsstring.
Hypothesis model_down :
  forall h r, isChatCreate r -> answer w h r = Failed e.

Lemma summarizeText_throws text maxTokens h :
  exists h', summarizeText temperature03 text maxTokens w h = (Throw e, h').
Proof.
  unfold summarizeText, bind, call. rewrite model_down by exact I.
  eexists. reflexivity.
Qed.

(** X10: [summarizeLongDocument] has no fallback.  When the generative
    model rejects its requests with the error [e] and the document is
    over the limit, the call throws [e], on the single pass as on the
    two stages, whereas [summarizeChatMessage] returns a truncation.
    The limit is [maxTokens], and 10000 when [maxTokens] is absent; a
    [maxTokens] of 0 is read as absent. *)
Theorem summarizeLongDocument_propagates_failure :
  forall fuel text maxTokens h,
    maxTokens <> Some 0%Z ->
    (orDefault maxTokens 10000 < estimateTokens text)%Z ->
    enoughFuel text <= fuel ->
    (exists h',
       summarizeLongDocument temperature03 fuel text maxTokens w h
       = (Throw e, h'))
    /\ summarizeLongDocument temperature03 fuel text (Some 0%Z)
       = summarizeLongDocument temperature03 fuel text None.
Proof.
  intros fuel text maxTokens h Hzero Hover Hfuel.
  split; [| reflexivity].
  unfold summarizeLongDocument.
  assert (Hlimit : match maxTokens with
                   | Some m => if (m =? 0)%Z then 10000%Z else m
                   | None => 10000%Z
                   end = orDefault maxTokens 10000%Z).
  { destruct maxTokens as [m |]; [| reflexivity]. simpl.
    destruct (Z.eqb_spec m 0); [subst; congruence | reflexivity]. }
  rewrite Hlimit.
  destruct (Z.leb_spec (estimateTokens text) (orDefault maxTokens 10000%Z));
    [lia |].
  destruct (estimateTokens text >? 20000)%Z.
  - unfold twoStageSummarization.
    destruct (chunkText_returns text
                {| maxTokens := Some 6000%Z; overlap := Some 200%Z;
                   preserveSentences := Some true |} fuel) as [chunks Hc];
      [vm_compute; reflexivity | assumption |].
    rewrite Hc. destruct chunks as [| chunk chunks].
    + unfold bind at 1. cbn [map]. rewrite promiseAll_nil. cbn [join].
      destruct (summarizeText_throws [] (orDefault maxTokens 10000%Z) h)
        as [h' Ht].
      exists h'. unfold bind. rewrite Ht. reflexivity.
    + destruct (promiseAll_throws
                  (map (fun c => summarizeText temperature03 c 500)
                     (chunk :: chunks)) e w h) as [h' Hp].
      * discriminate.
      * intros task Ht h0. apply in_map_iff in Ht.
        destruct Ht as [c [<- _]]. apply summarizeText_throws.
      * exists h'. unfold bind at 1. rewrite Hp. reflexivity.
  - destruct (summarizeText_throws text (orDefault maxTokens 10000%Z) h)
      as [h' Ht].
    exists h'. unfold bind. rewrite Ht. reflexivity.
Qed.

End SummarizerBounds.

(** The bound of the truncation is reached: 21,001 letters are cut to
    21,000 and the ellipsis brings the estimate to 6,001 tokens. *)
Lemma truncateToTokenLimit_bound_witness :
  (0 <= 6000)%Z
  /\ estimateTokens (Summarizer.truncateToTokenLimit longMessage 6000)
     = 6001%Z
  /\ ((Summarizer.truncateToTokenLimit longMessage 6000 = longMessage
       /\ (estimateTokens (Summarizer.truncateToTokenLimit longMessage 6000)
           <= 6000)%Z)
      \/ ((estimateTokens longMessage > 6000)%Z
          /\ ((exists n,
                 Summarizer.truncateToTokenLimit longMessage 6000
                 = firstn n longMessage
                 /\ (estimateTokens
                       (Summarizer.truncateToTokenLimit longMessage 6000)
                     <= 6000)%Z)
              \/ (exists n,
                    Summarizer.truncateToTokenLimit longMessage 6000
                    = firstn n longMessage ++ lit "..."
                    /\ (estimateTokens
                          (Summarizer.truncateToTokenLimit longMessage 6000)
                        <= 6000 + 1)%Z)))).
Proof.
  split; [lia |]. split; [vm_compute; reflexivity |].
  apply (truncateToTokenLimit_bound longMessage 6000). lia.
Defined.

Lemma summary_counts_are_estimates_witness :
  Summarizer.originalTokens
    {| Summarizer.summary := lit "short";
       Summarizer.originalTokens := 2; Summarizer.summaryTokens := 2 |}
  = estimateTokens (lit "short")
  /\ Summarizer.summaryTokens
       {| Summarizer.summary := lit "short";
          Summarizer.originalTokens := 2; Summarizer.summaryTokens := 2 |}
     = estimateTokens
         (Summarizer.summary
            {| Summarizer.summary := lit "short";
               Summarizer.originalTokens := 2; Summarizer.summaryTokens := 2 |}).
Proof.
  apply (summary_counts_are_estimates 3%nat 0 (lit "short") None
           failingModelWorld [] _ []).
  left. reflexivity.
Defined.

Lemma summarizeLongDocument_propagates_failure_witness :
  (exists h',
     Summarizer.summarizeLongDocument 3%nat (enoughFuel longMessage)
       longMessage (Some 6000%Z) failingModelWorld []
     = (Throw (lit "503"), h'))
  /\ Summarizer.summarizeLongDocument 3%nat (enoughFuel longMessage)
       longMessage (Some 0%Z)
     = Summarizer.summarizeLongDocument 3%nat (enoughFuel longMessage)
         longMessage None.
Proof.
  apply (summarizeLongDocument_propagates_failure 3%nat failingModelWorld
           (lit "503") (fun _ _ _ => eq_refl)
           (enoughFuel longMessage) longMessage (Some 6000%Z) []).
  - discriminate.
  - vm_compute. reflexivity.
  - apply le_n.
Defined.

(** ** The content and the size of the chunks *)

Section ChunkContent.

Lemma chunkText_notBlank fuel text config chunks :
  chunkText fuel text config = Some chunks ->
  Forall (fun chunk => nonBlank chunk = true) chunks.
Proof.
  unfold chunkText.
  destruct (nonBlank text) eqn:Hblank; simpl negb; cbv iota.
  - destruct (estimateTokens text <=? _)%Z.
    + intros H. inversion H; subst. constructor; [exact Hblank | constructor].
    + destruct (if orDefault (preserveSentences config) true then _ else _)
        as [produced |]; [| discriminate].
      intros H. inversion H; subst. apply Forall_forall. intros c Hc.
      apply filter_In in Hc. apply Hc.
  - intros H. inversion H; subst. constructor.
Qed.

(** X11: no chunk of [chunkText] is blank, whatever the text and the
    configuration; so the blank-text filter of [batchGenerateEmbeddings]
    drops none of the chunks of a prepared article, and the positions of
    the embeddings are those of the chunks. *)
Theorem chunks_are_not_blank :
  (forall fuel text config chunks,
     chunkText fuel text config = Some chunks ->
     Forall (fun chunk => nonBlank chunk = true) chunks)
  /\ (forall fuel id title url htmlContent config prepared,
        prepareArticle fuel id title url htmlContent config = Some prepared ->
        filter nonBlank (pa_chunks prepared) = pa_chunks prepared).
Proof.
  split; [exact chunkText_notBlank |].
  intros fuel id title url htmlContent config prepared Hp.
  unfold prepareArticle in Hp.
  destruct (chunkText fuel _ config) as [cs |] eqn:Hc; [| discriminate].
  inversion Hp; subst. cbn [pa_chunks]. apply filter_all.
  eapply chunkText_notBlank. exact Hc.
Qed.

Variable fuel : nat.
Variable text : jsstring.
Variable config : ChunkConfig.
Notation maxT := (orDefault (maxTokens config) 800%Z).
Notation ov := (orDefault (overlap config) 200%Z).
Notation sentences := (splitIntoSentences text).
Hypothesis by_sentences : orDefault (preserveSentences config) true = true.
Hypothesis not_blank : nonBlank text = true.
Hypothesis too_long : (estimateTokens text > maxT)%Z.
Hypothesis sentences_fit :
  Forall (fun s => (estimateTokens s <= maxT)%Z) sentences.

(** On such a text the chunks are the joined groups of sentences. *)
Lemma chunkText_groups :
  chunkText fuel text config
  = Some (map (join SPACE) (sentenceGroups sentences maxT ov)).
Proof.
  destruct (sentenceGroups_spec sentences maxT ov
              (fun s => nonBlank s = true) (sentences_notBlank text))
    as [_ Hgroups].
  unfold chunkText. rewrite by_sentences, not_blank. simpl negb.
  cbv iota. destruct (Z.leb_spec (estimateTokens text) maxT); [lia |].
  pose proof (sentenceLoop_groups fuel maxT ov sentences [] [] 0 sentences_fit)
    as Hloop.
  simpl map in Hloop. rewrite Hloop.
  unfold sentenceGroups in *.
  destruct (groupLoop sentences maxT ov [] [] 0) as [[closed current] tokens].
  cbn [currentChunk TextProcessing.chunks].
  replace (if nonEmpty current
           then map (join SPACE) closed ++ [join SPACE current]
           else map (join SPACE) closed)
    with (map (join SPACE)
            (if nonEmpty current then closed ++ [current] else closed))
    by (destruct (nonEmpty current); [rewrite map_app |]; reflexivity).
  f_equal. apply filter_all. apply Forall_map.
  eapply Forall_impl; [| exact Hgroups].
  intros g [Hne Hall]. apply group_notBlank; assumption.
Qed.

Lemma estimateTokens_nonneg s : (0 <= estimateTokens s)%Z.
Proof. unfold estimateTokens. apply Z.div_pos; lia. Qed.

Lemma estimateTokens_app a b :
  (estimateTokens (a ++ b) <= estimateTokens a + estimateTokens b)%Z.
Proof.
  unfold estimateTokens. rewrite length_app, Nat2Z.inj_add.
  set (x := Z.of_nat (length a)). set (y := Z.of_nat (length b)).
  pose proof (Z.mul_succ_div_gt (2 * x + 6) 7 ltac:(lia)) as Hx.
  pose proof (Z.mul_succ_div_gt (2 * y + 6) 7 ltac:(lia)) as Hy.
  apply Z.lt_succ_r. apply Z.div_lt_upper_bound; lia.
Qed.

Lemma estimateTokens_positive s :
  nonBlank s = true -> (1 <= estimateTokens s)%Z.
Proof.
  intros H. rewrite nonBlank_notSpace in H.
  destruct s as [| c s]; [discriminate |].
  unfold estimateTokens. apply Z.div_le_lower_bound; simpl length; lia.
Qed.

Lemma tokensOf_nonneg g : (0 <= tokensOf g)%Z.
Proof.
  induction g as [| s g IH]; simpl; [lia |].
  pose proof (estimateTokens_nonneg s). lia.
Qed.

(** The estimate of a joined group: the estimates of its sentences and
    one token for each joining space. *)
Lemma estimateTokens_join g :
  g <> [] ->
  (estimateTokens (join SPACE g) <= tokensOf g + Z.of_nat (length g) - 1)%Z.
Proof.
  induction g as [| s g IH]; intros Hne; [congruence |].
  destruct g as [| s' g]; [simpl; lia |].
  change (join SPACE (s :: s' :: g)) with (s ++ SPACE ++ join SPACE (s' :: g)).
  pose proof (estimateTokens_app s (SPACE ++ join SPACE (s' :: g))) as H1.
  pose proof (estimateTokens_app SPACE (join SPACE (s' :: g))) as H2.
  assert (H3 : estimateTokens SPACE = 1%Z) by reflexivity.
  assert (H4 : s' :: g <> []) by discriminate.
  specialize (IH H4).
  change (tokensOf (s :: s' :: g))
    with (estimateTokens s + tokensOf (s' :: g))%Z.
  change (length (s :: s' :: g)) with (S (length (s' :: g))).
  lia.
Qed.

Lemma length_le_tokensOf g :
  Forall (fun s => nonBlank s = true) g ->
  (Z.of_nat (length g) <= tokensOf g)%Z.
Proof.
  induction 1 as [| s g Hs _ IH]; simpl; [lia |].
  pose proof (estimateTokens_positive s Hs). lia.
Qed.

(** The sentence loop keeps the sentences added to a group since it was
    seeded within [maxTokens], and the seed within the overlap. *)
Lemma groupLoop_bound :
  forall remaining closed current tokens closed' current' tokens',
    groupLoop remaining maxT ov closed current tokens
    = (closed', current', tokens') ->
    Forall (fun s => (estimateTokens s <= maxT)%Z) remaining ->
    Forall (fun g => (tokensOf g <= maxT + Z.max 0 ov)%Z) closed ->
    ((current = [] /\ (0 <= tokens)%Z)
     \/ exists seed fresh,
          current = seed ++ fresh /\ fresh <> []
          /\ (tokensOf seed <= Z.max 0 ov)%Z
          /\ (tokensOf fresh <= tokens)%Z
          /\ (tokensOf fresh <= maxT)%Z) ->
    Forall (fun g => (tokensOf g <= maxT + Z.max 0 ov)%Z) closed'
    /\ (current' <> [] -> (tokensOf current' <= maxT + Z.max 0 ov)%Z).
Proof.
  induction remaining as [| s more IH];
    intros closed current tokens closed' current' tokens' H Hfit Hclosed Hcur;
    simpl in H.
  - inversion H; subst. split; [exact Hclosed |].
    destruct Hcur as [[-> _] | [seed [fresh [-> [_ [Hseed [_ Hfresh]]]]]]].
    + congruence.
    + intros _. rewrite tokensOf_app. lia.
  - inversion Hfit as [| ? ? Hs Hmore]; subst.
    pose proof (estimateTokens_nonneg s) as Hs0.
    destruct ((tokens + estimateTokens s >? maxT)%Z && nonEmpty current) eqn:Hc.
    + apply andb_prop in Hc. destruct Hc as [_ Hne].
      destruct Hcur as [[-> _] | [seed [fresh [Ecur [_ [Hseed [_ Hfresh]]]]]]];
        [discriminate |].
      eapply IH; [exact H | exact Hmore | |].
      * apply Forall_app. split; [exact Hclosed |].
        constructor; [| constructor]. rewrite Ecur, tokensOf_app. lia.
      * right. exists (getOverlapSentences current ov), [s].
        split; [reflexivity |]. split; [discriminate |].
        destruct (overlap_spec current ov) as [_ [_ [Hbudget _]]].
        split; [| split].
        -- destruct (getOverlapSentences current ov) as [| o os] eqn:Eo;
             [simpl; lia |].
           assert (Hn : o :: os <> []) by discriminate.
           specialize (Hbudget Hn). lia.
        -- simpl.
           pose proof (estimateTokens_nonneg
                         (join SPACE (getOverlapSentences current ov))).
           lia.
        -- simpl. lia.
    + eapply IH; [exact H | exact Hmore | exact Hclosed |].
      right.
      destruct Hcur as [[-> Htok] | [seed [fresh [Ecur [Hne [Hseed [Htok Hfresh]]]]]]].
      * exists [], [s]. repeat split; try discriminate; simpl; lia.
      * exists seed, (fresh ++ [s]). rewrite Ecur, <- app_assoc.
        split; [reflexivity |].
        split; [destruct fresh; discriminate |].
        split; [exact Hseed |].
        rewrite tokensOf_app. simpl.
        assert (Hcond : (tokens + estimateTokens s <= maxT)%Z).
        { apply andb_false_iff in Hc. destruct Hc as [Hc | Hc].
          - destruct (Z.gtb_spec (tokens + estimateTokens s) maxT);
              [discriminate | lia].
          - rewrite Ecur in Hc. unfold nonEmpty in Hc.
            rewrite length_app in Hc.
            destruct fresh; [congruence |]. simpl in Hc.
            rewrite Nat.add_succ_r in Hc. discriminate. }
        lia.
Qed.

(** X12: the size of a chunk of sentences.  On a text that is too long
    for one chunk and whose sentences each fit in [maxTokens], every
    chunk is a group of sentences joined by spaces whose estimates sum
    to at most [maxTokens + max 0 overlap]; the estimate of the chunk
    may exceed that sum by one token for each joining space, and it
    stays under twice [maxTokens + max 0 overlap]. *)
Theorem chunk_size_bound :
  exists groups,
    chunkText fuel text config = Some (map (join SPACE) groups)
    /\ Forall (fun g =>
                 g <> []
                 /\ (tokensOf g <= maxT + Z.max 0 ov)%Z
                 /\ (estimateTokens (join SPACE g)
                     <= tokensOf g + Z.of_nat (length g) - 1)%Z
                 /\ (estimateTokens (join SPACE g)
                     < 2 * (maxT + Z.max 0 ov))%Z)
         groups.
Proof.
  exists (sentenceGroups sentences maxT ov).
  split; [apply chunkText_groups |].
  destruct (sentenceGroups_spec sentences maxT ov
              (fun s => nonBlank s = true) (sentences_notBlank text))
    as [_ Hgroups].
  assert (Hbound : Forall (fun g => (tokensOf g <= maxT + Z.max 0 ov)%Z)
                     (sentenceGroups sentences maxT ov)).
  { unfold sentenceGroups.
    destruct (groupLoop sentences maxT ov [] [] 0)
      as [[closed current] tokens] eqn:Hloop.
    destruct (groupLoop_bound _ _ _ _ _ _ _ Hloop sentences_fit)
      as [Hclosed Hcurrent]; [constructor | left; split; [reflexivity | lia] |].
    destruct current as [| c current]; [exact Hclosed |].
    apply Forall_app. split; [exact Hclosed |].
    constructor; [apply Hcurrent; discriminate | constructor]. }
  rewrite Forall_forall in *. intros g Hg.
  destruct (Hgroups g Hg) as [Hne Hall]. specialize (Hbound g Hg).
  pose proof (estimateTokens_join g Hne) as Hjoin.
  pose proof (length_le_tokensOf g Hall) as Hlen.
  repeat split; try assumption. lia.
Qed.

Lemma last_default {A} (l : list A) (d d' : A) :
  l <> [] -> last l d = last l d'.
Proof.
  induction l as [| x l IH]; intros Hne; [congruence |].
  destruct l as [| y l]; [reflexivity |].
  change (last (y :: l) d = last (y :: l) d'). apply IH. discriminate.
Qed.

Lemma freshParts_last ov0 :
  forall l previous g s,
    length (getOverlapSentences (last l previous) ov0) <= length g ->
    freshParts ov0 previous (l ++ [g ++ [s]])
    = freshParts ov0 previous (l ++ [g]) ++ [s].
Proof.
  induction l as [| x l IH]; intros previous g s Hlen.
  - simpl in *. rewrite !app_nil_r. rewrite skipn_app.
    replace (length (getOverlapSentences previous ov0) - length g) with 0
      by lia.
    reflexivity.
  - cbn [app freshParts]. rewrite <- app_assoc. f_equal.
    apply IH. destruct l as [| y l]; [exact Hlen |].
    rewrite (last_default (y :: l) x previous) by discriminate. exact Hlen.
Qed.

Lemma freshParts_snoc ov0 :
  forall l previous g s,
    freshParts ov0 previous
      ((l ++ [g]) ++ [getOverlapSentences g ov0 ++ [s]])
    = freshParts ov0 previous (l ++ [g]) ++ [s].
Proof.
  induction l as [| x l IH]; intros previous g s.
  - simpl. rewrite !app_nil_r. rewrite skipn_app, Nat.sub_diag, skipn_all.
    reflexivity.
  - cbn [app freshParts]. rewrite IH. apply app_assoc.
Qed.

Lemma last_snoc {A} (l : list A) (x d : A) : last (l ++ [x]) d = x.
Proof. apply last_last. Qed.

(** The groups take the sentences in order: the sentences each group
    adds to its overlap are, together, the sentences read so far. *)
Lemma groupLoop_content :
  forall remaining closed current tokens closed' current' tokens' done,
    groupLoop remaining maxT ov closed current tokens
    = (closed', current', tokens') ->
    (current = [] -> closed = []) ->
    freshParts ov [] (closed ++ [current]) = done ->
    length (getOverlapSentences (last closed []) ov) <= length current ->
    (current' = [] -> closed' = [])
    /\ freshParts ov [] (closed' ++ [current']) = done ++ remaining.
Proof.
  induction remaining as [| s more IH];
    intros closed current tokens closed' current' tokens' done H Hempty Hdone
      Hlen; simpl in H.
  - inversion H; subst. rewrite app_nil_r. auto.
  - destruct ((tokens + estimateTokens s >? maxT)%Z && nonEmpty current) eqn:Hc.
    + replace (done ++ s :: more) with ((done ++ [s]) ++ more)
        by (rewrite <- app_assoc; reflexivity).
      eapply IH; [exact H | | |].
      * intros E. destruct (getOverlapSentences current ov); discriminate.
      * rewrite freshParts_snoc, Hdone. reflexivity.
      * rewrite last_snoc, length_app. simpl. lia.
    + replace (done ++ s :: more) with ((done ++ [s]) ++ more)
        by (rewrite <- app_assoc; reflexivity).
      eapply IH; [exact H | | | ].
      * intros E. destruct current; discriminate.
      * rewrite freshParts_last, Hdone; [reflexivity | exact Hlen].
      * rewrite length_app. lia.
Qed.

(** X13: no sentence is lost, and none is repeated but by the overlap.
    On a text that is too long for one chunk and whose sentences each
    fit in [maxTokens], the chunks are groups of sentences joined by
    spaces; each group is the overlap selected from the group before it
    followed by further sentences, and these further sentences, taken
    group after group, are exactly the sentences of the text, in
    order. *)
Theorem chunks_cover_the_sentences :
  exists groups,
    chunkText fuel text config = Some (map (join SPACE) groups)
    /\ chained ov groups
    /\ freshParts ov [] groups = splitIntoSentences text
    /\ forall sentence,
         In sentence (splitIntoSentences text) ->
         exists g, In g groups /\ In sentence g.
Proof.
  exists (sentenceGroups sentences maxT ov).
  split; [apply chunkText_groups |].
  destruct (sentenceGroups_spec sentences maxT ov
              (fun s => nonBlank s = true) (sentences_notBlank text))
    as [Hchain _].
  split; [exact Hchain |].
  assert (Hfresh : freshParts ov [] (sentenceGroups sentences maxT ov)
                   = sentences).
  { unfold sentenceGroups.
    destruct (groupLoop sentences maxT ov [] [] 0)
      as [[closed current] tokens] eqn:Hloop.
    destruct (groupLoop_content _ _ _ _ _ _ _ [] Hloop) as [Hempty Hcontent];
      [reflexivity | reflexivity | simpl; lia |].
    simpl in Hcontent.
    destruct current as [| c current]; [| exact Hcontent].
    rewrite (Hempty eq_refl) in *. exact Hcontent. }
  split; [exact Hfresh |].
  intros sentence Hin. rewrite <- Hfresh in Hin.
  clear - Hin. revert Hin. generalize (@nil jsstring) as previous.
  induction (sentenceGroups sentences maxT ov) as [| g groups IH];
    intros previous Hin; [contradiction |].
  simpl in Hin. apply in_app_or in Hin. destruct Hin as [Hin | Hin].
  - exists g. split; [left; reflexivity |]. eapply In_skipn. exact Hin.
  - destruct (IH g Hin) as [g' [Hg' Hs]]. exists g'. split; [right |]; assumption.
Qed.

End ChunkContent.

Lemma chunks_are_not_blank_witness :
  Forall (fun chunk => nonBlank chunk = true)
    [lit "Aaaaaa. Aaaaaa."; lit "Aaaaaa."].
Proof.
  apply (proj1 chunks_are_not_blank 100 threeSentences tinyConfig).
  vm_compute. reflexivity.
Defined.

Lemma chunk_size_bound_witness :
  exists groups,
    chunkText 10 abcText overlapConfig = Some (map (join SPACE) groups)
    /\ Forall (fun g =>
                 g <> []
                 /\ (tokensOf g <= 4 + Z.max 0 2)%Z
                 /\ (estimateTokens (join SPACE g)
                     <= tokensOf g + Z.of_nat (length g) - 1)%Z
                 /\ (estimateTokens (join SPACE g) < 2 * (4 + Z.max 0 2))%Z)
         groups.
Proof.
  apply (chunk_size_bound 10 abcText overlapConfig).
  - reflexivity.
  - reflexivity.
  - reflexivity.
  - vm_compute. repeat constructor; discriminate.
Defined.

Lemma chunks_cover_the_sentences_witness :
  exists groups,
    chunkText 10 abcText overlapConfig = Some (map (join SPACE) groups)
    /\ chained 2 groups
    /\ freshParts 2 [] groups = splitIntoSentences abcText
    /\ forall sentence,
         In sentence (splitIntoSentences abcText) ->
         exists g, In g groups /\ In sentence g.
Proof.
  apply (chunks_cover_the_sentences 10 abcText overlapConfig).
  - reflexivity.
  - reflexivity.
  - reflexivity.
  - vm_compute. repeat constructor; discriminate.
Defined.

(** ** White space in the normalizer and in the word chunks *)

Section WhiteSpace.

Lemma starChr_spaces :
  forall s pv cs,
    exists pv',
      starChr isWhiteSpace pv s cs Some = Some (MState pv' (trimStart s) cs).
Proof.
  induction s as [| c tl IH]; intros pv cs; simpl.
  - exists pv. reflexivity.
  - destruct (isWhiteSpace c).
    + destruct (IH (Some c) cs) as [pv' ->]. exists pv'. reflexivity.
    + exists pv. reflexivity.
Qed.

(** A match of the pattern of white space takes the whole run. *)
Lemma execAt_spaces p c tl :
  if isWhiteSpace c
  then exists pv', execAt spacesRegex p (c :: tl)
                   = Some (MState pv' (trimStart tl) [])
  else execAt spacesRegex p (c :: tl) = None.
Proof.
  unfold execAt, spacesRegex, Plus. rewrite rmatch_seq, rmatch_chr.
  destruct (isWhiteSpace c); [| reflexivity].
  rewrite star_chr. apply starChr_spaces.
Qed.

Lemma trimStart_length s : length (trimStart s) <= length s.
Proof.
  induction s as [| c s IH]; simpl; [lia |].
  destruct (isWhiteSpace c); simpl; lia.
Qed.

Lemma collapse_true s : collapse true s = collapse false (trimStart s).
Proof.
  induction s as [| c s IH]; [reflexivity |]. simpl.
  destruct (isWhiteSpace c) eqn:Hc; [exact IH |].
  simpl. rewrite Hc. reflexivity.
Qed.

(** Replacing the runs of white space by a space. *)
Lemma replaceLoop_spaces :
  forall fuel p s,
    length s < fuel ->
    replaceLoop fuel spacesRegex (fun _ => SPACE) p s = collapse false s.
Proof.
  induction fuel as [| fuel IH]; intros p s Hfuel; [lia |].
  destruct s as [| c tl]; [reflexivity |].
  cbn [replaceLoop collapse].
  pose proof (execAt_spaces p c tl) as Hexec.
  destruct (isWhiteSpace c).
  - destruct Hexec as [pv' ->]. cbn [rest prev].
    pose proof (trimStart_length tl) as Hlen.
    destruct (Nat.ltb_spec (length (trimStart tl)) (length (c :: tl)))
      as [_ | Hge]; [| simpl in Hge; lia].
    rewrite IH by (simpl in Hfuel; lia).
    rewrite collapse_true. reflexivity.
  - rewrite Hexec. rewrite IH by (simpl in Hfuel; lia). reflexivity.
Qed.

Lemma replaceAll_spaces s :
  replaceAll spacesRegex (fun _ => SPACE) s = collapse false s.
Proof. unfold replaceAll. apply replaceLoop_spaces. lia. Qed.

Lemma singleSpaces_collapse :
  forall s b, singleSpaces b (collapse b s) = true.
Proof.
  induction s as [| c s IH]; intros b; [reflexivity |]. simpl.
  destruct (isWhiteSpace c) eqn:Hc.
  - destruct b; [apply IH |]. simpl. rewrite IH. reflexivity.
  - simpl. rewrite Hc. apply IH.
Qed.

Lemma singleSpaces_weaken s :
  singleSpaces true s = true -> singleSpaces false s = true.
Proof.
  destruct s as [| c s]; [reflexivity |]. simpl.
  destruct (isWhiteSpace c); [| auto].
  rewrite andb_false_r. discriminate.
Qed.

Lemma singleSpaces_trimStart :
  forall s b, singleSpaces b s = true -> singleSpaces false (trimStart s) = true.
Proof.
  induction s as [| c s IH]; intros b H; [reflexivity |]. simpl in *.
  destruct (isWhiteSpace c) eqn:Hc.
  - apply andb_prop in H. destruct H as [_ H]. apply (IH true H).
  - simpl. rewrite Hc. exact H.
Qed.

Lemma singleSpaces_prefix :
  forall x y b, singleSpaces b (x ++ y) = true -> singleSpaces b x = true.
Proof.
  induction x as [| c x IH]; intros y b H; [reflexivity |]. simpl in *.
  destruct (isWhiteSpace c).
  - apply andb_prop in H. destruct H as [H1 H2].
    rewrite H1, (IH y true H2). reflexivity.
  - apply (IH y false H).
Qed.

Lemma trimStart_suffix s : exists z, s = z ++ trimStart s.
Proof.
  induction s as [| c s [z IH]]; [exists []; reflexivity |]. simpl.
  destruct (isWhiteSpace c).
  - exists (c :: z). simpl. rewrite <- IH. reflexivity.
  - exists []. reflexivity.
Qed.

Lemma trimEnd_prefix s : exists z, s = trimEnd s ++ z.
Proof.
  unfold trimEnd. destruct (trimStart_suffix (rev s)) as [z Hz].
  exists (rev z). rewrite <- rev_app_distr, <- Hz, rev_involutive.
  reflexivity.
Qed.

Lemma singleSpaces_trim s b :
  singleSpaces b s = true -> singleSpaces false (trim s) = true.
Proof.
  intros H. apply singleSpaces_trimStart in H. unfold trim.
  destruct (trimEnd_prefix (trimStart s)) as [z Hz].
  rewrite Hz in H. apply singleSpaces_prefix in H. exact H.
Qed.

Lemma trimStart_idem s : trimStart (trimStart s) = trimStart s.
Proof.
  induction s as [| c s IH]; [reflexivity |]. simpl.
  destruct (isWhiteSpace c) eqn:Hc; [exact IH |]. simpl. rewrite Hc.
  reflexivity.
Qed.

Lemma trimStart_snoc :
  forall a c,
    trimStart (a ++ [c])
    = if existsb notSpace a then trimStart a ++ [c] else trimStart [c].
Proof.
  induction a as [| x a IH]; intros c; [reflexivity |]. simpl.
  unfold notSpace at 1. destruct (isWhiteSpace x); simpl; [apply IH |].
  reflexivity.
Qed.

Lemma trimEnd_nil s : existsb notSpace s = false -> trimEnd s = [].
Proof.
  intros H. unfold trimEnd.
  rewrite <- existsb_rev, <- trimStart_nonEmpty in H.
  destruct (trimStart (rev s)); [reflexivity | discriminate].
Qed.

Lemma trimEnd_cons c s :
  trimEnd (c :: s)
  = if existsb notSpace (c :: s) then c :: trimEnd s else [].
Proof.
  unfold trimEnd at 1. simpl rev. rewrite trimStart_snoc, existsb_rev.
  simpl existsb. destruct (existsb notSpace s) eqn:Hs.
  - rewrite orb_true_r, rev_app_distr. reflexivity.
  - rewrite orb_false_r, (trimEnd_nil s Hs). simpl. unfold notSpace.
    destruct (isWhiteSpace c); reflexivity.
Qed.

Lemma trimEnd_idem s : trimEnd (trimEnd s) = trimEnd s.
Proof.
  unfold trimEnd. rewrite rev_involutive, trimStart_idem. reflexivity.
Qed.

Lemma trimStart_trimEnd y :
  trimStart y = y -> trimStart (trimEnd y) = trimEnd y.
Proof.
  destruct y as [| c r]; [reflexivity |]. intros Hy. simpl in Hy.
  destruct (isWhiteSpace c) eqn:Hc.
  - exfalso. pose proof (trimStart_length r) as Hlen. rewrite Hy in Hlen.
    simpl in Hlen. lia.
  - assert (Hex : existsb notSpace (c :: r) = true)
      by (simpl; unfold notSpace at 1; rewrite Hc; reflexivity).
    rewrite trimEnd_cons, Hex. simpl. rewrite Hc. reflexivity.
Qed.

Lemma trim_idem s : trim (trim s) = trim s.
Proof.
  unfold trim. rewrite trimStart_trimEnd by apply trimStart_idem.
  apply trimEnd_idem.
Qed.

(** A replacement leaves a string in which the pattern matches nowhere
    as it is. *)
Lemma replaceLoop_no_match r f (q : char16 -> bool) :
  (forall p, execAt r p [] = None) ->
  (forall p c tl, q c = false -> execAt r p (c :: tl) = None) ->
  forall fuel p s,
    Forall (fun c => q c = false) s -> replaceLoop fuel r f p s = s.
Proof.
  intros Hnil Hcons. induction fuel as [| fuel IH]; intros p s Hall;
    [reflexivity |].
  destruct s as [| c tl]; cbn [replaceLoop].
  - rewrite Hnil. reflexivity.
  - inversion Hall as [| ? ? Hc Htl]; subst.
    rewrite (Hcons p c tl Hc), (IH _ _ Htl). reflexivity.
Qed.

Lemma replaceAll_no_match r f (q : char16 -> bool) s :
  (forall p, execAt r p [] = None) ->
  (forall p c tl, q c = false -> execAt r p (c :: tl) = None) ->
  Forall (fun c => q c = false) s -> replaceAll r f s = s.
Proof. intros. eapply replaceLoop_no_match; eauto. Qed.

Lemma singleSpaces_no_newline :
  forall s b, singleSpaces b s = true -> Forall (fun c => (NL =? c)%N = false) s.
Proof.
  induction s as [| c s IH]; intros b H; [constructor |]. simpl in H.
  destruct (isWhiteSpace c) eqn:Hc.
  - apply andb_prop in H. destruct H as [H1 H2].
    apply andb_prop in H1. destruct H1 as [H1 _].
    apply N.eqb_eq in H1. subst c.
    constructor; [reflexivity | apply (IH true H2)].
  - constructor; [| apply (IH false H)].
    destruct (N.eqb_spec NL c) as [<- | _]; [discriminate | reflexivity].
Qed.

Lemma newlines_no_match f s b :
  singleSpaces b s = true -> replaceAll newlinesRegex f s = s.
Proof.
  intros H. apply (replaceAll_no_match _ _ (N.eqb NL)).
  - reflexivity.
  - intros p c tl Hc. unfold execAt, newlinesRegex.
    rewrite rmatch_seq, rmatch_chr, Hc. reflexivity.
  - eapply singleSpaces_no_newline. exact H.
Qed.

(** X14: the output of the normalizer.  Whatever the input, the text
    [cleanHTML] returns holds no white space but single spaces U+0020
    between its words, and none at its start or at its end; a line feed
    never occurs in it, so the last replacement of [cleanHTML], of three
    or more line feeds, never applies. *)
Theorem cleanHTML_normalized :
  forall html,
    normalized (cleanHTML html)
    /\ ~ In NL (cleanHTML html).
Proof.
  intros html.
  assert (Hn : normalized (cleanHTML html)).
  { unfold cleanHTML. destruct html as [| c0 html0]; [split; reflexivity |].
    set (text := decodeHTMLEntities _).
    rewrite replaceAll_spaces.
    pose proof (singleSpaces_trim _ _ (singleSpaces_collapse text false)) as H.
    rewrite (newlines_no_match _ _ _ H).
    split; [exact H | apply trim_idem]. }
  split; [exact Hn |].
  destruct Hn as [Hs _]. apply singleSpaces_no_newline in Hs.
  rewrite Forall_forall in Hs. intros Hin. specialize (Hs _ Hin).
  rewrite N.eqb_refl in Hs. discriminate.
Qed.

Lemma collapse_id :
  forall s b, singleSpaces b s = true -> collapse b s = s.
Proof.
  induction s as [| c s IH]; intros b H; [reflexivity |]. simpl in *.
  destruct (isWhiteSpace c).
  - apply andb_prop in H. destruct H as [H1 H2].
    apply andb_prop in H1. destruct H1 as [H1 Hb].
    apply N.eqb_eq in H1. subst c. destruct b; [discriminate |].
    rewrite (IH true H2). reflexivity.
  - rewrite (IH false H). reflexivity.
Qed.

Lemma foldCase_LT c : (LT =? c)%N = false -> (foldCase c =? foldCase LT)%N = false.
Proof.
  intros H. apply N.eqb_neq in H. apply N.eqb_neq.
  change (foldCase LT) with 60%N. change LT with 60%N in H.
  unfold foldCase, isLower.
  destruct (N.leb_spec 97 c); destruct (N.leb_spec c 122); simpl; lia.
Qed.

Lemma litI_no_match s' r p :
  (forall c tl, (LT =? c)%N = false ->
     execAt (Seq (LitI (LT :: s')) r) p (c :: tl) = None)
  /\ execAt (Seq (LitI (LT :: s')) r) p [] = None.
Proof.
  split; [| reflexivity]. intros c tl Hc.
  unfold execAt. cbn [LitI]. rewrite !rmatch_seq, rmatch_chr.
  rewrite (foldCase_LT c Hc). reflexivity.
Qed.

Lemma lit_no_match c0 s' r p :
  (forall c tl, (c0 =? c)%N = false ->
     execAt (Seq (Lit (c0 :: s')) r) p (c :: tl) = None)
  /\ execAt (Seq (Lit (c0 :: s')) r) p [] = None.
Proof.
  split; [| reflexivity]. intros c tl Hc.
  unfold execAt. cbn [Lit]. rewrite !rmatch_seq, rmatch_chr, Hc. reflexivity.
Qed.

Lemma lit_alone_no_match c0 s' f s :
  Forall (fun c => (c0 =? c)%N = false) s ->
  replaceAll (Lit (c0 :: s')) f s = s.
Proof.
  intros H. apply (replaceAll_no_match _ _ (N.eqb c0)); [| | exact H].
  - reflexivity.
  - intros p c tl Hc. unfold execAt. cbn [Lit].
    rewrite rmatch_seq, rmatch_chr, Hc. reflexivity.
Qed.

Lemma entities_no_match text :
  forall es : list (jsstring * jsstring),
    Forall (fun e => exists s' : jsstring, fst e = AMP :: s') es ->
    Forall (fun c => (AMP =? c)%N = false) text ->
    fold_left
      (fun decoded e => replaceAll (Lit (fst e)) (fun _ => snd e) decoded)
      es text
    = text.
Proof.
  induction es as [| e es IH]; intros Hes Htext; [reflexivity |].
  inversion Hes as [| ? ? [s' He] Hrest]; subst. cbn [fold_left].
  destruct e as [entity char]. cbn [fst snd] in *. subst entity.
  rewrite lit_alone_no_match by exact Htext.
  apply IH; assumption.
Qed.

(** Decoding the entities leaves a text without "&" as it is. *)
Lemma decodeHTMLEntities_plain text :
  Forall (fun c => (AMP =? c)%N = false) text ->
  decodeHTMLEntities text = text.
Proof.
  intros H. unfold decodeHTMLEntities. rewrite entities_no_match.
  - apply (replaceAll_no_match _ _ (N.eqb AMP)); [reflexivity | | exact H].
    intros p c tl Hc.
    apply (proj1 (lit_no_match AMP (lit "#") _ p) c tl Hc).
  - unfold entities. repeat constructor; eexists; reflexivity.
  - exact H.
Qed.

Lemma not_In_eqb x (s : jsstring) :
  ~ In x s -> Forall (fun c => (x =? c)%N = false) s.
Proof.
  intros H. apply Forall_forall. intros c Hc. apply N.eqb_neq.
  intros ->. contradiction.
Qed.

(** X15: on a text without markup - no "<" and no "&" - [cleanHTML]
    only normalizes the white space: it returns the text with each run
    of white space replaced by one space, trimmed; and it returns the
    text itself when its words are already separated by single spaces.
    So [cleanHTML] applied again to its own output changes nothing when
    that output holds no "<" and no "&". *)
Theorem cleanHTML_plain_text :
  forall text,
    ~ In LT text -> ~ In AMP text ->
    cleanHTML text = trim (collapse false text)
    /\ (normalized text -> cleanHTML text = text).
Proof.
  intros text Hlt Hamp.
  apply not_In_eqb in Hlt. apply not_In_eqb in Hamp.
  assert (Hclean : cleanHTML text = trim (collapse false text)).
  { unfold cleanHTML. destruct text as [| c0 text0] eqn:Et; [reflexivity |].
    rewrite <- Et in *. clear Et c0 text0.
    assert (Hblock : forall tag f,
              replaceAll (blockRegex tag) f text = text).
    { intros tag f. apply (replaceAll_no_match _ _ (N.eqb LT)); [| | exact Hlt].
      - intros p. unfold blockRegex.
        apply (proj2 (litI_no_match (lit tag) _ p)).
      - intros p c tl Hc. unfold blockRegex.
        apply (proj1 (litI_no_match (lit tag) _ p) c tl Hc). }
    rewrite !Hblock.
    assert (Hcomment : replaceAll commentRegex (fun _ => []) text = text).
    { apply (replaceAll_no_match _ _ (N.eqb LT)); [| | exact Hlt].
      - intros p. apply (proj2 (lit_no_match LT (lit "!--") _ p)).
      - intros p c tl Hc.
        apply (proj1 (lit_no_match LT (lit "!--") _ p) c tl Hc). }
    rewrite Hcomment.
    assert (Htag : replaceAll tagRegex (fun _ => SPACE) text = text).
    { apply (replaceAll_no_match _ _ (N.eqb LT)); [reflexivity | | exact Hlt].
      intros p c tl Hc. unfold execAt, tagRegex.
      rewrite rmatch_seq, rmatch_chr, Hc. reflexivity. }
    rewrite Htag, (decodeHTMLEntities_plain text Hamp), replaceAll_spaces.
    apply (newlines_no_match _ _ false).
    apply (singleSpaces_trim _ false). apply singleSpaces_collapse. }
  split; [exact Hclean |].
  intros [Hs Ht]. rewrite Hclean, (collapse_id _ _ Hs). exact Ht.
Qed.

Lemma noSpace_rev s : noSpace s -> noSpace (rev s).
Proof. apply Forall_rev. Qed.

(** The pieces of a split on white space hold no white space. *)
Lemma splitLoop_spaces_words :
  forall fuel p cur s,
    length s < fuel -> noSpace cur ->
    Forall noSpace (splitLoop fuel spacesRegex p cur s).
Proof.
  induction fuel as [| fuel IH]; intros p cur s Hfuel Hcur; [lia |].
  destruct s as [| c tl]; cbn [splitLoop].
  - constructor; [apply noSpace_rev; exact Hcur | constructor].
  - pose proof (execAt_spaces p c tl) as Hexec.
    destruct (isWhiteSpace c) eqn:Hc.
    + destruct Hexec as [pv' ->]. cbn [rest prev].
      pose proof (trimStart_length tl) as Hlen.
      destruct (Nat.eqb_spec (length (trimStart tl)) (length (c :: tl)))
        as [E | _]; [simpl in E; lia |].
      cbn [andb]. constructor; [apply noSpace_rev; exact Hcur |].
      apply IH; [simpl in Hfuel; lia | constructor].
    + rewrite Hexec. apply IH; [simpl in Hfuel; lia |].
      constructor; assumption.
Qed.

Lemma words_noSpace text : Forall noSpace (split spacesRegex text).
Proof.
  unfold split. destruct text as [| c tl].
  - simpl. repeat constructor.
  - apply splitLoop_spaces_words; [simpl; lia | constructor].
Qed.

(** X16: the word-level fallback.  When the loop of [chunkByWords]
    returns, each chunk is a run of consecutive words of the text -
    pieces of its split on white space, none of which holds white
    space - joined by single spaces, of at most
    [floor(maxTokens * 0.75)] words. *)
Theorem word_chunks_are_runs_of_words :
  forall fuel text maxT ov result,
    (0 <= wordsFor maxT)%Z ->
    chunkByWords fuel text maxT ov = Some result ->
    Forall (fun chunk =>
              exists i words,
                words = slice (split spacesRegex text) i (i + wordsFor maxT)
                /\ chunk = join SPACE words
                /\ nonBlank chunk = true
                /\ (Z.of_nat (length words) <= wordsFor maxT)%Z
                /\ Forall noSpace words)
      result.
Proof.
  intros fuel text maxT ov result Hmax. unfold chunkByWords.
  set (words := split spacesRegex text).
  set (step := (wordsFor maxT - wordsFor ov)%Z).
  set (good := fun chunk =>
                 exists i ws,
                   ws = slice words i (i + wordsFor maxT)
                   /\ chunk = join SPACE ws
                   /\ nonBlank chunk = true
                   /\ (Z.of_nat (length ws) <= wordsFor maxT)%Z
                   /\ Forall noSpace ws).
  destruct (Z.leb_spec step 0) as [Hstep | Hstep].
  { rewrite chunkByWordsLoop_loops; [discriminate | apply words_not_nil
                                     | assumption | lia]. }
  cut (forall fuel i acc r,
          (0 <= i)%Z -> Forall good acc ->
          chunkByWordsLoop fuel words (wordsFor maxT) step i acc = Some r ->
          Forall good r).
  { intros Hcut H. eapply Hcut; [| | exact H]; [lia | constructor]. }
  clear fuel result. induction fuel as [| fuel IH]; intros i acc r Hi Hacc H;
    rewrite chunkByWordsLoop_eq in H;
    destruct (i <? Z.of_nat (length words))%Z; try discriminate;
    try (inversion H; subst; assumption).
  eapply IH; [| | exact H]; [lia |].
  cbv zeta.
  destruct (nonEmpty (trim (join SPACE (slice words i (i + wordsFor maxT)))))
    eqn:Hblank; [| assumption].
  apply Forall_app. split; [assumption |]. constructor; [| constructor].
  exists i, (slice words i (i + wordsFor maxT)).
  split; [reflexivity |]. split; [reflexivity |].
  split; [exact Hblank |].
  split; [apply slice_length_bound; lia |].
  apply Forall_forall. intros x Hx. apply slice_incl in Hx.
  pose proof (words_noSpace text) as Hw. rewrite Forall_forall in Hw.
  apply Hw. exact Hx.
Qed.

End WhiteSpace.

Lemma cleanHTML_plain_text_witness :
  cleanHTML (lit "  Keep   going. ") = lit "Keep going."
  /\ cleanHTML (lit "Keep going.") = lit "Keep going.".
Proof.
  split.
  - rewrite (proj1 (cleanHTML_plain_text (lit "  Keep   going. ")
                      ltac:(vm_compute; intuition discriminate)
                      ltac:(vm_compute; intuition discriminate))).
    vm_compute. reflexivity.
  - apply (proj2 (cleanHTML_plain_text (lit "Keep going.")
                    ltac:(vm_compute; intuition discriminate)
                    ltac:(vm_compute; intuition discriminate))).
    split; vm_compute; reflexivity.
Defined.

Lemma word_chunks_are_runs_of_words_witness :
  Forall (fun chunk =>
            exists i words,
              words = slice (split spacesRegex (lit "to be or not to be")) i
                        (i + wordsFor 4)
              /\ chunk = join SPACE words
              /\ nonBlank chunk = true
              /\ (Z.of_nat (length words) <= wordsFor 4)%Z
              /\ Forall noSpace words)
    [lit "to be or"; lit "or not to"; lit "to be"].
Proof.
  apply (word_chunks_are_runs_of_words 10 (lit "to be or not to be") 4 2).
  - vm_compute. discriminate.
  - vm_compute. reflexivity.
Defined.

(** ** The writes to the index *)

Section IndexWrites.
Import Pinecone Embeddings Ingest.
Context {number : Type}.
Notation M := (M number).
Variable w : world number.

Lemma upserted_app (h1 h2 : history number) :
  upserted (h1 ++ h2) = upserted h1 ++ upserted h2.
Proof. unfold upserted. apply flat_map_app. Qed.

Lemma upserted_batches (batches : list (list (VectorRecord number))) :
  upserted (map (@IndexUpsert number) batches) = concat batches.
Proof.
  induction batches as [| b batches IH]; [reflexivity |].
  simpl. rewrite <- IH. reflexivity.
Qed.

Lemma upserted_none (new : history number) :
  Forall notUpsert new -> upserted new = [].
Proof.
  induction 1 as [| r new Hr _ IH]; [reflexivity |].
  simpl. rewrite IH. destruct r; simpl in *; try reflexivity. contradiction.
Qed.

(** The batches are sent in order until one is rejected. *)
Lemma upsertBatches_prefix :
  forall batches h,
    exists k,
      snd (upsertBatches batches w h)
      = h ++ map (@IndexUpsert number) (firstn k batches)
      /\ match fst (upsertBatches batches w h) with
         | Ok _ => k = length batches
         | Throw e =>
             exists j batch,
               k = S j /\ nth_error batches j = Some batch
               /\ answer w (h ++ map (@IndexUpsert number) (firstn j batches))
                    (IndexUpsert batch)
                  = Failed e
         | Hang => False
         end.
Proof.
  induction batches as [| batch later IH]; intros h.
  - exists 0. simpl. rewrite app_nil_r. split; reflexivity.
  - cbn [upsertBatches]. unfold bind at 1. unfold tryCatch, bind, call.
    destruct (answer w h (IndexUpsert batch)) as [e | d | m | md c | d f |] eqn:Ea;
      cbv iota beta; unfold throw, ret; cbv iota beta;
      try (destruct (IH (h ++ [IndexUpsert batch])) as [k [Hh Hr]];
           exists (S k); cbn [firstn map]; rewrite Hh, <- app_assoc;
           split; [reflexivity |];
           destruct (fst (upsertBatches later w (h ++ [IndexUpsert batch])))
             as [[] | e' |];
           [simpl; congruence
           | destruct Hr as [j [b [Hk [Hb Ha]]]];
             exists (S j), b; cbn [firstn map nth_error];
             rewrite <- app_assoc in Ha; auto
           | contradiction]).
    exists 1. cbn [firstn map fst snd]. split; [reflexivity |].
    exists 0, batch. cbn [firstn map nth_error]. rewrite app_nil_r. auto.
Qed.

Lemma slices_bounded {A} (a : list A) size :
  (0 < size)%Z ->
  forall fuel i acc result,
    (0 <= i)%Z ->
    slices fuel a size i acc = Some result ->
    Forall (fun b => b <> [] /\ (Z.of_nat (length b) <= size)%Z) acc ->
    Forall (fun b => b <> [] /\ (Z.of_nat (length b) <= size)%Z) result.
Proof.
  intros Hsize. induction fuel as [| fuel IH]; intros i acc result Hi H Hacc;
    simpl in H; destruct (Z.ltb_spec i (Z.of_nat (length a))) as [Hlt | Hge];
    try discriminate; try (inversion H; subst; assumption).
  eapply IH; [| exact H |]; [lia |].
  apply Forall_app. split; [assumption |]. constructor; [| constructor].
  split; [| apply slice_length_bound; lia].
  intros E. apply (f_equal (@length A)) in E. unfold slice, relIndex in E.
  rewrite length_firstn, length_skipn in E. simpl in E.
  destruct (Z.ltb_spec i 0), (Z.ltb_spec (i + size) 0); lia.
Qed.

Hypothesis key_set : pineconeKeySet w.

Lemma getIndex_ok h : @getIndex number w h = (Ok tt, h).
Proof.
  destruct key_set as [c [k Hkey]].
  unfold getIndex, bind, env. rewrite Hkey. reflexivity.
Qed.

(** X17: [upsertVectors] writes the records in order, in batches of at
    most [batchSize] records, and stops at the first batch the index
    rejects: the records written are then those of the batches before
    it, which stay written, the batch itself was sent once, no later
    batch is sent, and the error of the index is thrown as it is.  When
    no batch is rejected every record is written once. *)
Theorem upsertVectors_stops_at_first_failure :
  forall fuel vectors batchSize h,
    (0 < orDefault batchSize 100)%Z ->
    length vectors <= fuel ->
    exists batches k,
      concat batches = vectors
      /\ Forall (fun b => b <> []
                          /\ (Z.of_nat (length b) <= orDefault batchSize 100)%Z)
           batches
      /\ snd (upsertVectors fuel vectors batchSize w h)
         = h ++ map (@IndexUpsert number) (firstn k batches)
      /\ match fst (upsertVectors fuel vectors batchSize w h) with
         | Ok _ => k = length batches
         | Throw e =>
             exists j batch,
               k = S j /\ nth_error batches j = Some batch
               /\ answer w (h ++ map (@IndexUpsert number) (firstn j batches))
                    (IndexUpsert batch)
                  = Failed e
         | Hang => False
         end.
Proof.
  intros fuel vectors batchSize h Hsize Hfuel. unfold upsertVectors.
  change (match batchSize with Some b => b | None => 100%Z end)
    with (orDefault batchSize 100%Z).
  destruct vectors as [| v vs] eqn:Ev.
  - exists [], 0. simpl. rewrite app_nil_r. repeat split. constructor.
  - rewrite <- Ev in *. clear Ev v vs.
    destruct (slices_concat vectors _ Hsize fuel 0 [])
      as [batches [Hb Hc]]; [lia | lia | reflexivity |].
    pose proof (slices_bounded vectors _ Hsize _ _ _ _ (Z.le_refl 0) Hb
                  (Forall_nil _)) as Hbound.
    unfold bind. rewrite getIndex_ok, Hb.
    destruct (upsertBatches_prefix batches h) as [k [Hh Hr]].
    exists batches, k. auto.
Qed.

(** When the index accepts every upsert, the records are all written. *)
Lemma upsertVectors_all fuel vectors batchSize h :
  indexAccepts w ->
  (0 < orDefault batchSize 100)%Z ->
  length vectors <= fuel ->
  exists h',
    upsertVectors fuel vectors batchSize w h = (Ok tt, h')
    /\ upserted h' = upserted h ++ vectors.
Proof.
  intros Haccept Hsize Hfuel. unfold upsertVectors.
  change (match batchSize with Some b => b | None => 100%Z end)
    with (orDefault batchSize 100%Z).
  destruct vectors as [| v vs] eqn:Ev.
  - exists h. rewrite app_nil_r. split; reflexivity.
  - rewrite <- Ev in *. clear Ev v vs.
    destruct (slices_concat vectors _ Hsize fuel 0 [])
      as [batches [Hb Hc]]; [lia | lia | reflexivity |].
    unfold bind. rewrite getIndex_ok, Hb.
    destruct (upsertBatches_prefix batches h) as [k [Hh Hr]].
    destruct (upsertBatches batches w h) as [[[] | e |] h'] eqn:Eu;
      cbn [fst snd] in *.
    + exists h'. split; [reflexivity |]. subst h' k.
      rewrite firstn_all, upserted_app, upserted_batches, Hc. reflexivity.
    + destruct Hr as [j [b [_ [_ Ha]]]]. exfalso. exact (Haccept _ _ _ Ha).
    + contradiction.
Qed.

Variable embed : jsstring -> vector number.
Hypothesis provider : providerComputes w embed.

Lemma batchGenerateEmbeddings_run fuel texts options h :
  (0 < orDefault (batchSize options) 100)%Z ->
  (0 < orDefault (concurrency options) 5)%Z ->
  length texts <= fuel ->
  exists h',
    batchGenerateEmbeddings fuel texts options w h
    = (Ok (map embed (filter nonBlank texts)), h')
    /\ upserted h' = upserted h.
Proof.
  intros Hsize Hconc Hfuel.
  assert (Hrun : exists h',
             batchGenerateEmbeddings fuel texts options w h
             = (Ok (map embed (filter nonBlank texts)), h')).
  { unfold batchGenerateEmbeddings.
    destruct texts as [| t0 texts0] eqn:Etexts; [exists h; reflexivity |].
    rewrite <- Etexts in *. clear Etexts t0 texts0.
    pose proof (collectValid_length texts 0) as Hlen.
    destruct (slices_concat (collectValid texts 0) _ Hsize fuel 0 [])
      as [batches [Hb Hcb]]; [lia | lia | reflexivity |].
    pose proof (slices_length _ _ Hsize _ _ _ _ (Z.le_refl 0) Hb) as Hbl.
    simpl in Hbl.
    destruct (slices_concat batches _ Hconc fuel 0 [])
      as [groups [Hg Hcg]]; [lia | lia | reflexivity |].
    rewrite Hb, Hg.
    destruct (yields_processGroups w embed provider (onProgress options)
                (Z.of_nat (length (collectValid texts 0))) groups 0 [])
      with (h := h) as [h' Hrun].
    { apply Forall_concat. rewrite Hcg. apply Forall_concat. rewrite Hcb.
      apply collectValid_valid. }
    exists h'. rewrite (bind_ok _ _ _ _ _ _ Hrun). unfold ret. f_equal. f_equal.
    rewrite Hcg, Hcb. simpl app. unfold sortByIndex.
    rewrite sortByIndex_ascending.
    - simpl app. rewrite map_map. simpl.
      rewrite <- collectValid_texts with (i0 := 0). rewrite map_map.
      reflexivity.
    - simpl app. rewrite map_map. simpl.
      apply (collectValid_ascending texts 0). }
  destruct Hrun as [h' Hrun]. exists h'. split; [exact Hrun |].
  destruct (emits_batchGenerateEmbeddings notUpsert
              ltac:(intros; exact I) ltac:(intros; exact I)
              ltac:(intros; exact I) fuel texts options w h)
    as [new [Hnew Hall]].
  rewrite Hrun in Hnew. simpl in Hnew. subst h'.
  rewrite upserted_app, (upserted_none _ Hall), app_nil_r. reflexivity.
Qed.

Lemma mappingsOf_content aid prepared :
  forall pieces i0, map m_content (mappingsOf aid prepared pieces i0) = pieces.
Proof.
  induction pieces as [| chunk more IH]; intros i0; simpl; [reflexivity |].
  rewrite IH. reflexivity.
Qed.

(** The texts collected are those of the mappings, none is blank, and
    every row is counted as processed or as an error. *)
Lemma collect_aligned fuel :
  forall rows acc result,
    collect fuel rows acc = Some result ->
    allChunkTexts acc = map m_content (chunkToVectorMap acc) ->
    Forall (fun t => nonBlank t = true) (allChunkTexts acc) ->
    chunksGenerated (stats acc) = Z.of_nat (length (allChunkTexts acc)) ->
    allChunkTexts result = map m_content (chunkToVectorMap result)
    /\ Forall (fun t => nonBlank t = true) (allChunkTexts result)
    /\ chunksGenerated (stats result)
       = Z.of_nat (length (allChunkTexts result))
    /\ (articlesProcessed (stats result) + errors (stats result)
        = articlesProcessed (stats acc) + errors (stats acc)
          + Z.of_nat (length rows))%Z.
Proof.
  induction rows as [| row more IH]; intros acc result H Htexts Hblank Hcount;
    simpl in H.
  - inversion H; subst. repeat split; try assumption. simpl. lia.
  - destruct (negb (nonEmpty (a_id row)) || negb (nonEmpty (a_title row))
              || negb (nonEmpty (a_content row))).
    + destruct (IH _ _ H) as [E1 [E2 [E3 E4]]]; try assumption.
      repeat split; try assumption. rewrite E4. cbn [stats articlesProcessed errors length].
      lia.
    + destruct (prepareArticle fuel (a_id row) (a_title row) (a_url row)
                  (a_content row) emptyConfig) as [prepared |] eqn:Hp;
        [| discriminate].
      assert (Hchunks : Forall (fun t => nonBlank t = true) (pa_chunks prepared)).
      { unfold prepareArticle in Hp.
        destruct (chunkText fuel _ emptyConfig) as [cs |] eqn:Hc;
          [| discriminate].
        inversion Hp; subst. cbn [pa_chunks].
        eapply chunkText_notBlank. exact Hc. }
      destruct (IH _ _ H) as [E1 [E2 [E3 E4]]].
      * cbn [allChunkTexts chunkToVectorMap]. rewrite map_app, mappingsOf_content.
        rewrite Htexts. reflexivity.
      * cbn [allChunkTexts]. apply Forall_app. split; assumption.
      * cbn [allChunkTexts stats chunksGenerated]. rewrite length_app. lia.
      * repeat split; try assumption. rewrite E4.
        cbn [stats articlesProcessed errors length]. lia.
Qed.

Lemma buildVectorRecords_aligned h :
  forall ms pre,
    buildVectorRecords (map (fun m => embed (m_content m)) ms) (pre ++ ms)
      (length pre) w h
    = (Ok (map (recordOf embed) ms), h).
Proof.
  induction ms as [| m ms IH]; intros pre; [reflexivity |].
  cbn [map buildVectorRecords].
  rewrite nth_error_app2, Nat.sub_diag by lia. cbn [nth_error].
  unfold bind.
  replace (pre ++ m :: ms) with ((pre ++ [m]) ++ ms)
    by (rewrite <- app_assoc; reflexivity).
  replace (S (length pre)) with (length (pre ++ [m]))
    by (rewrite length_app; simpl; lia).
  rewrite IH. reflexivity.
Qed.

Hypothesis index_accepts : indexAccepts w.

(** The ingestion of the chunks collected.  When the provider of
    embeddings computes [embed] (a batch call may fail as a whole), the
    key of the index is set and the index accepts the upserts,
    [ingestBatch] returns, and the records it writes are those of the
    chunks collected, in order: each with the identifier of its chunk,
    the metadata of its chunk and, as values, the vector of the text of
    that very chunk.  The counts of embeddings and of vectors are the
    number of chunks, and every row of the batch is counted once, as
    processed or as an error. *)
Lemma ingestBatch_writes_collected :
  forall fuel batchArticles collected h,
    collect fuel batchArticles nothingCollected = Some collected ->
    allChunkTexts collected <> [] ->
    length (allChunkTexts collected) <= fuel ->
    exists h' st,
      ingestBatch fuel batchArticles w h = (Ok (Processed st), h')
      /\ upserted h'
         = upserted h ++ map (recordOf embed) (chunkToVectorMap collected)
      /\ map m_content (chunkToVectorMap collected) = allChunkTexts collected
      /\ embeddingsCreated st = chunksGenerated st
      /\ vectorsUpserted st = chunksGenerated st
      /\ chunksGenerated st
         = Z.of_nat (length (chunkToVectorMap collected))
      /\ (articlesProcessed st + errors st
          = Z.of_nat (length batchArticles))%Z.
Proof.
  intros fuel batchArticles collected h Hc Hne Hfuel.
  destruct (collect_aligned fuel _ _ _ Hc) as [Htexts [Hblank [Hcount Hrows]]];
    [reflexivity | constructor | reflexivity |].
  unfold ingestBatch. fold nothingCollected. rewrite Hc.
  destruct (allChunkTexts collected) as [| t ts] eqn:Et; [congruence |].
  rewrite <- Et in *. clear Et t ts Hne.
  destruct (batchGenerateEmbeddings_run fuel (allChunkTexts collected)
              {| batchSize := Some 100%Z; concurrency := Some 5%Z;
                 onProgress := true |} h) as [h1 [Hrun Hup1]];
    [reflexivity | reflexivity | exact Hfuel |].
  rewrite (filter_all _ _ Hblank) in Hrun.
  set (vectors := map (recordOf embed) (chunkToVectorMap collected)).
  assert (Hbuild :
    buildVectorRecords (map embed (allChunkTexts collected))
      (chunkToVectorMap collected) 0 w h1
    = (Ok vectors, h1)).
  { rewrite Htexts, map_map.
    apply (buildVectorRecords_aligned h1 (chunkToVectorMap collected) []). }
  destruct (upsertVectors_all fuel vectors (Some 100%Z) h1 index_accepts)
    as [h2 [Hups Hup2]];
    [reflexivity
    | unfold vectors; rewrite length_map;
      rewrite Htexts, length_map in Hfuel; exact Hfuel |].
  exists h2. eexists. split.
  { unfold bind. rewrite Hrun, Hbuild, Hups. reflexivity. }
  cbn [embeddingsCreated vectorsUpserted chunksGenerated articlesProcessed
       errors].
  unfold vectors. rewrite !length_map. rewrite Hup2, Hup1.
  rewrite Htexts, length_map in Hcount.
  split; [reflexivity |].
  split; [symmetry; exact Htexts |].
  split; [rewrite Htexts, length_map; symmetry; exact Hcount |].
  split; [symmetry; exact Hcount |].
  split; [exact Hcount |].
  rewrite Hrows. simpl. lia.
Qed.

End IndexWrites.

Lemma upsertVectors_stops_at_first_failure_witness :
  Pinecone.upsertVectors 3
    [recordNamed "a"; recordNamed "b"; recordNamed "c"] (Some 1%Z)
    fullIndexWorld []
  = (Throw (lit "quota"),
     [IndexUpsert [recordNamed "a"]; IndexUpsert [recordNamed "b"]])
  /\ exists batches k,
       concat batches = [recordNamed "a"; recordNamed "b"; recordNamed "c"]
       /\ Forall (fun b => b <> []
                           /\ (Z.of_nat (length b) <= orDefault (Some 1%Z) 100)%Z)
            batches
       /\ snd (Pinecone.upsertVectors 3
                 [recordNamed "a"; recordNamed "b"; recordNamed "c"]
                 (Some 1%Z) fullIndexWorld [])
          = [] ++ map (@IndexUpsert nat) (firstn k batches)
       /\ match fst (Pinecone.upsertVectors 3
                       [recordNamed "a"; recordNamed "b"; recordNamed "c"]
                       (Some 1%Z) fullIndexWorld []) with
          | Ok _ => k = length batches
          | Throw e =>
              exists j batch,
                k = S j /\ nth_error batches j = Some batch
                /\ answer fullIndexWorld
                     ([] ++ map (@IndexUpsert nat) (firstn j batches))
                     (IndexUpsert batch)
                   = Failed e
          | Hang => False
          end.
Proof.
  split; [reflexivity |].
  apply (upsertVectors_stops_at_first_failure fullIndexWorld
           (ex_intro _ 107%N (ex_intro _ (lit "ey") eq_refl))
           3 [recordNamed "a"; recordNamed "b"; recordNamed "c"]
           (Some 1%Z) []).
  - reflexivity.
  - apply le_n.
Defined.

(** ** The prompts and the results of the orchestrator *)

Section Prompts.
Import Pinecone Embeddings Rag.
Context {number : Type}.
Variables (zero : number) (falsy : number -> bool) (temperature03 : number).
Variables (percent : number -> jsstring) (encode : jsstring -> list N).
Notation M := (M number).

Lemma startsWith_app q b : startsWith q (q ++ b) = true.
Proof.
  induction q as [| c q IH]; [reflexivity |]. simpl.
  rewrite N.eqb_refl. exact IH.
Qed.

Lemma includes_app a q b : includes (a ++ q ++ b) q = true.
Proof.
  induction a as [| x a IH]; simpl.
  - destruct (q ++ b) eqn:E; simpl; rewrite <- E, startsWith_app; reflexivity.
  - rewrite IH. apply orb_true_r.
Qed.

Lemma buildUserPrompt_query query (chunks : list QueryResult) :
  includes (buildUserPrompt percent query chunks) query = true.
Proof.
  unfold buildUserPrompt. cbn [join].
  set (sections := join _ (contextSections percent chunks 0)).
  set (l1 := lit "CONTEXT FROM BRETT'S ARCHIVE:").
  set (l2 := lit "USER QUERY: ").
  set (l3 := lit "Please provide a helpful answer based on the context above. Include specific article titles and format your response with markdown.").
  replace (l1 ++ [NL] ++ [] ++ [NL] ++ sections ++ [NL] ++ [] ++ [NL]
           ++ lit "---" ++ [NL] ++ [] ++ [NL] ++ (l2 ++ query) ++ [NL] ++ []
           ++ [NL] ++ l3)
    with ((l1 ++ [NL] ++ [] ++ [NL] ++ sections ++ [NL] ++ [] ++ [NL]
           ++ lit "---" ++ [NL] ++ [] ++ [NL] ++ l2)
          ++ query ++ ([NL] ++ [] ++ [NL] ++ l3)).
  - apply includes_app.
  - rewrite <- !app_assoc. reflexivity.
Qed.

Lemma slice_last {A} (l : list A) :
  slice l (-6) (Z.of_nat (length l)) = skipn (length l - 6) l
  /\ length (skipn (length l - 6) l) <= 6.
Proof.
  split; [| rewrite length_skipn; lia].
  unfold slice. cbv zeta. unfold relIndex.
  change (-6 <? 0)%Z with true. cbv iota.
  destruct (Z.ltb_spec (Z.of_nat (length l)) 0); [lia |].
  replace (Z.to_nat (Z.max (Z.of_nat (length l) + -6) 0)) with (length l - 6)
    by lia.
  apply firstn_all2. rewrite length_skipn. lia.
Qed.

Lemma buildMessages_bounded query (chunks : list QueryResult) turns :
  boundedPrompt query turns (buildMessages percent query chunks turns).
Proof.
  unfold buildMessages, boundedPrompt.
  destruct (slice_last turns) as [-> Hlen].
  exists (buildUserPrompt percent query chunks).
  split; [reflexivity |]. split; [apply buildUserPrompt_query |].
  rewrite !length_app, length_map. simpl. lia.
Qed.

Lemma quiet_run {A} (m : M A) w h :
  emits notChat m ->
  exists quiet, snd (m w h) = h ++ quiet /\ Forall notChat quiet.
Proof. intros Hm. apply Hm. Qed.

Lemma notChat_embeddings text :
  emits notChat (@generateEmbedding number text 3).
Proof. apply emits_generateEmbedding; intros; intros H; exact H. Qed.

(** X19: the requests of a query.  Whatever the services answer, a call
    of [queryKnowledgeBase] or of [queryKnowledgeBaseStream] makes at
    most one request to the generative model, as its last request, to
    the model "gpt-4o"; the prompt of that request is the system prompt,
    then the last six turns of the conversation history at most, in
    their order, then one user message that holds the query: eight
    messages at most, however long the history. *)
Theorem query_makes_one_bounded_prompt :
  forall query options w h,
    (exists quiet tail,
       snd (queryKnowledgeBase zero falsy temperature03 percent query options
              w h)
       = h ++ quiet ++ tail
       /\ Forall notChat quiet
       /\ (tail = []
           \/ oneChatRequest
                (boundedPrompt query
                   (orDefault (conversationHistory options) []))
                false tail))
    /\ (exists quiet tail,
          snd (queryKnowledgeBaseStream zero falsy temperature03 percent
                 encode query options w h)
          = h ++ quiet ++ tail
          /\ Forall notChat quiet
          /\ (tail = []
              \/ oneChatRequest
                   (boundedPrompt query
                      (orDefault (conversationHistory options) []))
                   true tail)).
Proof.
  intros query options w h.
  destruct (quiet_run (embedQuery query) w h (notChat_embeddings query))
    as [n1 [E1 F1]].
  split.
  - unfold queryKnowledgeBase. unfold bind at 1.
    destruct (embedQuery query w h) as [[v | e |] h1]; simpl in E1; subst h1;
      try solve [exists n1, (@nil (request number)); rewrite app_nil_r; auto].
    unfold bind at 1.
    destruct (quiet_run (queryVectors zero falsy v
                           {| qo_topK := Some (orDefault (topK options) 5%Z);
                              qo_includeMetadata := Some true |})
                w (h ++ n1)
                (emits_queryVectors zero falsy v
                   {| qo_topK := Some (orDefault (topK options) 5%Z);
                      qo_includeMetadata := Some true |}))
      as [n2 [E2 F2]].
    destruct (queryVectors zero falsy v
                {| qo_topK := Some (orDefault (topK options) 5%Z);
                   qo_includeMetadata := Some true |} w (h ++ n1))
      as [[chunks | e |] h2]; simpl in E2; subst h2;
      try solve [exists (n1 ++ n2), (@nil (request number));
                 rewrite app_nil_r, app_assoc;
                 split; [reflexivity | split; [apply Forall_app; auto | auto]]].
    destruct chunks as [| chunk chunks];
      [exists (n1 ++ n2), (@nil (request number));
       rewrite app_nil_r, app_assoc;
       split; [reflexivity | split; [apply Forall_app; auto | auto]] |].
    unfold bind at 1. unfold getOpenAIClient at 1. unfold bind at 1, env.
    destruct (OPENAI_API_KEY w) as [[| c k] |];
      try solve [exists (n1 ++ n2), (@nil (request number));
                 rewrite app_nil_r, app_assoc;
                 split; [reflexivity | split; [apply Forall_app; auto | auto]]].
    exists (n1 ++ n2).
    eexists [ChatCreate (lit "gpt-4o") _ _ _ false].
    split; [| split; [apply Forall_app; auto |]].
    + unfold tryCatch, bind, call. unfold ret at 1. cbv beta iota.
      destruct (Effects.answer w _ _) as [e | d | m | md cs | d f |];
        unfold throw, ret; cbv beta iota; cbn [snd];
        rewrite <- !app_assoc; reflexivity.
    + right. eexists _, _, _. split; [reflexivity |].
      apply buildMessages_bounded.
  - unfold queryKnowledgeBaseStream. unfold bind at 1.
    destruct (embedQuery query w h) as [[v | e |] h1]; simpl in E1; subst h1;
      try solve [exists n1, (@nil (request number)); rewrite app_nil_r; auto].
    unfold bind at 1.
    destruct (quiet_run (queryVectors zero falsy v
                           {| qo_topK := Some (orDefault (topK options) 5%Z);
                              qo_includeMetadata := Some true |})
                w (h ++ n1)
                (emits_queryVectors zero falsy v
                   {| qo_topK := Some (orDefault (topK options) 5%Z);
                      qo_includeMetadata := Some true |}))
      as [n2 [E2 F2]].
    destruct (queryVectors zero falsy v
                {| qo_topK := Some (orDefault (topK options) 5%Z);
                   qo_includeMetadata := Some true |} w (h ++ n1))
      as [[chunks | e |] h2]; simpl in E2; subst h2;
      try solve [exists (n1 ++ n2), (@nil (request number));
                 rewrite app_nil_r, app_assoc;
                 split; [reflexivity | split; [apply Forall_app; auto | auto]]].
    destruct chunks as [| chunk chunks];
      [exists (n1 ++ n2), (@nil (request number));
       rewrite app_nil_r, app_assoc;
       split; [reflexivity | split; [apply Forall_app; auto | auto]] |].
    unfold bind at 1. unfold getOpenAIClient at 1. unfold bind at 1, env.
    destruct (OPENAI_API_KEY w) as [[| c k] |];
      try solve [exists (n1 ++ n2), (@nil (request number));
                 rewrite app_nil_r, app_assoc;
                 split; [reflexivity | split; [apply Forall_app; auto | auto]]].
    exists (n1 ++ n2).
    eexists [ChatCreate (lit "gpt-4o") _ _ _ true].
    split; [| split; [apply Forall_app; auto |]].
    + unfold bind, call. unfold ret at 1. cbv beta iota.
      destruct (Effects.answer w _ _) as [e | d | m | md cs | d f |];
        unfold throw, ret; cbv beta iota; cbn [snd];
        rewrite <- !app_assoc; reflexivity.
    + right. eexists _, _, _. split; [reflexivity |].
      apply buildMessages_bounded.
Qed.

Lemma run_ok_inv {A} (a b : A) (h h' : history number) :
  (Ok a, h) = (Ok b, h') -> a = b /\ h = h'.
Proof. intros H. inversion H. auto. Qed.

Lemma citationsOf_snippets (chunks : list QueryResult) :
  Forall (fun c : @Citation number =>
            exists body, c_snippet c = body ++ lit "..." /\ length body <= 150)
    (citationsOf chunks).
Proof.
  unfold citationsOf. apply Forall_map. apply Forall_forall. intros chunk _.
  cbn [c_snippet]. eexists. split; [reflexivity |].
  rewrite length_firstn. lia.
Qed.

(** X20: the result of a query.  Whenever [queryKnowledgeBase] returns,
    its answer is not empty, [retrievedChunks] is the number of its
    citations, and the snippet of every citation is at most 150 code
    units of the chunk followed by "...", also when the chunk is
    shorter than 150. *)
Theorem query_result_is_consistent :
  forall query options w h r h',
    queryKnowledgeBase zero falsy temperature03 percent query options w h
    = (Ok r, h') ->
    answer r <> []
    /\ retrievedChunks r = Z.of_nat (length (citations r))
    /\ Forall (fun c : @Citation number =>
                 exists body,
                   c_snippet c = body ++ lit "..." /\ length body <= 150)
         (citations r).
Proof.
  intros query options w h r h' H. unfold queryKnowledgeBase in H.
  unfold bind at 1 in H.
  destruct (embedQuery query w h) as [[v | e |] h1]; try discriminate.
  unfold bind at 1 in H.
  destruct (queryVectors zero falsy v _ w h1) as [[chunks | e |] h2];
    try discriminate.
  destruct chunks as [| chunk chunks].
  - unfold ret in H. apply run_ok_inv in H. destruct H as [Hr _]. subst r.
    cbn [answer citations retrievedChunks].
    repeat split; [discriminate | constructor].
  - unfold bind at 1 in H.
    destruct (getOpenAIClient w h2) as [[[] | e |] h3]; try discriminate.
    unfold tryCatch, bind, call in H.
    destruct (Effects.answer w h3 _) as [e | d | m | md cs | d f |];
      try discriminate.
    unfold ret, throw in H. cbv beta iota in H.
    apply run_ok_inv in H. destruct H as [Hr _]. subst r.
    cbn [answer citations retrievedChunks].
    split; [| split].
    + destruct cs as [| [[| c0 c1] |] cs']; discriminate.
    + unfold citationsOf. rewrite length_map. reflexivity.
    + apply citationsOf_snippets.
Qed.

End Prompts.


(** One chunk is retrieved and the model returns no content. *)
Lemma query_result_is_consistent_witness :
  let r :=
    {| Rag.answer := lit "No response generated.";
       Rag.citations :=
         [ {| Rag.c_title := lit "Grit"; Rag.c_url := lit "u";
              Rag.c_relevance := 0;
              Rag.c_snippet := lit "Keep going...." |} ];
       Rag.retrievedChunks := 1;
       Rag.model := lit "gpt-4o" |} in
  Rag.answer r <> []
  /\ Rag.retrievedChunks r = Z.of_nat (length (Rag.citations r))
  /\ Forall (fun c : @Rag.Citation nat =>
               exists body,
                 Rag.c_snippet c = body ++ lit "..." /\ length body <= 150)
       (Rag.citations r).
Proof.
  intros r.
  apply (query_result_is_consistent 0 (fun _ => false) 3
           (fun _ => lit "0.0") (lit "grit?") noOptions oneChunkWorld [] r
           (snd (Rag.queryKnowledgeBase 0 (fun _ => false) 3
                   (fun _ => lit "0.0") (lit "grit?") noOptions
                   oneChunkWorld []))).
  vm_compute. reflexivity.
Defined.

(** ** What the splits keep of the text *)

Section SplitContent.

Lemma rmatch_behind p st k :
  rmatch (Behind p) st k
  = match prev st with
    | Some c => if p c then k st else None
    | None => None
    end.
Proof. reflexivity. Qed.

Lemma rmatch_ahead r st k :
  rmatch (Ahead true r) st k
  = match rmatch r st Some with
    | Some st' => k (MState (prev st) (rest st) (caps st'))
    | None => None
    end.
Proof. reflexivity. Qed.

(** A separator of sentences is a run of white space. *)
Lemma execAt_sentence p s st :
  execAt sentenceRegex p s = Some st ->
  exists spaces,
    s = spaces ++ rest st /\ Forall (fun c => isWhiteSpace c = true) spaces.
Proof.
  unfold execAt, sentenceRegex, Plus. intros H.
  rewrite rmatch_seq, rmatch_behind in H. cbn [prev] in H.
  destruct p as [c |]; [| discriminate].
  destruct (isSentenceEnd c); [| discriminate].
  rewrite !rmatch_seq in H.
  destruct s as [| c0 tl]; [discriminate |].
  rewrite rmatch_chr in H. destruct (isWhiteSpace c0) eqn:Hc0; [| discriminate].
  rewrite star_chr in H. apply starChr_inv in H.
  destruct H as [xs [ys [Htl [Hxs Hk]]]].
  rewrite rmatch_ahead in Hk.
  destruct (rmatch (Chr isUpper) _ Some) as [st' |]; [| discriminate].
  cbn [prev rest] in Hk. inversion Hk; subst st. cbn [rest].
  exists (c0 :: xs). subst tl. split; [reflexivity |].
  constructor; assumption.
Qed.

Lemma trimStart_spaces s :
  exists spaces,
    s = spaces ++ trimStart s /\ Forall (fun c => isWhiteSpace c = true) spaces.
Proof.
  induction s as [| c s [z [Hz Hall]]]; [exists []; split; [reflexivity | constructor] |].
  simpl. destruct (isWhiteSpace c) eqn:Hc.
  - exists (c :: z). split; [simpl; rewrite <- Hz; reflexivity |].
    constructor; assumption.
  - exists []. split; [reflexivity | constructor].
Qed.

(** A separator of words is a run of white space. *)
Lemma execAt_spaces_run p s st :
  execAt spacesRegex p s = Some st ->
  exists spaces,
    s = spaces ++ rest st /\ Forall (fun c => isWhiteSpace c = true) spaces.
Proof.
  intros H. destruct s as [| c tl]; [discriminate |].
  pose proof (execAt_spaces p c tl) as Hexec.
  destruct (isWhiteSpace c) eqn:Hc; [| congruence].
  destruct Hexec as [pv' Hexec]. rewrite Hexec in H. inversion H; subst st.
  cbn [rest]. destruct (trimStart_spaces tl) as [z [Hz Hall]].
  exists (c :: z). split; [simpl; rewrite <- Hz; reflexivity |].
  constructor; assumption.
Qed.

Lemma filter_notSpace_spaces spaces :
  Forall (fun c => isWhiteSpace c = true) spaces -> filter notSpace spaces = [].
Proof.
  induction 1 as [| c spaces Hc _ IH]; [reflexivity |].
  simpl. unfold notSpace at 1. rewrite Hc. exact IH.
Qed.

(** A split whose separators are white space keeps every other code
    unit, in order. *)
Lemma splitLoop_keeps r :
  (forall p s st,
     execAt r p s = Some st ->
     exists spaces,
       s = spaces ++ rest st
       /\ Forall (fun c => isWhiteSpace c = true) spaces) ->
  forall fuel p cur s,
    filter notSpace (concat (splitLoop fuel r p cur s))
    = filter notSpace (rev cur ++ s).
Proof.
  intros Hsep. induction fuel as [| fuel IH]; intros p cur s.
  - simpl. rewrite app_nil_r. reflexivity.
  - destruct s as [| c tl]; cbn [splitLoop].
    + simpl. rewrite !app_nil_r. reflexivity.
    + assert (Hadvance :
        filter notSpace (concat (splitLoop fuel r (Some c) (c :: cur) tl))
        = filter notSpace (rev cur ++ c :: tl)).
      { rewrite IH. simpl rev. rewrite <- app_assoc. reflexivity. }
      destruct (execAt r p (c :: tl)) as [st |] eqn:E; [| exact Hadvance].
      destruct ((length (rest st) =? length (c :: tl)) && (length cur =? 0));
        [exact Hadvance |].
      destruct (Hsep _ _ _ E) as [spaces [Hs Hall]].
      cbn [concat]. rewrite !filter_app, IH. cbn [rev app].
      rewrite Hs, filter_app, (filter_notSpace_spaces _ Hall). reflexivity.
Qed.

Lemma split_keeps r text :
  (forall p s st,
     execAt r p s = Some st ->
     exists spaces,
       s = spaces ++ rest st
       /\ Forall (fun c => isWhiteSpace c = true) spaces) ->
  filter notSpace (concat (split r text)) = filter notSpace text.
Proof.
  intros Hsep. unfold split. destruct text as [| c tl].
  - destruct (execAt r None []); reflexivity.
  - rewrite (splitLoop_keeps r Hsep). reflexivity.
Qed.

Lemma filter_notSpace_trimStart s :
  filter notSpace (trimStart s) = filter notSpace s.
Proof.
  induction s as [| c s IH]; [reflexivity |]. simpl. unfold notSpace at 2.
  destruct (isWhiteSpace c) eqn:Hc; simpl; [exact IH |].
  unfold notSpace at 1. rewrite Hc. reflexivity.
Qed.

Lemma filter_notSpace_trim s : filter notSpace (trim s) = filter notSpace s.
Proof.
  unfold trim, trimEnd.
  rewrite filter_rev, filter_notSpace_trimStart, <- filter_rev, rev_involutive.
  apply filter_notSpace_trimStart.
Qed.

Lemma trimmed_pieces_keep pieces :
  filter notSpace (concat (filter nonEmpty (map trim pieces)))
  = filter notSpace (concat pieces).
Proof.
  induction pieces as [| x pieces IH]; [reflexivity |].
  cbn [map filter concat].
  rewrite (filter_app notSpace x), <- IH, <- (filter_notSpace_trim x).
  destruct (trim x) as [| c s]; [reflexivity |].
  change (nonEmpty (c :: s)) with true. cbv iota. cbn [concat].
  rewrite filter_app. reflexivity.
Qed.

(** X21: the split into sentences loses nothing but white space: the
    code units of the sentences that are not white space are those of
    the text, in the same order; and every sentence is trimmed and not
    empty. *)
Theorem sentences_keep_the_text :
  forall text,
    filter notSpace (concat (splitIntoSentences text)) = filter notSpace text
    /\ Forall (fun s => s <> [] /\ trim s = s) (splitIntoSentences text).
Proof.
  intros text. unfold splitIntoSentences. split.
  - rewrite trimmed_pieces_keep. apply split_keeps. apply execAt_sentence.
  - apply Forall_forall. intros s Hs. apply filter_In in Hs.
    destruct Hs as [Hin Hne]. apply in_map_iff in Hin.
    destruct Hin as [x [<- _]]. split.
    + intros E. rewrite E in Hne. discriminate.
    + apply trim_idem.
Qed.

Lemma nth_in_slice {A} (l : list A) i n j x :
  (0 <= i)%Z ->
  nth_error l j = Some x ->
  (i <= Z.of_nat j < i + n)%Z ->
  In x (slice l i (i + n)).
Proof.
  intros Hi Hj [Hlo Hhi].
  assert (Hlen : j < length l) by (apply nth_error_Some; congruence).
  unfold slice. cbv zeta. unfold relIndex.
  destruct (Z.ltb_spec i 0); [lia |].
  destruct (Z.ltb_spec (i + n) 0); [lia |].
  apply (nth_error_In _ (j - Z.to_nat i)).
  rewrite nth_error_firstn.
  destruct (Nat.ltb_spec (j - Z.to_nat i)
              (Z.to_nat (Z.min (i + n) (Z.of_nat (length l))
                         - Z.min i (Z.of_nat (length l))))) as [_ | Hge];
    [| lia].
  rewrite nth_error_skipn.
  replace (Z.to_nat (Z.min i (Z.of_nat (length l))) + (j - Z.to_nat i))
    with j by lia.
  exact Hj.
Qed.

(** X22: the word-level fallback covers the words.  When the overlap in
    words is not negative and smaller than the chunk size in words, and
    the loop of [chunkByWords] returns, every word of the text that is
    not empty occurs in a chunk; with the split on white space, which
    loses nothing but white space, no other code unit of the text is
    lost.  (A negative overlap makes the step exceed the chunk size, and
    words are then skipped.) *)
Theorem word_chunks_cover_the_words :
  forall fuel text maxT ov result,
    (0 <= wordsFor ov < wordsFor maxT)%Z ->
    chunkByWords fuel text maxT ov = Some result ->
    filter notSpace (concat (split spacesRegex text)) = filter notSpace text
    /\ forall word,
         In word (split spacesRegex text) -> word <> [] ->
         exists words,
           In (join SPACE words) result /\ In word words.
Proof.
  intros fuel text maxT ov result [Hov Hstep] H.
  split; [apply split_keeps; apply execAt_spaces_run |].
  unfold chunkByWords in H.
  set (words := split spacesRegex text) in *.
  set (step := (wordsFor maxT - wordsFor ov)%Z) in *.
  set (covered := fun (acc : list jsstring) (word : jsstring) =>
                    exists ws, In (join SPACE ws) acc /\ In word ws).
  cut (forall fuel i acc r,
          (0 <= i)%Z ->
          (forall j word, (Z.of_nat j < i)%Z -> nth_error words j = Some word ->
                          word <> [] -> covered acc word) ->
          chunkByWordsLoop fuel words (wordsFor maxT) step i acc = Some r ->
          forall word, In word words -> word <> [] -> covered r word).
  { intros Hcut. apply (Hcut fuel 0%Z [] result); [lia | | exact H].
    intros j word Hj. lia. }
  clear fuel result H.
  induction fuel as [| fuel IH]; intros i acc r Hi Hacc H word Hin Hne;
    rewrite chunkByWordsLoop_eq in H;
    destruct (Z.ltb_spec i (Z.of_nat (length words))) as [Hlt | Hge];
    try discriminate.
  - inversion H; subst r. apply In_nth_error in Hin. destruct Hin as [j Hj].
    apply (Hacc j word); [| exact Hj | exact Hne].
    assert (j < length words) by (apply nth_error_Some; congruence). lia.
  - cbv zeta in H.
    set (chunk := join SPACE (slice words i (i + wordsFor maxT))) in *.
    eapply (IH (i + step)%Z); [lia | | exact H | exact Hin | exact Hne].
    clear word Hin Hne. intros j word Hj Hword Hne.
    destruct (Z.ltb_spec (Z.of_nat j) i) as [Hold | Hnew].
    + destruct (Hacc j word Hold Hword Hne) as [ws [Hws Hw]].
      exists ws. split; [| exact Hw].
      destruct (nonEmpty (trim chunk)); [apply in_or_app; left |]; exact Hws.
    + assert (Hslice : In word (slice words i (i + wordsFor maxT))).
      { apply (nth_in_slice words i (wordsFor maxT) j word Hi Hword).
        unfold step in Hj. lia. }
      assert (Hblank : nonEmpty (trim chunk) = true).
      { change (nonBlank chunk = true). rewrite nonBlank_notSpace.
        apply (join_notSpace SPACE _ word Hslice).
        destruct word as [| c word]; [congruence |].
        pose proof (words_noSpace text) as Hw. rewrite Forall_forall in Hw.
        apply nth_error_In in Hword. specialize (Hw _ Hword).
        inversion Hw as [| ? ? Hc _]; subst. simpl. unfold notSpace at 1.
        rewrite Hc. reflexivity. }
      rewrite Hblank. exists (slice words i (i + wordsFor maxT)).
      split; [apply in_or_app; right; left; reflexivity | exact Hslice].
  - inversion H; subst r. apply In_nth_error in Hin. destruct Hin as [j Hj].
    apply (Hacc j word); [| exact Hj | exact Hne].
    assert (j < length words) by (apply nth_error_Some; congruence). lia.
Qed.

End SplitContent.

Lemma word_chunks_cover_the_words_witness :
  filter notSpace (concat (split spacesRegex (lit "to be or not to be")))
  = filter notSpace (lit "to be or not to be")
  /\ forall word,
       In word (split spacesRegex (lit "to be or not to be")) -> word <> [] ->
       exists words,
         In (join SPACE words) [lit "to be or"; lit "or not to"; lit "to be"]
         /\ In word words.
Proof.
  apply (word_chunks_cover_the_words 10 (lit "to be or not to be") 4 2).
  - vm_compute. split; [discriminate | reflexivity].
  - vm_compute. reflexivity.
Defined.

(** ** Further edge cases *)

Section WindowBoundary.
Import Chat.
Local Open Scope Z_scope.

Lemma serve_app maxRequests windowMs :
  forall a m b,
    serve m (a ++ b) maxRequests windowMs
    = serve m a maxRequests windowMs
      ++ serve (limiterAfter m a maxRequests windowMs) b maxRequests windowMs.
Proof.
  induction a as [| [t i] a IH]; intros m b; [reflexivity |].
  cbn [app serve limiterAfter].
  destruct (checkRateLimit m t i maxRequests windowMs) as [ok m'].
  cbn [snd app]. rewrite IH. reflexivity.
Qed.

(** The record of an identifier after requests within its window. *)
Lemma limiterAfter_window identifier maxRequests windowMs reset :
  forall times m c,
    mapGet m identifier = Some {| count := c; resetTime := reset |} ->
    Forall (fun t => t <= reset) times ->
    mapGet (limiterAfter m (map (fun t => (t, identifier)) times)
              maxRequests windowMs) identifier
    = Some {| count := Z.max c (Z.min (c + Z.of_nat (length times))
                                  (orDefault maxRequests 100));
              resetTime := reset |}.
Proof.
  induction times as [| t times IH]; intros m c Hm Hall.
  - simpl. rewrite Hm. do 2 f_equal. lia.
  - inversion Hall as [| ? ? Ht Hrest]; subst.
    cbn [map limiterAfter length]. unfold checkRateLimit. rewrite Hm.
    cbn [resetTime count].
    destruct (Z.gtb_spec t reset) as [Hgt | _]; [lia |].
    destruct (Z.geb_spec c (orDefault maxRequests 100)) as [Hfull | Hroom];
      cbn [snd].
    + rewrite (IH m c Hm Hrest). do 2 f_equal. lia.
    + rewrite (IH _ (c + 1) (mapGet_mapSet_same _ _ _) Hrest).
      do 2 f_equal. lia.
Qed.

(** The request that opens a window, and those that arrive until the
    window ends. *)
Lemma checkRateLimit_opens m identifier start maxRequests windowMs :
  windowOver m identifier start ->
  checkRateLimit m start identifier maxRequests windowMs
  = (true, mapSet m identifier
             {| count := 1; resetTime := start + orDefault windowMs 60000 |}).
Proof.
  intros Hover. unfold checkRateLimit. unfold windowOver in Hover.
  destruct (mapGet m identifier) as [record |]; [| reflexivity].
  destruct (Z.gtb_spec start (resetTime record)); [reflexivity | lia].
Qed.

Lemma serve_new_window m identifier start times maxRequests windowMs :
  windowOver m identifier start ->
  Forall (fun t => t <= start + orDefault windowMs 60000) times ->
  serve m (map (fun t => (t, identifier)) (start :: times))
    maxRequests windowMs
  = map (fun i => Z.of_nat i <? Z.max 1 (orDefault maxRequests 100))
      (seq 0 (S (length times))).
Proof.
  intros Hover Hall. cbn [map serve seq].
  rewrite (checkRateLimit_opens _ _ _ _ _ Hover). cbv iota beta.
  f_equal; [symmetry; apply Z.ltb_lt; simpl; lia |].
  rewrite (serve_window identifier maxRequests windowMs
             (start + orDefault windowMs 60000) times _ 1
             (mapGet_mapSet_same _ _ _) Hall).
  rewrite <- seq_shift, map_map. apply map_ext. intros j.
  destruct (Z.ltb_spec (1 + Z.of_nat j) (orDefault maxRequests 100)),
           (Z.ltb_spec (Z.of_nat (S j)) (Z.max 1 (orDefault maxRequests 100)));
    try reflexivity; lia.
Qed.

Lemma all_admitted limit k :
  Z.of_nat k <= Z.max 1 limit ->
  map (fun i => Z.of_nat i <? Z.max 1 limit) (seq 0 k) = repeat true k.
Proof.
  intros Hk.
  assert (H : forall start n,
             Z.of_nat (start + n) <= Z.max 1 limit ->
             map (fun i => Z.of_nat i <? Z.max 1 limit) (seq start n)
             = repeat true n).
  { intros start n. revert start.
    induction n as [| n IH]; intros start Hn; [reflexivity |].
    cbn [seq map repeat]. f_equal; [apply Z.ltb_lt; lia |].
    apply IH. lia. }
  apply H. exact Hk.
Qed.

(** X23: the window is fixed, not sliding.  With a limit of [n]
    requests per window, [2 * n] requests of one identifier are all let
    through when one opens a window, [n - 1] arrive in the last
    millisecond of that window and [n] in the millisecond after it: all
    but the first arrive within two consecutive milliseconds. *)
Theorem rate_limit_boundary_burst :
  forall m identifier start windowMs n,
    windowOver m identifier start ->
    0 <= windowMs ->
    (1 <= n)%nat ->
    serve m (map (fun t => (t, identifier)) (boundaryBurst start windowMs n))
      (Some (Z.of_nat n)) (Some windowMs)
    = repeat true (2 * n).
Proof.
  intros m identifier start windowMs n Hover Hwindow Hn.
  unfold boundaryBurst. rewrite map_app, serve_app.
  replace (2 * n)%nat with (S (n - 1) + n)%nat by lia.
  rewrite repeat_app. f_equal.
  - rewrite (serve_new_window m identifier start (repeat (start + windowMs) (n - 1))
               (Some (Z.of_nat n)) (Some windowMs) Hover).
    + rewrite repeat_length. apply all_admitted. cbn [orDefault]. lia.
    + apply Forall_forall. intros t Ht. apply repeat_spec in Ht. subst t.
      cbn [orDefault]. lia.
  - set (m1 := limiterAfter m _ _ _).
    assert (Hm1 : mapGet m1 identifier
                  = Some {| count := Z.max 1 (Z.min (1 + Z.of_nat (n - 1))
                                                (Z.of_nat n));
                            resetTime := start + windowMs |}).
    { unfold m1. cbn [map limiterAfter].
      rewrite (checkRateLimit_opens _ _ _ (Some (Z.of_nat n)) (Some windowMs)
                 Hover).
      cbn [snd orDefault].
      rewrite (limiterAfter_window identifier (Some (Z.of_nat n))
                 (Some windowMs) (start + windowMs)
                 (repeat (start + windowMs) (n - 1)) _ 1
                 (mapGet_mapSet_same _ _ _)).
      - rewrite repeat_length. reflexivity.
      - apply Forall_forall. intros t Ht. apply repeat_spec in Ht. lia. }
    destruct n as [| n']; [lia |]. cbn [repeat].
    rewrite (serve_new_window m1 identifier (start + windowMs + 1)
               (repeat (start + windowMs + 1) n')
               (Some (Z.of_nat (S n'))) (Some windowMs)).
    + rewrite repeat_length. apply (all_admitted _ (S n')). cbn [orDefault].
      lia.
    + unfold windowOver. rewrite Hm1. cbn [resetTime]. lia.
    + apply Forall_forall. intros t Ht. apply repeat_spec in Ht. subst t.
      cbn [orDefault]. lia.
Qed.

End WindowBoundary.

(** A limit of 3 per minute: six requests pass, five of them within
    two milliseconds. *)
Lemma rate_limit_boundary_burst_witness :
  boundaryBurst 0 60000 3 = [0; 60000; 60000; 60001; 60001; 60001]%Z
  /\ serve [] (map (fun t => (t, lit "10.0.0.1")) (boundaryBurst 0 60000 3))
       (Some (Z.of_nat 3)) (Some 60000%Z)
     = repeat true (2 * 3).
Proof.
  split; [reflexivity |].
  apply (rate_limit_boundary_burst [] (lit "10.0.0.1") 0 60000 3).
  - exact I.
  - discriminate.
  - repeat constructor.
Defined.

Section EmptyCompletion.
Import Summarizer.
Context {number : Type}.
Variable temperature03 : number.

(** X24: an empty completion is not a summary.  When the model answers
    the single pass with a first choice that has no content, or an
    empty one, [summarizeChatMessage] returns the message itself as its
    summary: a text estimated over 6,000 tokens, the threshold it was
    called to bring the message under, with [summaryTokens] equal to
    [originalTokens]. *)
Theorem empty_completion_returns_the_message :
  forall fuel message maxOutputTokens (w : world number) h model content others,
    (6000 < estimateTokens message <= 20000)%Z ->
    content = None \/ content = Some [] ->
    answer w h
      (ChatCreate (lit "gpt-4o-mini")
         [ {| msg_role := System; msg_content := summarizerPrompt |};
           {| msg_role := User; msg_content := message |} ]
         temperature03 (orDefault maxOutputTokens 2000%Z) false)
    = ChatCompletion model (content :: others) ->
    summarizeChatMessage temperature03 fuel message maxOutputTokens w h
    = (Ok {| summary := message;
             originalTokens := estimateTokens message;
             summaryTokens := estimateTokens message |},
       h ++ [ChatCreate (lit "gpt-4o-mini")
               [ {| msg_role := System; msg_content := summarizerPrompt |};
                 {| msg_role := User; msg_content := message |} ]
               temperature03 (orDefault maxOutputTokens 2000%Z) false]).
Proof.
  intros fuel message maxOutputTokens w h model content others [Hlo Hhi]
    Hcontent Hanswer.
  unfold summarizeChatMessage.
  destruct (Z.leb_spec (estimateTokens message) 6000); [lia |].
  unfold tryCatch, summarizationAttempt.
  destruct (Z.gtb_spec (estimateTokens message) 20000); [lia |].
  unfold bind, summarizeText, bind, call. rewrite Hanswer.
  destruct Hcontent as [-> | ->]; reflexivity.
Qed.

End EmptyCompletion.

(** A model that answers with no content, on the message of 21,001
    characters. *)
Lemma empty_completion_returns_the_message_witness :
  Summarizer.summarizeChatMessage 3%nat 0 longMessage None oneChunkWorld []
  = (Ok {| Summarizer.summary := longMessage;
           Summarizer.originalTokens := 6001;
           Summarizer.summaryTokens := 6001 |}, [longMessagePrompt]).
Proof.
  apply (empty_completion_returns_the_message 3%nat 0 longMessage None
           oneChunkWorld [] (lit "gpt-4o") None []).
  - split; [reflexivity | vm_compute; discriminate].
  - left. reflexivity.
  - reflexivity.
Defined.

Section BatchSizes.
Import Embeddings.
Context {number : Type}.

(** The loop that cuts an array into slices does not advance when the
    size is not positive. *)
Lemma slices_loops {A} (a : list A) size :
  (size <= 0)%Z ->
  forall fuel i acc,
    (i < Z.of_nat (length a))%Z -> slices fuel a size i acc = None.
Proof.
  intros Hsize. induction fuel as [| fuel IH]; intros i acc Hi; simpl;
    destruct (Z.ltb_spec i (Z.of_nat (length a))); try lia; [reflexivity |].
  apply IH. lia.
Qed.

Lemma collectValid_nonempty :
  forall texts i0,
    (exists t, In t texts /\ nonBlank t = true) ->
    collectValid texts i0 <> [].
Proof.
  induction texts as [| t texts IH]; intros i0 [x [Hin Hx]]; [contradiction |].
  simpl. destruct (nonBlank t) eqn:Ht; [discriminate |].
  apply IH. destruct Hin as [-> | Hin]; [congruence |]. eauto.
Qed.

(** X25: a batch size that is not positive.  With [batchSize <= 0]
    the loop that cuts the texts into batches does not advance: when
    one of the texts is not blank, [batchGenerateEmbeddings] does not
    return, whatever the fuel, and has made no request. *)
Theorem nonpositive_batch_size_never_returns :
  forall fuel texts options (w : world number) h,
    (orDefault (batchSize options) 100 <= 0)%Z ->
    (exists t, In t texts /\ nonBlank t = true) ->
    batchGenerateEmbeddings fuel texts options w h = (Hang, h).
Proof.
  intros fuel texts options w h Hsize Hsome.
  unfold batchGenerateEmbeddings.
  destruct texts as [| t0 texts0] eqn:Et;
    [destruct Hsome as [t [[] _]] |].
  rewrite <- Et in *. clear Et t0 texts0.
  pose proof (collectValid_nonempty texts 0 Hsome) as Hvalid.
  rewrite (slices_loops _ _ Hsize); [reflexivity |].
  destruct (collectValid texts 0); [congruence | simpl; lia].
Qed.

End BatchSizes.

Lemma nonpositive_batch_size_never_returns_witness :
  Embeddings.batchGenerateEmbeddings 1000 someTexts
    {| Embeddings.batchSize := Some 0%Z; Embeddings.concurrency := None;
       Embeddings.onProgress := false |} servingWorld []
  = (Hang, []).
Proof.
  apply (@nonpositive_batch_size_never_returns nat).
  - discriminate.
  - exists (lit "alpha"). split; [left; reflexivity | reflexivity].
Defined.

(** ** The number of vectors of a batch *)

Section BatchLengths.
Import Embeddings.
Context {number : Type}.
Variable w : world number.

(** The slices of a loop that ends are the array, cut. *)
Lemma slices_concat_inv {A} (a : list A) size :
  forall fuel i acc result,
    (0 <= i)%Z ->
    concat acc = firstn (Z.to_nat i) a ->
    slices fuel a size i acc = Some result ->
    concat result = a.
Proof.
  induction fuel as [| fuel IH]; intros i acc result Hi Hacc H; simpl in H;
    destruct (Z.ltb_spec i (Z.of_nat (length a))) as [Hlt | Hge];
    try discriminate.
  - inversion H; subst. rewrite Hacc. apply firstn_all2. lia.
  - destruct (Z.leb_spec size 0) as [Hs | Hs].
    + rewrite (slices_loops a size Hs) in H by lia. discriminate.
    + apply (IH (i + size)%Z _ _) in H; [exact H | lia |].
      rewrite concat_app, Hacc. simpl. rewrite app_nil_r.
      unfold slice, relIndex.
      destruct (Z.ltb_spec i 0), (Z.ltb_spec (i + size) 0); try lia.
      rewrite (Z.min_l i) by lia.
      replace (Z.to_nat (i + size)) with (Z.to_nat i + Z.to_nat size) by lia.
      rewrite firstn_plus. f_equal.
      rewrite <- (firstn_min (skipn (Z.to_nat i) a) (Z.to_nat size)).
      f_equal. rewrite length_skipn. lia.
  - inversion H; subst. rewrite Hacc. apply firstn_all2. lia.
Qed.

Lemma Forall2_setSlot {A} (P : M number A -> option A -> Prop) r :
  forall tasks slots j task,
    Forall2 P tasks slots ->
    nth_error tasks j = Some task ->
    P task (Some r) ->
    Forall2 P tasks (setSlot j r slots).
Proof.
  intros tasks slots j task H. revert j.
  induction H as [| t s tasks slots Hts Hrest IH]; intros j Hj Hr;
    [destruct j; constructor |].
  destruct j as [| j]; simpl in *.
  - inversion Hj; subst. constructor; assumption.
  - constructor; [assumption | apply IH; assumption].
Qed.

(** Every slot that is filled holds a value that its task returned. *)
Lemma runScheduled_ok_inv {A} (tasks : list (M number A)) :
  forall sched slots h slots' h',
    Forall2 (fun task slot =>
               forall r, slot = Some r ->
                         exists h1 h2, task w h1 = (Ok r, h2)) tasks slots ->
    runScheduled sched tasks slots w h = (Ok slots', h') ->
    Forall2 (fun task slot =>
               forall r, slot = Some r ->
                         exists h1 h2, task w h1 = (Ok r, h2)) tasks slots'.
Proof.
  induction sched as [| j later IH]; intros slots h slots' h' Hinv H.
  - apply run_ok_inv in H. destruct H as [<- _]. exact Hinv.
  - cbn [runScheduled] in H.
    destruct (nth_error tasks j) as [task |] eqn:Et;
      [| exact (IH _ _ _ _ Hinv H)].
    destruct (nth_error slots j) as [[x |] |] eqn:Es;
      try exact (IH _ _ _ _ Hinv H).
    apply bind_inv_ok in H. destruct H as [r [h1 [Htask H]]].
    apply (IH _ _ _ _) in H; [exact H |].
    apply (Forall2_setSlot _ r tasks slots j task Hinv Et).
    intros r' Hr'. inversion Hr'; subst. exists h, h1. exact Htask.
Qed.

Lemma allSettled_inv {A} :
  forall (slots : list (option A)) results,
    allSettled slots = Some results -> slots = map Some results.
Proof.
  induction slots as [| [a |] slots IH]; intros results H; simpl in H;
    try discriminate.
  - inversion H. reflexivity.
  - destruct (allSettled slots) as [l |]; [| discriminate].
    inversion H; subst. simpl. f_equal. apply IH. reflexivity.
Qed.

(** When [Promise.all] returns, each result was returned by the task at
    its position. *)
Lemma promiseAll_ok_inv {A} (tasks : list (M number A)) h results h' :
  promiseAll tasks w h = (Ok results, h') ->
  Forall2 (fun task r => exists h1 h2, task w h1 = (Ok r, h2)) tasks results.
Proof.
  unfold promiseAll. unfold bind at 1 2. unfold env, past. intros H.
  apply bind_inv_ok in H. destruct H as [slots [h1 [Hrun H]]].
  apply runScheduled_ok_inv in Hrun.
  - destruct (allSettled slots) as [l |] eqn:Es; [| discriminate].
    apply run_ok_inv in H. destruct H as [-> _].
    apply allSettled_inv in Es. subst slots.
    clear - Hrun. revert results Hrun.
    induction tasks as [| t tasks IH]; intros results H;
      destruct results as [| r results]; simpl in H; inversion H; subst;
      constructor; auto.
  - clear. induction tasks as [| t tasks IH]; simpl; constructor;
      [discriminate | exact IH].
Qed.

Lemma attachIndices_length :
  forall items rows h (result : list (@indexedEmbedding number)) h',
    attachIndices items rows w h = (Ok result, h') ->
    length result = length items.
Proof.
  induction items as [| item items IH]; intros rows h result h' H.
  - apply run_ok_inv in H. destruct H as [<- _]. reflexivity.
  - destruct rows as [| row rows]; [discriminate |].
    cbn [attachIndices] in H. apply bind_inv_ok in H.
    destruct H as [more [h1 [Hmore H]]].
    apply run_ok_inv in H. destruct H as [<- _]. simpl. f_equal.
    exact (IH _ _ _ _ Hmore).
Qed.

(** A batch that is embedded gives one vector per text, whether the
    batch call succeeded or each text was embedded on its own. *)
Lemma embedBatch_length batch h (result : list (@indexedEmbedding number)) h' :
  embedBatch batch w h = (Ok result, h') -> length result = length batch.
Proof.
  unfold embedBatch, tryCatch.
  match goal with |- context [match ?m w h with _ => _ end] =>
    destruct (m w h) as [[a | e |] h1] eqn:E end; intros H.
  - apply run_ok_inv in H. destruct H as [-> _].
    apply bind_inv_ok in E. destruct E as [_ [h2 [_ E]]].
    apply bind_inv_ok in E. destruct E as [data [h3 [_ E]]].
    exact (attachIndices_length _ _ _ _ _ E).
  - apply promiseAll_ok_inv in H. apply Forall2_length in H.
    rewrite length_map in H. symmetry. exact H.
  - discriminate.
Qed.

Lemma group_length :
  forall (batchGroup : list (list indexedText))
         (batchResults : list (list (@indexedEmbedding number))),
    Forall2 (fun task r => exists h1 h2, task w h1 = (Ok r, h2))
      (map embedBatch batchGroup) batchResults ->
    length (concat batchResults) = length (concat batchGroup).
Proof.
  induction batchGroup as [| batch batchGroup IH]; intros batchResults H;
    inversion H as [| t r ts rs [h1 [h2 Hr]] Hrest]; subst; [reflexivity |].
  simpl. rewrite !length_app. rewrite (embedBatch_length _ _ _ _ Hr).
  f_equal. apply IH. exact Hrest.
Qed.

Lemma processGroups_length report total :
  forall groups completed acc h (result : list (@indexedEmbedding number)) h',
    processGroups groups report total completed acc w h = (Ok result, h') ->
    length result = length acc + length (concat (concat groups)).
Proof.
  induction groups as [| batchGroup later IH];
    intros completed acc h result h' H.
  - apply run_ok_inv in H. destruct H as [<- _]. simpl. lia.
  - cbn [processGroups] in H. apply bind_inv_ok in H.
    destruct H as [batchResults [h1 [Hall H]]].
    apply bind_inv_ok in H. destruct H as [_ [h2 [_ H]]].
    apply IH in H. rewrite H. cbn [concat].
    rewrite concat_app, !length_app.
    apply promiseAll_ok_inv in Hall. rewrite (group_length _ _ Hall). lia.
Qed.

Lemma insertByIndex_length (x : @indexedEmbedding number) l :
  length (insertByIndex x l) = S (length l).
Proof.
  induction l as [| y l IH]; simpl; [reflexivity |].
  destruct (_ <=? 0)%Z; simpl; [rewrite IH |]; reflexivity.
Qed.

Lemma sortByIndex_length (l : list (@indexedEmbedding number)) :
  length (sortByIndex l) = length l.
Proof.
  unfold sortByIndex.
  assert (H : forall acc,
             length (fold_left (fun sorted x => insertByIndex x sorted) l acc)
             = length l + length acc).
  { induction l as [| x l IH]; intros acc; simpl; [reflexivity |].
    rewrite IH, insertByIndex_length. lia. }
  rewrite H. simpl. lia.
Qed.

(** X26: one vector per text that is not blank.  Whatever the provider
    answers and in whatever order the concurrent calls settle, when
    [batchGenerateEmbeddings] returns, the array it returns has as many
    vectors as there are texts that are not blank: with a blank text in
    the input it is shorter than the input, and the vector at a position
    is not that of the text at that position. *)
Theorem batch_embeddings_one_per_nonblank_text :
  forall fuel texts options h embeddings h',
    batchGenerateEmbeddings fuel texts options w h = (Ok embeddings, h') ->
    length embeddings = length (filter nonBlank texts).
Proof.
  intros fuel texts options h embeddings h' H.
  unfold batchGenerateEmbeddings in H.
  destruct texts as [| t0 texts0] eqn:Et.
  { apply run_ok_inv in H. destruct H as [<- _]. reflexivity. }
  rewrite <- Et in *. clear Et t0 texts0.
  destruct (slices fuel (collectValid texts 0) _ 0 []) as [batches |] eqn:Eb;
    [| discriminate].
  destruct (slices fuel batches _ 0 []) as [groups |] eqn:Eg;
    [| discriminate].
  apply slices_concat_inv in Eb; [| lia | reflexivity].
  apply slices_concat_inv in Eg; [| lia | reflexivity].
  apply bind_inv_ok in H. destruct H as [allEmbeddings [h1 [Hrun H]]].
  apply run_ok_inv in H. destruct H as [<- _].
  apply processGroups_length in Hrun.
  rewrite length_map, sortByIndex_length, Hrun, Eg, Eb.
  rewrite <- (collectValid_texts texts 0), length_map. reflexivity.
Qed.

End BatchLengths.

(** Five texts of which two are blank give three vectors, here in a
    world that rejects the batch calls. *)
Lemma batch_embeddings_one_per_nonblank_text_witness :
  fst (Embeddings.batchGenerateEmbeddings 10 someTexts
         {| Embeddings.batchSize := Some 2%Z; Embeddings.concurrency := None;
            Embeddings.onProgress := false |} flakyWorld [])
  = Ok [[5]; [2]; [3]]
  /\ length [[5]; [2]; [3]] = length (filter nonBlank someTexts)
  /\ length someTexts = 5.
Proof.
  split; [reflexivity |]. split; [| reflexivity].
  apply (batch_embeddings_one_per_nonblank_text flakyWorld 10 someTexts
           {| Embeddings.batchSize := Some 2%Z;
              Embeddings.concurrency := None;
              Embeddings.onProgress := false |} [] [[5]; [2]; [3]]
           (snd (Embeddings.batchGenerateEmbeddings 10 someTexts
                   {| Embeddings.batchSize := Some 2%Z;
                      Embeddings.concurrency := None;
                      Embeddings.onProgress := false |} flakyWorld []))).
  reflexivity.
Defined.

(** ** The fallback of the summarizer on every path *)

Section SummarizerFallback.
Import Summarizer.
Context {number : Type}.
Variable temperature03 : number.

Lemma summarizeText_rejected (w : world number) text maxTokens h :
  alwaysRejects w (summaryRequest temperature03 text maxTokens) ->
  exists e, summarizeText temperature03 text maxTokens w h
            = (Throw e, h ++ [summaryRequest temperature03 text maxTokens]).
Proof.
  intros Hrej. destruct (Hrej h) as [e He].
  exists e. unfold summarizeText, bind, call.
  fold (summaryRequest temperature03 text maxTokens). rewrite He. reflexivity.
Qed.

(** [Promise.all] rejects when one of its promises is bound to reject. *)
Lemma promiseAll_rejects {A} (tasks : list (M number A)) (w : world number) h bad :
  In bad tasks ->
  (forall h0, exists e h1, bad w h0 = (Throw e, h1)) ->
  Forall settles tasks ->
  exists e h1, promiseAll tasks w h = (Throw e, h1).
Proof.
  intros Hin Hbad Hsettle.
  pose proof (settles_promiseAll tasks Hsettle w h) as Hs.
  destruct (promiseAll tasks w h) as [[results | e |] h1] eqn:E.
  - exfalso. apply promiseAll_ok_inv in E.
    clear - E Hin Hbad. induction E as [| t r ts rs [h1 [h2 Hr]] _ IH];
      [contradiction |].
    destruct Hin as [-> | Hin]; [| exact (IH Hin)].
    destruct (Hbad h1) as [e [h3 Hthrow]]. congruence.
  - eauto.
  - simpl in Hs. congruence.
Qed.

(** The two stages throw when the model rejects the request for one of
    the chunks, or the request that condenses the summaries. *)
Lemma twoStageSummarization_throws (w : world number) fuel text maxOutputTokens h chunks :
  chunkText fuel text stageConfig = Some chunks ->
  (exists chunk, In chunk chunks
                 /\ alwaysRejects w (summaryRequest temperature03 chunk 500))
  \/ (forall merged,
        alwaysRejects w (summaryRequest temperature03 merged maxOutputTokens)) ->
  exists e h1,
    twoStageSummarization temperature03 fuel text maxOutputTokens w h
    = (Throw e, h1).
Proof.
  intros Hc Hrej. unfold twoStageSummarization. fold stageConfig. rewrite Hc.
  set (tasks := map (fun chunk => summarizeText temperature03 chunk 500) chunks).
  assert (Hsettle : Forall settles tasks).
  { apply Forall_forall. intros t Ht. apply in_map_iff in Ht.
    destruct Ht as [chunk [<- _]]. apply settles_summarizeText. }
  unfold bind at 1.
  destruct Hrej as [[chunk [Hin Hrej]] | Hrej].
  - destruct (promiseAll_rejects tasks w h
                (summarizeText temperature03 chunk 500)) as [e [h1 E]].
    + apply in_map_iff. exists chunk. split; [reflexivity | exact Hin].
    + intros h0. destruct (summarizeText_rejected w chunk 500 h0 Hrej)
        as [e He]. eauto.
    + exact Hsettle.
    + rewrite E. eauto.
  - pose proof (settles_promiseAll tasks Hsettle w h) as Hs.
    destruct (promiseAll tasks w h) as [[summaries | e |] h1] eqn:E.
    + destruct (summarizeText_rejected w (join [NL; NL] summaries)
                  maxOutputTokens h1 (Hrej _)) as [e He].
      unfold bind. rewrite He. eauto.
    + eauto.
    + simpl in Hs. congruence.
Qed.

(** C5: when the calls to the summarization model fail,
    [summarizeChatMessage] returns the hard truncation of the message:
    the first 21,000 characters, cut back to the last period when it
    lies beyond position 16,800, otherwise with an ellipsis appended.
    The [catch] turns every error of the attempt into that result
    (first part), and a model that fails makes the attempt throw on
    each path: on the single pass (6,000 < tokens <= 20,000) when the
    model rejects its request (second part), and on the two stages
    (tokens > 20,000) when the model rejects the request for one of the
    chunks (fifth part) or the request that condenses the summaries
    (sixth part); so for every message over 6,000 tokens a model that
    rejects every request gives the truncation (last part).  On no
    message, world or history does [summarizeChatMessage] throw, and
    with enough fuel it returns. *)
Theorem summarization_failure_falls_back :
  forall fuel message maxOutputTokens (w : world number) h,
    (forall e h1,
       (estimateTokens message > 6000)%Z ->
       summarizationAttempt temperature03 fuel message
         (orDefault maxOutputTokens 2000%Z) w h = (Throw e, h1) ->
       summarizeChatMessage temperature03 fuel message maxOutputTokens w h
       = (Ok {| summary := hardTruncation message;
                originalTokens := estimateTokens message;
                summaryTokens := estimateTokens (hardTruncation message) |},
          h1))
    /\ (forall e prompt,
          (6000 < estimateTokens message <= 20000)%Z ->
          prompt = ChatCreate (lit "gpt-4o-mini")
                     [ {| msg_role := System; msg_content := summarizerPrompt |};
                       {| msg_role := User; msg_content := message |} ]
                     temperature03 (orDefault maxOutputTokens 2000%Z) false ->
          answer w h prompt = Failed e ->
          summarizeChatMessage temperature03 fuel message maxOutputTokens w h
          = (Ok {| summary := hardTruncation message;
                   originalTokens := estimateTokens message;
                   summaryTokens := estimateTokens (hardTruncation message) |},
             h ++ [prompt]))
    /\ (forall e h1,
          summarizeChatMessage temperature03 fuel message maxOutputTokens w h
          <> (Throw e, h1))
    /\ (enoughFuel message <= fuel ->
        exists s h1,
          summarizeChatMessage temperature03 fuel message maxOutputTokens w h
          = (Ok s, h1))
    /\ (forall chunks chunk,
          (estimateTokens message > 20000)%Z ->
          chunkText fuel message stageConfig = Some chunks ->
          In chunk chunks ->
          alwaysRejects w (summaryRequest temperature03 chunk 500) ->
          exists h1,
            summarizeChatMessage temperature03 fuel message maxOutputTokens w h
            = (Ok {| summary := hardTruncation message;
                     originalTokens := estimateTokens message;
                     summaryTokens :=
                       estimateTokens (hardTruncation message) |}, h1))
    /\ ((estimateTokens message > 20000)%Z ->
        enoughFuel message <= fuel ->
        (forall merged,
           alwaysRejects w
             (summaryRequest temperature03 merged
                (orDefault maxOutputTokens 2000%Z))) ->
        exists h1,
          summarizeChatMessage temperature03 fuel message maxOutputTokens w h
          = (Ok {| summary := hardTruncation message;
                   originalTokens := estimateTokens message;
                   summaryTokens :=
                     estimateTokens (hardTruncation message) |}, h1))
    /\ ((estimateTokens message > 6000)%Z ->
        enoughFuel message <= fuel ->
        (forall r, isChatCreate r -> alwaysRejects w r) ->
        exists h1,
          summarizeChatMessage temperature03 fuel message maxOutputTokens w h
          = (Ok {| summary := hardTruncation message;
                   originalTokens := estimateTokens message;
                   summaryTokens :=
                     estimateTokens (hardTruncation message) |}, h1)).
Proof.
  intros fuel message maxOutputTokens w h.
  destruct (summarizeChatMessage_catches temperature03 fuel message
              maxOutputTokens w h) as [Hcatch [Hsingle [Hnever Hreturns]]].
  assert (Hstages : forall chunks,
    (estimateTokens message > 20000)%Z ->
    chunkText fuel message stageConfig = Some chunks ->
    (exists chunk, In chunk chunks
                   /\ alwaysRejects w (summaryRequest temperature03 chunk 500))
    \/ (forall merged,
          alwaysRejects w
            (summaryRequest temperature03 merged
               (orDefault maxOutputTokens 2000%Z))) ->
    exists h1,
      summarizeChatMessage temperature03 fuel message maxOutputTokens w h
      = (Ok {| summary := hardTruncation message;
               originalTokens := estimateTokens message;
               summaryTokens := estimateTokens (hardTruncation message) |},
         h1)).
  { intros chunks Hlong Hc Hrej.
    destruct (twoStageSummarization_throws w fuel message
                (orDefault maxOutputTokens 2000%Z) h chunks Hc Hrej)
      as [e [h1 Hthrow]].
    exists h1. apply (Hcatch e); [lia |].
    unfold summarizationAttempt.
    destruct (Z.gtb_spec (estimateTokens message) 20000); [exact Hthrow | lia]. }
  assert (Hchunks : enoughFuel message <= fuel ->
                    exists chunks, chunkText fuel message stageConfig = Some chunks).
  { intros Hfuel. apply chunkText_returns; [vm_compute; reflexivity | exact Hfuel]. }
  split; [exact Hcatch |]. split; [exact Hsingle |].
  split; [exact Hnever |]. split; [exact Hreturns |].
  split; [| split].
  - intros chunks chunk Hlong Hc Hin Hrej.
    apply (Hstages chunks Hlong Hc). left. exists chunk. split; assumption.
  - intros Hlong Hfuel Hrej. destruct (Hchunks Hfuel) as [chunks Hc].
    apply (Hstages chunks Hlong Hc). right. exact Hrej.
  - intros Hlong Hfuel Hdown.
    destruct (Z.leb_spec (estimateTokens message) 20000) as [Hmid | Hbig].
    + destruct (Hdown (summaryRequest temperature03 message
                         (orDefault maxOutputTokens 2000%Z)) I h) as [e He].
      eexists.
      apply (Hsingle e (summaryRequest temperature03 message
                          (orDefault maxOutputTokens 2000%Z)));
        [lia | reflexivity | exact He].
    + destruct (Hchunks Hfuel) as [chunks Hc].
      apply (Hstages chunks); [lia | exact Hc |]. right.
      intros merged. apply Hdown. exact I.
Qed.

End SummarizerFallback.

(** The fallback when the model rejects every request: on the single
    pass, for a message of 6,001 estimated tokens, and on the two
    stages, for a message of 20,001; both give the first 21,000
    characters and an ellipsis. *)
Lemma summarization_failure_falls_back_witness :
  Summarizer.summarizeChatMessage 3%nat 0 longMessage None failingModelWorld []
  = (Ok {| Summarizer.summary := hardTruncation longMessage;
           Summarizer.originalTokens := estimateTokens longMessage;
           Summarizer.summaryTokens :=
             estimateTokens (hardTruncation longMessage) |},
     [] ++ [longMessagePrompt])
  /\ (exists s h1,
        Summarizer.summarizeChatMessage 3%nat (enoughFuel longMessage)
          longMessage None failingModelWorld [] = (Ok s, h1))
  /\ str_eqb (hardTruncation longMessage)
       (repeat (ch "a") (Z.to_nat 21000) ++ lit "...") = true
  /\ (estimateTokens veryLongMessage > 20000)%Z
  /\ (exists h1,
        Summarizer.summarizeChatMessage 3%nat (enoughFuel veryLongMessage)
          veryLongMessage None failingModelWorld []
        = (Ok {| Summarizer.summary := hardTruncation veryLongMessage;
                 Summarizer.originalTokens := estimateTokens veryLongMessage;
                 Summarizer.summaryTokens :=
                   estimateTokens (hardTruncation veryLongMessage) |}, h1))
  /\ str_eqb (hardTruncation veryLongMessage)
       (repeat (ch "a") (Z.to_nat 21000) ++ lit "...") = true.
Proof.
  split; [| split; [| split; [| split; [| split]]]].
  - apply (proj1 (proj2 (summarization_failure_falls_back 3%nat 0 longMessage
                           None failingModelWorld []))
             (lit "503") longMessagePrompt).
    + vm_compute. split; [reflexivity | discriminate].
    + reflexivity.
    + reflexivity.
  - apply (proj1 (proj2 (proj2 (proj2 (summarization_failure_falls_back 3%nat
                                  (enoughFuel longMessage) longMessage
                                  None failingModelWorld []))))).
    apply le_n.
  - vm_compute. reflexivity.
  - vm_compute. reflexivity.
  - apply (proj2 (proj2 (proj2 (proj2 (proj2 (proj2
             (summarization_failure_falls_back 3%nat
                (enoughFuel veryLongMessage) veryLongMessage
                None failingModelWorld []))))))).
    + vm_compute. reflexivity.
    + apply le_n.
    + intros r _ h0. exists (lit "503"). reflexivity.
  - vm_compute. reflexivity.
Defined.

(** ** The ingestion of a batch returns *)

Section IngestReturns.
Import Pinecone Embeddings Ingest.
Context {number : Type}.
Variable w : world number.
Hypothesis key_set : pineconeKeySet w.
Variable embed : jsstring -> vector number.
Hypothesis provider : providerComputes w embed.
Hypothesis index_accepts : indexAccepts w.

Lemma prepareArticle_returns fuel row :
  enoughFuel (articleText row) <= fuel ->
  exists prepared,
    prepareArticle fuel (a_id row) (a_title row) (a_url row) (a_content row)
      emptyConfig
    = Some prepared.
Proof.
  intros Hfuel. unfold prepareArticle.
  destruct (chunkText_returns (articleText row) emptyConfig fuel)
    as [chunks Hc]; [vm_compute; reflexivity | exact Hfuel |].
  unfold articleText in Hc. rewrite Hc. eauto.
Qed.

Lemma prepareArticle_mono fuel fuel' id title url content config prepared :
  prepareArticle fuel id title url content config = Some prepared ->
  fuel <= fuel' ->
  prepareArticle fuel' id title url content config = Some prepared.
Proof.
  unfold prepareArticle. intros H Hle.
  destruct (chunkText fuel _ config) as [chunks |] eqn:Hc; [| discriminate].
  rewrite (chunkText_mono _ _ _ _ _ Hc Hle). exact H.
Qed.

(** With default chunks the loop over the rows of a batch returns. *)
Lemma collect_returns fuel :
  forall rows acc,
    preparationFuel rows <= fuel ->
    exists collected, collect fuel rows acc = Some collected.
Proof.
  induction rows as [| row more IH]; intros acc Hfuel; [simpl; eauto |].
  unfold preparationFuel in Hfuel. cbn [map list_max fold_right] in Hfuel.
  assert (Hrow : enoughFuel (articleText row) <= fuel) by lia.
  assert (Hmore : preparationFuel more <= fuel)
    by (unfold preparationFuel, list_max; lia).
  cbn [collect].
  destruct (negb (nonEmpty (a_id row)) || negb (nonEmpty (a_title row))
            || negb (nonEmpty (a_content row))); [apply IH; exact Hmore |].
  destruct (prepareArticle_returns fuel row Hrow) as [prepared ->].
  apply IH. exact Hmore.
Qed.

Lemma collect_mono fuel fuel' :
  fuel <= fuel' ->
  forall rows acc collected,
    collect fuel rows acc = Some collected ->
    collect fuel' rows acc = Some collected.
Proof.
  intros Hle. induction rows as [| row more IH]; intros acc collected H;
    [exact H |].
  cbn [collect] in *.
  destruct (negb (nonEmpty (a_id row)) || negb (nonEmpty (a_title row))
            || negb (nonEmpty (a_content row))); [apply IH; exact H |].
  destruct (prepareArticle fuel _ _ _ _ _) as [prepared |] eqn:Hp;
    [| discriminate].
  rewrite (prepareArticle_mono _ _ _ _ _ _ _ _ Hp Hle). apply IH. exact H.
Qed.

(** X18: the ingestion of a batch of rows returns, and every chunk is
    written with the vector of its own text.  With the fuel of
    [ingestFuel], the loop over the rows returns a collection in which
    each row is counted once, as processed or as an error.  When it
    holds no chunk, the batch is answered without any request.
    Otherwise, when the provider of embeddings computes [embed] (a
    batch call may fail as a whole), the key of the index is set and
    the index accepts the upserts, the records written are those of the
    chunks collected, in order: each with the identifier of its chunk,
    the metadata of its chunk and, as values, the vector of the text of
    that very chunk; the counts of embeddings and of vectors are the
    number of chunks. *)
Theorem ingest_embeds_every_chunk :
  forall fuel batchArticles h,
    ingestFuel batchArticles <= fuel ->
    exists collected,
      collect fuel batchArticles nothingCollected = Some collected
      /\ map m_content (chunkToVectorMap collected) = allChunkTexts collected
      /\ chunksGenerated (stats collected)
         = Z.of_nat (length (chunkToVectorMap collected))
      /\ (articlesProcessed (stats collected) + errors (stats collected)
          = Z.of_nat (length batchArticles))%Z
      /\ (allChunkTexts collected = [] ->
          ingestBatch fuel batchArticles w h
          = (Ok (NoValidChunks (stats collected)), h))
      /\ (allChunkTexts collected <> [] ->
          exists h' st,
            ingestBatch fuel batchArticles w h = (Ok (Processed st), h')
            /\ upserted h'
               = upserted h ++ map (recordOf embed) (chunkToVectorMap collected)
            /\ embeddingsCreated st = chunksGenerated st
            /\ vectorsUpserted st = chunksGenerated st
            /\ chunksGenerated st = chunksGenerated (stats collected)
            /\ articlesProcessed st = articlesProcessed (stats collected)
            /\ errors st = errors (stats collected)).
Proof.
  intros fuel batchArticles h Hfuel.
  destruct (collect_returns (preparationFuel batchArticles) batchArticles
              nothingCollected (le_n _)) as [collected Hc0].
  unfold ingestFuel in Hfuel. cbv zeta in Hfuel. rewrite Hc0 in Hfuel.
  assert (Hc : collect fuel batchArticles nothingCollected = Some collected)
    by (apply (collect_mono (preparationFuel batchArticles)); [lia | exact Hc0]).
  destruct (collect_aligned fuel _ _ _ Hc) as [Htexts [Hblank [Hcount Hrows]]];
    [reflexivity | constructor | reflexivity |].
  exists collected. split; [exact Hc |].
  split; [symmetry; exact Htexts |].
  split; [rewrite Hcount, Htexts, length_map; reflexivity |].
  split; [rewrite Hrows; simpl; lia |].
  split.
  - intros Hnone. unfold ingestBatch. fold nothingCollected.
    rewrite Hc, Hnone. reflexivity.
  - intros Hsome.
    destruct (ingestBatch_writes_collected w key_set embed provider
                index_accepts fuel batchArticles collected h Hc Hsome)
      as [h' [st [Hrun [Hup [_ [Hemb [Hvec [Hgen _]]]]]]]]; [lia |].
    exists h', st. split; [exact Hrun |]. split; [exact Hup |].
    split; [exact Hemb |]. split; [exact Hvec |].
    unfold ingestBatch in Hrun. fold nothingCollected in Hrun.
    rewrite Hc in Hrun.
    destruct (allChunkTexts collected) as [| t ts]; [congruence |].
    apply bind_inv_ok in Hrun. destruct Hrun as [embs [h1 [_ Hrun]]].
    apply bind_inv_ok in Hrun. destruct Hrun as [vecs [h2 [_ Hrun]]].
    apply bind_inv_ok in Hrun. destruct Hrun as [u [h3 [_ Hrun]]].
    apply run_ok_inv in Hrun. destruct Hrun as [Hst _].
    inversion Hst; subst st. cbn. repeat split; reflexivity.
Qed.

End IngestReturns.

(** A batch of two rows, of which the first has no title: it is counted
    as an error, and the chunk of the second is written with the vector
    of its text (here the length of the text). *)
Lemma ingest_embeds_every_chunk_witness :
  ingestFuel [untitledArticle; article7] = 37
  /\ exists h' st,
       Ingest.ingestBatch 37 [untitledArticle; article7] servingWorld []
       = (Ok (Ingest.Processed st), h')
       /\ upserted h'
          = [ {| id := lit "article-7-chunk-0";
                 values := [17];
                 metadata :=
                   {| title := lit "Grit";
                      url := lit "https://aom.example/grit";
                      content := lit "Grit" ++ [NL; NL] ++ lit "Keep going.";
                      chunkIndex := 0;
                      articleId := lit "7" |} |} ]
       /\ Ingest.articlesProcessed st = 1%Z
       /\ Ingest.errors st = 1%Z.
Proof.
  split; [vm_compute; reflexivity |].
  destruct (ingest_embeds_every_chunk servingWorld
              (ex_intro _ 107%N (ex_intro _ (lit "ey") eq_refl))
              (fun t => [length t])
              (conj (ex_intro _ 107%N (ex_intro _ (lit "ey") eq_refl))
                 (conj (fun _ _ => eq_refl) (fun _ _ => or_introl eq_refl)))
              ltac:(intros h b e; discriminate)
              37 [untitledArticle; article7] [])
    as [collected [Hc [_ [_ [_ [_ Hsome]]]]]].
  - vm_compute. repeat constructor.
  - assert (Hv : Ingest.collect 37 [untitledArticle; article7] nothingCollected
                 = Some
                     {| Ingest.stats :=
                          {| Ingest.articlesProcessed := 1;
                             Ingest.chunksGenerated := 1;
                             Ingest.embeddingsCreated := 0;
                             Ingest.vectorsUpserted := 0;
                             Ingest.totalTokens := 5;
                             Ingest.errors := 1 |};
                        Ingest.allChunkTexts :=
                          [lit "Grit" ++ [NL; NL] ++ lit "Keep going."];
                        Ingest.chunkToVectorMap :=
                          [ {| Ingest.m_articleId := lit "7";
                               Ingest.m_title := lit "Grit";
                               Ingest.m_url := lit "https://aom.example/grit";
                               Ingest.m_chunkIndex := 0;
                               Ingest.m_content :=
                                 lit "Grit" ++ [NL; NL] ++ lit "Keep going." |} ] |})
      by (vm_compute; reflexivity).
    rewrite Hv in Hc. injection Hc as <-.
    destruct Hsome as [h' [st [Hrun [Hup [_ [_ [_ [Hp He]]]]]]]];
      [discriminate |].
    exists h', st. split; [exact Hrun |]. split; [exact Hup |].
    split; [exact Hp | exact He].
Defined.

(** ** The overlap of consecutive chunks, on every path *)

Section ChunkSegments.

(** *** Stretches and oversized sentences *)

Lemma groupLoop_app maxT ov :
  forall a b closed current tokens,
    groupLoop (a ++ b) maxT ov closed current tokens
    = match groupLoop a maxT ov closed current tokens with
      | (closed', current', tokens') =>
          groupLoop b maxT ov closed' current' tokens'
      end.
Proof.
  induction a as [| s a IH]; intros b closed current tokens; [reflexivity |].
  cbn [app groupLoop].
  destruct ((tokens + estimateTokens s >? maxT)%Z && nonEmpty current);
    apply IH.
Qed.

(** The open group is empty before the first sentence only. *)
Lemma groupLoop_current maxT ov :
  forall sentences closed current tokens closed' current' tokens',
    groupLoop sentences maxT ov closed current tokens
    = (closed', current', tokens') ->
    sentences <> [] \/ current <> [] -> current' <> [].
Proof.
  induction sentences as [| s more IH];
    intros closed current tokens closed' current' tokens' H Hne.
  - inversion H; subst. destruct Hne as [Hne | Hne]; congruence.
  - cbn [groupLoop] in H.
    destruct ((tokens + estimateTokens s >? maxT)%Z && nonEmpty current);
      (eapply IH; [exact H |]; right; intros E;
       apply app_eq_nil in E; destruct E; discriminate).
Qed.

Lemma groupLoop_start maxT ov stretch closed tokens :
  groupLoop stretch maxT ov [] [] 0 = (closed, [], tokens) ->
  closed = [] /\ tokens = 0%Z.
Proof.
  intros H. destruct stretch as [| s stretch].
  - inversion H. auto.
  - exfalso.
    apply (groupLoop_current maxT ov _ _ _ _ _ _ _ H); [| reflexivity].
    left. discriminate.
Qed.

Lemma sentenceLoop_segments fuel maxT ov :
  forall sentences stretch pre closed current tokens,
    groupLoop stretch maxT ov [] [] 0 = (closed, current, tokens) ->
    option_map finished
      (sentenceLoop fuel sentences maxT ov
         (LoopState (pre ++ map (join SPACE) closed) current tokens))
    = option_map (app pre)
        (chunksOfSegments fuel maxT ov (segmentsOf maxT sentences stretch)).
Proof.
  induction sentences as [| s more IH];
    intros stretch pre closed current tokens Hloop.
  - cbn [sentenceLoop segmentsOf chunksOfSegments chunksOf option_map].
    unfold finished, sentenceGroups. rewrite Hloop.
    cbn [currentChunk TextProcessing.chunks]. f_equal.
    rewrite app_nil_r.
    destruct (nonEmpty current); [rewrite map_app, app_assoc |]; reflexivity.
  - cbn [sentenceLoop segmentsOf].
    destruct (estimateTokens s >? maxT)%Z.
    + cbn [chunksOfSegments chunksOf].
      destruct (chunkByWords fuel s maxT ov) as [wordChunks |];
        [| reflexivity].
      cbn [currentChunk TextProcessing.chunks currentTokens].
      assert (Hgroups :
        map (join SPACE) (sentenceGroups stretch maxT ov)
        = if nonEmpty current
          then map (join SPACE) closed ++ [join SPACE current]
          else map (join SPACE) closed).
      { unfold sentenceGroups. rewrite Hloop.
        destruct (nonEmpty current); [rewrite map_app |]; reflexivity. }
      assert (Hnext :
        option_map finished
          (sentenceLoop fuel more maxT ov
             (LoopState
                ((pre ++ map (join SPACE) (sentenceGroups stretch maxT ov)
                  ++ wordChunks) ++ map (join SPACE) []) [] 0))
        = option_map
            (app (pre ++ map (join SPACE) (sentenceGroups stretch maxT ov)
                  ++ wordChunks))
            (chunksOfSegments fuel maxT ov (segmentsOf maxT more [])))
        by (apply IH; reflexivity).
      cbn [map] in Hnext. rewrite app_nil_r in Hnext.
      destruct current as [| c current].
      * destruct (groupLoop_start maxT ov stretch closed tokens Hloop)
          as [-> ->].
        cbn [nonEmpty length Nat.ltb Nat.leb currentChunk
             TextProcessing.chunks currentTokens] in *.
        rewrite Hgroups in *. cbn [map] in *. rewrite app_nil_r.
        cbn [app] in Hnext. rewrite Hnext.
        destruct (chunksOfSegments fuel maxT ov (segmentsOf maxT more []));
          [| reflexivity].
        cbn [option_map app]. rewrite app_assoc. reflexivity.
      * change (nonEmpty (c :: current)) with true in *. cbv iota.
        cbn [currentChunk TextProcessing.chunks currentTokens].
        rewrite Hgroups in *.
        replace (((pre ++ map (join SPACE) closed)
                  ++ [join SPACE (c :: current)]) ++ wordChunks)
          with (pre ++ (map (join SPACE) closed ++ [join SPACE (c :: current)])
                ++ wordChunks)
          by (rewrite !app_assoc; reflexivity).
        rewrite Hnext.
        destruct (chunksOfSegments fuel maxT ov (segmentsOf maxT more []));
          [| reflexivity].
        cbn [option_map]. rewrite !app_assoc. reflexivity.
    + assert (Hstep : groupLoop (stretch ++ [s]) maxT ov [] [] 0
                      = groupLoop [s] maxT ov closed current tokens)
        by (rewrite groupLoop_app, Hloop; reflexivity).
      cbn [groupLoop] in Hstep.
      cbn [currentChunk TextProcessing.chunks currentTokens].
      destruct ((tokens + estimateTokens s >? maxT)%Z && nonEmpty current).
      * cbn [currentChunk TextProcessing.chunks currentTokens].
        rewrite <- (IH (stretch ++ [s]) pre _ _ _ Hstep).
        rewrite map_app, app_assoc. reflexivity.
      * cbn [currentChunk TextProcessing.chunks currentTokens].
        rewrite <- (IH (stretch ++ [s]) pre _ _ _ Hstep). reflexivity.
Qed.

Lemma segmentsOf_sentences maxT :
  forall sentences stretch,
    concat (map sentencesOf (segmentsOf maxT sentences stretch))
    = stretch ++ sentences.
Proof.
  induction sentences as [| s more IH]; intros stretch; cbn [segmentsOf].
  - simpl. rewrite !app_nil_r. reflexivity.
  - destruct (estimateTokens s >? maxT)%Z.
    + cbn [map concat sentencesOf]. rewrite IH. reflexivity.
    + rewrite IH, <- app_assoc. reflexivity.
Qed.

(** The sentences of a stretch fit in a chunk, those between the
    stretches do not. *)
Lemma segmentsOf_fit maxT (good : jsstring -> Prop) :
  forall sentences stretch,
    Forall good sentences ->
    Forall (fun s => (estimateTokens s <= maxT)%Z /\ good s) stretch ->
    Forall (fun seg =>
              match seg with
              | Stretch ss =>
                  Forall (fun s => (estimateTokens s <= maxT)%Z /\ good s) ss
              | Oversized s => (estimateTokens s > maxT)%Z /\ good s
              end)
      (segmentsOf maxT sentences stretch).
Proof.
  induction sentences as [| s more IH]; intros stretch Hgood Hstretch;
    cbn [segmentsOf].
  - constructor; [exact Hstretch | constructor].
  - inversion Hgood as [| ? ? Hs Hmore]; subst.
    destruct (Z.gtb_spec (estimateTokens s) maxT) as [Hbig | Hfit].
    + constructor; [exact Hstretch |].
      constructor; [split; [lia | exact Hs] |].
      apply IH; [exact Hmore | constructor].
    + apply IH; [exact Hmore |]. apply Forall_app. split; [exact Hstretch |].
      constructor; [split; [lia | exact Hs] | constructor].
Qed.

Lemma sentences_trimmed text :
  Forall (fun s => trim s = s /\ s <> []) (splitIntoSentences text).
Proof.
  unfold splitIntoSentences. apply Forall_forall. intros s Hs.
  apply filter_In in Hs. destruct Hs as [Hin Hne].
  apply in_map_iff in Hin. destruct Hin as [x [<- _]].
  split; [apply trim_idem |]. intros E. rewrite E in Hne. discriminate.
Qed.

(** *** The windows of the word loop *)

Lemma windowCount_spec (words : list jsstring) step k :
  (1 <= step)%Z ->
  k < windowCount words step
  <-> (Z.of_nat k * step < Z.of_nat (length words))%Z.
Proof.
  intros Hstep. unfold windowCount.
  set (n := Z.of_nat (length words)).
  assert (Hn : (0 <= n)%Z) by (unfold n; lia).
  pose proof (Z.mul_div_le (n + step - 1) step ltac:(lia)) as Hlo.
  pose proof (Z.mul_succ_div_gt (n + step - 1) step ltac:(lia)) as Hhi.
  assert (Hq : (0 <= (n + step - 1) / step)%Z)
    by (apply Z.div_pos; lia).
  set (q := ((n + step - 1) / step)%Z) in *.
  split; intros H.
  - assert (Z.of_nat k < q)%Z by lia. nia.
  - assert (Z.of_nat k < q)%Z by nia. lia.
Qed.

(** The loop of [chunkByWords] pushes the windows that are not blank. *)
Lemma chunkByWordsLoop_windows words maxWords step :
  (1 <= step)%Z ->
  forall fuel k acc r,
    chunkByWordsLoop fuel words maxWords step (Z.of_nat k * step) acc = Some r ->
    r = acc ++ filter nonBlank
                 (map (fun j => join SPACE (wordWindow words maxWords step j))
                    (seq k (windowCount words step - k))).
Proof.
  intros Hstep. induction fuel as [| fuel IH]; intros k acc r H;
    rewrite chunkByWordsLoop_eq in H;
    destruct (Z.ltb_spec (Z.of_nat k * step) (Z.of_nat (length words)))
      as [Hlt | Hge]; try discriminate.
  - inversion H; subst r.
    assert (Hk : ~ k < windowCount words step)
      by (rewrite windowCount_spec by exact Hstep; lia).
    replace (windowCount words step - k) with 0 by lia.
    simpl. rewrite app_nil_r. reflexivity.
  - cbv zeta in H.
    replace (Z.of_nat k * step + step)%Z with (Z.of_nat (S k) * step)%Z in H
      by lia.
    apply IH in H.
    assert (Hk : k < windowCount words step)
      by (rewrite windowCount_spec by exact Hstep; lia).
    replace (windowCount words step - k)
      with (S (windowCount words step - S k)) by lia.
    cbn [seq map filter]. unfold wordWindow at 1.
    change (nonBlank (join SPACE (slice words (Z.of_nat k * step)
                                    (Z.of_nat k * step + maxWords))))
      with (nonEmpty (trim (join SPACE (slice words (Z.of_nat k * step)
                                          (Z.of_nat k * step + maxWords))))).
    destruct (nonEmpty (trim (join SPACE (slice words (Z.of_nat k * step)
                                            (Z.of_nat k * step + maxWords)))));
      [rewrite H, <- app_assoc; reflexivity | exact H].
  - inversion H; subst r.
    assert (Hk : ~ k < windowCount words step)
      by (rewrite windowCount_spec by exact Hstep; lia).
    replace (windowCount words step - k) with 0 by lia.
    simpl. rewrite app_nil_r. reflexivity.
Qed.

Lemma chunkByWords_windows fuel text maxT ov chunks :
  chunkByWords fuel text maxT ov = Some chunks ->
  (1 <= wordsFor maxT - wordsFor ov)%Z
  /\ chunks = filter nonBlank (map (join SPACE) (wordWindows text maxT ov)).
Proof.
  intros H.
  destruct (Z.leb_spec (wordsFor maxT - wordsFor ov) 0) as [Hloop | Hstep].
  { rewrite chunkByWords_loops in H by lia. discriminate. }
  split; [lia |]. unfold chunkByWords in H.
  assert (Hpos : (1 <= wordsFor maxT - wordsFor ov)%Z) by lia.
  apply (chunkByWordsLoop_windows (split spacesRegex text) (wordsFor maxT)
           (wordsFor maxT - wordsFor ov) Hpos fuel 0 [] chunks) in H.
  rewrite Nat.sub_0_r in H. cbn [app] in H. unfold wordWindows. rewrite map_map. exact H.
Qed.

Lemma chunkByWords_notBlank fuel text maxT ov chunks :
  chunkByWords fuel text maxT ov = Some chunks ->
  Forall (fun chunk => nonBlank chunk = true) chunks.
Proof.
  intros H. apply chunkByWords_windows in H. destruct H as [_ ->].
  apply Forall_forall. intros c Hc. apply filter_In in Hc. apply Hc.
Qed.

Lemma slice_length {A} (l : list A) i j :
  (0 <= i)%Z -> (0 <= j)%Z ->
  length (slice l i j)
  = Z.to_nat (Z.min j (Z.of_nat (length l)) - Z.min i (Z.of_nat (length l))).
Proof.
  intros Hi Hj. unfold slice. cbv zeta. unfold relIndex.
  destruct (Z.ltb_spec i 0), (Z.ltb_spec j 0); try lia.
  rewrite length_firstn, length_skipn. lia.
Qed.

Lemma slice_split {A} (l : list A) a b c :
  (0 <= a <= b)%Z -> (b <= c)%Z ->
  slice l a c = slice l a b ++ slice l b c.
Proof.
  intros [Ha Hab] Hbc. unfold slice. cbv zeta. unfold relIndex.
  destruct (Z.ltb_spec a 0), (Z.ltb_spec b 0), (Z.ltb_spec c 0); try lia.
  set (n := Z.of_nat (length l)).
  replace (Z.to_nat (Z.min c n - Z.min a n))
    with (Z.to_nat (Z.min b n - Z.min a n) + Z.to_nat (Z.min c n - Z.min b n))
    by lia.
  rewrite firstn_plus, skipn_skipn.
  replace (Z.to_nat (Z.min b n - Z.min a n) + Z.to_nat (Z.min a n))
    with (Z.to_nat (Z.min b n)) by lia.
  reflexivity.
Qed.

(** With an overlap of one word at least, the window of an iteration
    starts with the last words of the window before it. *)
Lemma windows_share (words : list jsstring) maxWords overlapWords k :
  (1 <= overlapWords < maxWords)%Z ->
  S k < windowCount words (maxWords - overlapWords) ->
  sharing overlapWords
    (wordWindow words maxWords (maxWords - overlapWords) k)
    (wordWindow words maxWords (maxWords - overlapWords) (S k)).
Proof.
  intros [Hov Hmax] Hk.
  apply windowCount_spec in Hk; [| lia].
  set (step := (maxWords - overlapWords)%Z) in *.
  set (a := (Z.of_nat k * step)%Z).
  assert (Ha : (0 <= a)%Z) by (unfold a, step; nia).
  assert (Hnext : (Z.of_nat (S k) * step = a + step)%Z) by (unfold a; lia).
  unfold wordWindow, sharing. fold a. rewrite Hnext in *.
  exists (slice words a (a + step)),
         (slice words (a + step) (a + maxWords)),
         (slice words (a + maxWords) (a + step + maxWords)).
  assert (Hlen : length (slice words (a + step) (a + maxWords))
                 = Z.to_nat (Z.min (a + maxWords) (Z.of_nat (length words))
                             - Z.min (a + step) (Z.of_nat (length words))))
    by (apply slice_length; unfold step; lia).
  split; [| split; [| split]].
  - intros E. rewrite E in Hlen. simpl in Hlen. unfold step in *. lia.
  - rewrite Hlen. unfold step in *. lia.
  - apply slice_split; unfold step; lia.
  - apply slice_split; unfold step; lia.
Qed.

(** *** The words of a trimmed text *)

Lemma trimStart_head s c r : trimStart s = c :: r -> isWhiteSpace c = false.
Proof.
  induction s as [| x s IH]; simpl; [discriminate |].
  destruct (isWhiteSpace x) eqn:Hx; [exact IH |].
  intros H. inversion H; subst. exact Hx.
Qed.

Lemma trimEnd_tail c s : trimEnd (c :: s) = c :: s -> trimEnd s = s.
Proof.
  rewrite trimEnd_cons. destruct (existsb notSpace (c :: s)); [| discriminate].
  intros H. inversion H as [E]. rewrite E. exact E.
Qed.

Lemma trimEnd_suffix a : forall b, trimEnd (a ++ b) = a ++ b -> trimEnd b = b.
Proof.
  induction a as [| c a IH]; intros b H; [exact H |].
  apply IH. apply (trimEnd_tail c). exact H.
Qed.

Lemma trimEnd_notSpace c s :
  trimEnd (c :: s) = c :: s -> existsb notSpace (c :: s) = true.
Proof.
  rewrite trimEnd_cons. destruct (existsb notSpace (c :: s));
    [reflexivity | discriminate].
Qed.

(** The pieces of a text that neither starts nor ends with white space
    are not empty. *)
Lemma splitLoop_words_nonEmpty :
  forall fuel p cur s,
    length s < fuel ->
    trimEnd s = s ->
    cur <> [] \/ (exists c r, s = c :: r /\ isWhiteSpace c = false) ->
    Forall (fun word => word <> []) (splitLoop fuel spacesRegex p cur s).
Proof.
  induction fuel as [| fuel IH]; intros p cur s Hfuel Hend Hstart; [lia |].
  assert (Hrev : forall x : jsstring, x <> [] -> rev x <> []).
  { intros x Hx E. apply Hx. rewrite <- (rev_involutive x), E. reflexivity. }
  destruct s as [| c tl]; cbn [splitLoop].
  - constructor; [| constructor]. apply Hrev.
    destruct Hstart as [H | [c [r [H _]]]]; [exact H | discriminate].
  - pose proof (execAt_spaces p c tl) as Hexec.
    destruct (isWhiteSpace c) eqn:Hc.
    + destruct Hexec as [pv' ->]. cbn [rest prev].
      pose proof (trimStart_length tl) as Hlen.
      destruct (Nat.eqb_spec (length (trimStart tl)) (length (c :: tl)))
        as [E | _]; [simpl in E; lia |].
      cbn [andb].
      assert (Hcur : cur <> []).
      { destruct Hstart as [H | [c' [r [H Hc']]]]; [exact H |].
        inversion H; subst. congruence. }
      constructor; [apply Hrev; exact Hcur |].
      apply IH; [simpl in Hfuel; lia | |].
      * destruct (trimStart_suffix tl) as [z Hz].
        apply (trimEnd_suffix z). rewrite <- Hz.
        apply (trimEnd_tail c). exact Hend.
      * right. pose proof (trimEnd_notSpace c tl Hend) as Hex.
        simpl in Hex. unfold notSpace at 1 in Hex. rewrite Hc in Hex.
        simpl in Hex. rewrite <- trimStart_nonEmpty in Hex.
        destruct (trimStart tl) as [| c' r] eqn:Et; [discriminate |].
        exists c', r. split; [reflexivity |].
        apply (trimStart_head tl c' r Et).
    + rewrite Hexec. apply IH; [simpl in Hfuel; lia | |].
      * apply (trimEnd_tail c). exact Hend.
      * left. discriminate.
Qed.

Lemma trim_fixed text :
  trim text = text -> trimStart text = text /\ trimEnd text = text.
Proof.
  intros H. unfold trim in H.
  destruct (trimStart_suffix text) as [z Hz].
  destruct (trimEnd_prefix (trimStart text)) as [z' Hz'].
  rewrite H in Hz'.
  assert (Hlen : length text = length z + (length text + length z'))
    by (rewrite Hz at 1; rewrite length_app, Hz', length_app; reflexivity).
  assert (z' = []) by (destruct z'; [reflexivity | simpl in Hlen; lia]).
  subst z'. rewrite app_nil_r in Hz'.
  split; [exact Hz' |]. rewrite Hz' in H. exact H.
Qed.

Lemma words_nonEmpty text :
  trim text = text -> text <> [] ->
  Forall (fun word => word <> []) (split spacesRegex text).
Proof.
  intros Htrim Hne. destruct (trim_fixed text Htrim) as [Hstart Hend].
  unfold split. destruct text as [| c tl]; [congruence |].
  apply splitLoop_words_nonEmpty; [simpl; lia | exact Hend |].
  right. exists c, tl. split; [reflexivity |].
  apply (trimStart_head (c :: tl) c tl Hstart).
Qed.

(** No window of a text whose words are not empty is blank. *)
Lemma windows_notBlank text maxT ov :
  Forall (fun word => word <> []) (split spacesRegex text) ->
  (1 <= wordsFor maxT)%Z ->
  (1 <= wordsFor maxT - wordsFor ov)%Z ->
  Forall (fun chunk => nonBlank chunk = true)
    (map (join SPACE) (wordWindows text maxT ov)).
Proof.
  intros Hwords Hmax Hstep. unfold wordWindows. cbv zeta.
  set (words := split spacesRegex text) in *.
  set (step := (wordsFor maxT - wordsFor ov)%Z) in *.
  apply Forall_map, Forall_map. apply Forall_forall. intros k Hk.
  apply in_seq in Hk. destruct Hk as [_ Hk]. simpl in Hk.
  apply windowCount_spec in Hk; [| exact Hstep].
  assert (Ha : (0 <= Z.of_nat k * step)%Z) by nia.
  unfold wordWindow.
  pose proof (slice_length words (Z.of_nat k * step)
                (Z.of_nat k * step + wordsFor maxT) Ha ltac:(lia)) as Hlen.
  destruct (slice words (Z.of_nat k * step)
              (Z.of_nat k * step + wordsFor maxT)) as [| word window] eqn:Ew;
    [simpl in Hlen; lia |].
  assert (Hin : In word words).
  { apply (slice_incl words (Z.of_nat k * step)
             (Z.of_nat k * step + wordsFor maxT)).
    rewrite Ew. left. reflexivity. }
  rewrite nonBlank_notSpace.
  apply (join_notSpace SPACE _ word); [left; reflexivity |].
  rewrite Forall_forall in Hwords. specialize (Hwords word Hin).
  pose proof (words_noSpace text) as Hns. rewrite Forall_forall in Hns.
  specialize (Hns word Hin).
  destruct word as [| c word]; [congruence |].
  inversion Hns as [| ? ? Hc _]; subst. simpl. unfold notSpace at 1.
  rewrite Hc. reflexivity.
Qed.

Lemma chunksOfSegments_notBlank fuel maxT ov :
  forall segments chunks,
    Forall (fun seg => Forall (fun s => nonBlank s = true) (sentencesOf seg))
      segments ->
    chunksOfSegments fuel maxT ov segments = Some chunks ->
    Forall (fun chunk => nonBlank chunk = true) chunks.
Proof.
  induction segments as [| seg later IH]; intros chunks Hgood H.
  - inversion H. constructor.
  - inversion Hgood as [| ? ? Hseg Hlater]; subst. cbn [chunksOfSegments] in H.
    destruct (chunksOf fuel maxT ov seg) as [here |] eqn:Ehere;
      [| discriminate].
    destruct (chunksOfSegments fuel maxT ov later) as [more |];
      [| discriminate].
    inversion H; subst chunks. apply Forall_app. split; [| apply IH; auto].
    destruct seg as [ss | s]; cbn [chunksOf sentencesOf] in *.
    + inversion Ehere; subst here. apply Forall_map.
      destruct (sentenceGroups_spec ss maxT ov
                  (fun s => nonBlank s = true) Hseg) as [_ Hgroups].
      eapply Forall_impl; [| exact Hgroups].
      intros g [Hne Hall]. apply group_notBlank; assumption.
    + exact (chunkByWords_notBlank _ _ _ _ _ Ehere).
Qed.

Lemma nth_error_map_seq {A} (f : nat -> A) n k x :
  nth_error (map f (seq 0 n)) k = Some x -> k < n /\ x = f k.
Proof.
  intros H.
  assert (Hk : k < n).
  { assert (Hsome : nth_error (map f (seq 0 n)) k <> None) by congruence.
    apply nth_error_Some in Hsome.
    rewrite length_map, length_seq in Hsome. exact Hsome. }
  split; [exact Hk |].
  rewrite nth_error_map in H.
  rewrite (nth_error_nth' (seq 0 n) 0) in H by (rewrite length_seq; exact Hk).
  rewrite seq_nth in H by exact Hk. simpl in H. congruence.
Qed.

(** C3, amended: what consecutive chunks share.  On a text that is not
    blank and too long for one chunk:

    - with [preserveSentences], [chunkText] cuts the sentences of the
      text into stretches of sentences that each fit in a chunk,
      separated by the sentences that do not, and its chunks are, in
      order, the chunks of each stretch and of each oversized sentence,
      each computed from that stretch or that sentence alone: nothing
      is carried over from a chunk of sentences to the chunk of words
      that follows it, nor from a chunk of words to the chunk of
      sentences that follows it;
    - without [preserveSentences], its chunks are those of
      [chunkByWords] on the text;
    - within a stretch, every chunk but the first starts with the
      overlap selected from the chunk before it, followed by at least
      one further sentence; the overlap is the longest run of trailing
      sentences of the previous chunk whose estimates sum to at most
      [overlapTokens]: two consecutive chunks share the last sentence
      of the first when that sentence is estimated at no more than
      [overlapTokens] tokens, and the overlap is empty when it is
      estimated at more;
    - the chunks of [chunkByWords] are the windows of [maxWords] words
      taken every [maxWords - overlapWords] words, those that are blank
      left out, and none is blank when the text is trimmed, as the
      sentences are; when [overlapWords], the floor of three quarters
      of the overlap, is one at least, each window starts with the last
      words of the window before it, one at least and [overlapWords] at
      most. *)
Theorem consecutive_chunks_are_seeded :
  forall fuel text config maxT ov,
    maxT = orDefault (maxTokens config) 800%Z ->
    ov = orDefault (overlap config) 200%Z ->
    nonBlank text = true ->
    (estimateTokens text > maxT)%Z ->
    (orDefault (preserveSentences config) true = true ->
     chunkText fuel text config
     = chunksOfSegments fuel maxT ov
         (segmentsOf maxT (splitIntoSentences text) [])
     /\ concat (map sentencesOf (segmentsOf maxT (splitIntoSentences text) []))
        = splitIntoSentences text
     /\ Forall (fun seg =>
                  match seg with
                  | Stretch sentences =>
                      Forall (fun s => (estimateTokens s <= maxT)%Z) sentences
                  | Oversized s =>
                      (estimateTokens s > maxT)%Z /\ trim s = s /\ s <> []
                  end)
          (segmentsOf maxT (splitIntoSentences text) [])
     /\ (Forall (fun s => (estimateTokens s <= maxT)%Z)
           (splitIntoSentences text) ->
         chunkText fuel text config
         = Some (map (join SPACE)
                   (sentenceGroups (splitIntoSentences text) maxT ov))))
    /\ (orDefault (preserveSentences config) true = false ->
        chunkText fuel text config = chunkByWords fuel text maxT ov)
    /\ (forall stretch i g g',
          nth_error (sentenceGroups stretch maxT ov) i = Some g ->
          nth_error (sentenceGroups stretch maxT ov) (S i) = Some g' ->
          seeded ov g g'
          /\ (exists before,
                g = before ++ getOverlapSentences g ov
                /\ (getOverlapSentences g ov <> [] ->
                    (tokensOf (getOverlapSentences g ov) <= ov)%Z)
                /\ (forall before' s, before = before' ++ [s] ->
                      (tokensOf (s :: getOverlapSentences g ov) > ov)%Z))
          /\ (forall before s,
                g = before ++ [s] ->
                ((estimateTokens s <= ov)%Z ->
                 In s (getOverlapSentences g ov) /\ In s g')
                /\ ((estimateTokens s > ov)%Z ->
                    getOverlapSentences g ov = [])))
    /\ (forall piece chunks,
          chunkByWords fuel piece maxT ov = Some chunks ->
          (wordsFor ov < wordsFor maxT)%Z
          /\ chunks
             = filter nonBlank (map (join SPACE) (wordWindows piece maxT ov))
          /\ (trim piece = piece -> piece <> [] -> (1 <= wordsFor maxT)%Z ->
              chunks = map (join SPACE) (wordWindows piece maxT ov))
          /\ ((1 <= wordsFor ov)%Z ->
              forall k window window',
                nth_error (wordWindows piece maxT ov) k = Some window ->
                nth_error (wordWindows piece maxT ov) (S k) = Some window' ->
                sharing (wordsFor ov) window window')).
Proof.
  intros fuel text config maxT ov HmaxT Hov Hblank Hlong.
  split; [| split; [| split]].
  - intros Hkeep.
    set (sentences := splitIntoSentences text).
    assert (Hsegments :
      chunkText fuel text config
      = chunksOfSegments fuel maxT ov (segmentsOf maxT sentences [])).
    { unfold chunkText. rewrite <- HmaxT, <- Hov, Hkeep, Hblank. simpl negb.
      cbv iota. destruct (Z.leb_spec (estimateTokens text) maxT); [lia |].
      fold sentences.
      pose proof (sentenceLoop_segments fuel maxT ov sentences [] [] [] [] 0%Z
                    eq_refl) as Hloop.
      cbn [map app] in Hloop.
      assert (Hproduced :
        match sentenceLoop fuel sentences maxT ov (LoopState [] [] 0) with
        | Some st =>
            Some (if nonEmpty (currentChunk st)
                  then TextProcessing.chunks st ++ [join SPACE (currentChunk st)]
                  else TextProcessing.chunks st)
        | None => None
        end
        = chunksOfSegments fuel maxT ov (segmentsOf maxT sentences [])).
      { transitivity
          (option_map finished
             (sentenceLoop fuel sentences maxT ov (LoopState [] [] 0)));
          [destruct (sentenceLoop fuel sentences maxT ov (LoopState [] [] 0));
           reflexivity |].
        rewrite Hloop.
        destruct (chunksOfSegments fuel maxT ov (segmentsOf maxT sentences []));
          reflexivity. }
      rewrite Hproduced.
      destruct (chunksOfSegments fuel maxT ov (segmentsOf maxT sentences []))
        as [chunks |] eqn:Echunks; [| reflexivity].
      f_equal. apply filter_all.
      apply (chunksOfSegments_notBlank fuel maxT ov _ _) in Echunks;
        [exact Echunks |].
      pose proof (segmentsOf_fit maxT (fun s => nonBlank s = true) sentences []
                    (sentences_notBlank text) (Forall_nil _)) as Hfit.
      eapply Forall_impl; [| exact Hfit].
      intros [ss | s]; cbn [sentencesOf].
      - intros Hall. eapply Forall_impl; [| exact Hall].
        intros x [_ Hx]. exact Hx.
      - intros [_ Hs]. constructor; [exact Hs | constructor]. }
    split; [exact Hsegments |].
    split; [apply (segmentsOf_sentences maxT sentences []) |].
    split.
    + pose proof (segmentsOf_fit maxT (fun s => trim s = s /\ s <> [])
                    sentences [] (sentences_trimmed text) (Forall_nil _))
        as Hfit.
      eapply Forall_impl; [| exact Hfit].
      intros [ss | s].
      * intros Hall. eapply Forall_impl; [| exact Hall].
        intros x [Hx _]. exact Hx.
      * intros [Hbig [Ht Hne]]. auto.
    + intros Hfit.
      apply (proj1 (fitting_sentences_are_seeded fuel text config maxT ov
                      HmaxT Hov Hkeep Hblank Hlong Hfit)).
  - intros Hwords. unfold chunkText.
    rewrite <- HmaxT, <- Hov, Hwords, Hblank. simpl negb. cbv iota.
    destruct (Z.leb_spec (estimateTokens text) maxT); [lia |].
    destruct (chunkByWords fuel text maxT ov) as [chunks |] eqn:E;
      [| reflexivity].
    f_equal. apply filter_all. exact (chunkByWords_notBlank _ _ _ _ _ E).
  - intros stretch i g g' Hg Hg'.
    destruct (sentenceGroups_spec stretch maxT ov (fun _ => True))
      as [Hchain _].
    { apply Forall_forall. intros; exact I. }
    pose proof (chained_lookup ov _ _ _ _ Hchain Hg Hg') as Hseed.
    split; [exact Hseed |]. split; [apply overlap_spec |].
    intros before s Hlast.
    destruct (overlap_last g ov before s Hlast) as [Hshare Hnone].
    split; [| exact Hnone].
    intros Hs. destruct (Hshare Hs) as [o Ho].
    destruct Hseed as [fresh [_ ->]]. rewrite Ho.
    split; apply in_or_app; [right; left; reflexivity |].
    left. apply in_or_app. right. left. reflexivity.
  - intros piece chunks H.
    destruct (chunkByWords_windows fuel piece maxT ov chunks H)
      as [Hstep Hchunks].
    split; [lia |]. split; [exact Hchunks |]. split.
    + intros Htrim Hne Hmax. rewrite Hchunks. apply filter_all.
      apply windows_notBlank; [apply words_nonEmpty; assumption | | ]; lia.
    + intros Hone k window window' Hk Hk'. unfold wordWindows in Hk, Hk'.
      cbv zeta in Hk, Hk'.
      apply nth_error_map_seq in Hk. destruct Hk as [_ ->].
      apply nth_error_map_seq in Hk'. destruct Hk' as [Hlt ->].
      apply windows_share; [lia | exact Hlt].
Qed.

End ChunkSegments.

(** C3, as the specification words it, fails in two ways.

    Under the default configuration, the four sentences of
    [fourSentences] (918 estimated tokens, more than the overlap of 200)
    give two chunks, the first of the sentences A, B and C and the
    second of the sentence D alone.  The last sentence of the first
    chunk is estimated at 230 tokens, so no overlap is kept: the chunks
    have no sentence in common, and the first code unit of the second
    chunk does not occur in the first.

    Under [overlapConfig] (chunks of 4 tokens, overlap of 2), the three
    sentences of [mixedText] give four chunks: the sentence "Aa.", two
    chunks of words of the sentence of five tokens, and the sentence
    "Cc.".  The two chunks of words share the word "dd"; but the
    sentence "Aa.", estimated at one token, is not carried into the
    first chunk of words, and no word of the last chunk of words is
    carried into "Cc.": where a sentence is cut by words, [chunkText]
    empties [currentChunk] and pushes the chunks of [chunkByWords] as
    they are. *)
Lemma consecutive_chunks_without_overlap :
  chunkText (enoughFuel fourSentences) fourSentences emptyConfig
  = Some [join SPACE [sentenceA; sentenceB; sentenceC]; sentenceD]
  /\ (estimateTokens fourSentences > 200)%Z
  /\ estimateTokens sentenceC = 230%Z
  /\ splitIntoSentences (join SPACE [sentenceA; sentenceB; sentenceC])
     = [sentenceA; sentenceB; sentenceC]
  /\ splitIntoSentences sentenceD = [sentenceD]
  /\ ~ In sentenceD [sentenceA; sentenceB; sentenceC]
  /\ hd_error sentenceD = Some (ch "D")
  /\ existsb (N.eqb (ch "D")) (join SPACE [sentenceA; sentenceB; sentenceC])
     = false
  /\ chunkText (enoughFuel mixedText) mixedText overlapConfig
     = Some [lit "Aa."; lit "Bbbb cccc dd"; lit "dd ee."; lit "Cc."]
  /\ (estimateTokens mixedText > 2)%Z
  /\ estimateTokens (lit "Aa.") = 1%Z
  /\ shareElement (splitIntoSentences (lit "Aa."))
       (splitIntoSentences (lit "Bbbb cccc dd")) = false
  /\ shareElement (split spacesRegex (lit "Aa."))
       (split spacesRegex (lit "Bbbb cccc dd")) = false
  /\ shareElement (split spacesRegex (lit "Bbbb cccc dd"))
       (split spacesRegex (lit "dd ee.")) = true
  /\ shareElement (splitIntoSentences (lit "dd ee."))
       (splitIntoSentences (lit "Cc.")) = false
  /\ shareElement (split spacesRegex (lit "dd ee."))
       (split spacesRegex (lit "Cc.")) = false.
Proof.
  split; [apply returnsChunks_eq; vm_compute; reflexivity |].
  split; [vm_compute; reflexivity |].
  split; [vm_compute; reflexivity |].
  split; [apply listEqb_eq; vm_compute; reflexivity |].
  split; [apply listEqb_eq; vm_compute; reflexivity |].
  split; [intros [H | [H | [H | []]]]; discriminate H |].
  split; [vm_compute; reflexivity |].
  split; [vm_compute; reflexivity |].
  split; [apply returnsChunks_eq; vm_compute; reflexivity |].
  repeat split; vm_compute; reflexivity.
Qed.

(** The theorem on [mixedText], whose second sentence is cut by words,
    and on three short sentences, where the second chunk starts with
    the last sentence of the first. *)
Lemma consecutive_chunks_are_seeded_witness :
  chunkText 100 mixedText overlapConfig
  = chunksOfSegments 100 4 2 (segmentsOf 4 (splitIntoSentences mixedText) [])
  /\ segmentsOf 4 (splitIntoSentences mixedText) []
     = [Stretch [lit "Aa."]; Oversized (lit "Bbbb cccc dd ee.");
        Stretch [lit "Cc."]]
  /\ chunksOfSegments 100 4 2 (segmentsOf 4 (splitIntoSentences mixedText) [])
     = Some [lit "Aa."; lit "Bbbb cccc dd"; lit "dd ee."; lit "Cc."]
  /\ wordWindows (lit "Bbbb cccc dd ee.") 4 2
     = [[lit "Bbbb"; lit "cccc"; lit "dd"]; [lit "dd"; lit "ee."]]
  /\ sharing 1 [lit "Bbbb"; lit "cccc"; lit "dd"] [lit "dd"; lit "ee."]
  /\ chunkText 100 abcText overlapConfig
     = Some (map (join SPACE)
               (sentenceGroups (splitIntoSentences abcText) 4 2))
  /\ sentenceGroups (splitIntoSentences abcText) 4 2
     = [[lit "Aaaaaa."; lit "Bbbbbb."]; [lit "Bbbbbb."; lit "Cccccc."]].
Proof.
  split; [| split; [| split; [| split; [| split; [| split]]]]].
  - apply (proj1 (proj1 (consecutive_chunks_are_seeded 100 mixedText
                           overlapConfig 4 2 eq_refl eq_refl eq_refl eq_refl)
                    eq_refl)).
  - vm_compute. reflexivity.
  - vm_compute. reflexivity.
  - vm_compute. reflexivity.
  - apply (proj2 (proj2 (proj2
             (proj2 (proj2 (proj2
                (consecutive_chunks_are_seeded 100 mixedText overlapConfig
                   4 2 eq_refl eq_refl eq_refl eq_refl)))
                (lit "Bbbb cccc dd ee.")
                [lit "Bbbb cccc dd"; lit "dd ee."]
                ltac:(vm_compute; reflexivity))))
             ltac:(vm_compute; discriminate) 0).
    + vm_compute. reflexivity.
    + vm_compute. reflexivity.
  - apply (proj2 (proj2 (proj2
             (proj1 (consecutive_chunks_are_seeded 100 abcText overlapConfig
                       4 2 eq_refl eq_refl eq_refl eq_refl)
                eq_refl)))).
    vm_compute. repeat constructor; discriminate.
  - vm_compute. reflexivity.
Defined.
